(** * The x64 shader JIT of [video_core/shader/shader_jit_x64.cpp]

  The JIT translates PICA200 vertex-shader bytecode into x64 code through
  the Xbyak assembler.  The development has three layers:

  - [Bits], [F32], [V4]: 32-bit lanes, their reading as IEEE-754 binary32
    values (on top of the Standard Library's [SpecFloat]) and 4-lane
    vectors;
  - [X64]: the instructions the JIT emits, and a machine that runs them;
  - [Nihstro] and the section [JitShader]: the instruction decoding and the
    compiler itself, one definition per C++ member function.

  The theorems come last. *)

From Stdlib Require Import ZArith List Bool Lia String Sorted.
From Stdlib Require Import Floats.SpecFloat.
Import ListNotations.
Local Open Scope Z_scope.

(* ===================================================================== *)
(** * Bit fields *)
(* ===================================================================== *)

Module Bits.

(** [BitField<pos, len>] of a 32-bit union member: [len] bits from bit
    [pos] upwards. *)
Definition field (pos len w : Z) : Z :=
  Z.land (Z.shiftr w pos) (Z.ones len).

(** [BitFlag<pos>]. *)
Definition flag (pos w : Z) : bool := Z.testbit w pos.

(** Truncation of a result to an operand of 8, 32 or 64 bits. *)
Definition wrap8 (v : Z) : Z := v mod 2 ^ 8.
Definition wrap32 (v : Z) : Z := v mod 2 ^ 32.
Definition wrap64 (v : Z) : Z := v mod 2 ^ 64.

(** Two's complement reading of a 32-bit value. *)
Definition signed32 (v : Z) : Z :=
  let u := wrap32 v in if u <? 2 ^ 31 then u else u - 2 ^ 32.

End Bits.

(* ===================================================================== *)
(** * Binary32 lanes *)
(* ===================================================================== *)

(** A lane of an XMM register is a 32-bit pattern.  The SSE arithmetic reads
  it as an IEEE-754 binary32 number; [SpecFloat] at precision 24 and
  maximal exponent 128 gives the arithmetic, with MXCSR at its reset value
  (round to nearest even, no flush to zero). *)
Module F32.

Definition prec : Z := 24.
Definition emax : Z := 128.

Definition sign_of (b : Z) : bool := Z.testbit b 31.
Definition exponent_of (b : Z) : Z := Bits.field 23 8 b.
Definition fraction_of (b : Z) : Z := Bits.field 0 23 b.

Definition is_nan (b : Z) : bool :=
  (exponent_of b =? 255) && negb (fraction_of b =? 0).

(** Decoding of a bit pattern. *)
Definition to_SF (b : Z) : spec_float :=
  let s := sign_of b in
  let e := exponent_of b in
  let f := fraction_of b in
  if e =? 255 then
    if f =? 0 then S754_infinity s else S754_nan
  else if e =? 0 then
    match f with
    | Zpos p => S754_finite s p (-149)
    | _ => S754_zero s
    end
  else
    match f + 2 ^ 23 with
    | Zpos p => S754_finite s p (e - 150)
    | _ => S754_zero s
    end.

Definition sign_bits (s : bool) : Z := if s then 2 ^ 31 else 0.

(** The default NaN of SSE (the "real indefinite"). *)
Definition default_nan : Z := 0xFFC00000.

Definition infinity_bits (s : bool) : Z := sign_bits s + 0x7F800000.

(** Encoding of a result.  A mantissa or exponent outside the binary32
    format, which the rounding of [SpecFloat] does not produce, is
    encoded as an infinity. *)
Definition of_SF (x : spec_float) : Z :=
  match x with
  | S754_zero s => sign_bits s
  | S754_infinity s => infinity_bits s
  | S754_nan => default_nan
  | S754_finite s m e =>
      if Zpos m <? 2 ^ 23 then sign_bits s + Zpos m
      else if (Zpos m <? 2 ^ 24) && (1 <=? e + 150) && (e + 150 <=? 254)
           then sign_bits s + (e + 150) * 2 ^ 23 + (Zpos m - 2 ^ 23)
           else infinity_bits s
  end.

(** A NaN operand is returned quieted. *)
Definition quiet (b : Z) : Z := Z.lor b 0x00400000.

(** Result of a binary SSE arithmetic instruction on one lane: the first
    NaN operand wins, otherwise the rounded IEEE result. *)
Definition arith (op : spec_float -> spec_float -> spec_float) (a b : Z) : Z :=
  if is_nan a then quiet a
  else if is_nan b then quiet b
  else of_SF (op (to_SF a) (to_SF b)).

Definition mul : Z -> Z -> Z := arith (SFmul prec emax).
Definition add : Z -> Z -> Z := arith (SFadd prec emax).

Definition ltb (a b : Z) : bool := SFltb (to_SF a) (to_SF b).
Definition leb (a b : Z) : bool := SFleb (to_SF a) (to_SF b).
Definition eqb (a b : Z) : bool := SFeqb (to_SF a) (to_SF b).
Definition unordered (a b : Z) : bool := is_nan a || is_nan b.

(** MAXPS/MINPS on one lane: the second operand is returned unless the
    first is strictly greater (smaller); so it is returned when an operand
    is a NaN and when both are zeros. *)
Definition max (a b : Z) : Z := if ltb b a then a else b.
Definition min (a b : Z) : Z := if ltb a b then a else b.

(** The predicates of CMPPS/CMPSS that the JIT uses ([CMP_EQ], [CMP_LT],
    [CMP_LE], [CMP_UNORD], [CMP_NEQ] and [CMP_ORD]). *)
Definition cmp_pred (imm : Z) (a b : Z) : option bool :=
  match imm with
  | 0 => Some (eqb a b)
  | 1 => Some (ltb a b)
  | 2 => Some (leb a b)
  | 3 => Some (unordered a b)
  | 4 => Some (negb (eqb a b))
  | 7 => Some (negb (unordered a b))
  | _ => None
  end.

Definition mask_of (c : bool) : Z := if c then 0xFFFFFFFF else 0.

(** CVTTPS2DQ on one lane: truncation toward zero; a NaN or a value
    outside the signed 32-bit range gives the "integer indefinite". *)
Definition integer_indefinite : Z := 0x80000000.

Definition truncate (b : Z) : Z :=
  match to_SF b with
  | S754_zero _ => 0
  | S754_finite s m e =>
      let mag := if 0 <=? e then Z.shiftl (Zpos m) e else Z.shiftr (Zpos m) (- e) in
      let v := if s then - mag else mag in
      if (- 2 ^ 31 <=? v) && (v <? 2 ^ 31) then Bits.wrap32 v
      else integer_indefinite
  | _ => integer_indefinite
  end.

(** CVTDQ2PS on one lane: the signed integer rounded to binary32. *)
Definition of_int (b : Z) : Z :=
  of_SF (binary_normalize prec emax (Bits.signed32 b) 0 false).

End F32.

(* ===================================================================== *)
(** * Four-lane vectors *)
(* ===================================================================== *)

Module V4.

Record t : Set := mk { x : Z; y : Z; z : Z; w : Z }.

Definition lane (v : t) (i : Z) : Z :=
  match i with
  | 0 => x v
  | 1 => y v
  | 2 => z v
  | _ => w v
  end.

Definition map2 (f : Z -> Z -> Z) (a b : t) : t :=
  mk (f (x a) (x b)) (f (y a) (y b)) (f (z a) (z b)) (f (w a) (w b)).

Definition map (f : Z -> Z) (a : t) : t :=
  mk (f (x a)) (f (y a)) (f (z a)) (f (w a)).

Definition zero : t := mk 0 0 0 0.

(** The low and the high quadword of a register. *)
Definition low64 (v : t) : Z := x v + y v * 2 ^ 32.

End V4.

(* ===================================================================== *)
(** * The emitted x64 code and the machine that runs it *)
(* ===================================================================== *)

Module X64.

(** ** Registers and operands *)

(** General-purpose registers by their hardware number. *)
Definition Gpr := nat.

Definition RAX : Gpr := 0%nat.
Definition RCX : Gpr := 1%nat.
Definition RDX : Gpr := 2%nat.
Definition RBX : Gpr := 3%nat.
Definition RSP : Gpr := 4%nat.
Definition RBP : Gpr := 5%nat.
Definition RSI : Gpr := 6%nat.
Definition RDI : Gpr := 7%nat.
Definition R8 : Gpr := 8%nat.
Definition R9 : Gpr := 9%nat.
Definition R10 : Gpr := 10%nat.
Definition R11 : Gpr := 11%nat.
Definition R12 : Gpr := 12%nat.
Definition R13 : Gpr := 13%nat.
Definition R14 : Gpr := 14%nat.
Definition R15 : Gpr := 15%nat.

(** A register operand is a general-purpose register seen at a width
    (Xbyak's [Reg64], [Reg32] and [Reg8]). *)
Inductive Reg : Set :=
| Reg64 (r : Gpr)
| Reg32 (r : Gpr)
| Reg8 (r : Gpr).

Definition gpr_of (r : Reg) : Gpr :=
  match r with Reg64 g | Reg32 g | Reg8 g => g end.

Definition cvt8 (r : Reg) : Reg := Reg8 (gpr_of r).
Definition cvt32 (r : Reg) : Reg := Reg32 (gpr_of r).
Definition cvt64 (r : Reg) : Reg := Reg64 (gpr_of r).

Definition rax := Reg64 RAX.
Definition rsp := Reg64 RSP.
Definition eax := Reg32 RAX.
Definition ebx := Reg32 RBX.
Definition esi := Reg32 RSI.
Definition edi := Reg32 RDI.
Definition r9 := Reg64 R9.
Definition r10 := Reg64 R10.
Definition r11 := Reg64 R11.
Definition r12d := Reg32 R12.
Definition r13 := Reg64 R13.
Definition r14 := Reg64 R14.
Definition r15 := Reg64 R15.

(** SSE registers by their number. *)
Definition Xmm := nat.

Definition xmm0 : Xmm := 0%nat.
Definition xmm1 : Xmm := 1%nat.
Definition xmm2 : Xmm := 2%nat.
Definition xmm3 : Xmm := 3%nat.
Definition xmm4 : Xmm := 4%nat.
Definition xmm14 : Xmm := 14%nat.
Definition xmm15 : Xmm := 15%nat.

(** An effective address [base + index + disp] (Xbyak's [RegExp]). *)
Record Address : Set := { base : Gpr; index : option Gpr; disp : Z }.

Definition at_ (b : Reg) (d : Z) : Address :=
  {| base := gpr_of b; index := None; disp := d |}.
Definition at_idx (b i : Reg) (d : Z) : Address :=
  {| base := gpr_of b; index := Some (gpr_of i); disp := d |}.

(** Objects of the host program whose address is emitted as an immediate. *)
Inductive HostObject : Set :=
| message (s : string)
| static_one
| static_neg.

Inductive Operand : Set :=
| reg (r : Reg)
| imm (v : Z)
| byte (a : Address)
| dword (a : Address)
| qword (a : Address)
| address_of (o : HostObject).

(** Operand of MOVAPS: a register or a 16-byte memory cell. *)
Inductive XOperand : Set :=
| xreg (r : Xmm)
| xword (a : Address).

(** Jump targets.  [instruction_labels n] names the entry [n] of the label
    table of the shader instructions (the table has as many entries as the
    program, see [instruction_labels_at]); a [Label] local to a member
    function gets the next free id of the code generator. *)
Inductive Label : Set :=
| instruction_labels (n : Z)
| local_label (id : nat).

Definition Label_eqb (a b : Label) : bool :=
  match a, b with
  | instruction_labels n, instruction_labels k => n =? k
  | local_label n, local_label k => Nat.eqb n k
  | _, _ => false
  end.

(** Host functions called from the generated code. *)
Inductive FarFunction : Set := LogCritical | exp2f | log2f.

(** The register sets given to the ABI push/pop helpers. *)
Inductive RegSet : Set := ABI_ALL_CALLEE_SAVED | PersistentCallerSavedRegs.

(** ** Instructions, named as the Xbyak mnemonics the JIT calls *)

Inductive Insn : Set :=
| mov (dst src : Operand)
| movzx (dst src : Reg)
| movsxd (dst src : Reg)
| add (dst src : Operand)
| sub (dst src : Operand)
| and_ (dst src : Operand)
| or_ (dst src : Operand)
| xor_ (dst src : Operand)
| cmp (a b : Operand)
| shr (dst : Reg) (n : Z)
| shl (dst : Reg) (n : Z)
| push (v : Z)
| call (l : Label)
| ret
| jz (l : Label)
| jnz (l : Label)
| jmp (l : Label)
| jmp_reg (r : Reg)
| L (l : Label)
| CallFarFunction (f : FarFunction)
| ABI_PushRegistersAndAdjustStack (s : RegSet) (frame : Z)
| ABI_PopRegistersAndAdjustStack (s : RegSet) (frame : Z)
| movaps (dst src : XOperand)
| movss (dst src : Xmm)
| movq (dst : Reg) (src : Xmm)
| shufps (dst src : Xmm) (sel : Z)
| xorps (dst src : Xmm)
| andps (dst src : Xmm)
| blendps (dst src : Xmm) (mask : Z)
| unpckhps (dst src : Xmm)
| unpcklps (dst src : Xmm)
| unpcklpd (dst src : Xmm)
| cmpps (dst src : Xmm) (pred : Z)
| cmpss (dst src : Xmm) (pred : Z)
| mulps (dst src : Xmm)
| addps (dst src : Xmm)
| maxps (dst src : Xmm)
| minps (dst src : Xmm)
| roundps (dst src : Xmm) (mode : Z)
| cvttps2dq (dst src : Xmm)
| cvtdq2ps (dst src : Xmm)
| rcpss (dst src : Xmm)
| rsqrtss (dst src : Xmm).

(** The comparison predicates and Xbyak's pseudo-mnemonics for them. *)
Definition CMP_EQ : Z := 0.
Definition CMP_LT : Z := 1.
Definition CMP_LE : Z := 2.
Definition CMP_UNORD : Z := 3.
Definition CMP_NEQ : Z := 4.
Definition CMP_ORD : Z := 7.

Definition cmpltps (a b : Xmm) : Insn := cmpps a b CMP_LT.
Definition cmpleps (a b : Xmm) : Insn := cmpps a b CMP_LE.
Definition cmpunordps (a b : Xmm) : Insn := cmpps a b CMP_UNORD.
Definition cmpordps (a b : Xmm) : Insn := cmpps a b CMP_ORD.

Definition _MM_SHUFFLE (fp3 fp2 fp1 fp0 : Z) : Z :=
  Z.lor (Z.lor (Z.lor (Z.shiftl fp3 6) (Z.shiftl fp2 4)) (Z.shiftl fp1 2)) fp0.

Definition _MM_FROUND_FLOOR : Z := 1.

(** ** Machine state *)

(** The generated code reads and writes four kinds of memory, each at one
    width only: the 16-byte float registers and float uniforms, the 4-byte
    integer uniforms, the 1-byte boolean uniforms and the 8-byte slots of
    the native stack.  They are distinct objects of the host program, so
    the machine keeps one store per width, each indexed by byte address.
    [rip] counts instructions of the code buffer. *)
Record Machine : Type := {
  gprs : Gpr -> Z;
  xmms : Xmm -> V4.t;
  ZF : bool;
  rip : nat;
  xmem : Z -> V4.t;
  dmem : Z -> Z;
  bmem : Z -> Z;
  qmem : Z -> Z
}.

Definition upd {A : Type} (f : nat -> A) (k : nat) (v : A) : nat -> A :=
  fun j => if Nat.eqb j k then v else f j.

Definition updZ {A : Type} (f : Z -> A) (k : Z) (v : A) : Z -> A :=
  fun j => if j =? k then v else f j.

Arguments upd : simpl never.
Arguments updZ : simpl never.

Definition set_gpr (g : Gpr) (v : Z) (m : Machine) : Machine :=
  {| gprs := upd (gprs m) g v; xmms := xmms m; ZF := ZF m; rip := rip m;
     xmem := xmem m; dmem := dmem m; bmem := bmem m; qmem := qmem m |}.

Definition set_xmm (r : Xmm) (v : V4.t) (m : Machine) : Machine :=
  {| gprs := gprs m; xmms := upd (xmms m) r v; ZF := ZF m; rip := rip m;
     xmem := xmem m; dmem := dmem m; bmem := bmem m; qmem := qmem m |}.

Definition set_ZF (b : bool) (m : Machine) : Machine :=
  {| gprs := gprs m; xmms := xmms m; ZF := b; rip := rip m;
     xmem := xmem m; dmem := dmem m; bmem := bmem m; qmem := qmem m |}.

Definition set_rip (p : nat) (m : Machine) : Machine :=
  {| gprs := gprs m; xmms := xmms m; ZF := ZF m; rip := p;
     xmem := xmem m; dmem := dmem m; bmem := bmem m; qmem := qmem m |}.

Definition set_xmem (a : Z) (v : V4.t) (m : Machine) : Machine :=
  {| gprs := gprs m; xmms := xmms m; ZF := ZF m; rip := rip m;
     xmem := updZ (xmem m) a v; dmem := dmem m; bmem := bmem m; qmem := qmem m |}.

Definition set_qmem (a : Z) (v : Z) (m : Machine) : Machine :=
  {| gprs := gprs m; xmms := xmms m; ZF := ZF m; rip := rip m;
     xmem := xmem m; dmem := dmem m; bmem := bmem m; qmem := updZ (qmem m) a v |}.

(** ** Operand access *)

Definition width_wrap (r : Reg) (v : Z) : Z :=
  match r with
  | Reg64 _ => Bits.wrap64 v
  | Reg32 _ => Bits.wrap32 v
  | Reg8 _ => Bits.wrap8 v
  end.

Definition width_bits (r : Reg) : Z :=
  match r with Reg64 _ => 64 | Reg32 _ => 32 | Reg8 _ => 8 end.

Definition read_reg (m : Machine) (r : Reg) : Z :=
  width_wrap r (gprs m (gpr_of r)).

(** A 32-bit write clears the upper half of the register; an 8-bit write
    keeps the other 56 bits. *)
Definition write_reg (r : Reg) (v : Z) (m : Machine) : Machine :=
  match r with
  | Reg64 g => set_gpr g (Bits.wrap64 v) m
  | Reg32 g => set_gpr g (Bits.wrap32 v) m
  | Reg8 g => set_gpr g (gprs m g - Bits.wrap8 (gprs m g) + Bits.wrap8 v) m
  end.

Definition ea (m : Machine) (a : Address) : Z :=
  Bits.wrap64 (gprs m (base a)
               + match index a with Some i => gprs m i | None => 0 end
               + disp a).

Definition read_operand (m : Machine) (o : Operand) : option Z :=
  match o with
  | reg r => Some (read_reg m r)
  | imm v => Some v
  | byte a => Some (bmem m (ea m a))
  | dword a => Some (dmem m (ea m a))
  | qword a => Some (qmem m (ea m a))
  | address_of _ => None
  end.

Definition read_xoperand (m : Machine) (o : XOperand) : V4.t :=
  match o with
  | xreg r => xmms m r
  | xword a => xmem m (ea m a)
  end.

Definition write_xoperand (o : XOperand) (v : V4.t) (m : Machine) : Machine :=
  match o with
  | xreg r => set_xmm r v m
  | xword a => set_xmem (ea m a) v m
  end.

(** ** Execution of one instruction *)

(** Result of an ALU instruction: written at the width of the destination,
    with the zero flag set from it. *)
Definition alu (f : Z -> Z -> Z) (dst src : Operand) (m : Machine) : option Machine :=
match dst, read_operand m src with
| reg r, Some b =>
    let v := width_wrap r (f (read_reg m r) b) in
    Some (set_ZF (v =? 0) (write_reg r v m))
| _, _ => None
end.

Definition shuffle (a b : V4.t) (sel : Z) : V4.t :=
V4.mk (V4.lane a (Bits.field 0 2 sel)) (V4.lane a (Bits.field 2 2 sel))
      (V4.lane b (Bits.field 4 2 sel)) (V4.lane b (Bits.field 6 2 sel)).

Definition blend (a b : V4.t) (mask : Z) : V4.t :=
V4.mk (if Z.testbit mask 0 then V4.x b else V4.x a)
      (if Z.testbit mask 1 then V4.y b else V4.y a)
      (if Z.testbit mask 2 then V4.z b else V4.z a)
      (if Z.testbit mask 3 then V4.w b else V4.w a).

Definition compare_lanes (pred : Z) (a b : V4.t) : option V4.t :=
match F32.cmp_pred pred (V4.x a) (V4.x b), F32.cmp_pred pred (V4.y a) (V4.y b),
      F32.cmp_pred pred (V4.z a) (V4.z b), F32.cmp_pred pred (V4.w a) (V4.w b) with
| Some cx, Some cy, Some cz, Some cw =>
    Some (V4.mk (F32.mask_of cx) (F32.mask_of cy) (F32.mask_of cz) (F32.mask_of cw))
| _, _, _, _ => None
end.

(** The instructions that run in sequence.  [None] is returned for a
    transfer of control (see [step]) and for what lies outside the machine:
    the host functions, the ABI helpers, the approximations RCPSS and
    RSQRTSS, ROUNDPS, and operand forms the JIT never emits. *)
Definition exec (i : Insn) (m : Machine) : option Machine :=
match i with
| mov (reg r) src =>
    match read_operand m src with
    | Some v => Some (write_reg r v m)
    | None => None
    end
| movzx dst src => Some (write_reg dst (read_reg m src) m)
| movsxd dst src => Some (write_reg dst (Bits.signed32 (read_reg m src)) m)
| add dst src => alu Z.add dst src m
| sub dst src => alu Z.sub dst src m
| and_ dst src => alu Z.land dst src m
| or_ dst src => alu Z.lor dst src m
| xor_ dst src => alu Z.lxor dst src m
| cmp a b =>
    match read_operand m a, read_operand m b with
    | Some va, Some vb =>
        let n := match a with reg r => width_bits r | byte _ => 8 | dword _ => 32 | _ => 64 end in
        Some (set_ZF ((va - vb) mod 2 ^ n =? 0) m)
    | _, _ => None
    end
| shr dst n =>
    let v := Z.shiftr (read_reg m dst) n in
    Some (set_ZF (v =? 0) (write_reg dst v m))
| shl dst n =>
    let v := width_wrap dst (Z.shiftl (read_reg m dst) n) in
    Some (set_ZF (v =? 0) (write_reg dst v m))
| push v =>
    let sp := Bits.wrap64 (gprs m RSP - 8) in
    Some (set_qmem sp (Bits.wrap64 v) (set_gpr RSP sp m))
| L _ => Some m
| movaps dst src => Some (write_xoperand dst (read_xoperand m src) m)
| movss dst src =>
    let d := xmms m dst in
    Some (set_xmm dst (V4.mk (V4.x (xmms m src)) (V4.y d) (V4.z d) (V4.w d)) m)
| movq dst src => Some (write_reg dst (V4.low64 (xmms m src)) m)
| shufps dst src sel => Some (set_xmm dst (shuffle (xmms m dst) (xmms m src) sel) m)
| xorps dst src => Some (set_xmm dst (V4.map2 Z.lxor (xmms m dst) (xmms m src)) m)
| andps dst src => Some (set_xmm dst (V4.map2 Z.land (xmms m dst) (xmms m src)) m)
| blendps dst src mask => Some (set_xmm dst (blend (xmms m dst) (xmms m src) mask) m)
| unpckhps dst src =>
    let a := xmms m dst in
    let b := xmms m src in
    Some (set_xmm dst (V4.mk (V4.z a) (V4.z b) (V4.w a) (V4.w b)) m)
| unpcklps dst src =>
    let a := xmms m dst in
    let b := xmms m src in
    Some (set_xmm dst (V4.mk (V4.x a) (V4.x b) (V4.y a) (V4.y b)) m)
| unpcklpd dst src =>
    let a := xmms m dst in
    let b := xmms m src in
    Some (set_xmm dst (V4.mk (V4.x a) (V4.y a) (V4.x b) (V4.y b)) m)
| cmpps dst src pred =>
    match compare_lanes pred (xmms m dst) (xmms m src) with
    | Some v => Some (set_xmm dst v m)
    | None => None
    end
| cmpss dst src pred =>
    let d := xmms m dst in
    match F32.cmp_pred pred (V4.x d) (V4.x (xmms m src)) with
    | Some c => Some (set_xmm dst (V4.mk (F32.mask_of c) (V4.y d) (V4.z d) (V4.w d)) m)
    | None => None
    end
| mulps dst src => Some (set_xmm dst (V4.map2 F32.mul (xmms m dst) (xmms m src)) m)
| addps dst src => Some (set_xmm dst (V4.map2 F32.add (xmms m dst) (xmms m src)) m)
| maxps dst src => Some (set_xmm dst (V4.map2 F32.max (xmms m dst) (xmms m src)) m)
| minps dst src => Some (set_xmm dst (V4.map2 F32.min (xmms m dst) (xmms m src)) m)
| cvttps2dq dst src => Some (set_xmm dst (V4.map F32.truncate (xmms m src)) m)
| cvtdq2ps dst src => Some (set_xmm dst (V4.map F32.of_int (xmms m src)) m)
| _ => None
end.

(** A block of instructions run in sequence. *)
Fixpoint exec_block (c : list Insn) (m : Machine) : option Machine :=
match c with
| [] => Some m
| i :: c' =>
    match exec i m with
    | Some m' => exec_block c' m'
    | None => None
    end
end.

(** ** Control flow *)

(** Position at which a label is bound in the code buffer. *)
Fixpoint find_label (l : Label) (c : list Insn) : option nat :=
match c with
| [] => None
| i :: c' =>
    match i with
    | L l' => if Label_eqb l l' then Some 0%nat else option_map S (find_label l c')
    | _ => option_map S (find_label l c')
    end
end.

Definition goto (c : list Insn) (l : Label) (m : Machine) : option Machine :=
match find_label l c with
| Some p => Some (set_rip p m)
| None => None
end.

Definition next (m : Machine) : Machine := set_rip (S (rip m)) m.

(** One step of the machine on the code buffer [c].  CALL pushes the
    position of the instruction after it; RET pops a position. *)
Definition step (c : list Insn) (m : Machine) : option Machine :=
match nth_error c (rip m) with
| None => None
| Some i =>
    match i with
    | jz l => if ZF m then goto c l m else Some (next m)
    | jnz l => if ZF m then Some (next m) else goto c l m
    | jmp l => goto c l m
    | call l =>
        let sp := Bits.wrap64 (gprs m RSP - 8) in
        goto c l (set_qmem sp (Z.of_nat (S (rip m))) (set_gpr RSP sp m))
    | ret =>
        let sp := gprs m RSP in
        Some (set_rip (Z.to_nat (qmem m sp)) (set_gpr RSP (Bits.wrap64 (sp + 8)) m))
    | _ =>
        match exec i m with
        | Some m' => Some (next m')
        | None => None
        end
    end
end.

Fixpoint run (n : nat) (c : list Insn) (m : Machine) : option Machine :=
match n with
| O => Some m
| S n' =>
    match step c m with
    | Some m' => run n' c m'
    | None => None
    end
end.

(** Number of the first [n] steps that start at position [p]. *)
Fixpoint visits (p : nat) (n : nat) (c : list Insn) (m : Machine) : nat :=
match n with
| O => O
| S n' =>
    ((if Nat.eqb (rip m) p then 1 else 0)
     + match step c m with
       | Some m' => visits p n' c m'
       | None => O
       end)%nat
end.

End X64.

(* ===================================================================== *)
(** * Instruction words and operand descriptors *)
(* ===================================================================== *)

(** Modelled from the spec: the bit-field unions [Instruction],
    [SourceRegister], [DestRegister] and [SwizzlePattern] of the external
    header [nihstro/shader_bytecode.h], which is not among the sources.  The
    spec gives the shape (an instruction word with opcode and operand fields
    per opcode class; an operand descriptor with four 2-bit lane picks and a
    negation flag per source and a 4-bit destination write mask); the bit
    positions are those of the nihstro header. *)
Module Nihstro.

(** [Instruction::hex]. *)
Definition Instruction := Z.

Module OpCode.
Definition ADD : Z := 0x00.
Definition DP3 : Z := 0x01.
Definition DP4 : Z := 0x02.
Definition DPH : Z := 0x03.
Definition EX2 : Z := 0x05.
Definition LG2 : Z := 0x06.
Definition MUL : Z := 0x08.
Definition SGE : Z := 0x09.
Definition SLT : Z := 0x0A.
Definition FLR : Z := 0x0B.
Definition MAX : Z := 0x0C.
Definition MIN : Z := 0x0D.
Definition RCP : Z := 0x0E.
Definition RSQ : Z := 0x0F.
Definition MOVA : Z := 0x12.
Definition MOV : Z := 0x13.
Definition DPHI : Z := 0x18.
Definition DSTI : Z := 0x19.
Definition SGEI : Z := 0x1A.
Definition SLTI : Z := 0x1B.
Definition NOP : Z := 0x21.
Definition END : Z := 0x22.
Definition CALL : Z := 0x24.
Definition CALLC : Z := 0x25.
Definition CALLU : Z := 0x26.
Definition IFU : Z := 0x27.
Definition IFC : Z := 0x28.
Definition LOOP : Z := 0x29.
Definition JMPC : Z := 0x2C.
Definition JMPU : Z := 0x2D.
Definition CMP : Z := 0x2E.
Definition MADI : Z := 0x30.
Definition MAD : Z := 0x38.

(** [OpCode::EffectiveOpCode]: the opcodes of CMP, MADI and MAD use their
    low bits as operand bits. *)
Definition EffectiveOpCode (op : Z) : Z :=
if Z.land op (Z.lnot 7) =? MAD then MAD
else if Z.land op (Z.lnot 7) =? MADI then MADI
else if Z.land op (Z.lnot 1) =? CMP then CMP
else op.

(** [GetInfo().subtype & OpCode::Info::SrcInversed]: set for the opcodes
    whose wide (7-bit) source is the second one. *)
Definition SrcInversed (op : Z) : bool :=
(op =? DPHI) || (op =? DSTI) || (op =? SGEI) || (op =? SLTI)
|| (EffectiveOpCode op =? MADI).
End OpCode.

Definition opcode (i : Instruction) : Z := Bits.field 26 6 i.

(** [instr.common]. *)
Module common.
Definition operand_desc_id (i : Instruction) : Z := Bits.field 0 7 i.
Definition src2 (i : Instruction) : Z := Bits.field 7 5 i.
Definition src1 (i : Instruction) : Z := Bits.field 12 7 i.
Definition src2i (i : Instruction) : Z := Bits.field 7 7 i.
Definition src1i (i : Instruction) : Z := Bits.field 14 5 i.
Definition address_register_index (i : Instruction) : Z := Bits.field 19 2 i.
Definition compare_op_y (i : Instruction) : Z := Bits.field 21 3 i.
Definition compare_op_x (i : Instruction) : Z := Bits.field 24 3 i.
Definition dest (i : Instruction) : Z := Bits.field 21 5 i.
End common.

(** [instr.flow_control]. *)
Module flow_control.
Definition num_instructions (i : Instruction) : Z := Bits.field 0 8 i.
Definition dest_offset (i : Instruction) : Z := Bits.field 10 12 i.
Definition op (i : Instruction) : Z := Bits.field 22 2 i.
Definition bool_uniform_id (i : Instruction) : Z := Bits.field 22 4 i.
Definition int_uniform_id (i : Instruction) : Z := Bits.field 22 2 i.
Definition refy (i : Instruction) : Z := Bits.field 24 1 i.
Definition refx (i : Instruction) : Z := Bits.field 25 1 i.
End flow_control.

(** [instr.mad]. *)
Module mad.
Definition operand_desc_id (i : Instruction) : Z := Bits.field 0 5 i.
Definition src3 (i : Instruction) : Z := Bits.field 5 5 i.
Definition src2 (i : Instruction) : Z := Bits.field 10 7 i.
Definition src1 (i : Instruction) : Z := Bits.field 17 7 i.
Definition src3i (i : Instruction) : Z := Bits.field 5 7 i.
Definition src2i (i : Instruction) : Z := Bits.field 12 5 i.
Definition address_register_index (i : Instruction) : Z := Bits.field 22 2 i.
Definition dest (i : Instruction) : Z := Bits.field 24 5 i.
End mad.

(** [Instruction::FlowControlType::Op]. *)
Definition Or : Z := 0.
Definition And : Z := 1.
Definition JustX : Z := 2.
Definition JustY : Z := 3.

(** [Instruction::Common::CompareOpType::Op]. *)
Definition GreaterThan : Z := 4.
Definition GreaterEqual : Z := 5.

(** [SourceRegister]: the value of the register field. *)
Definition SourceRegister := Z.
Definition DestRegister := Z.

Inductive RegisterType : Set := Input | Output | Temporary | FloatUniform.

Definition RegisterType_eqb (a b : RegisterType) : bool :=
match a, b with
| Input, Input | Output, Output | Temporary, Temporary
| FloatUniform, FloatUniform => true
| _, _ => false
end.

Definition GetRegisterType (r : SourceRegister) : RegisterType :=
if r <? 0x10 then Input else if r <? 0x20 then Temporary else FloatUniform.

Definition GetIndex (r : SourceRegister) : Z :=
match GetRegisterType r with
| Input => r
| Temporary => r - 0x10
| _ => r - 0x20
end.

(** [SwizzlePattern::hex]. *)
Definition SwizzlePattern := Z.

Definition dest_mask (s : SwizzlePattern) : Z := Bits.field 0 4 s.
Definition negate_src1 (s : SwizzlePattern) : bool := Bits.flag 4 s.
Definition src1_selector (s : SwizzlePattern) : Z := Bits.field 5 8 s.
Definition negate_src2 (s : SwizzlePattern) : bool := Bits.flag 13 s.
Definition src2_selector (s : SwizzlePattern) : Z := Bits.field 14 8 s.
Definition negate_src3 (s : SwizzlePattern) : bool := Bits.flag 22 s.
Definition src3_selector (s : SwizzlePattern) : Z := Bits.field 23 8 s.

(** [SwizzlePattern::DestComponentEnabled]: component 0 (x) is the most
    significant bit of the mask. *)
Definition DestComponentEnabled (s : SwizzlePattern) (i : Z) : bool :=
negb (Z.land (dest_mask s) (Z.shiftr 8 i) =? 0).

(** [SwizzlePattern::GetRawSelector], for a source number from 1 to 3. *)
Definition GetRawSelector (s : SwizzlePattern) (src : Z) : Z :=
match src with
| 1 => src1_selector s
| 2 => src2_selector s
| _ => src3_selector s
end.

End Nihstro.

(* ===================================================================== *)
(** * The compiler *)
(* ===================================================================== *)

Import X64 Nihstro.

(** What the compiler takes from the rest of the emulator and from the host:
    the CPU capabilities, the calling convention, the layout of the uniform
    block ([ShaderSetup]) and of the per-unit state ([UnitState]), and the
    size of the buffer with the size in bytes of what was assembled. *)
Record Host : Type := {
  sse4_1 : bool;
  ABI_PARAM1 : Reg;
  ABI_PARAM2 : Reg;
  ABI_PARAM3 : Reg;
  GetFloatUniformOffset : Z -> Z;
  GetBoolUniformOffset : Z -> Z;
  GetIntUniformOffset : Z -> Z;
  InputOffset : SourceRegister -> Z;
  OutputOffset : DestRegister -> Z;
  MAX_SHADER_SIZE : Z;
  code_size : list Insn -> Z
}.

(** [g_state.vs]: the program and its operand descriptors.  The descriptor
    array is indexed by a 7-bit field and is always in range; the program
    array is indexed by the program counter. *)
Record ShaderSetup : Type := {
  program_code : list Z;
  swizzle_data : Z -> Z
}.

(** A line of the log written while compiling. *)
Inductive LogEntry : Set :=
| Unhandled_instruction (effective_opcode : Z) (hex : Z).

(** The fields of [JitShader], with the code buffer and the label counter of
    its base class [Xbyak::CodeGenerator], and the log. *)
Record JitShader : Type := {
  code : list Insn;
  program_counter : Z;
  looping : bool;
  return_offsets : list Z;
  label_id : nat;
  log : list LogEntry
}.

(** Outcome of a member function: normal return, a failed [ASSERT_MSG] or
    [UNREACHABLE] (the process is stopped), an access outside the program
    array, or recursion deeper than the fuel given. *)
Inductive Result (A : Type) : Type :=
| Done (a : A)
| Abort (msg : string)
| Undefined
| OutOfFuel.

Arguments Done {A} a.
Arguments Abort {A} msg.
Arguments Undefined {A}.
Arguments OutOfFuel {A}.

(** Member functions mutate the [JitShader] they are called on. *)
Definition Jit (A : Type) : Type := JitShader -> Result (A * JitShader).

Definition pure {A : Type} (a : A) : Jit A := fun s => Done (a, s).

Definition bind {A B : Type} (m : Jit A) (f : A -> Jit B) : Jit B :=
fun s =>
  match m s with
  | Done (a, s') => f a s'
  | Abort msg => Abort msg
  | Undefined => Undefined
  | OutOfFuel => OutOfFuel
  end.

Declare Scope jit_scope.
Delimit Scope jit_scope with jit.
Bind Scope jit_scope with Jit.

Notation "x <- m ;; f" := (bind m (fun x => f))
  (at level 61, m at next level, right associativity) : jit_scope.
Notation "m ;; f" := (bind m (fun _ => f))
  (at level 61, right associativity) : jit_scope.

Local Open Scope jit_scope.

Definition skip : Jit unit := pure tt.

Definition append_code (c : list Insn) (s : JitShader) : JitShader :=
{| code := code s ++ c; program_counter := program_counter s;
   looping := looping s; return_offsets := return_offsets s;
   label_id := label_id s; log := log s |}.

(** A call of an Xbyak mnemonic: the instruction is appended to the code
    buffer. *)
Definition emit (i : Insn) : Jit unit := fun s => Done (tt, append_code [i] s).

(** A [Label] object gets the next id of the code generator. *)
Definition new_label : Jit Label :=
fun s =>
  Done (local_label (label_id s),
        {| code := code s; program_counter := program_counter s;
           looping := looping s; return_offsets := return_offsets s;
           label_id := S (label_id s); log := log s |}).

Definition get_program_counter : Jit Z := fun s => Done (program_counter s, s).

Definition set_program_counter (pc : Z) : Jit unit :=
fun s =>
  Done (tt, {| code := code s; program_counter := pc;
               looping := looping s; return_offsets := return_offsets s;
               label_id := label_id s; log := log s |}).

Definition get_looping : Jit bool := fun s => Done (looping s, s).

Definition set_looping (b : bool) : Jit unit :=
fun s =>
  Done (tt, {| code := code s; program_counter := program_counter s;
               looping := b; return_offsets := return_offsets s;
               label_id := label_id s; log := log s |}).

Definition get_return_offsets : Jit (list Z) := fun s => Done (return_offsets s, s).

Definition set_return_offsets (l : list Z) : Jit unit :=
fun s =>
  Done (tt, {| code := code s; program_counter := program_counter s;
               looping := looping s; return_offsets := l;
               label_id := label_id s; log := log s |}).

Definition get_code : Jit (list Insn) := fun s => Done (code s, s).

Definition LOG_CRITICAL (e : LogEntry) : Jit unit :=
fun s =>
  Done (tt, {| code := code s; program_counter := program_counter s;
               looping := looping s; return_offsets := return_offsets s;
               label_id := label_id s; log := log s ++ [e] |}).

Definition ASSERT_MSG (condition : bool) (msg : string) : Jit unit :=
fun s => if condition then Done (tt, s) else Abort msg.

Definition UNREACHABLE : Jit unit := fun _ => Abort "Unreachable code!".

(** ** Register roles *)

(** Pointer to the uniform memory *)
Definition SETUP : Reg := r9.
(** The two 32-bit VS address offset registers set by the MOVA instruction *)
Definition ADDROFFS_REG_0 : Reg := r10.
Definition ADDROFFS_REG_1 : Reg := r11.
(** VS loop count register (Multiplied by 16) *)
Definition LOOPCOUNT_REG : Reg := r12d.
(** Current VS loop iteration number *)
Definition LOOPCOUNT : Reg := esi.
(** Number to increment LOOPCOUNT_REG by on each loop iteration (Multiplied by 16) *)
Definition LOOPINC : Reg := edi.
(** Result of the previous CMP instruction for the X-component comparison *)
Definition COND0 : Reg := r13.
(** Result of the previous CMP instruction for the Y-component comparison *)
Definition COND1 : Reg := r14.
(** Pointer to the UnitState instance for the current VS unit *)
Definition STATE : Reg := r15.
(** SIMD scratch register *)
Definition SCRATCH : Xmm := xmm0.
(** Loaded with the first swizzled source register *)
Definition SRC1 : Xmm := xmm1.
(** Loaded with the second swizzled source register *)
Definition SRC2 : Xmm := xmm2.
(** Loaded with the third swizzled source register *)
Definition SRC3 : Xmm := xmm3.
(** Additional scratch register *)
Definition SCRATCH2 : Xmm := xmm4.
(** Constant vector of [1.0f, 1.0f, 1.0f, 1.0f] *)
Definition ONE : Xmm := xmm14.
(** Constant vector of [-0.f, -0.f, -0.f, -0.f] *)
Definition NEGBIT : Xmm := xmm15.

(** Raw constant for the source register selector that indicates no swizzling is performed *)
Definition NO_SRC_REG_SWIZZLE : Z := 0x1b.
(** Raw constant for the destination register enable mask that indicates all components are enabled *)
Definition NO_DEST_REG_MASK : Z := 0xf.

(** ** [std::sort] and [std::binary_search] on the return offsets *)

Fixpoint insert_sorted (v : Z) (l : list Z) : list Z :=
match l with
| [] => [v]
| h :: t => if v <=? h then v :: l else h :: insert_sorted v t
end.

(** [std::sort] on integers: the result is the ascending arrangement of
    the elements, whichever algorithm computes it. *)
Fixpoint sort (l : list Z) : list Z :=
match l with
| [] => []
| h :: t => insert_sorted h (sort t)
end.

(** [std::lower_bound] on the range [first, first + count) of [l]: the
    halving loop, one iteration per unit of [fuel]. *)
Fixpoint lower_bound (fuel : nat) (l : list Z) (first count : nat) (value : Z) : nat :=
match fuel with
| O => first
| S fuel' =>
    if Nat.eqb count 0 then first
    else
      let step := Nat.div2 count in
      let it := (first + step)%nat in
      if nth it l 0 <? value
      then lower_bound fuel' l (S it) (count - (step + 1))%nat value
      else lower_bound fuel' l first step value
end.

(** [std::binary_search]: [first != last && !(value < *first)] for the
    lower bound [first]. *)
Definition binary_search (l : list Z) (value : Z) : bool :=
let first := lower_bound (List.length l) l 0 (List.length l) value in
negb (Nat.eqb first (List.length l)) && negb (value <? nth first l 0).

Section JitShader.

Variable host : Host.
(** [g_state.vs] *)
Variable vs : ShaderSetup.

(** Get the vertex shader instruction for a given offset in the current
    shader program. *)
Definition GetVertexShaderInstruction (offset : Z) : Jit Instruction :=
fun s =>
  if offset <? 0 then Undefined
  else match nth_error (program_code vs) (Z.to_nat offset) with
       | Some i => Done (i, s)
       | None => Undefined
       end.

(** Modelled from the spec: [instruction_labels] is declared in the header
    of the class, which is not among the sources; the spec gives the label
    table one entry per instruction offset of the program (size = program
    length).  [instruction_labels[offset]] with an offset outside the table
    is an access outside a [std::array]. *)
Definition instruction_labels_at (offset : Z) : Jit Label :=
fun s =>
  if (0 <=? offset) && (offset <? Z.of_nat (List.length (program_code vs)))
  then Done (instruction_labels offset, s)
  else Undefined.

(** The condition is evaluated while compiling; when it fails, code that
    calls the logger is emitted. *)
Definition Compile_Assert (condition : bool) (msg : string) : Jit unit :=
if condition then skip
else
  emit (mov (reg (ABI_PARAM1 host)) (address_of (message msg))) ;;
  emit (CallFarFunction LogCritical).

(** Loads and swizzles a source register into the specified XMM register. *)
Definition Compile_SwizzleSrc (instr : Instruction) (src_num : Z)
  (src_reg : SourceRegister) (dest : Xmm) : Jit unit :=
let '(src_ptr, src_offset) :=
  if RegisterType_eqb (GetRegisterType src_reg) FloatUniform
  then (SETUP, GetFloatUniformOffset host (GetIndex src_reg))
  else (STATE, InputOffset host src_reg) in
let src_offset_disp := Bits.signed32 src_offset in
ASSERT_MSG (src_offset =? Bits.wrap64 src_offset_disp)
           "Source register offset too large for int type" ;;
let is_inverted := OpCode.SrcInversed (opcode instr) in
let '(operand_desc_id, offset_src, address_register_index) :=
  if (OpCode.EffectiveOpCode (opcode instr) =? OpCode.MAD)
     || (OpCode.EffectiveOpCode (opcode instr) =? OpCode.MADI)
  then (mad.operand_desc_id instr, if is_inverted then 3 else 2,
        mad.address_register_index instr)
  else (common.operand_desc_id instr, if is_inverted then 2 else 1,
        common.address_register_index instr) in
(if (src_num =? offset_src) && negb (address_register_index =? 0) then
   match address_register_index with
   | 1 => emit (movaps (xreg dest) (xword (at_idx src_ptr ADDROFFS_REG_0 src_offset_disp)))
   | 2 => emit (movaps (xreg dest) (xword (at_idx src_ptr ADDROFFS_REG_1 src_offset_disp)))
   | 3 => emit (movaps (xreg dest) (xword (at_idx src_ptr (cvt64 LOOPCOUNT_REG) src_offset_disp)))
   | _ => UNREACHABLE
   end
 else
   emit (movaps (xreg dest) (xword (at_ src_ptr src_offset_disp)))) ;;
let swiz := swizzle_data vs operand_desc_id in
let sel := GetRawSelector swiz src_num in
(if negb (sel =? NO_SRC_REG_SWIZZLE) then
   let sel :=
     Z.lor (Z.lor (Z.lor (Z.shiftr (Z.land sel 0xc0) 6) (Z.shiftl (Z.land sel 3) 6))
                  (Z.shiftl (Z.land sel 0xc) 2))
           (Z.shiftr (Z.land sel 0x30) 2) in
   emit (shufps dest dest sel)
 else skip) ;;
let negate := [negate_src1 swiz; negate_src2 swiz; negate_src3 swiz] in
if nth (Z.to_nat (src_num - 1)) negate false
then emit (xorps dest NEGBIT)
else skip.

Definition Compile_DestEnable (instr : Instruction) (src : Xmm) : Jit unit :=
let '(operand_desc_id, dest) :=
  if (OpCode.EffectiveOpCode (opcode instr) =? OpCode.MAD)
     || (OpCode.EffectiveOpCode (opcode instr) =? OpCode.MADI)
  then (mad.operand_desc_id instr, mad.dest instr)
  else (common.operand_desc_id instr, common.dest instr) in
let swiz := swizzle_data vs operand_desc_id in
let dest_offset_disp := OutputOffset host dest in
if dest_mask swiz =? NO_DEST_REG_MASK then
  emit (movaps (xword (at_ STATE dest_offset_disp)) (xreg src))
else
  emit (movaps (xreg SCRATCH) (xword (at_ STATE dest_offset_disp))) ;;
  (if sse4_1 host then
     let mask :=
       Z.lor (Z.lor (Z.lor (Z.shiftl (Z.land (dest_mask swiz) 1) 3)
                           (Z.shiftr (Z.land (dest_mask swiz) 8) 3))
                    (Z.shiftl (Z.land (dest_mask swiz) 2) 1))
             (Z.shiftr (Z.land (dest_mask swiz) 4) 1) in
     emit (blendps SCRATCH src mask)
   else
     emit (movaps (xreg SCRATCH2) (xreg src)) ;;
     emit (unpckhps SCRATCH2 SCRATCH) ;;
     emit (unpcklps SCRATCH src) ;;
     let sel :=
       Z.lor (Z.lor (Z.lor
         (Z.shiftl (if DestComponentEnabled swiz 0 then 1 else 0) 0)
         (Z.shiftl (if DestComponentEnabled swiz 1 then 3 else 2) 2))
         (Z.shiftl (if DestComponentEnabled swiz 2 then 0 else 1) 4))
         (Z.shiftl (if DestComponentEnabled swiz 3 then 2 else 3) 6) in
     emit (shufps SCRATCH SCRATCH2 sel)) ;;
  emit (movaps (xword (at_ STATE dest_offset_disp)) (xreg SCRATCH)).

Definition Compile_SanitizedMul (src1 src2 scratch : Xmm) : Jit unit :=
emit (movaps (xreg scratch) (xreg src1)) ;;
emit (cmpordps scratch src2) ;;
emit (mulps src1 src2) ;;
emit (movaps (xreg src2) (xreg src1)) ;;
emit (cmpunordps src2 src2) ;;
emit (xorps scratch src2) ;;
emit (andps src1 scratch).

Definition Compile_EvaluateCondition (instr : Instruction) : Jit unit :=
let op := flow_control.op instr in
if op =? Or then
  emit (mov (reg eax) (reg COND0)) ;;
  emit (mov (reg ebx) (reg COND1)) ;;
  emit (xor_ (reg eax) (imm (Z.lxor (flow_control.refx instr) 1))) ;;
  emit (xor_ (reg ebx) (imm (Z.lxor (flow_control.refy instr) 1))) ;;
  emit (or_ (reg eax) (reg ebx))
else if op =? And then
  emit (mov (reg eax) (reg COND0)) ;;
  emit (mov (reg ebx) (reg COND1)) ;;
  emit (xor_ (reg eax) (imm (Z.lxor (flow_control.refx instr) 1))) ;;
  emit (xor_ (reg ebx) (imm (Z.lxor (flow_control.refy instr) 1))) ;;
  emit (and_ (reg eax) (reg ebx))
else if op =? JustX then
  emit (mov (reg eax) (reg COND0)) ;;
  emit (xor_ (reg eax) (imm (Z.lxor (flow_control.refx instr) 1)))
else if op =? JustY then
  emit (mov (reg eax) (reg COND1)) ;;
  emit (xor_ (reg eax) (imm (Z.lxor (flow_control.refy instr) 1)))
else skip.

Definition Compile_UniformCondition (instr : Instruction) : Jit unit :=
let offset := GetBoolUniformOffset host (flow_control.bool_uniform_id instr) in
emit (cmp (byte (at_ SETUP offset)) (imm 0)).

(** ** Per-opcode generators *)

Definition Compile_ADD (instr : Instruction) : Jit unit :=
Compile_SwizzleSrc instr 1 (common.src1 instr) SRC1 ;;
Compile_SwizzleSrc instr 2 (common.src2 instr) SRC2 ;;
emit (addps SRC1 SRC2) ;;
Compile_DestEnable instr SRC1.

Definition Compile_DP3 (instr : Instruction) : Jit unit :=
Compile_SwizzleSrc instr 1 (common.src1 instr) SRC1 ;;
Compile_SwizzleSrc instr 2 (common.src2 instr) SRC2 ;;
Compile_SanitizedMul SRC1 SRC2 SCRATCH ;;
emit (movaps (xreg SRC2) (xreg SRC1)) ;;
emit (shufps SRC2 SRC2 (_MM_SHUFFLE 1 1 1 1)) ;;
emit (movaps (xreg SRC3) (xreg SRC1)) ;;
emit (shufps SRC3 SRC3 (_MM_SHUFFLE 2 2 2 2)) ;;
emit (shufps SRC1 SRC1 (_MM_SHUFFLE 0 0 0 0)) ;;
emit (addps SRC1 SRC2) ;;
emit (addps SRC1 SRC3) ;;
Compile_DestEnable instr SRC1.

Definition Compile_DP4 (instr : Instruction) : Jit unit :=
Compile_SwizzleSrc instr 1 (common.src1 instr) SRC1 ;;
Compile_SwizzleSrc instr 2 (common.src2 instr) SRC2 ;;
Compile_SanitizedMul SRC1 SRC2 SCRATCH ;;
emit (movaps (xreg SRC2) (xreg SRC1)) ;;
emit (shufps SRC1 SRC1 (_MM_SHUFFLE 2 3 0 1)) ;;
emit (addps SRC1 SRC2) ;;
emit (movaps (xreg SRC2) (xreg SRC1)) ;;
emit (shufps SRC1 SRC1 (_MM_SHUFFLE 0 1 2 3)) ;;
emit (addps SRC1 SRC2) ;;
Compile_DestEnable instr SRC1.

Definition Compile_DPH (instr : Instruction) : Jit unit :=
(if OpCode.EffectiveOpCode (opcode instr) =? OpCode.DPHI then
   Compile_SwizzleSrc instr 1 (common.src1i instr) SRC1 ;;
   Compile_SwizzleSrc instr 2 (common.src2i instr) SRC2
 else
   Compile_SwizzleSrc instr 1 (common.src1 instr) SRC1 ;;
   Compile_SwizzleSrc instr 2 (common.src2 instr) SRC2) ;;
(if sse4_1 host then
   emit (blendps SRC1 ONE 8)
 else
   emit (movaps (xreg SCRATCH) (xreg SRC1)) ;;
   emit (unpckhps SCRATCH ONE) ;;
   emit (unpcklpd SRC1 SCRATCH)) ;;
Compile_SanitizedMul SRC1 SRC2 SCRATCH ;;
emit (movaps (xreg SRC2) (xreg SRC1)) ;;
emit (shufps SRC1 SRC1 (_MM_SHUFFLE 2 3 0 1)) ;;
emit (addps SRC1 SRC2) ;;
emit (movaps (xreg SRC2) (xreg SRC1)) ;;
emit (shufps SRC1 SRC1 (_MM_SHUFFLE 0 1 2 3)) ;;
emit (addps SRC1 SRC2) ;;
Compile_DestEnable instr SRC1.

Definition Compile_EX2 (instr : Instruction) : Jit unit :=
Compile_SwizzleSrc instr 1 (common.src1 instr) SRC1 ;;
emit (movss xmm0 SRC1) ;;
emit (ABI_PushRegistersAndAdjustStack PersistentCallerSavedRegs 0) ;;
emit (CallFarFunction exp2f) ;;
emit (ABI_PopRegistersAndAdjustStack PersistentCallerSavedRegs 0) ;;
emit (shufps xmm0 xmm0 (_MM_SHUFFLE 0 0 0 0)) ;;
emit (movaps (xreg SRC1) (xreg xmm0)) ;;
Compile_DestEnable instr SRC1.

Definition Compile_LG2 (instr : Instruction) : Jit unit :=
Compile_SwizzleSrc instr 1 (common.src1 instr) SRC1 ;;
emit (movss xmm0 SRC1) ;;
emit (ABI_PushRegistersAndAdjustStack PersistentCallerSavedRegs 0) ;;
emit (CallFarFunction log2f) ;;
emit (ABI_PopRegistersAndAdjustStack PersistentCallerSavedRegs 0) ;;
emit (shufps xmm0 xmm0 (_MM_SHUFFLE 0 0 0 0)) ;;
emit (movaps (xreg SRC1) (xreg xmm0)) ;;
Compile_DestEnable instr SRC1.

Definition Compile_MUL (instr : Instruction) : Jit unit :=
Compile_SwizzleSrc instr 1 (common.src1 instr) SRC1 ;;
Compile_SwizzleSrc instr 2 (common.src2 instr) SRC2 ;;
Compile_SanitizedMul SRC1 SRC2 SCRATCH ;;
Compile_DestEnable instr SRC1.

Definition Compile_SGE (instr : Instruction) : Jit unit :=
(if OpCode.EffectiveOpCode (opcode instr) =? OpCode.SGEI then
   Compile_SwizzleSrc instr 1 (common.src1i instr) SRC1 ;;
   Compile_SwizzleSrc instr 2 (common.src2i instr) SRC2
 else
   Compile_SwizzleSrc instr 1 (common.src1 instr) SRC1 ;;
   Compile_SwizzleSrc instr 2 (common.src2 instr) SRC2) ;;
emit (cmpleps SRC2 SRC1) ;;
emit (andps SRC2 ONE) ;;
Compile_DestEnable instr SRC2.

Definition Compile_SLT (instr : Instruction) : Jit unit :=
(if OpCode.EffectiveOpCode (opcode instr) =? OpCode.SLTI then
   Compile_SwizzleSrc instr 1 (common.src1i instr) SRC1 ;;
   Compile_SwizzleSrc instr 2 (common.src2i instr) SRC2
 else
   Compile_SwizzleSrc instr 1 (common.src1 instr) SRC1 ;;
   Compile_SwizzleSrc instr 2 (common.src2 instr) SRC2) ;;
emit (cmpltps SRC1 SRC2) ;;
emit (andps SRC1 ONE) ;;
Compile_DestEnable instr SRC1.

Definition Compile_FLR (instr : Instruction) : Jit unit :=
Compile_SwizzleSrc instr 1 (common.src1 instr) SRC1 ;;
(if sse4_1 host then
   emit (roundps SRC1 SRC1 _MM_FROUND_FLOOR)
 else
   emit (cvttps2dq SRC1 SRC1) ;;
   emit (cvtdq2ps SRC1 SRC1)) ;;
Compile_DestEnable instr SRC1.

Definition Compile_MAX (instr : Instruction) : Jit unit :=
Compile_SwizzleSrc instr 1 (common.src1 instr) SRC1 ;;
Compile_SwizzleSrc instr 2 (common.src2 instr) SRC2 ;;
(* SSE semantics match PICA200 ones: In case of NaN, SRC2 is returned. *)
emit (maxps SRC1 SRC2) ;;
Compile_DestEnable instr SRC1.

Definition Compile_MIN (instr : Instruction) : Jit unit :=
Compile_SwizzleSrc instr 1 (common.src1 instr) SRC1 ;;
Compile_SwizzleSrc instr 2 (common.src2 instr) SRC2 ;;
(* SSE semantics match PICA200 ones: In case of NaN, SRC2 is returned. *)
emit (minps SRC1 SRC2) ;;
Compile_DestEnable instr SRC1.

Definition Compile_MOVA (instr : Instruction) : Jit unit :=
let swiz := swizzle_data vs (common.operand_desc_id instr) in
if negb (DestComponentEnabled swiz 0) && negb (DestComponentEnabled swiz 1) then
  skip (* NoOp *)
else
  Compile_SwizzleSrc instr 1 (common.src1 instr) SRC1 ;;
  (* Convert floats to integers using truncation (only care about X and Y components) *)
  emit (cvttps2dq SRC1 SRC1) ;;
  (* Get result *)
  emit (movq rax SRC1) ;;
  (* Handle destination enable *)
  if DestComponentEnabled swiz 0 && DestComponentEnabled swiz 1 then
    (* Move and sign-extend low 32 bits *)
    emit (movsxd ADDROFFS_REG_0 eax) ;;
    (* Move and sign-extend high 32 bits *)
    emit (shr rax 32) ;;
    emit (movsxd ADDROFFS_REG_1 eax) ;;
    (* Multiply by 16 to be used as an offset later *)
    emit (shl ADDROFFS_REG_0 4) ;;
    emit (shl ADDROFFS_REG_1 4)
  else if DestComponentEnabled swiz 0 then
    emit (movsxd ADDROFFS_REG_0 eax) ;;
    emit (shl ADDROFFS_REG_0 4)
  else if DestComponentEnabled swiz 1 then
    emit (shr rax 32) ;;
    emit (movsxd ADDROFFS_REG_1 eax) ;;
    emit (shl ADDROFFS_REG_1 4)
  else skip.

Definition Compile_MOV (instr : Instruction) : Jit unit :=
Compile_SwizzleSrc instr 1 (common.src1 instr) SRC1 ;;
Compile_DestEnable instr SRC1.

Definition Compile_RCP (instr : Instruction) : Jit unit :=
Compile_SwizzleSrc instr 1 (common.src1 instr) SRC1 ;;
emit (rcpss SRC1 SRC1) ;;
emit (shufps SRC1 SRC1 (_MM_SHUFFLE 0 0 0 0)) ;;
Compile_DestEnable instr SRC1.

Definition Compile_RSQ (instr : Instruction) : Jit unit :=
Compile_SwizzleSrc instr 1 (common.src1 instr) SRC1 ;;
emit (rsqrtss SRC1 SRC1) ;;
emit (shufps SRC1 SRC1 (_MM_SHUFFLE 0 0 0 0)) ;;
Compile_DestEnable instr SRC1.

Definition Compile_NOP (instr : Instruction) : Jit unit := skip.

Definition Compile_END (instr : Instruction) : Jit unit :=
emit (ABI_PopRegistersAndAdjustStack ABI_ALL_CALLEE_SAVED 8) ;;
emit ret.

Definition Compile_CALL (instr : Instruction) : Jit unit :=
(* Push offset of the return *)
emit (push (flow_control.dest_offset instr + flow_control.num_instructions instr)) ;;
(* Call the subroutine *)
b <- instruction_labels_at (flow_control.dest_offset instr) ;;
emit (call b) ;;
(* Skip over the return offset that's on the stack *)
emit (add (reg rsp) (imm 8)).

Definition Compile_CALLC (instr : Instruction) : Jit unit :=
Compile_EvaluateCondition instr ;;
b <- new_label ;;
emit (jz b) ;;
Compile_CALL instr ;;
emit (L b).

Definition Compile_CALLU (instr : Instruction) : Jit unit :=
Compile_UniformCondition instr ;;
b <- new_label ;;
emit (jz b) ;;
Compile_CALL instr ;;
emit (L b).

(** [static const u8 cmp[]] of [Compile_CMP], indexed by the comparison
    operator. *)
Definition cmp_table : list Z := [CMP_EQ; CMP_NEQ; CMP_LT; CMP_LE; CMP_LT; CMP_LE].

Definition cmp_lookup (op : Z) : Jit Z :=
fun s =>
  match nth_error cmp_table (Z.to_nat op) with
  | Some p => Done (p, s)
  | None => Undefined
  end.

Definition Compile_CMP (instr : Instruction) : Jit unit :=
let op_x := common.compare_op_x instr in
let op_y := common.compare_op_y instr in
Compile_SwizzleSrc instr 1 (common.src1 instr) SRC1 ;;
Compile_SwizzleSrc instr 2 (common.src2 instr) SRC2 ;;
let invert_op_x := (op_x =? GreaterThan) || (op_x =? GreaterEqual) in
let lhs_x := if invert_op_x then SRC2 else SRC1 in
let rhs_x := if invert_op_x then SRC1 else SRC2 in
(if op_x =? op_y then
   (* Compare X-component and Y-component together *)
   px <- cmp_lookup op_x ;;
   emit (cmpps lhs_x rhs_x px) ;;
   emit (movq COND0 lhs_x) ;;
   emit (mov (reg COND1) (reg COND0))
 else
   let invert_op_y := (op_y =? GreaterThan) || (op_y =? GreaterEqual) in
   let lhs_y := if invert_op_y then SRC2 else SRC1 in
   let rhs_y := if invert_op_y then SRC1 else SRC2 in
   (* Compare X-component *)
   emit (movaps (xreg SCRATCH) (xreg lhs_x)) ;;
   px <- cmp_lookup op_x ;;
   emit (cmpss SCRATCH rhs_x px) ;;
   (* Compare Y-component *)
   py <- cmp_lookup op_y ;;
   emit (cmpps lhs_y rhs_y py) ;;
   emit (movq COND0 SCRATCH) ;;
   emit (movq COND1 lhs_y)) ;;
emit (shr (cvt32 COND0) 31) ;;
emit (shr COND1 63).

Definition Compile_MAD (instr : Instruction) : Jit unit :=
Compile_SwizzleSrc instr 1 (mad.src1 instr) SRC1 ;;
(if OpCode.EffectiveOpCode (opcode instr) =? OpCode.MADI then
   Compile_SwizzleSrc instr 2 (mad.src2i instr) SRC2 ;;
   Compile_SwizzleSrc instr 3 (mad.src3i instr) SRC3
 else
   Compile_SwizzleSrc instr 2 (mad.src2 instr) SRC2 ;;
   Compile_SwizzleSrc instr 3 (mad.src3 instr) SRC3) ;;
Compile_SanitizedMul SRC1 SRC2 SCRATCH ;;
emit (addps SRC1 SRC3) ;;
Compile_DestEnable instr SRC1.

Definition Compile_JMP (instr : Instruction) : Jit unit :=
(if opcode instr =? OpCode.JMPC then Compile_EvaluateCondition instr
 else if opcode instr =? OpCode.JMPU then Compile_UniformCondition instr
 else UNREACHABLE) ;;
let inverted_condition :=
  (opcode instr =? OpCode.JMPU)
  && negb (Z.land (flow_control.num_instructions instr) 1 =? 0) in
b <- instruction_labels_at (flow_control.dest_offset instr) ;;
if inverted_condition then emit (jz b) else emit (jnz b).

Definition Compile_Return : Jit unit :=
(* Peek return offset on the stack and check if we're at that offset *)
pc <- get_program_counter ;;
emit (mov (reg rax) (qword (at_ rsp 8))) ;;
emit (cmp (reg eax) (imm pc)) ;;
(* If so, jump back to before CALL *)
b <- new_label ;;
emit (jnz b) ;;
emit ret ;;
emit (L b).

(** ** Control flow and the dispatch loop *)

(** [Compile_IF], [Compile_LOOP] and [Compile_NextInstr] call back into
    [Compile_Block]; they take it as [block], and [Compile_Block] below
    closes the recursion. *)
Section Dispatch.

Variable block : Z -> Jit unit.

Definition Compile_IF (instr : Instruction) : Jit unit :=
pc <- get_program_counter ;;
Compile_Assert (flow_control.dest_offset instr >=? pc)
               "Backwards if-statements not supported" ;;
l_else <- new_label ;;
l_endif <- new_label ;;
(* Evaluate the "IF" condition *)
(if opcode instr =? OpCode.IFU then Compile_UniformCondition instr
 else if opcode instr =? OpCode.IFC then Compile_EvaluateCondition instr
 else skip) ;;
emit (jz l_else) ;;
(* Compile the code that corresponds to the condition evaluating as true *)
block (flow_control.dest_offset instr) ;;
(* If there isn't an "ELSE" condition, we are done here *)
if flow_control.num_instructions instr =? 0 then
  emit (L l_else)
else
  emit (jmp l_endif) ;;
  emit (L l_else) ;;
  (* This code corresponds to the "ELSE" condition *)
  block (flow_control.dest_offset instr + flow_control.num_instructions instr) ;;
  emit (L l_endif).

Definition Compile_LOOP (instr : Instruction) : Jit unit :=
pc <- get_program_counter ;;
Compile_Assert (flow_control.dest_offset instr >=? pc)
               "Backwards loops not supported" ;;
is_looping <- get_looping ;;
Compile_Assert (negb is_looping) "Nested loops not supported" ;;
set_looping true ;;
(* This decodes the fields from the integer uniform at index
   instr.flow_control.int_uniform_id.  The Y (LOOPCOUNT_REG) and Z (LOOPINC)
   component are kept multiplied by 16 (Left shifted by 4 bits) to be used as
   an offset into the 16-byte vector registers later *)
let offset := GetIntUniformOffset host (flow_control.int_uniform_id instr) in
emit (mov (reg LOOPCOUNT) (dword (at_ SETUP offset))) ;;
emit (mov (reg LOOPCOUNT_REG) (reg LOOPCOUNT)) ;;
emit (shr LOOPCOUNT_REG 4) ;;
emit (and_ (reg LOOPCOUNT_REG) (imm 0xFF0)) ;; (* Y-component is the start *)
emit (mov (reg LOOPINC) (reg LOOPCOUNT)) ;;
emit (shr LOOPINC 12) ;;
emit (and_ (reg LOOPINC) (imm 0xFF0)) ;; (* Z-component is the incrementer *)
emit (movzx LOOPCOUNT (cvt8 LOOPCOUNT)) ;; (* X-component is iteration count *)
emit (add (reg LOOPCOUNT) (imm 1)) ;; (* Iteration count is X-component + 1 *)
l_loop_start <- new_label ;;
emit (L l_loop_start) ;;
block (flow_control.dest_offset instr + 1) ;;
emit (add (reg LOOPCOUNT_REG) (reg LOOPINC)) ;; (* Increment LOOPCOUNT_REG by Z-component *)
emit (sub (reg LOOPCOUNT) (imm 1)) ;; (* Increment loop count by 1 *)
emit (jnz l_loop_start) ;; (* Loop if not equal *)
set_looping false.

Definition JitFunction : Type := Instruction -> Jit unit.

Definition instr_table : list (option JitFunction) := [
  Some Compile_ADD;   (* add *)
  Some Compile_DP3;   (* dp3 *)
  Some Compile_DP4;   (* dp4 *)
  Some Compile_DPH;   (* dph *)
  None;               (* unknown *)
  Some Compile_EX2;   (* ex2 *)
  Some Compile_LG2;   (* lg2 *)
  None;               (* unknown *)
  Some Compile_MUL;   (* mul *)
  Some Compile_SGE;   (* sge *)
  Some Compile_SLT;   (* slt *)
  Some Compile_FLR;   (* flr *)
  Some Compile_MAX;   (* max *)
  Some Compile_MIN;   (* min *)
  Some Compile_RCP;   (* rcp *)
  Some Compile_RSQ;   (* rsq *)
  None;               (* unknown *)
  None;               (* unknown *)
  Some Compile_MOVA;  (* mova *)
  Some Compile_MOV;   (* mov *)
  None;               (* unknown *)
  None;               (* unknown *)
  None;               (* unknown *)
  None;               (* unknown *)
  Some Compile_DPH;   (* dphi *)
  None;               (* unknown *)
  Some Compile_SGE;   (* sgei *)
  Some Compile_SLT;   (* slti *)
  None;               (* unknown *)
  None;               (* unknown *)
  None;               (* unknown *)
  None;               (* unknown *)
  None;               (* unknown *)
  Some Compile_NOP;   (* nop *)
  Some Compile_END;   (* end *)
  None;               (* break *)
  Some Compile_CALL;  (* call *)
  Some Compile_CALLC; (* callc *)
  Some Compile_CALLU; (* callu *)
  Some Compile_IF;    (* ifu *)
  Some Compile_IF;    (* ifc *)
  Some Compile_LOOP;  (* loop *)
  None;               (* emit *)
  None;               (* sete *)
  Some Compile_JMP;   (* jmpc *)
  Some Compile_JMP;   (* jmpu *)
  Some Compile_CMP;   (* cmp *)
  Some Compile_CMP;   (* cmp *)
  Some Compile_MAD;   (* madi *)
  Some Compile_MAD;   (* madi *)
  Some Compile_MAD;   (* madi *)
  Some Compile_MAD;   (* madi *)
  Some Compile_MAD;   (* madi *)
  Some Compile_MAD;   (* madi *)
  Some Compile_MAD;   (* madi *)
  Some Compile_MAD;   (* madi *)
  Some Compile_MAD;   (* mad *)
  Some Compile_MAD;   (* mad *)
  Some Compile_MAD;   (* mad *)
  Some Compile_MAD;   (* mad *)
  Some Compile_MAD;   (* mad *)
  Some Compile_MAD;   (* mad *)
  Some Compile_MAD;   (* mad *)
  Some Compile_MAD    (* mad *)
].

Definition Compile_NextInstr : Jit unit :=
offsets <- get_return_offsets ;;
pc <- get_program_counter ;;
(if binary_search offsets pc then Compile_Return else skip) ;;
l <- instruction_labels_at pc ;;
emit (L l) ;;
set_program_counter (pc + 1) ;;
instr <- GetVertexShaderInstruction pc ;;
match nth (Z.to_nat (opcode instr)) instr_table None with
| Some instr_func =>
    (* JIT the instruction! *)
    instr_func instr
| None =>
    (* Unhandled instruction *)
    LOG_CRITICAL (Unhandled_instruction (OpCode.EffectiveOpCode (opcode instr)) instr)
end.

End Dispatch.

(** [while (program_counter < end) Compile_NextInstr();] with one unit of
    fuel per nested call. *)
Fixpoint Compile_Block (fuel : nat) (end_ : Z) : Jit unit :=
fun s =>
  if program_counter s <? end_ then
    match fuel with
    | O => OutOfFuel
    | S fuel' =>
        (Compile_NextInstr (Compile_Block fuel') ;; Compile_Block fuel' end_) s
    end
  else Done (tt, s).

(** The offsets pushed by the loop of [FindReturnOffsets]. *)
Fixpoint call_return_offsets (prog : list Z) : list Z :=
match prog with
| [] => []
| instr :: rest =>
    if (opcode instr =? OpCode.CALL) || (opcode instr =? OpCode.CALLC)
       || (opcode instr =? OpCode.CALLU)
    then (flow_control.dest_offset instr + flow_control.num_instructions instr)
         :: call_return_offsets rest
    else call_return_offsets rest
end.

Definition FindReturnOffsets : Jit unit :=
set_return_offsets [] ;;
(* Sort for efficient binary search later *)
set_return_offsets (sort (call_return_offsets (program_code vs))).

Definition Compile (fuel : nat) : Jit unit :=
(* Reset flow control state *)
program <- get_code ;;
set_program_counter 0 ;;
set_looping false ;;
(* Find all `CALL` instructions and identify return locations *)
FindReturnOffsets ;;
(* The stack pointer is 8 modulo 16 at the entry of a procedure *)
emit (ABI_PushRegistersAndAdjustStack ABI_ALL_CALLEE_SAVED 8) ;;
emit (mov (reg SETUP) (reg (ABI_PARAM1 host))) ;;
emit (mov (reg STATE) (reg (ABI_PARAM2 host))) ;;
(* Zero address/loop  registers *)
emit (xor_ (reg (cvt32 ADDROFFS_REG_0)) (reg (cvt32 ADDROFFS_REG_0))) ;;
emit (xor_ (reg (cvt32 ADDROFFS_REG_1)) (reg (cvt32 ADDROFFS_REG_1))) ;;
emit (xor_ (reg LOOPCOUNT_REG) (reg LOOPCOUNT_REG)) ;;
(* Used to set a register to one *)
emit (mov (reg rax) (address_of static_one)) ;;
emit (movaps (xreg ONE) (xword (at_ rax 0))) ;;
(* Used to negate registers *)
emit (mov (reg rax) (address_of static_neg)) ;;
emit (movaps (xreg NEGBIT) (xword (at_ rax 0))) ;;
(* Jump to start of the shader program *)
emit (jmp_reg (ABI_PARAM3 host)) ;;
(* Compile entire program *)
Compile_Block fuel (Z.of_nat (List.length (program_code vs))) ;;
(* Free memory that's no longer needed *)
set_return_offsets [] ;;
c <- get_code ;;
let size := code_size host (skipn (List.length program) c) in
ASSERT_MSG (size <=? MAX_SHADER_SIZE host)
           "Compiled a shader that exceeds the allocated size!".

End JitShader.

(** A fresh [JitShader]. *)
Definition JitShader_new : JitShader :=
{| code := []; program_counter := 0; looping := false; return_offsets := [];
   label_id := 0; log := [] |}.

(* ===================================================================== *)
(** * Vocabulary of the statements *)
(* ===================================================================== *)

(** [Emits a c]: the member function [a] returns normally from every state
    and its only effect is to append [c] to the code buffer. *)
Definition Emits (a : Jit unit) (c : list Insn) : Prop :=
forall s, a s = Done (tt, append_code c s).

(** [m'] differs from [m] in the SSE registers [changed] at most. *)
Definition xmm_only (changed : list Xmm) (m m' : Machine) : Prop :=
gprs m' = gprs m /\ xmem m' = xmem m /\ qmem m' = qmem m /\ dmem m' = dmem m
/\ bmem m' = bmem m /\ ZF m' = ZF m /\ rip m' = rip m
/\ forall r, ~ In r changed -> xmms m' r = xmms m r.

(** The same host with or without SSE4.1. *)
Definition with_sse4_1 (b : bool) (h : Host) : Host :=
{| sse4_1 := b; ABI_PARAM1 := ABI_PARAM1 h; ABI_PARAM2 := ABI_PARAM2 h;
   ABI_PARAM3 := ABI_PARAM3 h;
   GetFloatUniformOffset := GetFloatUniformOffset h;
   GetBoolUniformOffset := GetBoolUniformOffset h;
   GetIntUniformOffset := GetIntUniformOffset h;
   InputOffset := InputOffset h; OutputOffset := OutputOffset h;
   MAX_SHADER_SIZE := MAX_SHADER_SIZE h; code_size := code_size h |}.

(** ** Operands of an instruction *)

(** The fields that [Compile_SwizzleSrc] and [Compile_DestEnable] select by
    the format of the instruction. *)
Definition is_mad (instr : Instruction) : bool :=
(OpCode.EffectiveOpCode (opcode instr) =? OpCode.MAD)
|| (OpCode.EffectiveOpCode (opcode instr) =? OpCode.MADI).

Definition descriptor (vs : ShaderSetup) (instr : Instruction) : SwizzlePattern :=
swizzle_data vs (if is_mad instr then mad.operand_desc_id instr
                 else common.operand_desc_id instr).

Definition destination (instr : Instruction) : DestRegister :=
if is_mad instr then mad.dest instr else common.dest instr.

Definition offset_src (instr : Instruction) : Z :=
if is_mad instr then (if OpCode.SrcInversed (opcode instr) then 3 else 2)
else (if OpCode.SrcInversed (opcode instr) then 2 else 1).

Definition address_register_index (instr : Instruction) : Z :=
if is_mad instr then mad.address_register_index instr
else common.address_register_index instr.

(** Address of the destination register in the unit state. *)
Definition destination_address (h : Host) (instr : Instruction) : Address :=
at_ STATE (OutputOffset h (destination instr)).

(** Base register and offset of a source register. *)
Definition source_base (h : Host) (src_reg : SourceRegister) : Reg * Z :=
if RegisterType_eqb (GetRegisterType src_reg) FloatUniform
then (SETUP, GetFloatUniformOffset h (GetIndex src_reg))
else (STATE, InputOffset h src_reg).

(** The offset survives the cast to [int] that [Compile_SwizzleSrc]
    asserts. *)
Definition offset_fits (h : Host) (src_reg : SourceRegister) : bool :=
snd (source_base h src_reg)
=? Bits.wrap64 (Bits.signed32 (snd (source_base h src_reg))).

Definition source_address (h : Host) (instr : Instruction) (src_num : Z)
  (src_reg : SourceRegister) : Address :=
let '(src_ptr, src_offset) := source_base h src_reg in
let d := Bits.signed32 src_offset in
if (src_num =? offset_src instr) && negb (address_register_index instr =? 0) then
  match address_register_index instr with
  | 1 => at_idx src_ptr ADDROFFS_REG_0 d
  | 2 => at_idx src_ptr ADDROFFS_REG_1 d
  | _ => at_idx src_ptr (cvt64 LOOPCOUNT_REG) d
  end
else at_ src_ptr d.

Definition shufps_selector (sel : Z) : Z :=
Z.lor (Z.lor (Z.lor (Z.shiftr (Z.land sel 0xc0) 6) (Z.shiftl (Z.land sel 3) 6))
             (Z.shiftl (Z.land sel 0xc) 2))
      (Z.shiftr (Z.land sel 0x30) 2).

Definition negated (swiz : SwizzlePattern) (src_num : Z) : bool :=
nth (Z.to_nat (src_num - 1)) [negate_src1 swiz; negate_src2 swiz; negate_src3 swiz] false.

(** The instructions of [Compile_SwizzleSrc], as a list. *)
Definition SwizzleSrc_code (h : Host) (vs : ShaderSetup) (instr : Instruction)
  (src_num : Z) (src_reg : SourceRegister) (dest : Xmm) : list Insn :=
let swiz := descriptor vs instr in
let sel := GetRawSelector swiz src_num in
[movaps (xreg dest) (xword (source_address h instr src_num src_reg))]
++ (if negb (sel =? NO_SRC_REG_SWIZZLE) then [shufps dest dest (shufps_selector sel)] else [])
++ (if negated swiz src_num then [xorps dest NEGBIT] else []).

(** The lane picks of a raw selector: bits 7-6 pick the source of lane 0. *)
Definition swizzle (sel : Z) (v : V4.t) : V4.t :=
V4.mk (V4.lane v (Bits.field 6 2 sel)) (V4.lane v (Bits.field 4 2 sel))
      (V4.lane v (Bits.field 2 2 sel)) (V4.lane v (Bits.field 0 2 sel)).

Definition selector_reversed (sel : Z) : bool :=
(Bits.field 0 2 (shufps_selector sel) =? Bits.field 6 2 sel)
&& (Bits.field 2 2 (shufps_selector sel) =? Bits.field 4 2 sel)
&& (Bits.field 4 2 (shufps_selector sel) =? Bits.field 2 2 sel)
&& (Bits.field 6 2 (shufps_selector sel) =? Bits.field 0 2 sel).

(** The vector that [Compile_SwizzleSrc] leaves in its destination register. *)
Definition resolved_source (h : Host) (vs : ShaderSetup) (instr : Instruction)
  (src_num : Z) (src_reg : SourceRegister) (m : Machine) : V4.t :=
let swiz := descriptor vs instr in
let v := swizzle (GetRawSelector swiz src_num)
                 (xmem m (ea m (source_address h instr src_num src_reg))) in
if negated swiz src_num then V4.map2 Z.lxor v (xmms m NEGBIT) else v.

(** The instructions of [Compile_DestEnable] for a mask [d], a displacement
    [off] and a result register [src], by path. *)
Definition DestEnable_code (sse : bool) (d off : Z) (src : Xmm) : list Insn :=
if d =? NO_DEST_REG_MASK then [movaps (xword (at_ STATE off)) (xreg src)]
else
  [movaps (xreg SCRATCH) (xword (at_ STATE off))]
  ++ (if sse then
        [blendps SCRATCH src
           (Z.lor (Z.lor (Z.lor (Z.shiftl (Z.land d 1) 3) (Z.shiftr (Z.land d 8) 3))
                         (Z.shiftl (Z.land d 2) 1))
                  (Z.shiftr (Z.land d 4) 1))]
      else
        [movaps (xreg SCRATCH2) (xreg src);
         unpckhps SCRATCH2 SCRATCH;
         unpcklps SCRATCH src;
         shufps SCRATCH SCRATCH2
           (Z.lor (Z.lor (Z.lor
              (Z.shiftl (if negb (Z.land d (Z.shiftr 8 0) =? 0) then 1 else 0) 0)
              (Z.shiftl (if negb (Z.land d (Z.shiftr 8 1) =? 0) then 3 else 2) 2))
              (Z.shiftl (if negb (Z.land d (Z.shiftr 8 2) =? 0) then 0 else 1) 4))
              (Z.shiftl (if negb (Z.land d (Z.shiftr 8 3) =? 0) then 2 else 3) 6))])
  ++ [movaps (xword (at_ STATE off)) (xreg SCRATCH)].

(** The vector that the store leaves in the destination: the result in the
    lanes that the mask [d] enables, the prior value in the others. *)
Definition merged (d : Z) (result prior : V4.t) : V4.t :=
V4.mk (if negb (Z.land d 8 =? 0) then V4.x result else V4.x prior)
      (if negb (Z.land d 4 =? 0) then V4.y result else V4.y prior)
      (if negb (Z.land d 2 =? 0) then V4.z result else V4.z prior)
      (if negb (Z.land d 1 =? 0) then V4.w result else V4.w prior).

(** ** The sanitized multiplication *)

(** The instructions of [Compile_SanitizedMul], as a list. *)
Definition SanitizedMul_code (src1 src2 scratch : Xmm) : list Insn :=
[movaps (xreg scratch) (xreg src1); cmpordps scratch src2; mulps src1 src2;
 movaps (xreg src2) (xreg src1); cmpunordps src2 src2; xorps scratch src2;
 andps src1 scratch].

(** What they compute in a lane of [src1] from the lanes [a] of [src1] and
    [b] of [src2]: the product, masked by the exclusive or of "the factors
    are ordered" and "the product is a NaN". *)
Definition sanitized_mul (a b : Z) : Z :=
let p := F32.mul a b in
Z.land p (Z.lxor (F32.mask_of (negb (F32.unordered a b)))
                 (F32.mask_of (F32.unordered p p))).

(** ** MOVA *)

(** The instructions that [Compile_MOVA] emits after the source load. *)
Definition MOVA_tail (en0 en1 : bool) : list Insn :=
[cvttps2dq SRC1 SRC1; movq rax SRC1]
++ (if en0 && en1 then
      [movsxd ADDROFFS_REG_0 eax; shr rax 32; movsxd ADDROFFS_REG_1 eax;
       shl ADDROFFS_REG_0 4; shl ADDROFFS_REG_1 4]
    else if en0 then [movsxd ADDROFFS_REG_0 eax; shl ADDROFFS_REG_0 4]
    else if en1 then [shr rax 32; movsxd ADDROFFS_REG_1 eax; shl ADDROFFS_REG_1 4]
    else []).

Local Open Scope jit_scope.


(** [Steady a]: when the member function [a] returns, it has only appended
    to the code buffer and has left the return offsets alone. *)
Definition Steady {A : Type} (a : Jit A) : Prop :=
forall s x s', a s = Done (x, s') ->
  (exists c, code s' = code s ++ c) /\ return_offsets s' = return_offsets s.


(** ** Flow control *)

(** The code that a failed [Compile_Assert] emits. *)
Definition diagnostic (h : Host) (msg : string) : list Insn :=
[mov (reg (ABI_PARAM1 h)) (address_of (message msg)); CallFarFunction LogCritical].

(** The instructions of [Compile_Return] for the offset [pc] and the local
    label [b]. *)
Definition Return_code (pc : Z) (b : Label) : list Insn :=
[mov (reg rax) (qword (at_ rsp 8)); cmp (reg eax) (imm pc); jnz b; ret; L b].

(** The instructions of [Compile_CALL]. *)
Definition CALL_code (instr : Instruction) : list Insn :=
[push (flow_control.dest_offset instr + flow_control.num_instructions instr);
 call (instruction_labels (flow_control.dest_offset instr));
 add (reg rsp) (imm 8)].

(** The instructions of [Compile_EvaluateCondition] and of
    [Compile_UniformCondition]. *)
Definition EvaluateCondition_code (instr : Instruction) : list Insn :=
let op := flow_control.op instr in
let x := xor_ (reg eax) (imm (Z.lxor (flow_control.refx instr) 1)) in
let y := xor_ (reg ebx) (imm (Z.lxor (flow_control.refy instr) 1)) in
if op =? Or then
  [mov (reg eax) (reg COND0); mov (reg ebx) (reg COND1); x; y; or_ (reg eax) (reg ebx)]
else if op =? And then
  [mov (reg eax) (reg COND0); mov (reg ebx) (reg COND1); x; y; and_ (reg eax) (reg ebx)]
else if op =? JustX then
  [mov (reg eax) (reg COND0); x]
else if op =? JustY then
  [mov (reg eax) (reg COND1); xor_ (reg eax) (imm (Z.lxor (flow_control.refy instr) 1))]
else [].

Definition UniformCondition_code (h : Host) (instr : Instruction) : list Insn :=
[cmp (byte (at_ SETUP (GetBoolUniformOffset h (flow_control.bool_uniform_id instr)))) (imm 0)].

(** The instructions of [Compile_LOOP] before and after the loop body. *)
Definition LOOP_head (h : Host) (instr : Instruction) (l : Label) : list Insn :=
[mov (reg LOOPCOUNT)
     (dword (at_ SETUP (GetIntUniformOffset h (flow_control.int_uniform_id instr))));
 mov (reg LOOPCOUNT_REG) (reg LOOPCOUNT);
 shr LOOPCOUNT_REG 4;
 and_ (reg LOOPCOUNT_REG) (imm 0xFF0);
 mov (reg LOOPINC) (reg LOOPCOUNT);
 shr LOOPINC 12;
 and_ (reg LOOPINC) (imm 0xFF0);
 movzx LOOPCOUNT (cvt8 LOOPCOUNT);
 add (reg LOOPCOUNT) (imm 1);
 L l].

Definition LOOP_tail (l : Label) : list Insn :=
[add (reg LOOPCOUNT_REG) (reg LOOPINC); sub (reg LOOPCOUNT) (imm 1); jnz l].

(** The checks of [Compile_LOOP] and of [Compile_IF]: the code they leave
    in the buffer. *)
Definition LOOP_checks (h : Host) (instr : Instruction) (s : JitShader) : list Insn :=
(if flow_control.dest_offset instr >=? program_counter s then []
 else diagnostic h "Backwards loops not supported")
++ (if negb (looping s) then [] else diagnostic h "Nested loops not supported").

Definition IF_checks (h : Host) (instr : Instruction) (s : JitShader) : list Insn :=
if flow_control.dest_offset instr >=? program_counter s then []
else diagnostic h "Backwards if-statements not supported".

Definition IF_condition (h : Host) (instr : Instruction) : list Insn :=
if opcode instr =? OpCode.IFU then UniformCondition_code h instr
else if opcode instr =? OpCode.IFC then EvaluateCondition_code instr
else [].

(** What [Compile_LOOP] and [Compile_IF] do after the first block. *)
Definition LOOP_after (l : Label) : Jit unit :=
emit (add (reg LOOPCOUNT_REG) (reg LOOPINC)) ;;
emit (sub (reg LOOPCOUNT) (imm 1)) ;;
emit (jnz l) ;;
set_looping false.

Definition IF_after (block : Z -> Jit unit) (instr : Instruction)
  (l_else l_endif : Label) : Jit unit :=
if flow_control.num_instructions instr =? 0 then emit (L l_else)
else
  emit (jmp l_endif) ;;
  emit (L l_else) ;;
  block (flow_control.dest_offset instr + flow_control.num_instructions instr) ;;
  emit (L l_endif).

(** State of the compiler when it enters the first block of a LOOP or IF. *)
Definition LOOP_entry (h : Host) (instr : Instruction) (s : JitShader) : JitShader :=
{| code := code s ++ LOOP_checks h instr s
                  ++ LOOP_head h instr (local_label (label_id s));
   program_counter := program_counter s;
   looping := true;
   return_offsets := return_offsets s;
   label_id := S (label_id s);
   log := log s |}.

Definition IF_entry (h : Host) (instr : Instruction) (s : JitShader) : JitShader :=
{| code := code s ++ IF_checks h instr s ++ IF_condition h instr
                  ++ [jz (local_label (label_id s))];
   program_counter := program_counter s;
   looping := looping s;
   return_offsets := return_offsets s;
   label_id := S (S (label_id s));
   log := log s |}.


(** The state in which [Compile_NextInstr] reads the instruction at [pc]:
    after the return check, if [pc] is a return offset, and the binding of
    the label of the instruction. *)
Definition NextInstr_entry (s : JitShader) : JitShader :=
let pc := program_counter s in
let check := binary_search (return_offsets s) pc in
{| code := code s
           ++ (if check then Return_code pc (local_label (label_id s)) else [])
           ++ [L (instruction_labels pc)];
   program_counter := pc + 1;
   looping := looping s;
   return_offsets := return_offsets s;
   label_id := if check then S (label_id s) else label_id s;
   log := log s |}.

(** The rest of [Compile_NextInstr]: the instruction is read and its
    generator called. *)
Definition dispatch (h : Host) (vs : ShaderSetup) (block : Z -> Jit unit) (pc : Z)
  : Jit unit :=
instr <- GetVertexShaderInstruction vs pc ;;
match nth (Z.to_nat (opcode instr)) (instr_table h vs block) None with
| Some instr_func => instr_func instr
| None => LOG_CRITICAL (Unhandled_instruction (OpCode.EffectiveOpCode (opcode instr)) instr)
end.

(** The opcodes without a generator in [instr_table]. *)
Definition unrecognized_opcodes : list Z :=
[4; 7; 16; 17; 20; 21; 22; 23; 25; 28; 29; 30; 31; 32; 35; 42; 43].

Definition table_entry_agrees (t : list (option JitFunction)) (n : nat) : bool :=
Bool.eqb (match nth n t None with None => true | Some _ => false end)
         (existsb (Z.eqb (Z.of_nat n)) unrecognized_opcodes).

(** The instructions whose return offset the scan of [FindReturnOffsets]
    collects. *)
Definition is_call (instr : Instruction) : bool :=
(opcode instr =? OpCode.CALL) || (opcode instr =? OpCode.CALLC)
|| (opcode instr =? OpCode.CALLU).

(** The entry sequence that [Compile] emits. *)
Definition prologue (h : Host) : list Insn :=
[ABI_PushRegistersAndAdjustStack ABI_ALL_CALLEE_SAVED 8;
 mov (reg SETUP) (reg (ABI_PARAM1 h));
 mov (reg STATE) (reg (ABI_PARAM2 h));
 xor_ (reg (cvt32 ADDROFFS_REG_0)) (reg (cvt32 ADDROFFS_REG_0));
 xor_ (reg (cvt32 ADDROFFS_REG_1)) (reg (cvt32 ADDROFFS_REG_1));
 xor_ (reg LOOPCOUNT_REG) (reg LOOPCOUNT_REG);
 mov (reg rax) (address_of static_one);
 movaps (xreg ONE) (xword (at_ rax 0));
 mov (reg rax) (address_of static_neg);
 movaps (xreg NEGBIT) (xword (at_ rax 0));
 jmp_reg (ABI_PARAM3 h)].

(** The state in which [Compile] starts the dispatch loop, and what it does
    after the loop. *)
Definition Compile_entry (h : Host) (vs : ShaderSetup) (s : JitShader) : JitShader :=
{| code := code s ++ prologue h;
   program_counter := 0;
   looping := false;
   return_offsets := sort (call_return_offsets (program_code vs));
   label_id := label_id s;
   log := log s |}.

Definition Compile_finish (h : Host) (program : list Insn) : Jit unit :=
set_return_offsets [] ;;
c <- get_code ;;
ASSERT_MSG (code_size h (skipn (List.length program) c) <=? MAX_SHADER_SIZE h)
           "Compiled a shader that exceeds the allocated size!".


(** ** Instructions that run in sequence *)

(** The general-purpose register that an instruction writes. *)
Definition written_gpr (i : Insn) : option Gpr :=
match i with
| mov (reg r) _ | movzx r _ | movsxd r _
| add (reg r) _ | sub (reg r) _ | and_ (reg r) _ | or_ (reg r) _ | xor_ (reg r) _
| shr r _ | shl r _ | movq r _ => Some (gpr_of r)
| push _ => Some RSP
| _ => None
end.

Definition readable (o : Operand) : bool :=
match o with address_of _ => false | _ => true end.

Definition is_reg (o : Operand) : bool :=
match o with reg _ => true | _ => false end.

Definition known_predicate (p : Z) : bool :=
(p =? 0) || (p =? 1) || (p =? 2) || (p =? 3) || (p =? 4) || (p =? 7).

(** The instructions that [exec] runs, whatever the state. *)
Definition sequential (i : Insn) : bool :=
match i with
| mov dst src | add dst src | sub dst src | and_ dst src | or_ dst src
| xor_ dst src => is_reg dst && readable src
| cmp a b => readable a && readable b
| cmpps _ _ p | cmpss _ _ p => known_predicate p
| movzx _ _ | movsxd _ _ | shr _ _ | shl _ _ | push _ | L _ | movaps _ _
| movss _ _ | movq _ _ | shufps _ _ _ | xorps _ _ | andps _ _ | blendps _ _ _
| unpckhps _ _ | unpcklps _ _ | unpcklpd _ _ | mulps _ _ | addps _ _
| maxps _ _ | minps _ _ | cvttps2dq _ _ | cvtdq2ps _ _ => true
| _ => false
end.

(** Sequential instructions that leave a set of registers alone. *)
Definition keeps (regs : list Gpr) (i : Insn) : bool :=
sequential i
&& match written_gpr i with
   | Some g => negb (existsb (Nat.eqb g) regs)
   | None => true
   end.



(** ** Subroutine calls *)

(** The instructions of [Compile_CALLC] and of [Compile_CALLU] for the
    local label [b]. *)
Definition CALLC_code (instr : Instruction) (b : Label) : list Insn :=
EvaluateCondition_code instr ++ [jz b] ++ CALL_code instr ++ [L b].

Definition CALLU_code (h : Host) (instr : Instruction) (b : Label) : list Insn :=
UniformCondition_code h instr ++ [jz b] ++ CALL_code instr ++ [L b].

Definition no_label (i : Insn) : bool :=
match i with L _ => false | _ => true end.


(** ** A host, a shader and a machine for the examples *)

(** A host with the System V calling convention, the float uniforms at the
    start of the uniform block, the boolean and integer uniforms after
    them, and the input, output and temporary registers of the unit state
    in this order. *)
Definition example_host : Host :=
{| sse4_1 := true;
   ABI_PARAM1 := Reg64 RDI; ABI_PARAM2 := Reg64 RSI; ABI_PARAM3 := Reg64 RDX;
   GetFloatUniformOffset := fun i => 16 * i;
   GetBoolUniformOffset := fun i => 1536 + i;
   GetIntUniformOffset := fun i => 1552 + 4 * i;
   InputOffset := fun r => if r <? 0x10 then 16 * r else 512 + 16 * (r - 0x10);
   OutputOffset := fun r => if r <? 0x10 then 256 + 16 * r else 512 + 16 * (r - 0x10);
   MAX_SHADER_SIZE := 65536;
   code_size := fun c => 8 * Z.of_nat (List.length c) |}.

(** Instruction words of the arithmetic and of the flow-control format. *)
Definition arith_word (op dest src1 src2 desc : Z) : Instruction :=
op * 2 ^ 26 + dest * 2 ^ 21 + src1 * 2 ^ 12 + src2 * 2 ^ 7 + desc.

Definition flow_word (op dest_offset num_instructions : Z) : Instruction :=
op * 2 ^ 26 + dest_offset * 2 ^ 10 + num_instructions.

(** An operand descriptor with identity selectors, no negation and the
    destination mask [d]. *)
Definition plain_descriptor (d : Z) : SwizzlePattern :=
d + 0x1b * 2 ^ 5 + 0x1b * 2 ^ 14 + 0x1b * 2 ^ 23.

(** A machine with the unit state at address 4096, the uniforms at 8192 and
    the stack pointer at 65536; memory cell [a] holds a vector made from
    [a]. *)
Definition example_machine : Machine :=
{| gprs := fun g => if Nat.eqb g R15 then 4096
                    else if Nat.eqb g R9 then 8192
                    else if Nat.eqb g RSP then 65536 else 0;
   xmms := fun r => V4.mk (Z.of_nat r) (Z.of_nat r + 100) (Z.of_nat r + 200) (Z.of_nat r + 300);
   ZF := false;
   rip := 0;
   xmem := fun a => V4.mk a (a + 1) (a + 2) (a + 3);
   dmem := fun a => 0x00010003;
   bmem := fun a => 0;
   qmem := fun a => 0 |}.

(** MOV o0.xz, v1 with descriptor 0, whose mask enables lanes 0 and 2. *)
Definition example_mov : Instruction := arith_word OpCode.MOV 0 1 0 0.

Definition example_setup : ShaderSetup :=
{| program_code := [example_mov; flow_word OpCode.END 0 0];
   swizzle_data := fun _ => plain_descriptor 10 |}.

(** Bit patterns of some binary32 values. *)
Definition f32_NaN : Z := 0x7FC00000.
Definition f32_one : Z := 0x3F800000.
Definition f32_five : Z := 0x40A00000.
Definition f32_zero : Z := 0.
Definition f32_infinity : Z := 0x7F800000.

(** [example_machine] with [SRC1] = (NaN, 0, NaN, 5) and
    [SRC2] = (1, infinity, NaN, 5). *)
Definition nan_machine : Machine :=
set_xmm SRC2 (V4.mk f32_one f32_infinity f32_NaN f32_five)
  (set_xmm SRC1 (V4.mk f32_NaN f32_zero f32_NaN f32_five) example_machine).

(** MUL and MAX o0.xz, v1, v2 with descriptor 0. *)
Definition example_mul : Instruction := arith_word OpCode.MUL 0 1 2 0.
Definition example_max : Instruction := arith_word OpCode.MAX 0 1 2 0.

(** MOVA a0.x, v1: descriptor 1 enables lane 0 only; descriptor 2 enables
    lane 1 only; descriptor 3 enables lanes 2 and 3. *)
Definition example_mova (desc : Z) : Instruction := arith_word OpCode.MOVA 0 1 0 desc.

Definition mova_setup : ShaderSetup :=
{| program_code := [example_mova 1; flow_word OpCode.END 0 0];
   swizzle_data := fun id => plain_descriptor (if id =? 1 then 8 else if id =? 2 then 4 else 3) |}.

(** A LOOP at offset 1 that targets offset 0; a LOOP inside the body of a
    LOOP; an IFU at offset 1 that targets offset 0. *)
Definition backward_loop_setup : ShaderSetup :=
{| program_code := [flow_word OpCode.NOP 0 0; flow_word OpCode.LOOP 0 0;
                    flow_word OpCode.END 0 0];
   swizzle_data := fun _ => plain_descriptor 15 |}.

Definition nested_loop_setup : ShaderSetup :=
{| program_code := [flow_word OpCode.LOOP 2 0; flow_word OpCode.LOOP 2 0;
                    flow_word OpCode.NOP 0 0; flow_word OpCode.END 0 0];
   swizzle_data := fun _ => plain_descriptor 15 |}.

Definition backward_if_setup : ShaderSetup :=
{| program_code := [flow_word OpCode.NOP 0 0; flow_word OpCode.IFU 0 0;
                    flow_word OpCode.END 0 0];
   swizzle_data := fun _ => plain_descriptor 15 |}.

(** The state of the compiler at offset 1 of these programs. *)
Definition at_offset_1 : JitShader :=
{| code := [L (instruction_labels 0)]; program_counter := 1; looping := false;
   return_offsets := []; label_id := 0; log := [] |}.

(** A program whose instruction at offset 1 has the opcode 4, which has no
    generator. *)
Definition unhandled_setup : ShaderSetup :=
{| program_code := [flow_word OpCode.NOP 0 0; flow_word 4 0 0;
                    flow_word OpCode.END 0 0];
   swizzle_data := fun _ => plain_descriptor 15 |}.

(** CALL of the subroutine at offsets 2 and 3, END, the subroutine (two
    NOP), END: offset 4 is the return offset. *)
Definition call_setup : ShaderSetup :=
{| program_code := [flow_word OpCode.CALL 2 2; flow_word OpCode.END 0 0;
                    flow_word OpCode.NOP 0 0; flow_word OpCode.NOP 0 0;
                    flow_word OpCode.END 0 0];
   swizzle_data := fun _ => plain_descriptor 15 |}.

(** The state of the compiler at offset 4 of this program. *)
Definition at_offset_4 : JitShader :=
{| code := [L (instruction_labels 0)] ++ CALL_code (flow_word OpCode.CALL 2 2)
           ++ [L (instruction_labels 1);
               ABI_PopRegistersAndAdjustStack ABI_ALL_CALLEE_SAVED 8; ret;
               L (instruction_labels 2); L (instruction_labels 3)];
   program_counter := 4; looping := false;
   return_offsets := [4]; label_id := 0; log := [] |}.

(** [example_machine] inside the subroutine: the return address 3 on top
    of the stack and the return offset 4 above it. *)
Definition in_subroutine (position : nat) : Machine :=
set_rip position
  (set_qmem 65520 3 (set_qmem 65528 4 (set_gpr RSP 65520 example_machine))).

(** A LOOP over the MOV at offset 1; the integer uniform of
    [example_machine] packs count 3, start 0 and increment 1. *)
Definition loop_setup : ShaderSetup :=
{| program_code := [flow_word OpCode.LOOP 1 0; example_mov; flow_word OpCode.END 0 0];
   swizzle_data := fun _ => plain_descriptor 15 |}.

(** [m'] differs from [m] at most in the three registers of the loop, the
    zero flag and the position. *)
Definition loop_frame (m m' : Machine) : Prop :=
xmms m' = xmms m /\ xmem m' = xmem m /\ qmem m' = qmem m /\ dmem m' = dmem m
/\ bmem m' = bmem m
/\ forall g, g <> gpr_of LOOPCOUNT -> g <> gpr_of LOOPINC -> g <> gpr_of LOOPCOUNT_REG ->
     gprs m' g = gprs m g.

(** [returns c top finish Q m1]: started in [m1], the code [c] comes to the
    position [finish] without passing the position [top], with the three
    registers of the loop as they were in [m1] and in a state in [Q]. *)
Definition returns (c : list Insn) (top finish : nat) (Q : Machine -> Prop)
  (m1 : Machine) : Prop :=
exists n m2,
  run n c m1 = Some m2 /\ rip m2 = finish /\ visits top n c m1 = 0%nat
  /\ gprs m2 (gpr_of LOOPCOUNT) = gprs m1 (gpr_of LOOPCOUNT)
  /\ gprs m2 (gpr_of LOOPINC) = gprs m1 (gpr_of LOOPINC)
  /\ gprs m2 (gpr_of LOOPCOUNT_REG) = gprs m1 (gpr_of LOOPCOUNT_REG)
  /\ Q m2.

(** A LOOP whose body calls the subroutine at offsets 3 and 4, which holds
    a LOOP of its own; offset 5 is the return offset.  Both loops read the
    integer uniform 0. *)
Definition call_loop_setup : ShaderSetup :=
{| program_code := [flow_word OpCode.LOOP 1 0; flow_word OpCode.CALL 3 2;
                    flow_word OpCode.END 0 0; flow_word OpCode.LOOP 4 0;
                    flow_word OpCode.NOP 0 0; flow_word OpCode.NOP 0 0;
                    flow_word OpCode.END 0 0];
   swizzle_data := fun _ => plain_descriptor 15 |}.


(** * Definitions for the other member functions *)

(** The constant that [Compile] loads into [ONE]. *)
Definition ones : V4.t := V4.mk f32_one f32_one f32_one f32_one.

(** 1.0 for true and +0 for false. *)
Definition one_if (c : bool) : Z := if c then f32_one else f32_zero.

(** The sources of an instruction with an inverted form [inv]. *)
Definition first_source (inv : Z) (instr : Instruction) : SourceRegister :=
if OpCode.EffectiveOpCode (opcode instr) =? inv then common.src1i instr
else common.src1 instr.

Definition second_source (inv : Z) (instr : Instruction) : SourceRegister :=
if OpCode.EffectiveOpCode (opcode instr) =? inv then common.src2i instr
else common.src2 instr.

(** [example_machine] with the constants of the prologue in [ONE] and
    [NEGBIT]. *)
Definition started_machine : Machine :=
set_xmm NEGBIT (V4.mk 0x80000000 0x80000000 0x80000000 0x80000000)
  (set_xmm ONE ones example_machine).

(** The second and third source of MAD and MADI. *)
Definition mad_source (n : Z) (instr : Instruction) : SourceRegister :=
if n =? 1 then mad.src1 instr
else if OpCode.EffectiveOpCode (opcode instr) =? OpCode.MADI
     then (if n =? 2 then mad.src2i instr else mad.src3i instr)
     else (if n =? 2 then mad.src2 instr else mad.src3 instr).

(** The instructions of [Compile_DP3] and of [Compile_DP4] after the
    multiplication. *)
Definition DP3_sum : list Insn :=
[movaps (xreg SRC2) (xreg SRC1); shufps SRC2 SRC2 (_MM_SHUFFLE 1 1 1 1);
 movaps (xreg SRC3) (xreg SRC1); shufps SRC3 SRC3 (_MM_SHUFFLE 2 2 2 2);
 shufps SRC1 SRC1 (_MM_SHUFFLE 0 0 0 0); addps SRC1 SRC2; addps SRC1 SRC3].

Definition DP4_sum : list Insn :=
[movaps (xreg SRC2) (xreg SRC1); shufps SRC1 SRC1 (_MM_SHUFFLE 2 3 0 1);
 addps SRC1 SRC2;
 movaps (xreg SRC2) (xreg SRC1); shufps SRC1 SRC1 (_MM_SHUFFLE 0 1 2 3);
 addps SRC1 SRC2].

(** The sums they leave in the lanes of [SRC1] for the products [p]. *)
Definition dot3 (p : V4.t) : Z :=
F32.add (F32.add (V4.x p) (V4.y p)) (V4.z p).

Definition dot4_lanes (p : V4.t) : V4.t :=
let xy := F32.add (V4.x p) (V4.y p) in
let yx := F32.add (V4.y p) (V4.x p) in
let zw := F32.add (V4.z p) (V4.w p) in
let wz := F32.add (V4.w p) (V4.z p) in
V4.mk (F32.add zw yx) (F32.add wz xy) (F32.add xy wz) (F32.add yx zw).

Definition dot4 (p : V4.t) : Z :=
F32.add (F32.add (V4.x p) (V4.y p)) (F32.add (V4.z p) (V4.w p)).

(** No lane is a NaN. *)
Definition ordered (v : V4.t) : bool :=
negb (F32.is_nan (V4.x v)) && negb (F32.is_nan (V4.y v))
&& negb (F32.is_nan (V4.z v)) && negb (F32.is_nan (V4.w v)).

(** A lane that is not a NaN or is the default NaN. *)
Definition default_if_nan (a : Z) : Prop := F32.is_nan a = true -> a = F32.default_nan.

(** The instructions of [Compile_DPH] that set the fourth lane of the first
    source to 1.0. *)
Definition DPH_one (sse : bool) : list Insn :=
if sse then [blendps SRC1 ONE 8]
else [movaps (xreg SCRATCH) (xreg SRC1); unpckhps SCRATCH ONE; unpcklpd SRC1 SCRATCH].

Definition with_w_one (v : V4.t) : V4.t := V4.mk (V4.x v) (V4.y v) (V4.z v) f32_one.

(** The rounding instructions of [Compile_FLR]. *)
Definition FLR_code (sse : bool) : list Insn :=
if sse then [roundps SRC1 SRC1 _MM_FROUND_FLOOR]
else [cvttps2dq SRC1 SRC1; cvtdq2ps SRC1 SRC1].

(** -2147483648.0 *)
Definition f32_min_int : Z := 0xCF000000.

(** -0.5 *)
Definition f32_minus_half : Z := 0xBF000000.

(** The value that MOVA gives to an address register for the source lane
    [v]: 16 times the truncated lane, as a 64-bit two's complement number. *)
Definition address_offset (v : Z) : Z :=
Bits.wrap64 (16 * Bits.signed32 (F32.truncate v)).

(** The constant that [Compile] loads into [NEGBIT]. *)
Definition sign_bits_vector : V4.t :=
V4.mk 0x80000000 0x80000000 0x80000000 0x80000000.

(** A descriptor that reverses the lanes of the first source and negates
    it. *)
Definition reversing_setup : ShaderSetup :=
{| program_code := [example_mov; flow_word OpCode.END 0 0];
   swizzle_data := fun _ => 15 + 2 ^ 4 + 0xE4 * 2 ^ 5 |}.

(** The comparison that an operator of CMP names: Equal, NotEqual, LessThan,
    LessEqual, GreaterThan, GreaterEqual, in this order from 0. *)
Definition compare_op (op : Z) (a b : Z) : bool :=
match op with
| 0 => F32.eqb a b
| 1 => negb (F32.eqb a b)
| 2 => F32.ltb a b
| 3 => F32.leb a b
| 4 => F32.ltb b a
| 5 => F32.leb b a
| _ => false
end.

(** The instructions of [Compile_CMP] after the source loads. *)
Definition CMP_code (instr : Instruction) : list Insn :=
let op_x := common.compare_op_x instr in
let op_y := common.compare_op_y instr in
let invert_op_x := (op_x =? GreaterThan) || (op_x =? GreaterEqual) in
let lhs_x := if invert_op_x then SRC2 else SRC1 in
let rhs_x := if invert_op_x then SRC1 else SRC2 in
(if op_x =? op_y then
   [cmpps lhs_x rhs_x (nth (Z.to_nat op_x) cmp_table 0); movq COND0 lhs_x;
    mov (reg COND1) (reg COND0)]
 else
   let invert_op_y := (op_y =? GreaterThan) || (op_y =? GreaterEqual) in
   let lhs_y := if invert_op_y then SRC2 else SRC1 in
   let rhs_y := if invert_op_y then SRC1 else SRC2 in
   [movaps (xreg SCRATCH) (xreg lhs_x);
    cmpss SCRATCH rhs_x (nth (Z.to_nat op_x) cmp_table 0);
    cmpps lhs_y rhs_y (nth (Z.to_nat op_y) cmp_table 0);
    movq COND0 SCRATCH; movq COND1 lhs_y])
++ [shr (cvt32 COND0) 31; shr COND1 63].

(** CMP with GreaterThan for x and LessEqual for y. *)
Definition example_cmp : Instruction :=
OpCode.CMP * 2 ^ 26 + 4 * 2 ^ 24 + 3 * 2 ^ 21 + 1 * 2 ^ 12 + 2 * 2 ^ 7.

(** The condition of a flow-control instruction for the results [c0] and
    [c1] of the last CMP: the x result is compared with [refx], the y result
    with [refy], and the two are combined by the operator. *)
Definition flow_condition (instr : Instruction) (c0 c1 : bool) : bool :=
let rx := Z.b2z c0 =? flow_control.refx instr in
let ry := Z.b2z c1 =? flow_control.refy instr in
let op := flow_control.op instr in
if op =? Or then rx || ry
else if op =? And then rx && ry
else if op =? JustX then rx
else ry.

(** The instructions of [Compile_JMP]. *)
Definition JMP_inverted (instr : Instruction) : bool :=
(opcode instr =? OpCode.JMPU)
&& negb (Z.land (flow_control.num_instructions instr) 1 =? 0).

Definition JMP_condition (h : Host) (instr : Instruction) : list Insn :=
if opcode instr =? OpCode.JMPC then EvaluateCondition_code instr
else UniformCondition_code h instr.

Definition JMP_code (h : Host) (instr : Instruction) : list Insn :=
let b := instruction_labels (flow_control.dest_offset instr) in
JMP_condition h instr ++ [if JMP_inverted instr then jz b else jnz b].

(** JMPC to offset 2 when the x result or the y result of the last CMP is
    0; NOP; END. *)
Definition jmp_setup : ShaderSetup :=
{| program_code := [flow_word OpCode.JMPC 2 0; flow_word OpCode.NOP 0 0;
                    flow_word OpCode.END 0 0];
   swizzle_data := fun _ => plain_descriptor 15 |}.

(** The instructions of a forward [Compile_IF] around the code [thenb] and
    [elseb] of its two blocks. *)
Definition IF_else (instr : Instruction) (l_else l_endif : Label) (elseb : list Insn)
  : list Insn :=
if flow_control.num_instructions instr =? 0 then [L l_else]
else [jmp l_endif; L l_else] ++ elseb ++ [L l_endif].

Definition IF_code (h : Host) (instr : Instruction) (l_else l_endif : Label)
  (thenb elseb : list Insn) : list Insn :=
(IF_condition h instr ++ [jz l_else]) ++ thenb ++ IF_else instr l_else l_endif elseb.

(** IFC over the MOV at offset 1, with the MOV at offset 2 as its else
    part; the condition is "the x result or the y result of the last CMP is
    0". *)
Definition if_setup : ShaderSetup :=
{| program_code := [flow_word OpCode.IFC 2 1; example_mov;
                    arith_word OpCode.MOV 1 2 0 0; flow_word OpCode.END 0 0];
   swizzle_data := fun _ => plain_descriptor 15 |}.

(** The labels bound in a piece of code, in order, and the label an
    instruction refers to. *)
Definition labels_of (c : list Insn) : list Label :=
flat_map (fun i => match i with L l => [l] | _ => [] end) c.

Definition target (i : Insn) : option Label :=
match i with
| jz l | jnz l | jmp l | call l => Some l
| _ => None
end.

(** An instruction that binds no label and refers to no local label. *)
Definition plain_insn (i : Insn) : bool :=
match i with
| L _ => false
| jz (local_label _) | jnz (local_label _) | jmp (local_label _)
| call (local_label _) => false
| _ => true
end.

(** [Bound p p' R c]: no label is bound twice in [c]; the labels of
    instructions bound in [c] are those of the offsets from [p] to
    [p' - 1]; the local labels bound in [c] have their id in [R]. *)
Definition Bound (p p' : Z) (R : nat -> Prop) (c : list Insn) : Prop :=
NoDup (labels_of c)
/\ (forall q, In (instruction_labels q) (labels_of c) <-> p <= q < p')
/\ (forall id, In (local_label id) (labels_of c) -> R id).

(** The ids of the local labels that a piece of code refers to. *)
Definition local_targets (c : list Insn) : list nat :=
flat_map (fun i => match target i with Some (local_label id) => [id] | _ => [] end) c.

(** [Closed c]: every local label that [c] refers to is bound in [c]. *)
Definition Closed (c : list Insn) : Prop :=
forall id, In id (local_targets c) -> In (local_label id) (labels_of c).

(** [Plain a]: the member function never runs out of fuel, and when it
    returns it has only appended plain instructions to the code buffer. *)
Definition Plain {A : Type} (a : Jit A) : Prop :=
forall s,
  match a s with
  | Done (_, s') => exists c, s' = append_code c s /\ forallb plain_insn c = true
  | OutOfFuel => False
  | _ => True
  end.

(** What a member function that returns has done: the program counter has
    not gone back and has not passed the end of the program unless it was
    there already; the code buffer has grown by a piece that is closed and
    binds the labels of the offsets passed and local labels allocated
    meanwhile. *)
Definition Inv (len : Z) (s s' : JitShader) : Prop :=
program_counter s <= program_counter s'
/\ program_counter s' <= Z.max (program_counter s) len
/\ (label_id s <= label_id s')%nat
/\ exists c,
     code s' = code s ++ c
     /\ Bound (program_counter s) (program_counter s')
              (fun id => (label_id s <= id < label_id s')%nat) c
     /\ Closed c.

(** Remaining instructions of the program. *)
Definition remaining (len : Z) (s : JitShader) : nat :=
Z.to_nat (len - program_counter s).

(** [Sound len f a]: from a state with less than [f] instructions remaining
    the member function does not run out of fuel, and whenever it returns,
    [Inv] relates the states. *)
Definition Sound (len : Z) (f : nat) {A : Type} (a : Jit A) : Prop :=
(forall s, (remaining len s < f)%nat -> a s <> OutOfFuel)
/\ (forall s x s', a s = Done (x, s') -> Inv len s s').

(** IFU over the MOV at offset 1 with the MOV at offset 2 as its else part,
    a LOOP over the MOV at offset 4, and a CALLC of the subroutine at
    offset 7, which returns to offset 8. *)
Definition flow_setup : ShaderSetup :=
{| program_code := [flow_word OpCode.IFU 2 1; example_mov;
                    arith_word OpCode.MOV 1 2 0 0;
                    flow_word OpCode.LOOP 4 0; example_mov;
                    flow_word OpCode.CALLC 7 1; flow_word OpCode.END 0 0;
                    flow_word OpCode.NOP 0 0; flow_word OpCode.END 0 0];
   swizzle_data := fun _ => plain_descriptor 15 |}.


(* ===================================================================== *)
(** * Properties *)
(* ===================================================================== *)

(** ** Bit fields *)

Lemma field_range pos len w : 0 <= len -> 0 <= Bits.field pos len w < 2 ^ len.
Proof.
  intros H. unfold Bits.field. rewrite Z.land_ones by assumption.
  apply Z.mod_pos_bound. apply Z.pow_pos_nonneg; lia.
Qed.

Lemma dest_mask_range s : 0 <= dest_mask s < 16.
Proof. exact (field_range 0 4 s ltac:(lia)). Qed.

Lemma mask_cases (P : Z -> Prop) :
  P 0 -> P 1 -> P 2 -> P 3 -> P 4 -> P 5 -> P 6 -> P 7 ->
  P 8 -> P 9 -> P 10 -> P 11 -> P 12 -> P 13 -> P 14 -> P 15 ->
  forall d, 0 <= d < 16 -> P d.
Proof.
  intros.
  assert (d = 0 \/ d = 1 \/ d = 2 \/ d = 3 \/ d = 4 \/ d = 5 \/ d = 6 \/ d = 7 \/
          d = 8 \/ d = 9 \/ d = 10 \/ d = 11 \/ d = 12 \/ d = 13 \/ d = 14 \/ d = 15)
    as E by lia.
  intuition (subst; assumption).
Qed.

Lemma GetRawSelector_range s n : 0 <= GetRawSelector s n < 256.
Proof.
  unfold GetRawSelector, src1_selector, src2_selector, src3_selector.
  destruct n as [|[[p|p|]|[p|p|]|]|]; apply (field_range _ 8); lia.
Qed.

(** ** The code buffer *)

Lemma append_code_app c1 c2 s :
  append_code c2 (append_code c1 s) = append_code (c1 ++ c2) s.
Proof. unfold append_code; simpl. now rewrite app_assoc. Qed.

Lemma append_code_nil s : append_code [] s = s.
Proof. destruct s; unfold append_code; simpl. now rewrite app_nil_r. Qed.

Lemma Emits_skip : Emits skip [].
Proof. intros s. unfold skip, pure. now rewrite append_code_nil. Qed.

Lemma Emits_emit i : Emits (emit i) [i].
Proof. intros s. reflexivity. Qed.

Lemma Emits_bind a b ca cb :
  Emits a ca -> Emits b cb -> Emits (bind a (fun _ => b)) (ca ++ cb).
Proof.
  intros Ha Hb s. unfold bind. rewrite Ha, Hb. now rewrite append_code_app.
Qed.

Lemma Emits_cons i b cb :
  Emits b cb -> Emits (bind (emit i) (fun _ => b)) (i :: cb).
Proof. intros Hb. exact (Emits_bind _ _ [i] cb (Emits_emit i) Hb). Qed.

Ltac emits :=
  repeat first [ apply Emits_emit | apply Emits_skip | apply Emits_cons
               | apply Emits_bind ].

Ltac run_jit :=
  cbv beta iota zeta; unfold bind, emit, skip, pure, ASSERT_MSG; cbn;
  rewrite ?append_code_app, ?append_code_nil; cbn.

(** ** The machine *)

Lemma upd_same {A} (f : nat -> A) k v : upd f k v k = v.
Proof. unfold upd. now rewrite Nat.eqb_refl. Qed.

Lemma upd_other {A} (f : nat -> A) k v j : j <> k -> upd f k v j = f j.
Proof. intros H. unfold upd. apply Nat.eqb_neq in H. now rewrite H. Qed.

Lemma updZ_same {A} (f : Z -> A) k v : updZ f k v k = v.
Proof. unfold updZ. now rewrite Z.eqb_refl. Qed.

Lemma updZ_other {A} (f : Z -> A) k v j : j <> k -> updZ f k v j = f j.
Proof. intros H. unfold updZ. apply Z.eqb_neq in H. now rewrite H. Qed.

(** Reads of an updated register file. *)
Ltac upd_simpl :=
  repeat first
    [ rewrite upd_same
    | rewrite upd_other by
        first [ assumption
              | (intro; congruence)
              | (let E := fresh in intro E; vm_compute in E; discriminate E) ] ].

Lemma exec_block_app c1 c2 m :
  exec_block (c1 ++ c2) m =
  match exec_block c1 m with Some m' => exec_block c2 m' | None => None end.
Proof.
  revert m. induction c1 as [|i c1 IH]; intros m; simpl; [reflexivity|].
  destruct (exec i m); [apply IH | reflexivity].
Qed.

Lemma ea_gprs m m' a : gprs m' = gprs m -> ea m' a = ea m a.
Proof. intros E. unfold ea. now rewrite E. Qed.

Lemma xmm_only_trans l1 l2 m1 m2 m3 :
  xmm_only l1 m1 m2 -> xmm_only l2 m2 m3 -> xmm_only (l1 ++ l2) m1 m3.
Proof.
  unfold xmm_only. intros (A1 & A2 & A3 & A4 & A5 & A6 & A7 & A8)
    (B1 & B2 & B3 & B4 & B5 & B6 & B7 & B8).
  repeat split; try congruence.
  intros r Hr. rewrite B8, A8; auto; intro; apply Hr; apply in_or_app; auto.
Qed.

(** ** The source load *)

Lemma Compile_SwizzleSrc_emits h vs instr src_num src_reg dest :
  offset_fits h src_reg = true ->
  Emits (Compile_SwizzleSrc h vs instr src_num src_reg dest)
        (SwizzleSrc_code h vs instr src_num src_reg dest).
Proof.
  unfold offset_fits, Compile_SwizzleSrc, SwizzleSrc_code, source_address,
    descriptor, offset_src, address_register_index, source_base, is_mad, negated.
  intros F s.
  pose proof (field_range 22 2 instr ltac:(lia)) as R1.
  pose proof (field_range 19 2 instr ltac:(lia)) as R2.
  fold (mad.address_register_index instr) in R1.
  fold (common.address_register_index instr) in R2.
  destruct (RegisterType_eqb (GetRegisterType src_reg) FloatUniform); cbn [snd] in F;
    rewrite F;
    destruct ((OpCode.EffectiveOpCode (opcode instr) =? OpCode.MAD)
              || (OpCode.EffectiveOpCode (opcode instr) =? OpCode.MADI));
    cbv beta iota zeta;
    match goal with |- context [negb (?sel =? NO_SRC_REG_SWIZZLE)] =>
      destruct (negb (sel =? NO_SRC_REG_SWIZZLE)) end;
    match goal with |- context [nth ?n ?l false] => destruct (nth n l false) end;
    match goal with |- context [?a && negb (?i =? 0)] =>
      destruct a; cbn [andb];
      [ assert (i = 0 \/ i = 1 \/ i = 2 \/ i = 3) as [E|[E|[E|E]]] by lia; rewrite E | ]
    end;
    run_jit; reflexivity.
Qed.

Lemma selector_reversed_all :
  forallb (fun n => selector_reversed (Z.of_nat n)) (seq 0 256) = true.
Proof. vm_compute. reflexivity. Qed.

Lemma shufps_selector_swizzle sel v :
  0 <= sel < 256 -> shuffle v v (shufps_selector sel) = swizzle sel v.
Proof.
  intros R.
  pose proof selector_reversed_all as A. rewrite forallb_forall in A.
  specialize (A (Z.to_nat sel)). rewrite Z2Nat.id in A by lia.
  assert (I : In (Z.to_nat sel) (seq 0 256)) by (apply in_seq; lia).
  apply A in I. unfold selector_reversed in I.
  rewrite !andb_true_iff, !Z.eqb_eq in I. destruct I as [[[I0 I1] I2] I3].
  unfold shuffle, swizzle. now rewrite I0, I1, I2, I3.
Qed.

Lemma swizzle_identity v : swizzle NO_SRC_REG_SWIZZLE v = v.
Proof. destruct v; reflexivity. Qed.

Lemma SwizzleSrc_code_runs h vs instr src_num src_reg dest m :
  dest <> NEGBIT ->
  exists m',
    exec_block (SwizzleSrc_code h vs instr src_num src_reg dest) m = Some m'
    /\ xmms m' dest = resolved_source h vs instr src_num src_reg m
    /\ xmm_only [dest] m m'.
Proof.
  intros N. assert (N' : NEGBIT <> dest) by congruence.
  unfold SwizzleSrc_code, resolved_source.
  set (swiz := descriptor vs instr).
  set (a := source_address h instr src_num src_reg).
  pose proof (GetRawSelector_range swiz src_num) as R.
  destruct (GetRawSelector swiz src_num =? NO_SRC_REG_SWIZZLE) eqn:S;
    destruct (negated swiz src_num); cbn; eexists; (split; [reflexivity|]);
    cbn; rewrite ?upd_same, ?(upd_other _ _ _ _ N'), ?upd_same;
    try (apply Z.eqb_eq in S; rewrite S, swizzle_identity);
    rewrite ?shufps_selector_swizzle by assumption;
    (split; [reflexivity|]); unfold xmm_only; cbn;
    repeat split; intros r Hr;
    rewrite ?upd_other by (intro; apply Hr; left; congruence);
    reflexivity.
Qed.

(** ** The destination store *)

Lemma Compile_DestEnable_emits h vs instr src :
  Emits (Compile_DestEnable h vs instr src)
        (DestEnable_code (sse4_1 h) (dest_mask (descriptor vs instr))
                         (OutputOffset h (destination instr)) src).
Proof.
  unfold Compile_DestEnable, DestEnable_code, descriptor, destination, is_mad,
    DestComponentEnabled.
  destruct ((OpCode.EffectiveOpCode (opcode instr) =? OpCode.MAD)
            || (OpCode.EffectiveOpCode (opcode instr) =? OpCode.MADI));
  match goal with |- context [dest_mask ?s =? _] => destruct (dest_mask s =? NO_DEST_REG_MASK) end;
  destruct (sse4_1 h); emits.
Qed.

Lemma DestEnable_code_runs sse d off src m :
  0 <= d < 16 -> src <> SCRATCH -> src <> SCRATCH2 ->
  exists m',
    exec_block (DestEnable_code sse d off src) m = Some m'
    /\ xmem m' = updZ (xmem m) (ea m (at_ STATE off))
                      (merged d (xmms m src) (xmem m (ea m (at_ STATE off))))
    /\ gprs m' = gprs m /\ qmem m' = qmem m /\ dmem m' = dmem m /\ bmem m' = bmem m
    /\ ZF m' = ZF m /\ rip m' = rip m
    /\ (forall r, r <> SCRATCH -> r <> SCRATCH2 -> xmms m' r = xmms m r).
Proof.
  intros R H1 H2. revert d R.
  apply mask_cases; destruct sse; eexists; (split; [reflexivity|]);
    cbn; upd_simpl; cbn; (repeat split; try reflexivity).
  all: try (intros r Hr1 Hr2; upd_simpl; reflexivity).
  all: try (destruct (xmms m src); reflexivity).
Qed.

(** ** Binary32 lanes *)

Lemma field_lor pos len a b :
  Bits.field pos len (Z.lor a b) = Z.lor (Bits.field pos len a) (Bits.field pos len b).
Proof. unfold Bits.field. now rewrite Z.shiftr_lor, Z.land_lor_distr_l. Qed.

Lemma is_nan_quiet a : F32.is_nan a = true -> F32.is_nan (F32.quiet a) = true.
Proof.
  unfold F32.is_nan, F32.quiet, F32.exponent_of, F32.fraction_of.
  rewrite !field_lor. intros H. apply andb_true_iff in H. destruct H as [E F].
  apply andb_true_iff. split.
  - change (Bits.field 23 8 4194304) with 0. now rewrite Z.lor_0_r.
  - apply negb_true_iff, Z.eqb_neq. intros C. apply Z.lor_eq_0_iff in C.
    destruct C as [_ C]. vm_compute in C. discriminate C.
Qed.

Lemma land_mask32 p : 0 <= p < 2 ^ 32 -> Z.land p 0xFFFFFFFF = p.
Proof.
  intros R. change 0xFFFFFFFF with (Z.ones 32).
  rewrite Z.land_ones by lia. now apply Z.mod_small.
Qed.

Lemma quiet_range a : 0 <= a < 2 ^ 32 -> 0 <= F32.quiet a < 2 ^ 32.
Proof.
  intros R. unfold F32.quiet. split.
  - apply Z.lor_nonneg. lia.
  - assert (E : Z.lor a 4194304 = Z.lor a 4194304 mod 2 ^ 32).
    { rewrite <- Z.land_ones by lia. rewrite Z.land_lor_distr_l.
      rewrite !Z.land_ones by lia. rewrite (Z.mod_small a) by lia. reflexivity. }
    rewrite E. apply Z.mod_pos_bound. lia.
Qed.

Lemma sign_bits_cases s : F32.sign_bits s = 0 \/ F32.sign_bits s = 2147483648.
Proof. destruct s; [right | left]; reflexivity. Qed.

Lemma of_SF_range x : 0 <= F32.of_SF x < 2 ^ 32.
Proof.
  change (2 ^ 32) with 4294967296.
  destruct x as [s|s| |s m e]; cbn [F32.of_SF]; unfold F32.infinity_bits, F32.default_nan;
    try (destruct (sign_bits_cases s) as [E|E]; rewrite E); try lia.
  all: change (2 ^ 23) with 8388608; change (2 ^ 24) with 16777216;
    destruct (Z.pos m <? 8388608) eqn:L1; [apply Z.ltb_lt in L1; lia|];
    destruct ((Z.pos m <? 16777216) && (1 <=? e + 150) && (e + 150 <=? 254)) eqn:L2;
    [| lia];
    rewrite !andb_true_iff in L2; destruct L2 as [[A B] C];
    apply Z.ltb_lt in A; apply Z.leb_le in B, C; apply Z.ltb_ge in L1; lia.
Qed.

Lemma exponent_of_eq b : F32.exponent_of b = (b / 8388608) mod 256.
Proof.
  unfold F32.exponent_of, Bits.field.
  rewrite Z.shiftr_div_pow2, Z.land_ones by lia. reflexivity.
Qed.

Lemma fraction_of_eq b : F32.fraction_of b = b mod 8388608.
Proof.
  unfold F32.fraction_of, Bits.field.
  rewrite Z.shiftr_0_r, Z.land_ones by lia. reflexivity.
Qed.

Lemma of_SF_is_nan x :
  F32.is_nan (F32.of_SF x) = match x with S754_nan => true | _ => false end.
Proof.
  destruct x as [s|s| |s m e]; try (destruct s; reflexivity); try reflexivity.
  unfold F32.is_nan. rewrite exponent_of_eq, fraction_of_eq.
  cbn [F32.of_SF]. change (2 ^ 23) with 8388608; change (2 ^ 24) with 16777216.
  unfold F32.infinity_bits.
  destruct (Z.pos m <? 8388608) eqn:L1.
  - apply Z.ltb_lt in L1. apply andb_false_iff. left. apply Z.eqb_neq.
    destruct (sign_bits_cases s) as [E|E]; rewrite E;
      Z.div_mod_to_equations; lia.
  - apply Z.ltb_ge in L1.
    destruct ((Z.pos m <? 16777216) && (1 <=? e + 150) && (e + 150 <=? 254)) eqn:L2.
    + rewrite !andb_true_iff in L2; destruct L2 as [[A B] C].
      apply Z.ltb_lt in A; apply Z.leb_le in B, C.
      apply andb_false_iff. left. apply Z.eqb_neq.
      destruct (sign_bits_cases s) as [E|E]; rewrite E;
        Z.div_mod_to_equations; lia.
    + apply andb_false_iff. right. apply negb_false_iff, Z.eqb_eq.
      destruct (sign_bits_cases s) as [E|E]; rewrite E; reflexivity.
Qed.

Lemma to_SF_nan a : F32.is_nan a = true -> F32.to_SF a = S754_nan.
Proof.
  unfold F32.is_nan, F32.to_SF. intros H. apply andb_true_iff in H.
  destruct H as [E F]. rewrite E. apply negb_true_iff in F. now rewrite F.
Qed.

Lemma to_SF_not_nan a : F32.is_nan a = false -> F32.to_SF a <> S754_nan.
Proof.
  unfold F32.is_nan, F32.to_SF. intros H.
  destruct (F32.exponent_of a =? 255).
  - cbn in H. apply negb_false_iff in H. rewrite H. discriminate.
  - destruct (F32.exponent_of a =? 0).
    + destruct (F32.fraction_of a); discriminate.
    + destruct (F32.fraction_of a + 2 ^ 23); discriminate.
Qed.

Lemma SFcompare_antisym x y c :
  SFcompare x y = Some c -> SFcompare y x = Some (CompOpp c).
Proof.
  destruct x as [sx|sx| |sx mx ex], y as [sy|sy| |sy my ey]; cbn;
    try discriminate; intros H; injection H as <-;
    try (destruct sx; reflexivity); try (destruct sy; reflexivity);
    try (destruct sx, sy; reflexivity).
  destruct sx, sy; try reflexivity;
    rewrite (Z.compare_antisym ex ey); destruct (ex ?= ey); cbn; try reflexivity;
    fold (Pos.compare mx my); fold (Pos.compare my mx);
    rewrite (Pos.compare_antisym mx my); destruct (mx ?= my)%positive; reflexivity.
Qed.

Lemma SFcompare_refl x : x <> S754_nan -> SFcompare x x = Some Eq.
Proof.
  destruct x as [s|s| |s m e]; cbn; intros H; try congruence;
    try (destruct s; reflexivity).
  destruct s; rewrite Z.compare_refl; fold (Pos.compare m m);
    rewrite Pos.compare_refl; reflexivity.
Qed.

Lemma SFcompare_total x y :
  x <> S754_nan -> y <> S754_nan -> exists c, SFcompare x y = Some c.
Proof.
  destruct x as [sx|sx| |sx mx ex], y as [sy|sy| |sy my ey]; cbn;
    intros Hx Hy; try congruence; eexists; reflexivity.
Qed.

(** Without a NaN, MAXPS returns an operand that is at least both. *)
Lemma max_is_maximum a b :
  F32.unordered a b = false ->
  (F32.max a b = a \/ F32.max a b = b)
  /\ F32.leb a (F32.max a b) = true /\ F32.leb b (F32.max a b) = true.
Proof.
  unfold F32.unordered. intros U. apply orb_false_iff in U. destruct U as [Na Nb].
  apply to_SF_not_nan in Na, Nb.
  unfold F32.max, F32.ltb, F32.leb, SFltb, SFleb.
  destruct (SFcompare_total _ _ Nb Na) as [c C].
  pose proof (SFcompare_antisym _ _ _ C) as C'.
  rewrite C. destruct c; cbn in C'; rewrite ?C, ?C', ?SFcompare_refl by assumption; auto.
Qed.

Lemma min_is_minimum a b :
  F32.unordered a b = false ->
  (F32.min a b = a \/ F32.min a b = b)
  /\ F32.leb (F32.min a b) a = true /\ F32.leb (F32.min a b) b = true.
Proof.
  unfold F32.unordered. intros U. apply orb_false_iff in U. destruct U as [Na Nb].
  apply to_SF_not_nan in Na, Nb.
  unfold F32.min, F32.ltb, F32.leb, SFltb, SFleb.
  destruct (SFcompare_total _ _ Na Nb) as [c C].
  pose proof (SFcompare_antisym _ _ _ C) as C'.
  rewrite C. destruct c; cbn in C'; rewrite ?C, ?C', ?SFcompare_refl by assumption; auto.
Qed.

(** With a NaN among the operands, MAXPS and MINPS return the second. *)
Lemma max_min_unordered a b :
  F32.unordered a b = true -> F32.max a b = b /\ F32.min a b = b.
Proof.
  unfold F32.unordered, F32.max, F32.min, F32.ltb, SFltb. intros U.
  apply orb_true_iff in U. destruct U as [N|N]; apply to_SF_nan in N; rewrite N.
  - cbn. destruct (F32.to_SF b); auto.
  - destruct (F32.to_SF a); auto.
Qed.

(** ** The sanitized multiplication *)


Lemma sanitized_mul_nan a b :
  0 <= a < 2 ^ 32 -> 0 <= b < 2 ^ 32 ->
  F32.unordered a b = true ->
  sanitized_mul a b = F32.mul a b /\ F32.is_nan (sanitized_mul a b) = true.
Proof.
  intros Ra Rb U. unfold sanitized_mul, F32.unordered in *.
  assert (P : F32.is_nan (F32.mul a b) = true /\ 0 <= F32.mul a b < 2 ^ 32).
  { unfold F32.mul, F32.arith. destruct (F32.is_nan a) eqn:Na.
    - split; [now apply is_nan_quiet | now apply quiet_range].
    - cbn in U. rewrite U. split; [now apply is_nan_quiet | now apply quiet_range]. }
  destruct P as [P R]. rewrite U, P. cbn [negb orb F32.mask_of Z.lxor].
  rewrite land_mask32 by assumption. auto.
Qed.

Lemma sanitized_mul_ordered a b :
  F32.unordered a b = false ->
  sanitized_mul a b =
  match SFmul F32.prec F32.emax (F32.to_SF a) (F32.to_SF b) with
  | S754_nan => 0
  | p => F32.of_SF p
  end.
Proof.
  intros U. unfold sanitized_mul. rewrite U.
  unfold F32.unordered in U. apply orb_false_iff in U. destruct U as [Na Nb].
  unfold F32.mul, F32.arith. rewrite Na, Nb.
  set (p := SFmul F32.prec F32.emax (F32.to_SF a) (F32.to_SF b)).
  unfold F32.unordered. rewrite orb_diag, of_SF_is_nan.
  pose proof (of_SF_range p) as R.
  destruct p; cbn [negb F32.mask_of Z.lxor];
    try (apply land_mask32; assumption).
  reflexivity.
Qed.

Local Open Scope jit_scope.

(** ** What every member function preserves *)

Lemma Steady_same {A} (a : Jit A) :
  (forall s x s', a s = Done (x, s') ->
     code s' = code s /\ return_offsets s' = return_offsets s) ->
  Steady a.
Proof.
  intros H s x s' E. destruct (H s x s' E) as [C R]. split; [|exact R].
  exists []. now rewrite app_nil_r.
Qed.

Lemma Steady_pure {A} (x : A) : Steady (pure x).
Proof. apply Steady_same. intros s y s' E. injection E as <- <-. auto. Qed.

Lemma Steady_skip : Steady skip.
Proof. apply Steady_pure. Qed.

Lemma Steady_emit i : Steady (emit i).
Proof. intros s x s' E. injection E as <- <-. cbn. eauto. Qed.

Lemma Steady_new_label : Steady new_label.
Proof. apply Steady_same. intros s y s' E. injection E as <- <-. auto. Qed.

Lemma Steady_get_program_counter : Steady get_program_counter.
Proof. apply Steady_same. intros s y s' E. injection E as <- <-. auto. Qed.

Lemma Steady_set_program_counter pc : Steady (set_program_counter pc).
Proof. apply Steady_same. intros s y s' E. injection E as <- <-. auto. Qed.

Lemma Steady_get_looping : Steady get_looping.
Proof. apply Steady_same. intros s y s' E. injection E as <- <-. auto. Qed.

Lemma Steady_set_looping b : Steady (set_looping b).
Proof. apply Steady_same. intros s y s' E. injection E as <- <-. auto. Qed.

Lemma Steady_get_return_offsets : Steady get_return_offsets.
Proof. apply Steady_same. intros s y s' E. injection E as <- <-. auto. Qed.

Lemma Steady_LOG_CRITICAL e : Steady (LOG_CRITICAL e).
Proof. apply Steady_same. intros s y s' E. injection E as <- <-. auto. Qed.

Lemma Steady_ASSERT_MSG c msg : Steady (ASSERT_MSG c msg).
Proof.
  apply Steady_same. intros s y s' E. unfold ASSERT_MSG in E.
  destruct c; [injection E as <- <-; auto | discriminate].
Qed.

Lemma Steady_UNREACHABLE : Steady UNREACHABLE.
Proof. intros s x s' E. discriminate. Qed.

Lemma Steady_cmp_lookup op : Steady (cmp_lookup op).
Proof.
  apply Steady_same. intros s y s' E. unfold cmp_lookup in E.
  destruct (nth_error cmp_table (Z.to_nat op)); [injection E as <- <-; auto | discriminate].
Qed.

Lemma Steady_GetVertexShaderInstruction vs offset :
  Steady (GetVertexShaderInstruction vs offset).
Proof.
  apply Steady_same. intros s y s' E. unfold GetVertexShaderInstruction in E.
  destruct (offset <? 0); [discriminate|].
  destruct (nth_error (program_code vs) (Z.to_nat offset));
    [injection E as <- <-; auto | discriminate].
Qed.

Lemma Steady_instruction_labels_at vs offset :
  Steady (instruction_labels_at vs offset).
Proof.
  apply Steady_same. intros s y s' E. unfold instruction_labels_at in E.
  destruct (_ && _); [injection E as <- <-; auto | discriminate].
Qed.

Lemma Steady_bind {A B} (a : Jit A) (f : A -> Jit B) :
  Steady a -> (forall x, Steady (f x)) -> Steady (bind a f).
Proof.
  intros Ha Hf s y s' E. unfold bind in E.
  destruct (a s) as [[x s1]| | |] eqn:Ea; try discriminate.
  destruct (Ha _ _ _ Ea) as [[c1 C1] R1].
  destruct (Hf x _ _ _ E) as [[c2 C2] R2].
  split; [|congruence]. exists (c1 ++ c2). now rewrite C2, C1, app_assoc.
Qed.

Create HintDb steady.

#[local] Hint Resolve Steady_pure Steady_skip Steady_emit Steady_new_label
  Steady_get_program_counter Steady_set_program_counter Steady_get_looping
  Steady_set_looping Steady_get_return_offsets Steady_LOG_CRITICAL
  Steady_ASSERT_MSG Steady_UNREACHABLE Steady_cmp_lookup
  Steady_GetVertexShaderInstruction Steady_instruction_labels_at : steady.

(** Descends through binds, conditionals and matches. *)
Ltac steady :=
  repeat first
    [ solve [auto with steady]
    | apply Steady_bind; [|intros ?]
    | match goal with
      | |- Steady (if ?b then _ else _) => destruct b
      | |- Steady (match ?x with _ => _ end) => destruct x
      | |- Steady (let _ := _ in _) => cbv zeta
      end ].

Lemma Steady_Compile_Assert h c msg : Steady (Compile_Assert h c msg).
Proof. unfold Compile_Assert. steady. Qed.

Lemma Steady_Compile_SwizzleSrc h vs instr n r d :
  Steady (Compile_SwizzleSrc h vs instr n r d).
Proof. unfold Compile_SwizzleSrc. steady. Qed.

Lemma Steady_Compile_DestEnable h vs instr src :
  Steady (Compile_DestEnable h vs instr src).
Proof. unfold Compile_DestEnable. steady. Qed.

Lemma Steady_Compile_SanitizedMul a b c : Steady (Compile_SanitizedMul a b c).
Proof. unfold Compile_SanitizedMul. steady. Qed.

Lemma Steady_Compile_EvaluateCondition instr : Steady (Compile_EvaluateCondition instr).
Proof. unfold Compile_EvaluateCondition. steady. Qed.

Lemma Steady_Compile_UniformCondition h instr : Steady (Compile_UniformCondition h instr).
Proof. unfold Compile_UniformCondition. steady. Qed.

Lemma Steady_Compile_Return : Steady Compile_Return.
Proof. unfold Compile_Return. steady. Qed.

#[local] Hint Resolve Steady_Compile_Assert Steady_Compile_SwizzleSrc
  Steady_Compile_DestEnable Steady_Compile_SanitizedMul
  Steady_Compile_EvaluateCondition Steady_Compile_UniformCondition
  Steady_Compile_Return : steady.

Lemma Steady_Compile_CALL vs instr : Steady (Compile_CALL vs instr).
Proof. unfold Compile_CALL. steady. Qed.

#[local] Hint Resolve Steady_Compile_CALL : steady.

(** The entries of the dispatch table. *)
Lemma Steady_instr_table h vs block :
  (forall e, Steady (block e)) ->
  Forall (fun o => match o with
                   | Some f => forall instr, Steady (f instr)
                   | None => True
                   end) (instr_table h vs block).
Proof.
  intros Hb. unfold instr_table.
  repeat (apply Forall_cons; [try exact I; intros instr|]); try apply Forall_nil.
  all: unfold Compile_ADD, Compile_DP3, Compile_DP4, Compile_DPH, Compile_EX2,
    Compile_LG2, Compile_MUL, Compile_SGE, Compile_SLT, Compile_FLR, Compile_MAX,
    Compile_MIN, Compile_RCP, Compile_RSQ, Compile_MOVA, Compile_MOV, Compile_NOP,
    Compile_END, Compile_CALLC, Compile_CALLU, Compile_IF, Compile_LOOP,
    Compile_JMP, Compile_CMP, Compile_MAD.
  all: steady.
Qed.

Lemma Steady_Compile_NextInstr h vs block :
  (forall e, Steady (block e)) -> Steady (Compile_NextInstr h vs block).
Proof.
  intros Hb. unfold Compile_NextInstr.
  do 7 (apply Steady_bind; [steady | intros ?]).
  pose proof (Steady_instr_table h vs block Hb) as T.
  rewrite Forall_forall in T.
  match goal with |- context [nth ?n _ None] =>
    destruct (nth_in_or_default n (instr_table h vs block) None) as [I|D]
  end.
  - specialize (T _ I). destruct (nth _ _ _); [apply T | steady].
  - rewrite D. steady.
Qed.

Lemma Steady_Compile_Block h vs fuel : forall e, Steady (Compile_Block h vs fuel e).
Proof.
  induction fuel as [|fuel IH]; intros e s x s' E; cbn in E;
    destruct (program_counter s <? e).
  - discriminate.
  - injection E as <- <-. split; [exists []; now rewrite app_nil_r | reflexivity].
  - revert E. apply Steady_bind; [now apply Steady_Compile_NextInstr | intros _; apply IH].
  - injection E as <- <-. split; [exists []; now rewrite app_nil_r | reflexivity].
Qed.

Lemma Compile_EvaluateCondition_emits instr :
  Emits (Compile_EvaluateCondition instr) (EvaluateCondition_code instr).
Proof.
  unfold Compile_EvaluateCondition, EvaluateCondition_code. cbv zeta.
  destruct (flow_control.op instr =? Or); [emits|].
  destruct (flow_control.op instr =? And); [emits|].
  destruct (flow_control.op instr =? JustX); [emits|].
  destruct (flow_control.op instr =? JustY); emits.
Qed.

Lemma Compile_UniformCondition_emits h instr :
  Emits (Compile_UniformCondition h instr) (UniformCondition_code h instr).
Proof. unfold Compile_UniformCondition, UniformCondition_code. emits. Qed.

Lemma Compile_Assert_emits h (c : bool) msg :
  Emits (Compile_Assert h c msg) (if c then [] else diagnostic h msg).
Proof. unfold Compile_Assert, diagnostic. destruct c; emits. Qed.

Lemma bind_Emits {A} (a : Jit unit) (c : list Insn) (f : unit -> Jit A) s :
  Emits a c -> bind a f s = f tt (append_code c s).
Proof. intros E. unfold bind. now rewrite E. Qed.

Lemma bind_emit {A} i (f : unit -> Jit A) s :
  bind (emit i) f s = f tt (append_code [i] s).
Proof. reflexivity. Qed.

Lemma bind_get_program_counter {A} (f : Z -> Jit A) s :
  bind get_program_counter f s = f (program_counter s) s.
Proof. reflexivity. Qed.

Lemma bind_get_looping {A} (f : bool -> Jit A) s :
  bind get_looping f s = f (looping s) s.
Proof. reflexivity. Qed.

Lemma bind_get_return_offsets {A} (f : list Z -> Jit A) s :
  bind get_return_offsets f s = f (return_offsets s) s.
Proof. reflexivity. Qed.

Lemma bind_new_label {A} (f : Label -> Jit A) s :
  bind new_label f s
  = f (local_label (label_id s))
      {| code := code s; program_counter := program_counter s;
         looping := looping s; return_offsets := return_offsets s;
         label_id := S (label_id s); log := log s |}.
Proof. reflexivity. Qed.

Lemma bind_set_looping {A} b (f : unit -> Jit A) s :
  bind (set_looping b) f s
  = f tt {| code := code s; program_counter := program_counter s;
            looping := b; return_offsets := return_offsets s;
            label_id := label_id s; log := log s |}.
Proof. reflexivity. Qed.

Lemma bind_set_program_counter {A} pc (f : unit -> Jit A) s :
  bind (set_program_counter pc) f s
  = f tt {| code := code s; program_counter := pc;
            looping := looping s; return_offsets := return_offsets s;
            label_id := label_id s; log := log s |}.
Proof. reflexivity. Qed.

(** Runs the leading primitive of a sequence. *)
Lemma bind_instruction_labels_at {B} vs offset (g : Label -> Jit B) s :
  0 <= offset < Z.of_nat (List.length (program_code vs)) ->
  bind (instruction_labels_at vs offset) g s = g (instruction_labels offset) s.
Proof.
  intros R. unfold bind, instruction_labels_at.
  replace ((0 <=? offset) && (offset <? _)) with true; [reflexivity|].
  symmetry. apply andb_true_iff. split; [apply Z.leb_le | apply Z.ltb_lt]; lia.
Qed.

Lemma bind_instruction_labels_at_outside {B} vs offset (g : Label -> Jit B) s :
  ~ 0 <= offset < Z.of_nat (List.length (program_code vs)) ->
  bind (instruction_labels_at vs offset) g s = Undefined.
Proof.
  intros R. unfold bind, instruction_labels_at.
  destruct ((0 <=? offset) && (offset <? _)) eqn:E; [|reflexivity].
  apply andb_true_iff in E. destruct E as [E1 E2].
  apply Z.leb_le in E1. apply Z.ltb_lt in E2. lia.
Qed.

Lemma dispatch_outside h vs block pc s :
  ~ 0 <= pc < Z.of_nat (List.length (program_code vs)) ->
  dispatch h vs block pc s = Undefined.
Proof.
  intros R. unfold dispatch, bind, GetVertexShaderInstruction.
  destruct (pc <? 0) eqn:N; [reflexivity|]. apply Z.ltb_ge in N.
  replace (nth_error (program_code vs) (Z.to_nat pc)) with (@None Instruction);
    [reflexivity|].
  symmetry. apply nth_error_None.
  destruct (Nat.le_gt_cases (List.length (program_code vs)) (Z.to_nat pc)) as [G|G];
    [exact G | exfalso; apply R; lia].
Qed.

Lemma in_table_dec (pc len : Z) : {0 <= pc < len} + {~ 0 <= pc < len}.
Proof.
  destruct (Z_le_dec 0 pc); [destruct (Z_lt_dec pc len)|]; auto; right; lia.
Qed.

Ltac jit_step :=
  lazymatch goal with
  | |- bind (emit _) _ _ = _ => rewrite bind_emit
  | |- bind get_program_counter _ _ = _ => rewrite bind_get_program_counter
  | |- bind get_looping _ _ = _ => rewrite bind_get_looping
  | |- bind get_return_offsets _ _ = _ => rewrite bind_get_return_offsets
  | |- bind new_label _ _ = _ => rewrite bind_new_label
  | |- bind (set_looping _) _ _ = _ => rewrite bind_set_looping
  | |- bind (set_program_counter _) _ _ = _ => rewrite bind_set_program_counter
  | |- bind (Compile_Assert _ _ _) _ _ = _ =>
      rewrite (bind_Emits _ _ _ _ (Compile_Assert_emits _ _ _))
  end.

Ltac state_fields :=
  cbn [append_code label_id code program_counter looping return_offsets log].

Ltac same_state :=
  rewrite ?append_code_app; unfold append_code; state_fields;
  rewrite <- ?app_assoc; reflexivity.

Lemma Compile_LOOP_unfolded h block instr s :
  Compile_LOOP h block instr s
  = (block (flow_control.dest_offset instr + 1) ;;
     LOOP_after (local_label (label_id s))) (LOOP_entry h instr s).
Proof.
  unfold Compile_LOOP, LOOP_after. repeat jit_step. state_fields.
  match goal with |- bind _ _ ?s1 = bind _ _ ?s2 =>
    replace s1 with s2; [reflexivity|] end.
  unfold LOOP_entry, LOOP_checks, LOOP_head. same_state.
Qed.

Lemma Compile_IF_unfolded h block instr s :
  Compile_IF h block instr s
  = (block (flow_control.dest_offset instr) ;;
     IF_after block instr (local_label (label_id s)) (local_label (S (label_id s))))
    (IF_entry h instr s).
Proof.
  unfold Compile_IF, IF_after. repeat jit_step.
  assert (C : Emits (if opcode instr =? OpCode.IFU then Compile_UniformCondition h instr
                     else if opcode instr =? OpCode.IFC then Compile_EvaluateCondition instr
                     else skip) (IF_condition h instr)).
  { unfold IF_condition.
    destruct (opcode instr =? OpCode.IFU); [apply Compile_UniformCondition_emits|].
    destruct (opcode instr =? OpCode.IFC); [apply Compile_EvaluateCondition_emits|].
    apply Emits_skip. }
  rewrite (bind_Emits _ _ _ _ C). repeat jit_step. state_fields.
  match goal with |- bind _ _ ?s1 = bind _ _ ?s2 =>
    replace s1 with s2; [reflexivity|] end.
  unfold IF_entry, IF_checks. same_state.
Qed.

(** A block that ends at or before the program counter is empty. *)
Lemma Compile_Block_empty h vs fuel e s :
  e <= program_counter s -> Compile_Block h vs fuel e s = Done (tt, s).
Proof.
  intros H. destruct fuel; cbn; apply Z.ltb_ge in H; now rewrite H.
Qed.



(** ** Sorting and searching the return offsets *)

Lemma insert_sorted_In v x l : In x (insert_sorted v l) <-> x = v \/ In x l.
Proof.
  induction l as [|h t IH]; cbn.
  - intuition.
  - destruct (v <=? h); cbn; rewrite ?IH; intuition.
Qed.

Lemma sort_In x l : In x (sort l) <-> In x l.
Proof.
  induction l as [|h t IH]; cbn; [reflexivity|].
  rewrite insert_sorted_In, IH. intuition.
Qed.

Lemma insert_sorted_StronglySorted v l :
  StronglySorted Z.le l -> StronglySorted Z.le (insert_sorted v l).
Proof.
  induction 1 as [|h t S IH F]; cbn.
  - constructor; constructor.
  - destruct (v <=? h) eqn:E.
    + apply Z.leb_le in E. constructor; [now constructor|].
      constructor; [assumption|]. rewrite Forall_forall in *. intros x Hx.
      specialize (F x Hx). lia.
    + apply Z.leb_gt in E. constructor; [assumption|].
      rewrite Forall_forall in *. intros x Hx. apply insert_sorted_In in Hx.
      destruct Hx as [->|Hx]; [lia | now apply F].
Qed.

Lemma sort_StronglySorted l : StronglySorted Z.le (sort l).
Proof.
  induction l as [|h t IH]; cbn; [constructor | now apply insert_sorted_StronglySorted].
Qed.

Lemma StronglySorted_nth l :
  StronglySorted Z.le l ->
  forall i j, (i <= j < List.length l)%nat -> nth i l 0 <= nth j l 0.
Proof.
  induction 1 as [|h t S IH F]; intros i j R; cbn in R; [lia|].
  destruct i, j; cbn; try lia.
  - rewrite Forall_forall in F. apply F, nth_In. lia.
  - apply IH. lia.
Qed.

(** The lower bound splits a sorted range: smaller elements before it, the
    others from it on. *)
Lemma lower_bound_spec l value :
  StronglySorted Z.le l ->
  forall fuel first count,
    (count <= fuel)%nat -> (first + count <= List.length l)%nat ->
    let r := lower_bound fuel l first count value in
    (first <= r <= first + count)%nat
    /\ (forall k, (first <= k < r)%nat -> nth k l 0 < value)
    /\ (forall k, (r <= k < first + count)%nat -> value <= nth k l 0).
Proof.
  intros Hs. pose proof (StronglySorted_nth l Hs) as M.
  induction fuel as [|fuel IH]; intros first count Hf Hl; cbn.
  - assert (count = 0%nat) by lia. subst. repeat split; intros; lia.
  - destruct (Nat.eqb count 0) eqn:C.
    + apply Nat.eqb_eq in C. subst. repeat split; intros; lia.
    + apply Nat.eqb_neq in C.
      assert (D : (Nat.div2 count < count)%nat) by (apply Nat.lt_div2; lia).
      set (d := Nat.div2 count) in *. clearbody d.
      destruct (nth (first + d) l 0 <? value) eqn:T.
      * apply Z.ltb_lt in T.
        destruct (IH (S (first + d)) (count - (d + 1))%nat)
          as (R1 & R2 & R3); [lia | lia |].
        split; [lia|]. split.
        -- intros k Hk.
           destruct (Nat.le_gt_cases k (first + d)) as [Le|Gt].
           ++ specialize (M k (first + d)%nat ltac:(lia)). lia.
           ++ apply R2. lia.
        -- intros k Hk. apply R3. lia.
      * apply Z.ltb_ge in T.
        destruct (IH first d) as (R1 & R2 & R3); [lia | lia |].
        split; [lia|]. split; [exact R2|].
        intros k Hk.
        destruct (Nat.lt_ge_cases k (first + d)) as [Lt|Ge].
        -- apply R3. lia.
        -- specialize (M (first + d)%nat k ltac:(lia)). lia.
Qed.

Lemma binary_search_In l value :
  StronglySorted Z.le l -> (binary_search l value = true <-> In value l).
Proof.
  intros Hs. unfold binary_search.
  destruct (lower_bound_spec l value Hs (List.length l) 0 (List.length l))
    as (R1 & R2 & R3); [lia | lia |].
  set (r := lower_bound (List.length l) l 0 (List.length l) value) in *.
  rewrite andb_true_iff, !negb_true_iff, Nat.eqb_neq, Z.ltb_ge. split.
  - intros [N G]. assert (Lt : (r < List.length l)%nat) by lia.
    specialize (R3 r ltac:(lia)).
    assert (E : nth r l 0 = value) by lia. rewrite <- E. now apply nth_In.
  - intros I. apply (In_nth _ _ 0) in I. destruct I as (j & Hj & Ej).
    assert (r <= j)%nat.
    { destruct (Nat.le_gt_cases r j); [assumption|].
      specialize (R2 j ltac:(lia)). lia. }
    split; [lia|].
    pose proof (StronglySorted_nth l Hs r j ltac:(lia)). lia.
Qed.


Lemma call_return_offsets_In prog off :
  In off (call_return_offsets prog) <->
  exists instr, In instr prog /\ is_call instr = true
                /\ off = flow_control.dest_offset instr
                         + flow_control.num_instructions instr.
Proof.
  induction prog as [|i prog IH]; cbn.
  - split; [tauto | intros (x & [] & _)].
  - fold (is_call i). destruct (is_call i) eqn:C; cbn; rewrite IH; split.
    + intros [E|(x & I & Cx & Ex)]; [exists i; auto | exists x; auto].
    + intros (x & [->|I] & Cx & Ex); [left; auto | right; exists x; auto].
    + intros (x & I & Cx & Ex). exists x; auto.
    + intros (x & [->|I] & Cx & Ex); [congruence | exists x; auto].
Qed.

(** ** Running the code buffer *)

Lemma nth_error_middle {A} (pre blk post : list A) k i :
  nth_error blk k = Some i ->
  nth_error (pre ++ blk ++ post) (List.length pre + k) = Some i.
Proof.
  intros H. rewrite nth_error_app2 by lia.
  replace (List.length pre + k - List.length pre)%nat with k by lia.
  rewrite nth_error_app1; [assumption|]. apply nth_error_Some. congruence.
Qed.

Lemma Label_eqb_refl l : Label_eqb l l = true.
Proof. destruct l; cbn; [apply Z.eqb_refl | apply Nat.eqb_refl]. Qed.

Lemma find_label_app l pre rest :
  find_label l (pre ++ rest) =
  match find_label l pre with
  | Some p => Some p
  | None => option_map (Nat.add (List.length pre)) (find_label l rest)
  end.
Proof.
  induction pre as [|i pre IH]; cbn.
  - destruct (find_label l rest); reflexivity.
  - assert (E : option_map S (find_label l (pre ++ rest)) =
                match option_map S (find_label l pre) with
                | Some p => Some p
                | None => option_map (Nat.add (S (List.length pre))) (find_label l rest)
                end).
    { rewrite IH. destruct (find_label l pre); cbn; [reflexivity|].
      destruct (find_label l rest); reflexivity. }
    destruct i; try exact E. destruct (Label_eqb l l0); [reflexivity | exact E].
Qed.

Lemma step_at c m i :
  nth_error c (rip m) = Some i ->
  step c m =
  match i with
  | jz l => if ZF m then goto c l m else Some (next m)
  | jnz l => if ZF m then Some (next m) else goto c l m
  | jmp l => goto c l m
  | call l =>
      let sp := Bits.wrap64 (gprs m RSP - 8) in
      goto c l (set_qmem sp (Z.of_nat (S (rip m))) (set_gpr RSP sp m))
  | ret =>
      let sp := gprs m RSP in
      Some (set_rip (Z.to_nat (qmem m sp)) (set_gpr RSP (Bits.wrap64 (sp + 8)) m))
  | _ => match exec i m with Some m' => Some (next m') | None => None end
  end.
Proof. intros H. unfold step. now rewrite H. Qed.

Lemma run_S n c m :
  run (S n) c m = match step c m with Some m' => run n c m' | None => None end.
Proof. reflexivity. Qed.

Lemma run_step n c m m' : step c m = Some m' -> run (S n) c m = run n c m'.
Proof. intros H. cbn. now rewrite H. Qed.

Lemma wrap32_wrap64 v : Bits.wrap32 (Bits.wrap64 v) = Bits.wrap32 v.
Proof.
  unfold Bits.wrap32, Bits.wrap64.
  change (2 ^ 64) with 18446744073709551616. change (2 ^ 32) with 4294967296.
  Z.div_mod_to_equations. lia.
Qed.

Lemma cmp32_zero v pc :
  0 <= pc < 2 ^ 32 ->
  ((Bits.wrap32 v - pc) mod 2 ^ 32 =? 0) = (Bits.wrap32 v =? pc).
Proof.
  intros R. unfold Bits.wrap32.
  assert (B : 0 <= v mod 2 ^ 32 < 2 ^ 32) by (apply Z.mod_pos_bound; lia).
  change (2 ^ 32) with 4294967296 in *.
  destruct (v mod 4294967296 =? pc) eqn:E.
  - apply Z.eqb_eq in E. rewrite E, Z.sub_diag. reflexivity.
  - apply Z.eqb_neq in E. apply Z.eqb_neq. intros C.
    apply E. Z.div_mod_to_equations. lia.
Qed.

(** The return check at position [length pre] of the code buffer: with the
    offset [pc] in the low half of the stack slot above the return address
    it returns; otherwise it falls through to the code after it. *)
Lemma Return_code_runs pre post pc id m :
  0 <= pc < 2 ^ 32 ->
  rip m = List.length pre ->
  find_label (local_label id) pre = None ->
  let c := pre ++ Return_code pc (local_label id) ++ post in
  let top := qmem m (ea m (at_ rsp 8)) in
  (Bits.wrap32 top = pc ->
   exists m', run 4 c m = Some m'
     /\ rip m' = Z.to_nat (qmem m (gprs m RSP))
     /\ gprs m' RSP = Bits.wrap64 (gprs m RSP + 8)
     /\ qmem m' = qmem m /\ xmem m' = xmem m)
  /\ (Bits.wrap32 top <> pc ->
      exists m', run 4 c m = Some m'
        /\ rip m' = (List.length pre + 5)%nat
        /\ gprs m' RSP = gprs m RSP
        /\ qmem m' = qmem m /\ xmem m' = xmem m).
Proof.
  intros R P F c top.
  assert (N : forall k i, nth_error (Return_code pc (local_label id)) k = Some i ->
              nth_error c (List.length pre + k) = Some i).
  { intros k i. apply nth_error_middle. }
  assert (FL : find_label (local_label id) c = Some (List.length pre + 4)%nat).
  { unfold c. rewrite find_label_app, F. cbn. now rewrite Nat.eqb_refl. }
  assert (S1 : step c m = Some (next (write_reg rax top m))).
  { rewrite (step_at c m (mov (reg rax) (qword (at_ rsp 8)))).
    - reflexivity.
    - rewrite P. rewrite <- (Nat.add_0_r (List.length pre)). now apply N. }
  set (m1 := next (write_reg rax top m)) in *.
  assert (P1 : rip m1 = (List.length pre + 1)%nat) by (unfold m1; cbn; lia).
  assert (Z1 : read_reg m1 eax = Bits.wrap32 top).
  { unfold m1. cbn. rewrite upd_same. apply wrap32_wrap64. }
  assert (S2 : step c m1 = Some (next (set_ZF (Bits.wrap32 top =? pc) m1))).
  { rewrite (step_at c m1 (cmp (reg eax) (imm pc))).
    - cbn [exec read_operand width_bits]. rewrite Z1, cmp32_zero by assumption. reflexivity.
    - rewrite P1. now apply N. }
  set (m2 := next (set_ZF (Bits.wrap32 top =? pc) m1)) in *.
  assert (P2 : rip m2 = (List.length pre + 2)%nat) by (unfold m2; cbn; lia).
  assert (G2 : gprs m2 RSP = gprs m RSP)
    by (unfold m2, m1; cbn; now rewrite upd_other by discriminate).
  split; intros H.
  - assert (S3 : step c m2 = Some (next m2)).
    { rewrite (step_at c m2 (jnz (local_label id))).
      - unfold m2 at 1. cbn [ZF next set_rip set_ZF]. apply Z.eqb_eq in H. now rewrite H.
      - rewrite P2. now apply N. }
    assert (S4 : step c (next m2)
                 = Some (set_rip (Z.to_nat (qmem (next m2) (gprs (next m2) RSP)))
                           (set_gpr RSP (Bits.wrap64 (gprs (next m2) RSP + 8)) (next m2)))).
    { rewrite (step_at c (next m2) ret); [reflexivity|].
      cbn [next rip set_rip]. rewrite P2.
      replace (S (List.length pre + 2)) with (List.length pre + 3)%nat by lia.
      now apply N. }
    eexists.
    rewrite (run_step _ _ _ _ S1), (run_step _ _ _ _ S2), (run_step _ _ _ _ S3),
      (run_step _ _ _ _ S4).
    cbn [run]. split; [reflexivity|]. cbn. rewrite upd_same.
    unfold m2, m1. cbn. rewrite !upd_other by discriminate. auto.
  - assert (S3 : step c m2 = Some (set_rip (List.length pre + 4) m2)).
    { rewrite (step_at c m2 (jnz (local_label id))).
      - unfold m2 at 1. cbn [ZF next set_rip set_ZF]. apply Z.eqb_neq in H.
        rewrite H. unfold goto. now rewrite FL.
      - rewrite P2. now apply N. }
    assert (S4 : step c (set_rip (List.length pre + 4) m2)
                 = Some (next (set_rip (List.length pre + 4) m2))).
    { rewrite (step_at c _ (L (local_label id))); [reflexivity|].
      cbn [rip set_rip]. now apply N. }
    eexists.
    rewrite (run_step _ _ _ _ S1), (run_step _ _ _ _ S2), (run_step _ _ _ _ S3),
      (run_step _ _ _ _ S4).
    cbn [run]. split; [reflexivity|]. cbn.
    split; [lia|]. split; [|split; reflexivity].
    now rewrite !upd_other by discriminate.
Qed.

Lemma read_operand_readable m o : readable o = true -> exists v, read_operand m o = Some v.
Proof. destruct o; cbn; intros H; try discriminate; eauto. Qed.

Lemma cmp_pred_known p a b : known_predicate p = true -> exists c, F32.cmp_pred p a b = Some c.
Proof.
  unfold known_predicate. rewrite !orb_true_iff, !Z.eqb_eq.
  intros [[[[[->| ->]| ->]| ->]| ->]| ->]; cbn; eauto.
Qed.

Ltac destruct_matches E :=
  repeat match type of E with
         | context [match ?x with _ => _ end] => destruct x eqn:?; try discriminate E
         end.

Lemma sequential_exec i m : sequential i = true -> exists m', exec i m = Some m'.
Proof.
  destruct i; cbn; intros H; try discriminate; eauto.
  all: try (apply andb_true_iff in H; destruct H as [D S];
            destruct dst; try discriminate;
            destruct (read_operand_readable m src S) as [v E];
            unfold alu; rewrite E; eauto).
  - apply andb_true_iff in H. destruct H as [A B].
    destruct (read_operand_readable m a A) as [va Ea].
    destruct (read_operand_readable m b B) as [vb Eb].
    rewrite Ea, Eb. eauto.
  - unfold compare_lanes.
    destruct (cmp_pred_known pred (V4.x (xmms m dst)) (V4.x (xmms m src)) H) as [c1 ->].
    destruct (cmp_pred_known pred (V4.y (xmms m dst)) (V4.y (xmms m src)) H) as [c2 ->].
    destruct (cmp_pred_known pred (V4.z (xmms m dst)) (V4.z (xmms m src)) H) as [c3 ->].
    destruct (cmp_pred_known pred (V4.w (xmms m dst)) (V4.w (xmms m src)) H) as [c4 ->].
    eauto.
  - destruct (cmp_pred_known pred (V4.x (xmms m dst)) (V4.x (xmms m src)) H) as [c1 ->].
    eauto.
Qed.

Lemma write_reg_gprs r v m g :
  g <> gpr_of r -> gprs (write_reg r v m) g = gprs m g.
Proof. intros H. destruct r; cbn in *; now rewrite upd_other. Qed.

Lemma write_xoperand_gprs o v m : gprs (write_xoperand o v m) = gprs m.
Proof. destruct o; reflexivity. Qed.

(** An instruction changes no general-purpose register but the one it
    writes, and no stack slot unless it is a PUSH. *)
Lemma exec_gprs i m m' g :
  exec i m = Some m' -> written_gpr i <> Some g -> gprs m' g = gprs m g.
Proof.
  intros E W. destruct i; cbn in E, W; unfold alu in E; destruct_matches E;
    try discriminate E; injection E as <-; cbn; try reflexivity;
    try (apply write_reg_gprs; congruence);
    try (now rewrite write_xoperand_gprs);
    try (rewrite upd_other; [reflexivity | congruence]).
Qed.

Lemma write_reg_qmem r v m : qmem (write_reg r v m) = qmem m.
Proof. destruct r; reflexivity. Qed.

Lemma write_xoperand_qmem o v m : qmem (write_xoperand o v m) = qmem m.
Proof. destruct o; reflexivity. Qed.

Lemma exec_qmem i m m' :
  exec i m = Some m' -> written_gpr i <> Some RSP -> qmem m' = qmem m.
Proof.
  intros E W. destruct i; cbn in E, W; unfold alu in E; destruct_matches E;
    try discriminate E; try congruence; injection E as <-; cbn; try reflexivity;
    try apply write_reg_qmem; try (now rewrite write_xoperand_qmem).
Qed.

Lemma write_reg_rip r v m : rip (write_reg r v m) = rip m.
Proof. destruct r; reflexivity. Qed.

Lemma write_xoperand_rip o v m : rip (write_xoperand o v m) = rip m.
Proof. destruct o; reflexivity. Qed.

Lemma exec_rip i m m' : exec i m = Some m' -> rip m' = rip m.
Proof.
  intros E. destruct i; cbn in E; unfold alu in E; destruct_matches E;
    try discriminate E; injection E as <-; cbn; try reflexivity;
    try apply write_reg_rip; try apply write_xoperand_rip.
Qed.

Lemma write_reg_set_rip r v p m :
  write_reg r v (set_rip p m) = set_rip p (write_reg r v m).
Proof. destruct r; reflexivity. Qed.

Lemma write_xoperand_set_rip o v p m :
  write_xoperand o v (set_rip p m) = set_rip p (write_xoperand o v m).
Proof. destruct o; reflexivity. Qed.

Lemma read_operand_set_rip o p m : read_operand (set_rip p m) o = read_operand m o.
Proof. destruct o; reflexivity. Qed.

Lemma read_xoperand_set_rip o p m : read_xoperand (set_rip p m) o = read_xoperand m o.
Proof. destruct o; reflexivity. Qed.

(** The position in the code has no influence on what an instruction
    does. *)
Lemma exec_set_rip i p m :
  exec i (set_rip p m) = option_map (set_rip p) (exec i m).
Proof.
  destruct i; cbn; unfold alu; try reflexivity;
    rewrite ?read_operand_set_rip, ?read_xoperand_set_rip;
    repeat match goal with
           | |- context [match ?x with _ => _ end] => destruct x; cbn; try reflexivity
           end;
    rewrite ?write_reg_set_rip, ?write_xoperand_set_rip; try reflexivity.
Qed.

Lemma exec_block_set_rip c p m :
  exec_block c (set_rip p m) = option_map (set_rip p) (exec_block c m).
Proof.
  revert m. induction c as [|i c IH]; intros m; cbn; [reflexivity|].
  rewrite exec_set_rip. destruct (exec i m); cbn; [apply IH | reflexivity].
Qed.


Lemma sequential_step c m i :
  nth_error c (rip m) = Some i -> sequential i = true ->
  step c m = match exec i m with Some m' => Some (next m') | None => None end.
Proof.
  intros N Hs. rewrite (step_at c m i N). destruct i; try reflexivity; discriminate.
Qed.

Lemma run_add a b c m :
  run (a + b) c m = match run a c m with Some m' => run b c m' | None => None end.
Proof.
  revert m. induction a as [|a IH]; intros m; cbn; [reflexivity|].
  destruct (step c m); [apply IH | reflexivity].
Qed.

Lemma visits_add p a b c m :
  visits p (a + b) c m
  = (visits p a c m
     + match run a c m with Some m' => visits p b c m' | None => 0 end)%nat.
Proof.
  revert m. induction a as [|a IH]; intros m; cbn; [reflexivity|].
  destruct (step c m); [rewrite IH; lia | lia].
Qed.

(** A block of sequential instructions in the code buffer runs as
    [exec_block] says, and passes through its own positions only. *)
Lemma run_block blk : forall pre post m m',
  forallb sequential blk = true ->
  rip m = List.length pre ->
  exec_block blk m = Some m' ->
  let c := pre ++ blk ++ post in
  run (List.length blk) c m = Some (set_rip (List.length pre + List.length blk) m')
  /\ forall p, (p < List.length pre \/ List.length pre + List.length blk <= p)%nat ->
       visits p (List.length blk) c m = 0%nat.
Proof.
  induction blk as [|i blk IH]; intros pre post m m' Hs P E c.
  - cbn in E. injection E as <-. cbn. rewrite Nat.add_0_r, <- P.
    split; [destruct m; reflexivity | reflexivity].
  - cbn in Hs. apply andb_true_iff in Hs. destruct Hs as [Si Hs].
    cbn in E. destruct (exec i m) as [m1|] eqn:E1; [|discriminate].
    assert (N : nth_error c (rip m) = Some i).
    { unfold c. rewrite P, nth_error_app2, Nat.sub_diag by lia. reflexivity. }
    assert (St : step c m = Some (next m1)).
    { rewrite (sequential_step c m i N Si), E1. reflexivity. }
    assert (P1 : rip (next m1) = List.length (pre ++ [i])).
    { cbn. rewrite (exec_rip _ _ _ E1), P, length_app. cbn. lia. }
    assert (E2 : exec_block blk (next m1) = Some (set_rip (S (rip m1)) m')).
    { unfold next. rewrite exec_block_set_rip, E. reflexivity. }
    destruct (IH (pre ++ [i]) post (next m1) _ Hs P1 E2) as [R V].
    assert (C : (pre ++ [i]) ++ blk ++ post = c).
    { unfold c. rewrite <- app_assoc. reflexivity. }
    rewrite C in R, V. rewrite length_app in R, V. cbn [List.length] in R, V |- *.
    split.
    + rewrite (run_step _ _ _ _ St), R. f_equal.
      replace (List.length pre + 1 + List.length blk)%nat
        with (List.length pre + S (List.length blk))%nat by lia.
      reflexivity.
    + intros p Hp. cbn [visits]. rewrite St, V by lia.
      rewrite P. destruct (Nat.eqb_spec (List.length pre) p); [lia | reflexivity].
Qed.

Lemma exec_block_keeps regs blk : forall m m',
  forallb (keeps regs) blk = true ->
  exec_block blk m = Some m' ->
  forall g, In g regs -> gprs m' g = gprs m g.
Proof.
  induction blk as [|i blk IH]; intros m m' K E g G; cbn in *.
  - now injection E as <-.
  - apply andb_true_iff in K. destruct K as [Ki K].
    destruct (exec i m) as [m1|] eqn:E1; [|discriminate].
    rewrite (IH m1 m' K E g G). apply (exec_gprs _ _ _ _ E1).
    unfold keeps in Ki. apply andb_true_iff in Ki. destruct Ki as [_ W].
    intros C. rewrite C in W. apply negb_true_iff in W.
    assert (X : existsb (Nat.eqb g) regs = true).
    { apply existsb_exists. exists g. split; [assumption | apply Nat.eqb_refl]. }
    congruence.
Qed.

Lemma exec_block_keeps_stack blk : forall m m',
  forallb (keeps [RSP]) blk = true ->
  exec_block blk m = Some m' ->
  qmem m' = qmem m.
Proof.
  induction blk as [|i blk IH]; intros m m' K E; cbn in *.
  - now injection E as <-.
  - apply andb_true_iff in K. destruct K as [Ki K].
    destruct (exec i m) as [m1|] eqn:E1; [|discriminate].
    rewrite (IH m1 m' K E). apply (exec_qmem _ _ _ E1).
    unfold keeps in Ki. apply andb_true_iff in Ki. destruct Ki as [_ W].
    intros C. rewrite C in W. cbn in W. discriminate.
Qed.

Lemma keeps_sequential regs blk :
  forallb (keeps regs) blk = true -> forallb sequential blk = true.
Proof.
  rewrite !forallb_forall. intros H i I. specialize (H i I).
  unfold keeps in H. now apply andb_true_iff in H.
Qed.

Lemma exec_block_total blk : forall m,
  forallb sequential blk = true -> exists m', exec_block blk m = Some m'.
Proof.
  induction blk as [|i blk IH]; intros m Hs; cbn in *; [eauto|].
  apply andb_true_iff in Hs. destruct Hs as [Si Hs].
  destruct (sequential_exec i m Si) as [m1 ->]. now apply IH.
Qed.

Lemma merged_lane d result prior i :
  0 <= i < 4 ->
  V4.lane (merged d result prior) i =
  if negb (Z.land d (Z.shiftr 8 i) =? 0) then V4.lane result i else V4.lane prior i.
Proof.
  intros R. assert (i = 0 \/ i = 1 \/ i = 2 \/ i = 3) as [E|[E|[E|E]]] by lia;
    subst i; reflexivity.
Qed.

(** C5.  The blend path (SSE4.1) and the unpack/shuffle path of
    [Compile_DestEnable] leave the same memory: for every instruction,
    operand descriptor, result register other than the two scratch registers
    and machine state (hence every write mask, result and prior
    destination), both paths emit code that runs to the end, and the two
    final memories are equal. *)
Theorem DestEnable_blend_and_manual_merge_agree h vs instr src m :
  src <> SCRATCH -> src <> SCRATCH2 ->
  exists c_blend c_manual m_blend m_manual,
    Emits (Compile_DestEnable (with_sse4_1 true h) vs instr src) c_blend
    /\ Emits (Compile_DestEnable (with_sse4_1 false h) vs instr src) c_manual
    /\ exec_block c_blend m = Some m_blend
    /\ exec_block c_manual m = Some m_manual
    /\ xmem m_blend = xmem m_manual.
Proof.
  intros H1 H2.
  pose proof (dest_mask_range (descriptor vs instr)) as R.
  destruct (DestEnable_code_runs true _ (OutputOffset h (destination instr)) src m R H1 H2)
    as (mb & Eb & Xb & _).
  destruct (DestEnable_code_runs false _ (OutputOffset h (destination instr)) src m R H1 H2)
    as (mm & Em & Xm & _).
  exists (DestEnable_code true (dest_mask (descriptor vs instr))
            (OutputOffset h (destination instr)) src),
         (DestEnable_code false (dest_mask (descriptor vs instr))
            (OutputOffset h (destination instr)) src), mb, mm.
  repeat split; try assumption.
  - exact (Compile_DestEnable_emits (with_sse4_1 true h) vs instr src).
  - exact (Compile_DestEnable_emits (with_sse4_1 false h) vs instr src).
  - now rewrite Xb, Xm.
Qed.

Lemma DestEnable_blend_and_manual_merge_agree_witness :
  SRC1 <> SCRATCH /\ SRC1 <> SCRATCH2
  /\ exists c_blend c_manual m_blend m_manual,
       Emits (Compile_DestEnable (with_sse4_1 true example_host) example_setup
                example_mov SRC1) c_blend
       /\ Emits (Compile_DestEnable (with_sse4_1 false example_host) example_setup
                   example_mov SRC1) c_manual
       /\ exec_block c_blend example_machine = Some m_blend
       /\ exec_block c_manual example_machine = Some m_manual
       /\ xmem m_blend = xmem m_manual.
Proof.
  split; [vm_compute; lia|]. split; [vm_compute; lia|].
  apply (DestEnable_blend_and_manual_merge_agree example_host example_setup
           example_mov SRC1 example_machine); vm_compute; lia.
Defined.

(** C4.  [Compile_DestEnable] writes the result to the mask-enabled lanes of
    the destination register and to nothing else in memory: a disabled lane
    and every other memory cell keep their value, and with all four lanes
    enabled the code is the single direct store.  Hence [Compile_MOV], when
    the offset of its source passes the assertion of the load, copies the
    resolved source into the enabled lanes and leaves the disabled lanes at
    their prior value (whatever it was); with the identity selector and no
    negation the resolved source is the source vector itself. *)
Theorem DestEnable_writes_enabled_lanes_only h vs instr m :
  let a := ea m (destination_address h instr) in
  (forall src, src <> SCRATCH -> src <> SCRATCH2 ->
     exists c m',
       Emits (Compile_DestEnable h vs instr src) c
       /\ exec_block c m = Some m'
       /\ (forall i, 0 <= i < 4 ->
             V4.lane (xmem m' a) i =
             if DestComponentEnabled (descriptor vs instr) i
             then V4.lane (xmms m src) i else V4.lane (xmem m a) i)
       /\ (forall a', a' <> a -> xmem m' a' = xmem m a')
       /\ (dest_mask (descriptor vs instr) = NO_DEST_REG_MASK ->
           c = [movaps (xword (destination_address h instr)) (xreg src)]))
  /\ (offset_fits h (common.src1 instr) = true ->
      exists c m',
        Emits (Compile_MOV h vs instr) c
        /\ exec_block c m = Some m'
        /\ (forall i, 0 <= i < 4 ->
              V4.lane (xmem m' a) i =
              if DestComponentEnabled (descriptor vs instr) i
              then V4.lane (resolved_source h vs instr 1 (common.src1 instr) m) i
              else V4.lane (xmem m a) i)
        /\ (forall a', a' <> a -> xmem m' a' = xmem m a')
        /\ (GetRawSelector (descriptor vs instr) 1 = NO_SRC_REG_SWIZZLE ->
            negate_src1 (descriptor vs instr) = false ->
            resolved_source h vs instr 1 (common.src1 instr) m
            = xmem m (ea m (source_address h instr 1 (common.src1 instr))))).
Proof.
  intros a. pose proof (dest_mask_range (descriptor vs instr)) as R. split.
  - intros src H1 H2.
    destruct (DestEnable_code_runs (sse4_1 h) _ (OutputOffset h (destination instr))
                src m R H1 H2) as (m' & E & X & _).
    exists (DestEnable_code (sse4_1 h) (dest_mask (descriptor vs instr))
              (OutputOffset h (destination instr)) src), m'.
    split; [apply Compile_DestEnable_emits|]. split; [exact E|].
    fold (destination_address h instr) in X. fold a in X. rewrite X.
    split; [|split].
    + intros i Hi. rewrite updZ_same. now apply merged_lane.
    + intros a' Ha. now apply updZ_other.
    + intros D. unfold DestEnable_code. now rewrite D.
  - intros F.
    destruct (SwizzleSrc_code_runs h vs instr 1 (common.src1 instr) SRC1 m)
      as (m1 & E1 & V1 & G1 & M1 & _); [discriminate|].
    destruct (DestEnable_code_runs (sse4_1 h) _ (OutputOffset h (destination instr))
                SRC1 m1 R) as (m' & E & X & _); [discriminate | discriminate |].
    exists (SwizzleSrc_code h vs instr 1 (common.src1 instr) SRC1
            ++ DestEnable_code (sse4_1 h) (dest_mask (descriptor vs instr))
                 (OutputOffset h (destination instr)) SRC1), m'.
    split.
    { apply Emits_bind; [now apply Compile_SwizzleSrc_emits
                        | apply Compile_DestEnable_emits]. }
    split; [rewrite exec_block_app, E1; exact E|].
    fold (destination_address h instr) in X.
    rewrite (ea_gprs m m1 _ G1), M1, V1 in X. fold a in X. rewrite X.
    split; [|split].
    + intros i Hi. rewrite updZ_same. now apply merged_lane.
    + intros a' Ha. now apply updZ_other.
    + intros S N. unfold resolved_source, negated. rewrite S, swizzle_identity.
      change (Z.to_nat (1 - 1)) with 0%nat. cbn [nth]. now rewrite N.
Qed.

Lemma DestEnable_writes_enabled_lanes_only_witness :
  let h := example_host in
  let vs := example_setup in
  let instr := example_mov in
  let m := example_machine in
  let a := ea m (destination_address h instr) in
  (SRC1 <> SCRATCH /\ SRC1 <> SCRATCH2 /\
   exists c m',
     Emits (Compile_DestEnable h vs instr SRC1) c
     /\ exec_block c m = Some m'
     /\ (forall i, 0 <= i < 4 ->
           V4.lane (xmem m' a) i =
           if DestComponentEnabled (descriptor vs instr) i
           then V4.lane (xmms m SRC1) i else V4.lane (xmem m a) i)
     /\ (forall a', a' <> a -> xmem m' a' = xmem m a')
     /\ (dest_mask (descriptor vs instr) = NO_DEST_REG_MASK ->
         c = [movaps (xword (destination_address h instr)) (xreg SRC1)]))
  /\ (offset_fits h (common.src1 instr) = true /\
      exists c m',
        Emits (Compile_MOV h vs instr) c
        /\ exec_block c m = Some m'
        /\ (forall i, 0 <= i < 4 ->
              V4.lane (xmem m' a) i =
              if DestComponentEnabled (descriptor vs instr) i
              then V4.lane (resolved_source h vs instr 1 (common.src1 instr) m) i
              else V4.lane (xmem m a) i)
        /\ (forall a', a' <> a -> xmem m' a' = xmem m a')
        /\ (GetRawSelector (descriptor vs instr) 1 = NO_SRC_REG_SWIZZLE ->
            negate_src1 (descriptor vs instr) = false ->
            resolved_source h vs instr 1 (common.src1 instr) m
            = xmem m (ea m (source_address h instr 1 (common.src1 instr))))).
Proof.
  intros h vs instr m a.
  destruct (DestEnable_writes_enabled_lanes_only h vs instr m) as [A B].
  split.
  - split; [vm_compute; lia|]. split; [vm_compute; lia|].
    apply A; vm_compute; lia.
  - split; [reflexivity|]. apply B. reflexivity.
Defined.


Lemma Compile_SanitizedMul_emits src1 src2 scratch :
  Emits (Compile_SanitizedMul src1 src2 scratch) (SanitizedMul_code src1 src2 scratch).
Proof. unfold Compile_SanitizedMul, SanitizedMul_code. emits. Qed.

Lemma SanitizedMul_code_runs src1 src2 scratch m :
  src1 <> src2 -> src1 <> scratch -> src2 <> scratch ->
  exists m',
    exec_block (SanitizedMul_code src1 src2 scratch) m = Some m'
    /\ xmms m' src1 = V4.map2 sanitized_mul (xmms m src1) (xmms m src2)
    /\ xmm_only [src1; src2; scratch] m m'.
Proof.
  intros D1 D2 D3.
  assert (D1' : src2 <> src1) by congruence.
  assert (D2' : scratch <> src1) by congruence.
  assert (D3' : scratch <> src2) by congruence.
  eexists. split; [reflexivity|]. cbn. upd_simpl. split.
  - reflexivity.
  - unfold xmm_only. cbn. repeat split. intros r Hr.
    rewrite !upd_other; try reflexivity; intro; apply Hr; cbn; auto.
Qed.

(** The two source loads of a binary instruction. *)
Lemma two_sources_run h vs instr r1 r2 m :
  exists m',
    exec_block (SwizzleSrc_code h vs instr 1 r1 SRC1
                ++ SwizzleSrc_code h vs instr 2 r2 SRC2) m = Some m'
    /\ xmms m' SRC1 = resolved_source h vs instr 1 r1 m
    /\ xmms m' SRC2 = resolved_source h vs instr 2 r2 m
    /\ xmm_only [SRC1; SRC2] m m'.
Proof.
  destruct (SwizzleSrc_code_runs h vs instr 1 r1 SRC1 m) as (m1 & E1 & V1 & F1);
    [discriminate|].
  destruct (SwizzleSrc_code_runs h vs instr 2 r2 SRC2 m1) as (m2 & E2 & V2 & F2);
    [discriminate|].
  exists m2. rewrite exec_block_app, E1. split; [exact E2|].
  pose proof (xmm_only_trans _ _ _ _ _ F1 F2) as F.
  destruct F1 as (G1 & M1 & _ & _ & _ & _ & _ & X1).
  destruct F2 as (G2 & M2 & _ & _ & _ & _ & _ & X2).
  split; [|split].
  - rewrite X2, V1; [reflexivity|]. cbn. intros [C|[]]. discriminate C.
  - rewrite V2. unfold resolved_source.
    rewrite (ea_gprs _ _ _ G1), M1, X1; [reflexivity|].
    cbn. intros [C|[]]. discriminate C.
  - exact F.
Qed.

(** A binary instruction: two loads, an operation on [SRC1] and [SRC2] that
    leaves its result in [SRC1], and the store of [SRC1]. *)
Lemma binary_instruction_runs h vs instr r1 r2 op f m :
  (forall m1, exists m2,
      exec_block op m1 = Some m2
      /\ xmms m2 SRC1 = V4.map2 f (xmms m1 SRC1) (xmms m1 SRC2)
      /\ gprs m2 = gprs m1 /\ xmem m2 = xmem m1) ->
  let a := ea m (destination_address h instr) in
  exists m',
    exec_block (SwizzleSrc_code h vs instr 1 r1 SRC1
                ++ SwizzleSrc_code h vs instr 2 r2 SRC2
                ++ op
                ++ DestEnable_code (sse4_1 h) (dest_mask (descriptor vs instr))
                     (OutputOffset h (destination instr)) SRC1) m = Some m'
    /\ (forall i, 0 <= i < 4 ->
          V4.lane (xmem m' a) i =
          if DestComponentEnabled (descriptor vs instr) i
          then f (V4.lane (resolved_source h vs instr 1 r1 m) i)
                 (V4.lane (resolved_source h vs instr 2 r2 m) i)
          else V4.lane (xmem m a) i)
    /\ (forall a', a' <> a -> xmem m' a' = xmem m a').
Proof.
  intros Hop a.
  destruct (two_sources_run h vs instr r1 r2 m) as (m1 & E1 & V1 & V2 & F1).
  destruct (Hop m1) as (m2 & E2 & V & G2 & M2).
  pose proof (dest_mask_range (descriptor vs instr)) as R.
  destruct (DestEnable_code_runs (sse4_1 h) _ (OutputOffset h (destination instr))
              SRC1 m2 R) as (m' & E & X & _); [discriminate | discriminate |].
  destruct F1 as (G1 & M1 & _).
  exists m'. split.
  { rewrite app_assoc, exec_block_app, E1, exec_block_app, E2. exact E. }
  fold (destination_address h instr) in X.
  rewrite (ea_gprs m1 m2 _ G2), (ea_gprs m m1 _ G1), M2, M1, V, V1, V2 in X.
  fold a in X. rewrite X. split.
  - intros i Hi. rewrite updZ_same, merged_lane by assumption.
    unfold DestComponentEnabled.
    destruct (negb (Z.land (dest_mask (descriptor vs instr)) (Z.shiftr 8 i) =? 0));
      [|reflexivity].
    assert (i = 0 \/ i = 1 \/ i = 2 \/ i = 3) as [J|[J|[J|J]]] by lia;
      subst i; reflexivity.
  - intros a' Ha. now apply updZ_other.
Qed.

Lemma Compile_binary_emits h vs instr (op : list Insn) (a : Jit unit) :
  offset_fits h (common.src1 instr) = true ->
  offset_fits h (common.src2 instr) = true ->
  Emits a op ->
  Emits (bind (Compile_SwizzleSrc h vs instr 1 (common.src1 instr) SRC1) (fun _ =>
         bind (Compile_SwizzleSrc h vs instr 2 (common.src2 instr) SRC2) (fun _ =>
         bind a (fun _ => Compile_DestEnable h vs instr SRC1))))
        (SwizzleSrc_code h vs instr 1 (common.src1 instr) SRC1
         ++ SwizzleSrc_code h vs instr 2 (common.src2 instr) SRC2
         ++ op
         ++ DestEnable_code (sse4_1 h) (dest_mask (descriptor vs instr))
              (OutputOffset h (destination instr)) SRC1).
Proof.
  intros F1 F2 Ha.
  apply Emits_bind; [now apply Compile_SwizzleSrc_emits|].
  apply Emits_bind; [now apply Compile_SwizzleSrc_emits|].
  apply Emits_bind; [exact Ha | apply Compile_DestEnable_emits].
Qed.

Lemma lanewise_runs (i : Insn) (f : Z -> Z -> Z) :
  (forall m, exec i m = Some (set_xmm SRC1 (V4.map2 f (xmms m SRC1) (xmms m SRC2)) m)) ->
  forall m1, exists m2,
    exec_block [i] m1 = Some m2
    /\ xmms m2 SRC1 = V4.map2 f (xmms m1 SRC1) (xmms m1 SRC2)
    /\ gprs m2 = gprs m1 /\ xmem m2 = xmem m1.
Proof.
  intros H m1. eexists. cbn [exec_block]. rewrite H. split; [reflexivity|].
  cbn. now rewrite upd_same.
Qed.

(** C3 (amended).  [Compile_SanitizedMul], on the registers that MUL, DP3,
    DP4, DPH/DPHI and MAD/MADI pass to it, replaces a lane of [SRC1] by
    [sanitized_mul] of the lanes of [SRC1] and [SRC2]; [Compile_MUL] stores
    it in the enabled lanes of the destination.  For 32-bit lanes [a] and
    [b]: when at least one of them is a NaN (exactly one, or both) the
    result is the NaN that MULPS returns; when neither is a NaN the result
    is the IEEE-754 product, except that a product which is a NaN (zero
    times infinity) is replaced by +0. *)
Theorem SanitizedMul_zeroes_only_NaN_products_of_ordered_factors h vs instr m :
  (forall a b, 0 <= a < 2 ^ 32 -> 0 <= b < 2 ^ 32 ->
     (F32.unordered a b = true ->
      sanitized_mul a b = F32.mul a b /\ F32.is_nan (sanitized_mul a b) = true)
     /\ (F32.unordered a b = false ->
         sanitized_mul a b =
         match SFmul F32.prec F32.emax (F32.to_SF a) (F32.to_SF b) with
         | S754_nan => 0
         | p => F32.of_SF p
         end))
  /\ (exists c m',
        Emits (Compile_SanitizedMul SRC1 SRC2 SCRATCH) c
        /\ exec_block c m = Some m'
        /\ xmms m' SRC1 = V4.map2 sanitized_mul (xmms m SRC1) (xmms m SRC2)
        /\ xmm_only [SRC1; SRC2; SCRATCH] m m')
  /\ (offset_fits h (common.src1 instr) = true ->
      offset_fits h (common.src2 instr) = true ->
      let a := ea m (destination_address h instr) in
      exists c m',
        Emits (Compile_MUL h vs instr) c
        /\ exec_block c m = Some m'
        /\ (forall i, 0 <= i < 4 ->
              V4.lane (xmem m' a) i =
              if DestComponentEnabled (descriptor vs instr) i
              then sanitized_mul
                     (V4.lane (resolved_source h vs instr 1 (common.src1 instr) m) i)
                     (V4.lane (resolved_source h vs instr 2 (common.src2 instr) m) i)
              else V4.lane (xmem m a) i)).
Proof.
  split; [|split].
  - intros a b Ra Rb. split; intros U.
    + now apply sanitized_mul_nan.
    + now apply sanitized_mul_ordered.
  - destruct (SanitizedMul_code_runs SRC1 SRC2 SCRATCH m) as (m' & E & V & F);
      try discriminate.
    exists (SanitizedMul_code SRC1 SRC2 SCRATCH), m'.
    split; [apply Compile_SanitizedMul_emits | auto].
  - intros F1 F2 a.
    destruct (binary_instruction_runs h vs instr (common.src1 instr) (common.src2 instr)
                (SanitizedMul_code SRC1 SRC2 SCRATCH) sanitized_mul m)
      as (m' & E & V & _).
    { intros m1.
      destruct (SanitizedMul_code_runs SRC1 SRC2 SCRATCH m1) as (m2 & E2 & V2 & G & M & _);
        try discriminate.
      exists m2. auto. }
    eexists. exists m'. split; [|split; [exact E | exact V]].
    apply Compile_binary_emits; try assumption. apply Compile_SanitizedMul_emits.
Qed.

Lemma SanitizedMul_zeroes_only_NaN_products_of_ordered_factors_witness :
  let h := example_host in
  let vs := example_setup in
  let instr := example_mul in
  let m := nan_machine in
  (0 <= f32_NaN < 2 ^ 32 /\ 0 <= f32_one < 2 ^ 32
   /\ F32.unordered f32_NaN f32_one = true
   /\ sanitized_mul f32_NaN f32_one = F32.mul f32_NaN f32_one
   /\ F32.is_nan (sanitized_mul f32_NaN f32_one) = true)
  /\ (0 <= f32_zero < 2 ^ 32 /\ 0 <= f32_infinity < 2 ^ 32
      /\ F32.unordered f32_zero f32_infinity = false
      /\ sanitized_mul f32_zero f32_infinity =
         match SFmul F32.prec F32.emax (F32.to_SF f32_zero) (F32.to_SF f32_infinity) with
         | S754_nan => 0
         | p => F32.of_SF p
         end)
  /\ (offset_fits h (common.src1 instr) = true
      /\ offset_fits h (common.src2 instr) = true
      /\ exists c m',
           Emits (Compile_MUL h vs instr) c
           /\ exec_block c m = Some m'
           /\ (forall i, 0 <= i < 4 ->
                 V4.lane (xmem m' (ea m (destination_address h instr))) i =
                 if DestComponentEnabled (descriptor vs instr) i
                 then sanitized_mul
                        (V4.lane (resolved_source h vs instr 1 (common.src1 instr) m) i)
                        (V4.lane (resolved_source h vs instr 2 (common.src2 instr) m) i)
                 else V4.lane (xmem m (ea m (destination_address h instr))) i)).
Proof.
  intros h vs instr m.
  destruct (SanitizedMul_zeroes_only_NaN_products_of_ordered_factors h vs instr m)
    as (A & _ & C).
  split; [|split].
  - assert (Ra : 0 <= f32_NaN < 2 ^ 32) by (unfold f32_NaN; lia).
    assert (Rb : 0 <= f32_one < 2 ^ 32) by (unfold f32_one; lia).
    destruct (A f32_NaN f32_one Ra Rb) as [A1 _].
    destruct (A1 eq_refl) as [A2 A3].
    split; [exact Ra|]. split; [exact Rb|]. split; [reflexivity|].
    split; [exact A2 | exact A3].
  - assert (Ra : 0 <= f32_zero < 2 ^ 32) by (unfold f32_zero; lia).
    assert (Rb : 0 <= f32_infinity < 2 ^ 32) by (unfold f32_infinity; lia).
    destruct (A f32_zero f32_infinity Ra Rb) as [_ A2].
    split; [exact Ra|]. split; [exact Rb|]. split; [reflexivity|].
    exact (A2 eq_refl).
  - split; [reflexivity|]. split; [reflexivity|]. apply C; reflexivity.
Defined.

(** Counterexample to C3 as stated: with the NaN [0x7FC00000] in lane 0 of
    [SRC1] and 1.0 in lane 0 of [SRC2] (exactly one factor is a NaN), the
    code of [Compile_SanitizedMul] leaves the NaN in lane 0 of [SRC1], not
    0; and with 0 and infinity in lane 1 (neither factor is a NaN) it leaves
    0, where the IEEE-754 product is a NaN. *)
Lemma SanitizedMul_one_NaN_factor_gives_NaN :
  exists c m',
    Emits (Compile_SanitizedMul SRC1 SRC2 SCRATCH) c
    /\ exec_block c nan_machine = Some m'
    /\ F32.is_nan (V4.x (xmms nan_machine SRC1)) = true
    /\ F32.is_nan (V4.x (xmms nan_machine SRC2)) = false
    /\ V4.x (xmms m' SRC1) = f32_NaN
    /\ V4.x (xmms m' SRC1) <> 0
    /\ F32.is_nan (V4.x (xmms m' SRC1)) = true
    /\ F32.is_nan (V4.y (xmms nan_machine SRC1)) = false
    /\ F32.is_nan (V4.y (xmms nan_machine SRC2)) = false
    /\ SFmul F32.prec F32.emax (F32.to_SF (V4.y (xmms nan_machine SRC1)))
             (F32.to_SF (V4.y (xmms nan_machine SRC2))) = S754_nan
    /\ V4.y (xmms m' SRC1) = 0.
Proof.
  exists (SanitizedMul_code SRC1 SRC2 SCRATCH). eexists.
  split; [apply Compile_SanitizedMul_emits|].
  split; [reflexivity|].
  repeat split; try reflexivity. vm_compute. discriminate.
Qed.

(** C7.  [Compile_MAX] and [Compile_MIN] store, in each enabled lane of the
    destination, MAXPS (MINPS) of the two resolved sources.  In a lane where
    a source is a NaN this is the lane of the second source; in a lane
    where none is, it is one of the two lanes, not below (not above) either
    of them.  In particular MAX(NaN, 5.0) is 5.0 and MAX(5.0, NaN) is the
    NaN. *)
Theorem MAX_MIN_return_second_operand_on_NaN h vs instr m :
  offset_fits h (common.src1 instr) = true ->
  offset_fits h (common.src2 instr) = true ->
  let a := ea m (destination_address h instr) in
  let s1 := resolved_source h vs instr 1 (common.src1 instr) m in
  let s2 := resolved_source h vs instr 2 (common.src2 instr) m in
  (exists c m',
      Emits (Compile_MAX h vs instr) c
      /\ exec_block c m = Some m'
      /\ forall i, 0 <= i < 4 ->
           DestComponentEnabled (descriptor vs instr) i = true ->
           let r := V4.lane (xmem m' a) i in
           let x := V4.lane s1 i in
           let y := V4.lane s2 i in
           (F32.unordered x y = true -> r = y)
           /\ (F32.unordered x y = false ->
               (r = x \/ r = y) /\ F32.leb x r = true /\ F32.leb y r = true))
  /\ (exists c m',
        Emits (Compile_MIN h vs instr) c
        /\ exec_block c m = Some m'
        /\ forall i, 0 <= i < 4 ->
             DestComponentEnabled (descriptor vs instr) i = true ->
             let r := V4.lane (xmem m' a) i in
             let x := V4.lane s1 i in
             let y := V4.lane s2 i in
             (F32.unordered x y = true -> r = y)
             /\ (F32.unordered x y = false ->
                 (r = x \/ r = y) /\ F32.leb r x = true /\ F32.leb r y = true))
  /\ F32.max f32_NaN f32_five = f32_five
  /\ F32.max f32_five f32_NaN = f32_NaN.
Proof.
  intros F1 F2 a s1 s2. split; [|split; [|split; reflexivity]].
  - destruct (binary_instruction_runs h vs instr (common.src1 instr) (common.src2 instr)
                [maxps SRC1 SRC2] F32.max m) as (m' & E & V & _).
    { apply lanewise_runs. reflexivity. }
    eexists. exists m'. split; [|split; [exact E|]].
    { apply Compile_binary_emits; try assumption. apply Emits_emit. }
    intros i Hi En r x y. subst r. fold a in V. rewrite (V i Hi), En.
    split; intros U.
    + now apply max_min_unordered.
    + now apply max_is_maximum.
  - destruct (binary_instruction_runs h vs instr (common.src1 instr) (common.src2 instr)
                [minps SRC1 SRC2] F32.min m) as (m' & E & V & _).
    { apply lanewise_runs. reflexivity. }
    eexists. exists m'. split; [|split; [exact E|]].
    { apply Compile_binary_emits; try assumption. apply Emits_emit. }
    intros i Hi En r x y. subst r. fold a in V. rewrite (V i Hi), En.
    split; intros U.
    + now apply max_min_unordered.
    + now apply min_is_minimum.
Qed.

Lemma MAX_MIN_return_second_operand_on_NaN_witness :
  let h := example_host in
  let vs := example_setup in
  let instr := example_max in
  let m := example_machine in
  let a := ea m (destination_address h instr) in
  let s1 := resolved_source h vs instr 1 (common.src1 instr) m in
  let s2 := resolved_source h vs instr 2 (common.src2 instr) m in
  offset_fits h (common.src1 instr) = true
  /\ offset_fits h (common.src2 instr) = true
  /\ (exists c m',
        Emits (Compile_MAX h vs instr) c
        /\ exec_block c m = Some m'
        /\ forall i, 0 <= i < 4 ->
             DestComponentEnabled (descriptor vs instr) i = true ->
             let r := V4.lane (xmem m' a) i in
             let x := V4.lane s1 i in
             let y := V4.lane s2 i in
             (F32.unordered x y = true -> r = y)
             /\ (F32.unordered x y = false ->
                 (r = x \/ r = y) /\ F32.leb x r = true /\ F32.leb y r = true))
  /\ F32.max f32_NaN f32_five = f32_five
  /\ F32.max f32_five f32_NaN = f32_NaN.
Proof.
  intros h vs instr m a s1 s2.
  destruct (MAX_MIN_return_second_operand_on_NaN h vs instr m eq_refl eq_refl)
    as (A & _ & B & C).
  split; [reflexivity|]. split; [reflexivity|].
  split; [exact A|]. split; [exact B | exact C].
Defined.


Lemma Compile_MOVA_emits h vs instr :
  offset_fits h (common.src1 instr) = true ->
  let swiz := swizzle_data vs (common.operand_desc_id instr) in
  Emits (Compile_MOVA h vs instr)
        (if negb (DestComponentEnabled swiz 0) && negb (DestComponentEnabled swiz 1)
         then []
         else SwizzleSrc_code h vs instr 1 (common.src1 instr) SRC1
              ++ MOVA_tail (DestComponentEnabled swiz 0) (DestComponentEnabled swiz 1)).
Proof.
  intros F swiz. unfold Compile_MOVA. fold swiz.
  destruct (DestComponentEnabled swiz 0), (DestComponentEnabled swiz 1); cbn [negb andb];
    try apply Emits_skip;
    (apply Emits_bind; [now apply Compile_SwizzleSrc_emits | unfold MOVA_tail; emits]).
Qed.

Lemma MOVA_tail_runs en0 en1 m :
  exists m',
    exec_block (MOVA_tail en0 en1) m = Some m'
    /\ xmem m' = xmem m /\ qmem m' = qmem m /\ dmem m' = dmem m /\ bmem m' = bmem m
    /\ (en0 = false -> gprs m' R10 = gprs m R10)
    /\ (en1 = false -> gprs m' R11 = gprs m R11)
    /\ (forall g, g <> RAX -> g <> R10 -> g <> R11 -> gprs m' g = gprs m g)
    /\ (forall r, r <> SRC1 -> xmms m' r = xmms m r).
Proof.
  destruct en0, en1; eexists; (split; [reflexivity|]); cbn;
    repeat split; try reflexivity; try discriminate; intros; upd_simpl; reflexivity.
Qed.

(** C10.  [Compile_MOVA] emits nothing when neither lane 0 nor lane 1 is
    enabled in the destination mask.  Otherwise (the offset of its source
    passing the assertion of the load) its code runs to the end and writes
    no memory at all, so the input, output and temporary registers of the
    unit state are untouched; the address register of a lane that is not
    enabled keeps its value; and beyond the two address registers only the
    scratch registers [rax] and [SRC1] may change. *)
Theorem MOVA_writes_selected_address_registers_only h vs instr m :
  let swiz := swizzle_data vs (common.operand_desc_id instr) in
  let en0 := DestComponentEnabled swiz 0 in
  let en1 := DestComponentEnabled swiz 1 in
  (en0 = false -> en1 = false -> Emits (Compile_MOVA h vs instr) [])
  /\ (offset_fits h (common.src1 instr) = true ->
      exists c m',
        Emits (Compile_MOVA h vs instr) c
        /\ exec_block c m = Some m'
        /\ xmem m' = xmem m /\ qmem m' = qmem m /\ dmem m' = dmem m /\ bmem m' = bmem m
        /\ (en0 = false -> gprs m' (gpr_of ADDROFFS_REG_0) = gprs m (gpr_of ADDROFFS_REG_0))
        /\ (en1 = false -> gprs m' (gpr_of ADDROFFS_REG_1) = gprs m (gpr_of ADDROFFS_REG_1))
        /\ (forall g, g <> RAX -> g <> gpr_of ADDROFFS_REG_0 -> g <> gpr_of ADDROFFS_REG_1 ->
              gprs m' g = gprs m g)
        /\ (forall r, r <> SRC1 -> xmms m' r = xmms m r)).
Proof.
  intros swiz en0 en1. split.
  - intros E0 E1. unfold Compile_MOVA. fold swiz. fold en0. fold en1.
    rewrite E0, E1. apply Emits_skip.
  - intros F. pose proof (Compile_MOVA_emits h vs instr F) as E. cbv zeta in E.
    fold swiz in E. fold en0 in E. fold en1 in E.
    destruct (negb en0 && negb en1) eqn:N.
    + exists [], m. split; [exact E|]. cbn. repeat split; reflexivity.
    + destruct (SwizzleSrc_code_runs h vs instr 1 (common.src1 instr) SRC1 m)
        as (m1 & E1 & _ & G1 & M1 & Q1 & D1 & B1 & _ & _ & X1); [discriminate|].
      destruct (MOVA_tail_runs en0 en1 m1)
        as (m' & E2 & M2 & Q2 & D2 & B2 & A0 & A1 & G2 & X2).
      eexists. exists m'. split; [exact E|].
      rewrite exec_block_app, E1. split; [exact E2|].
      repeat split; try congruence.
      * intros H. transitivity (gprs m1 R10); [exact (A0 H) | now rewrite G1].
      * intros H. transitivity (gprs m1 R11); [exact (A1 H) | now rewrite G1].
      * intros g H0 H1 H2. transitivity (gprs m1 g); [now apply G2 | now rewrite G1].
      * intros r Hr. rewrite X2 by assumption. apply X1. cbn. intros [C|[]].
        congruence.
Qed.

Lemma MOVA_writes_selected_address_registers_only_witness :
  let h := example_host in
  let vs := mova_setup in
  let m := example_machine in
  (DestComponentEnabled (swizzle_data vs (common.operand_desc_id (example_mova 3))) 0 = false
   /\ DestComponentEnabled (swizzle_data vs (common.operand_desc_id (example_mova 3))) 1 = false
   /\ Emits (Compile_MOVA h vs (example_mova 3)) [])
  /\ (offset_fits h (common.src1 (example_mova 1)) = true
      /\ DestComponentEnabled (swizzle_data vs (common.operand_desc_id (example_mova 1))) 1 = false
      /\ exists c m',
           Emits (Compile_MOVA h vs (example_mova 1)) c
           /\ exec_block c m = Some m'
           /\ xmem m' = xmem m
           /\ gprs m' (gpr_of ADDROFFS_REG_1) = gprs m (gpr_of ADDROFFS_REG_1)).
Proof.
  intros h vs m. split.
  - destruct (MOVA_writes_selected_address_registers_only h vs (example_mova 3) m)
      as [A _].
    split; [reflexivity|]. split; [reflexivity|]. apply A; reflexivity.
  - destruct (MOVA_writes_selected_address_registers_only h vs (example_mova 1) m)
      as [_ B].
    split; [reflexivity|]. split; [reflexivity|].
    destruct (B eq_refl) as (c & m' & E & R & M & _ & _ & _ & _ & A1 & _).
    exists c, m'. repeat split; try assumption. apply A1. reflexivity.
Defined.

(** ** The dispatch loop *)

Lemma Compile_Return_unfolded s :
  Compile_Return s
  = Done (tt, {| code := code s ++ Return_code (program_counter s) (local_label (label_id s));
                 program_counter := program_counter s;
                 looping := looping s;
                 return_offsets := return_offsets s;
                 label_id := S (label_id s);
                 log := log s |}).
Proof.
  unfold Compile_Return. repeat jit_step. unfold emit, Return_code.
  f_equal. f_equal. same_state.
Qed.

Lemma Compile_NextInstr_unfolded h vs block s :
  Compile_NextInstr h vs block s
  = dispatch h vs block (program_counter s) (NextInstr_entry s).
Proof.
  unfold Compile_NextInstr. repeat jit_step. cbv zeta.
  destruct (in_table_dec (program_counter s) (Z.of_nat (List.length (program_code vs))))
    as [R|R].
  - unfold NextInstr_entry. unfold bind at 1.
    destruct (binary_search (return_offsets s) (program_counter s)).
    + rewrite Compile_Return_unfolded, bind_instruction_labels_at by exact R.
      repeat jit_step. state_fields. unfold dispatch.
      match goal with |- bind _ _ ?s1 = bind _ _ ?s2 =>
        replace s1 with s2; [reflexivity|] end.
      same_state.
    + unfold skip, pure. rewrite bind_instruction_labels_at by exact R.
      repeat jit_step. state_fields. unfold dispatch.
      match goal with |- bind _ _ ?s1 = bind _ _ ?s2 =>
        replace s1 with s2; [reflexivity|] end.
      same_state.
  - rewrite dispatch_outside by exact R. unfold bind at 1.
    destruct (binary_search (return_offsets s) (program_counter s)).
    + rewrite Compile_Return_unfolded. now apply bind_instruction_labels_at_outside.
    + unfold skip, pure. now apply bind_instruction_labels_at_outside.
Qed.

Lemma Steady_dispatch h vs block pc :
  (forall e, Steady (block e)) -> Steady (dispatch h vs block pc).
Proof.
  intros Hb. unfold dispatch.
  apply Steady_bind; [apply Steady_GetVertexShaderInstruction | intros instr].
  pose proof (Steady_instr_table h vs block Hb) as T.
  rewrite Forall_forall in T.
  destruct (nth_in_or_default (Z.to_nat (opcode instr)) (instr_table h vs block) None)
    as [I|D].
  - specialize (T _ I). destruct (nth _ _ _); [apply T | steady].
  - rewrite D. steady.
Qed.

Lemma opcode_range instr : 0 <= opcode instr < 64.
Proof. exact (field_range 26 6 instr ltac:(lia)). Qed.

Lemma instr_table_length h vs block : List.length (instr_table h vs block) = 64%nat.
Proof. reflexivity. Qed.

Lemma instr_table_entries h vs block :
  forallb (table_entry_agrees (instr_table h vs block)) (seq 0 64) = true.
Proof. vm_compute. reflexivity. Qed.

Lemma instr_table_None h vs block op :
  0 <= op < 64 ->
  (nth (Z.to_nat op) (instr_table h vs block) None = None <-> In op unrecognized_opcodes).
Proof.
  intros R. pose proof (instr_table_entries h vs block) as A.
  rewrite forallb_forall in A. specialize (A (Z.to_nat op)).
  assert (I : In (Z.to_nat op) (seq 0 64)) by (apply in_seq; lia).
  apply A in I. unfold table_entry_agrees in I. rewrite Z2Nat.id in I by lia.
  apply Bool.eqb_prop in I. split.
  - intros E. rewrite E in I. symmetry in I. apply existsb_exists in I.
    destruct I as (x & Hx & Ex). apply Z.eqb_eq in Ex. now subst.
  - intros Hin. assert (X : existsb (Z.eqb op) unrecognized_opcodes = true).
    { apply existsb_exists. exists op. split; [assumption | apply Z.eqb_refl]. }
    rewrite X in I. destruct (nth _ _ _); [discriminate | reflexivity].
Qed.

(** C8.  When the instruction at the program counter has an opcode whose
    entry in [instr_table] is empty, [Compile_NextInstr] returns normally:
    the code buffer receives the binding of the label of the instruction
    (preceded by the return check when the offset is a return offset) and
    no instruction, one line is added to the log, and the program counter
    is the next offset, where [Compile_Block] goes on.  The table has 64
    entries, an opcode is below 64, and the empty entries are the 17
    opcodes of [unrecognized_opcodes]. *)
Theorem unhandled_instruction_is_logged_and_skipped h vs block s instr :
  0 <= program_counter s ->
  nth_error (program_code vs) (Z.to_nat (program_counter s)) = Some instr ->
  nth (Z.to_nat (opcode instr)) (instr_table h vs block) None = None ->
  let pc := program_counter s in
  let check := binary_search (return_offsets s) pc in
  let s' :=
    {| code := code s
               ++ (if check then Return_code pc (local_label (label_id s)) else [])
               ++ [L (instruction_labels pc)];
       program_counter := pc + 1;
       looping := looping s;
       return_offsets := return_offsets s;
       label_id := if check then S (label_id s) else label_id s;
       log := log s ++ [Unhandled_instruction (OpCode.EffectiveOpCode (opcode instr)) instr] |} in
  Compile_NextInstr h vs block s = Done (tt, s')
  /\ (forall fuel e, pc < e ->
        Compile_Block h vs (S fuel) e s = Compile_Block h vs fuel e s')
  /\ List.length (instr_table h vs block) = 64%nat
  /\ 0 <= opcode instr < 64
  /\ In (opcode instr) unrecognized_opcodes
  /\ (forall op, 0 <= op < 64 ->
        (nth (Z.to_nat op) (instr_table h vs block) None = None
         <-> In op unrecognized_opcodes)).
Proof.
  intros P I T pc check s'.
  assert (E : forall b, Compile_NextInstr h vs b s = Done (tt, s')
              \/ nth (Z.to_nat (opcode instr)) (instr_table h vs b) None <> None).
  { intros b. rewrite Compile_NextInstr_unfolded. unfold dispatch, bind,
      GetVertexShaderInstruction.
    apply Z.ltb_ge in P. rewrite P, I.
    destruct (nth (Z.to_nat (opcode instr)) (instr_table h vs b) None) eqn:N;
      [right; discriminate | left; reflexivity]. }
  pose proof (instr_table_None h vs block (opcode instr) (opcode_range instr)) as U.
  split; [destruct (E block) as [X|X]; [exact X | contradiction]|].
  split.
  { intros fuel e Lt. cbn [Compile_Block]. apply Z.ltb_lt in Lt. fold pc. rewrite Lt.
    unfold bind at 1.
    destruct (E (Compile_Block h vs fuel)) as [X|X].
    - now rewrite X.
    - exfalso. apply X.
      apply (instr_table_None h vs _ (opcode instr) (opcode_range instr)).
      now apply U. }
  split; [reflexivity|]. split; [apply opcode_range|].
  split; [now apply U|]. intros op R. now apply instr_table_None.
Qed.

Lemma unhandled_instruction_is_logged_and_skipped_witness :
  let h := example_host in
  let vs := unhandled_setup in
  let block := Compile_Block h vs 2 in
  let s := at_offset_1 in
  let instr := flow_word 4 0 0 in
  0 <= program_counter s
  /\ nth_error (program_code vs) (Z.to_nat (program_counter s)) = Some instr
  /\ nth (Z.to_nat (opcode instr)) (instr_table h vs block) None = None
  /\ Compile_NextInstr h vs block s
     = Done (tt, {| code := [L (instruction_labels 0); L (instruction_labels 1)];
                    program_counter := 2;
                    looping := false;
                    return_offsets := [];
                    label_id := 0;
                    log := [Unhandled_instruction 4 (flow_word 4 0 0)] |}).
Proof.
  intros h vs block s instr.
  assert (P : 0 <= program_counter s) by (cbn; lia).
  split; [exact P|]. split; [reflexivity|]. split; [reflexivity|].
  exact (proj1 (unhandled_instruction_is_logged_and_skipped h vs block s instr
                  P eq_refl eq_refl)).
Defined.

(** C1 (amended).  A backward IF or LOOP and a nested LOOP do not stop the
    compilation.  The conditions are evaluated while compiling, and a failed
    [Compile_Assert] returns normally after it has emitted a call of the
    logger with the message, so the report is made when the generated code
    runs.  [Compile_LOOP] and [Compile_IF] then go on as for any other
    instruction, from a state whose code buffer holds these reports; with a
    backward target the block is empty, so a backward LOOP compiles to a
    loop with an empty body and a backward IF without an else part to a
    jump to the next instruction. *)
Theorem failed_Compile_Assert_emits_a_run_time_report h vs fuel block instr s :
  let pc := program_counter s in
  let dest := flow_control.dest_offset instr in
  let l := local_label (label_id s) in
  (forall msg, Emits (Compile_Assert h false msg) (diagnostic h msg))
  /\ Compile_LOOP h block instr s
     = (block (dest + 1) ;; LOOP_after l) (LOOP_entry h instr s)
  /\ Compile_IF h block instr s
     = (block dest ;; IF_after block instr l (local_label (S (label_id s))))
       (IF_entry h instr s)
  /\ (dest < pc ->
      Compile_LOOP h (Compile_Block h vs fuel) instr s
      = Done (tt, {| code := code s
                             ++ diagnostic h "Backwards loops not supported"
                             ++ (if looping s
                                 then diagnostic h "Nested loops not supported"
                                 else [])
                             ++ LOOP_head h instr l ++ LOOP_tail l;
                     program_counter := pc;
                     looping := false;
                     return_offsets := return_offsets s;
                     label_id := S (label_id s);
                     log := log s |}))
  /\ (looping s = true -> pc <= dest ->
      LOOP_checks h instr s = diagnostic h "Nested loops not supported")
  /\ (dest < pc -> flow_control.num_instructions instr = 0 ->
      Compile_IF h (Compile_Block h vs fuel) instr s
      = Done (tt, {| code := code s
                             ++ diagnostic h "Backwards if-statements not supported"
                             ++ IF_condition h instr ++ [jz l; L l];
                     program_counter := pc;
                     looping := looping s;
                     return_offsets := return_offsets s;
                     label_id := S (S (label_id s));
                     log := log s |})).
Proof.
  intros pc dest l.
  split; [intros msg; exact (Compile_Assert_emits h false msg)|].
  split; [apply Compile_LOOP_unfolded|].
  split; [apply Compile_IF_unfolded|].
  split; [|split].
  - intros B. rewrite Compile_LOOP_unfolded. unfold bind at 1.
    rewrite Compile_Block_empty by (cbn; fold pc dest; lia).
    unfold LOOP_after. repeat jit_step. unfold set_looping. state_fields.
    unfold LOOP_entry, LOOP_checks, LOOP_tail. fold pc dest l.
    assert (G : (dest >=? pc) = false) by (rewrite Z.geb_leb; apply Z.leb_gt; lia).
    rewrite G. unfold append_code. state_fields. destruct (looping s); cbn [negb];
      do 3 f_equal; rewrite <- ?app_assoc; reflexivity.
  - intros Lo F. unfold LOOP_checks. fold pc dest. rewrite Lo.
    assert (G : (dest >=? pc) = true) by (rewrite Z.geb_leb; apply Z.leb_le; lia).
    now rewrite G.
  - intros B N. rewrite Compile_IF_unfolded. unfold bind at 1.
    rewrite Compile_Block_empty by (cbn; fold pc dest; lia).
    unfold IF_after. rewrite N. cbn [Z.eqb]. unfold emit, IF_entry, IF_checks.
    fold pc dest l.
    assert (G : (dest >=? pc) = false) by (rewrite Z.geb_leb; apply Z.leb_gt; lia).
    rewrite G. unfold append_code. state_fields.
    do 3 f_equal. rewrite <- !app_assoc. reflexivity.
Qed.

Lemma failed_Compile_Assert_emits_a_run_time_report_witness :
  let h := example_host in
  let s := at_offset_1 in
  let loop := flow_word OpCode.LOOP 0 0 in
  let ifu := flow_word OpCode.IFU 0 0 in
  (flow_control.dest_offset loop < program_counter s
   /\ Compile_LOOP h (Compile_Block h backward_loop_setup 1) loop s
      = Done (tt, {| code := [L (instruction_labels 0)]
                             ++ diagnostic h "Backwards loops not supported"
                             ++ LOOP_head h loop (local_label 0)
                             ++ LOOP_tail (local_label 0);
                     program_counter := 1;
                     looping := false;
                     return_offsets := [];
                     label_id := 1;
                     log := [] |}))
  /\ (flow_control.dest_offset ifu < program_counter s
      /\ flow_control.num_instructions ifu = 0
      /\ Compile_IF h (Compile_Block h backward_if_setup 1) ifu s
         = Done (tt, {| code := [L (instruction_labels 0)]
                                ++ diagnostic h "Backwards if-statements not supported"
                                ++ IF_condition h ifu
                                ++ [jz (local_label 0); L (local_label 0)];
                        program_counter := 1;
                        looping := false;
                        return_offsets := [];
                        label_id := 2;
                        log := [] |})).
Proof.
  intros h s loop ifu. split.
  - assert (B : flow_control.dest_offset loop < program_counter s) by (vm_compute; reflexivity).
    split; [exact B|].
    destruct (failed_Compile_Assert_emits_a_run_time_report h backward_loop_setup 1%nat
                (Compile_Block h backward_loop_setup 1) loop s) as (_ & _ & _ & X & _).
    exact (X B).
  - assert (B : flow_control.dest_offset ifu < program_counter s) by (vm_compute; reflexivity).
    split; [exact B|]. split; [reflexivity|].
    destruct (failed_Compile_Assert_emits_a_run_time_report h backward_if_setup 1%nat
                (Compile_Block h backward_if_setup 1) ifu s) as (_ & _ & _ & _ & _ & X).
    exact (X B eq_refl).
Defined.

(** Counterexample to C1 as stated: the compilation of a program with a
    backward LOOP, of one with a nested LOOP and of one with a backward IF
    returns normally, with nothing in the log; the loops and the branch are
    in the generated code, after a call of the logger. *)
Lemma backward_and_nested_flow_is_compiled :
  (exists s',
      Compile example_host backward_loop_setup 4 JitShader_new = Done (tt, s')
      /\ log s' = []
      /\ skipn 11 (code s')
         = [L (instruction_labels 0); L (instruction_labels 1)]
           ++ diagnostic example_host "Backwards loops not supported"
           ++ LOOP_head example_host (flow_word OpCode.LOOP 0 0) (local_label 0)
           ++ LOOP_tail (local_label 0)
           ++ [L (instruction_labels 2);
               ABI_PopRegistersAndAdjustStack ABI_ALL_CALLEE_SAVED 8; ret])
  /\ (exists s',
        Compile example_host nested_loop_setup 6 JitShader_new = Done (tt, s')
        /\ log s' = []
        /\ skipn 11 (code s')
           = [L (instruction_labels 0)]
             ++ LOOP_head example_host (flow_word OpCode.LOOP 2 0) (local_label 0)
             ++ [L (instruction_labels 1)]
             ++ diagnostic example_host "Nested loops not supported"
             ++ LOOP_head example_host (flow_word OpCode.LOOP 2 0) (local_label 1)
             ++ [L (instruction_labels 2)]
             ++ LOOP_tail (local_label 1)
             ++ LOOP_tail (local_label 0)
             ++ [L (instruction_labels 3);
                 ABI_PopRegistersAndAdjustStack ABI_ALL_CALLEE_SAVED 8; ret])
  /\ (exists s',
        Compile example_host backward_if_setup 4 JitShader_new = Done (tt, s')
        /\ log s' = []
        /\ skipn 11 (code s')
           = [L (instruction_labels 0); L (instruction_labels 1)]
             ++ diagnostic example_host "Backwards if-statements not supported"
             ++ IF_condition example_host (flow_word OpCode.IFU 0 0)
             ++ [jz (local_label 0); L (local_label 0); L (instruction_labels 2);
                 ABI_PopRegistersAndAdjustStack ABI_ALL_CALLEE_SAVED 8; ret]).
Proof.
  split; [|split]; eexists; (split; [vm_compute; reflexivity|]);
    split; reflexivity.
Qed.

Lemma FindReturnOffsets_unfolded vs s :
  FindReturnOffsets vs s
  = Done (tt, {| code := code s; program_counter := program_counter s;
                 looping := looping s;
                 return_offsets := sort (call_return_offsets (program_code vs));
                 label_id := label_id s; log := log s |}).
Proof. reflexivity. Qed.

Lemma Compile_unfolded h vs fuel s :
  Compile h vs fuel s
  = (Compile_Block h vs fuel (Z.of_nat (List.length (program_code vs))) ;;
     Compile_finish h (code s)) (Compile_entry h vs s).
Proof.
  unfold Compile, Compile_finish. unfold bind at 1. cbn [get_code].
  repeat jit_step. unfold bind at 1. rewrite FindReturnOffsets_unfolded.
  repeat jit_step. state_fields.
  match goal with |- bind _ _ ?s1 = bind _ _ ?s2 =>
    replace s1 with s2; [reflexivity|] end.
  unfold Compile_entry, prologue. same_state.
Qed.



Lemma Compile_CALL_emits vs instr :
  0 <= flow_control.dest_offset instr < Z.of_nat (List.length (program_code vs)) ->
  Emits (Compile_CALL vs instr) (CALL_code instr).
Proof.
  intros R s. unfold Compile_CALL, CALL_code. jit_step.
  rewrite bind_instruction_labels_at by exact R. jit_step.
  unfold emit. do 2 f_equal. same_state.
Qed.

Lemma Compile_CALL_outside vs instr s :
  ~ 0 <= flow_control.dest_offset instr < Z.of_nat (List.length (program_code vs)) ->
  Compile_CALL vs instr s = Undefined.
Proof.
  intros R. unfold Compile_CALL. jit_step.
  now apply bind_instruction_labels_at_outside.
Qed.

Lemma Compile_CALLC_unfolded vs instr s :
  0 <= flow_control.dest_offset instr < Z.of_nat (List.length (program_code vs)) ->
  Compile_CALLC vs instr s
  = Done (tt, {| code := code s ++ CALLC_code instr (local_label (label_id s));
                 program_counter := program_counter s;
                 looping := looping s;
                 return_offsets := return_offsets s;
                 label_id := S (label_id s);
                 log := log s |}).
Proof.
  intros R. unfold Compile_CALLC.
  rewrite (bind_Emits _ _ _ _ (Compile_EvaluateCondition_emits instr)).
  repeat jit_step. rewrite (bind_Emits _ _ _ _ (Compile_CALL_emits vs instr R)).
  unfold emit, CALLC_code. do 2 f_equal. same_state.
Qed.

Lemma Compile_CALLC_outside vs instr s :
  ~ 0 <= flow_control.dest_offset instr < Z.of_nat (List.length (program_code vs)) ->
  Compile_CALLC vs instr s = Undefined.
Proof.
  intros R. unfold Compile_CALLC.
  rewrite (bind_Emits _ _ _ _ (Compile_EvaluateCondition_emits instr)).
  repeat jit_step. unfold bind at 1. now rewrite Compile_CALL_outside.
Qed.

Lemma Compile_CALLU_unfolded h vs instr s :
  0 <= flow_control.dest_offset instr < Z.of_nat (List.length (program_code vs)) ->
  Compile_CALLU h vs instr s
  = Done (tt, {| code := code s ++ CALLU_code h instr (local_label (label_id s));
                 program_counter := program_counter s;
                 looping := looping s;
                 return_offsets := return_offsets s;
                 label_id := S (label_id s);
                 log := log s |}).
Proof.
  intros R. unfold Compile_CALLU.
  rewrite (bind_Emits _ _ _ _ (Compile_UniformCondition_emits h instr)).
  repeat jit_step. rewrite (bind_Emits _ _ _ _ (Compile_CALL_emits vs instr R)).
  unfold emit, CALLU_code. do 2 f_equal. same_state.
Qed.

Lemma Compile_CALLU_outside h vs instr s :
  ~ 0 <= flow_control.dest_offset instr < Z.of_nat (List.length (program_code vs)) ->
  Compile_CALLU h vs instr s = Undefined.
Proof.
  intros R. unfold Compile_CALLU.
  rewrite (bind_Emits _ _ _ _ (Compile_UniformCondition_emits h instr)).
  repeat jit_step. unfold bind at 1. now rewrite Compile_CALL_outside.
Qed.

Lemma find_label_no_label l blk :
  forallb no_label blk = true -> find_label l blk = None.
Proof.
  induction blk as [|i blk IH]; cbn; [reflexivity|].
  intros H. apply andb_true_iff in H. destruct H as [Hi H].
  rewrite (IH H). destruct i; try reflexivity. discriminate.
Qed.

Lemma wrap64_idem v : Bits.wrap64 (Bits.wrap64 v) = Bits.wrap64 v.
Proof. unfold Bits.wrap64. apply Z.mod_mod. lia. Qed.

Lemma wrap64_add_l a b : Bits.wrap64 (Bits.wrap64 a + b) = Bits.wrap64 (a + b).
Proof. unfold Bits.wrap64. apply Z.add_mod_idemp_l. lia. Qed.

Lemma wrap64_sub_l a b : Bits.wrap64 (Bits.wrap64 a - b) = Bits.wrap64 (a - b).
Proof. unfold Bits.wrap64. apply Zminus_mod_idemp_l. Qed.

Lemma wrap64_small v : 0 <= v < 2 ^ 64 -> Bits.wrap64 v = v.
Proof. intros R. unfold Bits.wrap64. now apply Z.mod_small. Qed.

Lemma return_offset_range instr :
  0 <= flow_control.dest_offset instr + flow_control.num_instructions instr < 2 ^ 32.
Proof.
  pose proof (field_range 10 12 instr ltac:(lia)) as A.
  pose proof (field_range 0 8 instr ltac:(lia)) as B.
  fold (flow_control.dest_offset instr) in A.
  fold (flow_control.num_instructions instr) in B.
  change (2 ^ 12) with 4096 in A. change (2 ^ 8) with 256 in B.
  change (2 ^ 32) with 4294967296. lia.
Qed.

(** PUSH and CALL: the return offset and then the return address are on the
    stack, and control is at the label of the target. *)
Lemma CALL_enters instr pre post q m :
  let c := pre ++ CALL_code instr ++ post in
  rip m = List.length pre ->
  0 <= gprs m RSP < 2 ^ 64 ->
  find_label (instruction_labels (flow_control.dest_offset instr)) c = Some q ->
  exists m2,
    run 2 c m = Some m2
    /\ rip m2 = q
    /\ gprs m2 RSP = Bits.wrap64 (gprs m RSP - 16)
    /\ qmem m2 (gprs m2 RSP) = Z.of_nat (List.length pre + 2)
    /\ qmem m2 (Bits.wrap64 (gprs m2 RSP + 8))
       = flow_control.dest_offset instr + flow_control.num_instructions instr
    /\ Bits.wrap64 (gprs m2 RSP + 16) = gprs m RSP.
Proof.
  intros c P R F.
  set (ro := flow_control.dest_offset instr + flow_control.num_instructions instr) in *.
  set (sp1 := Bits.wrap64 (gprs m RSP - 8)).
  set (m1 := next (set_qmem sp1 (Bits.wrap64 ro) (set_gpr RSP sp1 m))).
  assert (S1 : step c m = Some m1).
  { rewrite (step_at c m (push ro)); [reflexivity|].
    rewrite P, <- (Nat.add_0_r (List.length pre)). now apply nth_error_middle. }
  set (sp2 := Bits.wrap64 (sp1 - 8)).
  set (m2 := set_rip q (set_qmem sp2 (Z.of_nat (S (rip m1))) (set_gpr RSP sp2 m1))).
  assert (S2 : step c m1 = Some m2).
  { rewrite (step_at c m1 (call (instruction_labels (flow_control.dest_offset instr)))).
    - cbv zeta. unfold goto. rewrite F. unfold m2, sp2, m1. cbn. now rewrite upd_same.
    - assert (P1 : rip m1 = (List.length pre + 1)%nat) by (unfold m1; cbn; lia).
      rewrite P1. now apply nth_error_middle. }
  assert (E2 : sp2 = Bits.wrap64 (gprs m RSP - 16)).
  { unfold sp2, sp1. rewrite wrap64_sub_l. f_equal. lia. }
  exists m2. rewrite (run_step _ _ _ _ S1), (run_step _ _ _ _ S2). cbn [run].
  split; [reflexivity|]. split; [reflexivity|].
  assert (G : gprs m2 RSP = sp2) by (unfold m2; cbn; now rewrite upd_same).
  rewrite G. split; [exact E2|].
  assert (D : Bits.wrap64 (sp2 + 8) = sp1).
  { unfold sp2. rewrite wrap64_add_l. replace (sp1 - 8 + 8) with sp1 by lia.
    unfold sp1. apply wrap64_idem. }
  assert (N : sp1 <> sp2).
  { unfold sp2, sp1, Bits.wrap64. change (2 ^ 64) with 18446744073709551616 in *.
    Z.div_mod_to_equations. lia. }
  split; [|split].
  - unfold m2. cbn. rewrite updZ_same. unfold m1. cbn. rewrite P. f_equal. lia.
  - rewrite D. unfold m2. cbn. rewrite updZ_other by assumption.
    unfold m1. cbn. rewrite updZ_same. apply wrap64_small.
    pose proof (return_offset_range instr). fold ro in H.
    change (2 ^ 32) with 4294967296 in H. change (2 ^ 64) with 18446744073709551616. lia.
  - rewrite E2, wrap64_add_l. rewrite <- (wrap64_small (gprs m RSP)) at 2 by assumption.
    f_equal. lia.
Qed.

(** The cleanup after the subroutine has returned. *)
Lemma CALL_leaves instr pre post m3 :
  let c := pre ++ CALL_code instr ++ post in
  rip m3 = (List.length pre + 2)%nat ->
  exists m4,
    step c m3 = Some m4
    /\ rip m4 = (List.length pre + 3)%nat
    /\ gprs m4 RSP = Bits.wrap64 (gprs m3 RSP + 8)
    /\ qmem m4 = qmem m3 /\ xmem m4 = xmem m3.
Proof.
  intros c P. eexists. split.
  - rewrite (step_at c m3 (add (reg rsp) (imm 8))); [reflexivity|].
    rewrite P. now apply nth_error_middle.
  - cbn. rewrite upd_same, P. unfold Bits.wrap64.
    rewrite Z.mod_mod, Z.add_mod_idemp_l by lia. repeat split. lia.
Qed.

(** The whole call sequence, for a subroutine given by what it does: [k]
    steps after which control is behind the CALL and the return address has
    been popped. *)
Lemma CALL_balanced instr pre post q m :
  let c := pre ++ CALL_code instr ++ post in
  rip m = List.length pre ->
  0 <= gprs m RSP < 2 ^ 64 ->
  find_label (instruction_labels (flow_control.dest_offset instr)) c = Some q ->
  exists m2,
    run 2 c m = Some m2
    /\ rip m2 = q
    /\ forall k m3,
         run k c m2 = Some m3 ->
         rip m3 = (List.length pre + 2)%nat ->
         gprs m3 RSP = Bits.wrap64 (gprs m2 RSP + 8) ->
         exists m4,
           run (2 + k + 1) c m = Some m4
           /\ rip m4 = (List.length pre + 3)%nat
           /\ gprs m4 RSP = gprs m RSP.
Proof.
  intros c P R F.
  destruct (CALL_enters instr pre post q m P R F) as (m2 & R2 & P2 & G2 & _ & _ & B2).
  exists m2. split; [exact R2|]. split; [exact P2|].
  intros k m3 Rk P3 G3. fold c in Rk.
  destruct (CALL_leaves instr pre post m3 P3) as (m4 & S4 & P4 & G4 & _).
  exists m4. fold c in S4, R2.
  rewrite <- Nat.add_assoc, run_add, R2, run_add, Rk. cbn [run]. rewrite S4.
  split; [reflexivity|]. split; [exact P4|].
  rewrite G4, G3, wrap64_add_l, <- B2. f_equal. lia.
Qed.

(** The call of a subroutine whose code is a block of sequential
    instructions that leave the stack alone, followed by the return check
    for the return offset of the call. *)
Lemma CALL_returns instr pre mid body post id m :
  let dest := flow_control.dest_offset instr in
  let ro := dest + flow_control.num_instructions instr in
  let front := pre ++ CALL_code instr ++ mid in
  let c := front ++ (L (instruction_labels dest) :: body)
                 ++ Return_code ro (local_label id) ++ post in
  rip m = List.length pre ->
  0 <= gprs m RSP < 2 ^ 64 ->
  find_label (instruction_labels dest) front = None ->
  find_label (local_label id) (front ++ L (instruction_labels dest) :: body) = None ->
  forallb (keeps [RSP]) body = true ->
  exists m',
    run (List.length body + 8) c m = Some m'
    /\ rip m' = (List.length pre + 3)%nat
    /\ gprs m' RSP = gprs m RSP.
Proof.
  intros dest ro front c P R F1 F2 K.
  set (blk := L (instruction_labels dest) :: body) in *.
  assert (C1 : c = pre ++ CALL_code instr
                   ++ (mid ++ blk ++ Return_code ro (local_label id) ++ post)).
  { unfold c, front. rewrite <- !app_assoc. reflexivity. }
  assert (FL : find_label (instruction_labels dest) c = Some (List.length front)).
  { unfold c. rewrite find_label_app, F1. unfold blk. cbn.
    rewrite Z.eqb_refl. cbn. f_equal. lia. }
  destruct (CALL_enters instr pre _ (List.length front) m P R
              ltac:(rewrite <- C1; exact FL))
    as (m2 & R2 & P2 & G2 & T2 & O2 & B2).
  rewrite <- C1 in R2.
  assert (Kb : forallb (keeps [RSP]) blk = true) by (unfold blk; cbn; exact K).
  destruct (exec_block_total blk m2 (keeps_sequential _ _ Kb)) as [mb Eb].
  destruct (run_block blk front (Return_code ro (local_label id) ++ post) m2 mb
              (keeps_sequential _ _ Kb) P2 Eb) as [Rb _].
  fold c in Rb.
  set (m3 := set_rip (List.length front + List.length blk) mb) in *.
  assert (G3 : gprs m3 RSP = gprs m2 RSP).
  { unfold m3. cbn. apply (exec_block_keeps [RSP] blk m2 mb Kb Eb). now left. }
  assert (Q3 : qmem m3 = qmem m2).
  { unfold m3. cbn. apply (exec_block_keeps_stack blk m2 mb Kb Eb). }
  assert (C2 : c = (front ++ blk) ++ Return_code ro (local_label id) ++ post).
  { unfold c. rewrite <- app_assoc. reflexivity. }
  destruct (Return_code_runs (front ++ blk) post ro id m3 (return_offset_range instr))
    as [Rt _].
  { unfold m3. cbn. now rewrite length_app. }
  { exact F2. }
  rewrite <- C2 in Rt.
  destruct Rt as (m4 & R4 & P4 & G4 & Q4 & _).
  { unfold ea. cbn [base index disp at_ gpr_of rsp]. rewrite Z.add_0_r, G3, Q3, O2.
    unfold Bits.wrap32. apply Z.mod_small. apply return_offset_range. }
  rewrite G3, Q3, T2, Nat2Z.id in P4.
  destruct (CALL_leaves instr pre (mid ++ blk ++ Return_code ro (local_label id) ++ post)
              m4 P4) as (m5 & S5 & P5 & G5 & _).
  rewrite <- C1 in S5.
  exists m5.
  replace (List.length body + 8)%nat with (2 + (List.length blk + (4 + 1)))%nat
    by (unfold blk; cbn; lia).
  rewrite run_add, R2, run_add, Rb, run_add, R4. cbn [run]. rewrite S5.
  split; [reflexivity|]. split; [exact P5|].
  rewrite G5, G4, G3, wrap64_add_l, <- B2. f_equal. lia.
Qed.

Lemma EvaluateCondition_code_keeps instr :
  forallb (keeps [RSP]) (EvaluateCondition_code instr) = true
  /\ forallb no_label (EvaluateCondition_code instr) = true.
Proof.
  unfold EvaluateCondition_code. cbv zeta.
  destruct (flow_control.op instr =? Or); [split; reflexivity|].
  destruct (flow_control.op instr =? And); [split; reflexivity|].
  destruct (flow_control.op instr =? JustX); [split; reflexivity|].
  destruct (flow_control.op instr =? JustY); split; reflexivity.
Qed.

(** A conditional call whose condition code leaves the zero flag set: the
    jump goes to the label behind the call sequence, and the stack is as
    before. *)
Lemma conditional_CALL_skipped instr cond pre post id m :
  let b := local_label id in
  let c := pre ++ (cond ++ [jz b] ++ CALL_code instr ++ [L b]) ++ post in
  forallb (keeps [RSP]) cond = true ->
  forallb no_label cond = true ->
  rip m = List.length pre ->
  find_label b pre = None ->
  exists mc,
    exec_block cond m = Some mc
    /\ (ZF mc = true ->
        exists m',
          run (List.length cond + 2) c m = Some m'
          /\ rip m' = (List.length pre + List.length cond + 5)%nat
          /\ gprs m' RSP = gprs m RSP
          /\ qmem m' = qmem m).
Proof.
  intros b c K NL P F.
  destruct (exec_block_total cond m (keeps_sequential _ _ K)) as [mc Ec].
  exists mc. split; [exact Ec|]. intros Z.
  assert (C1 : c = pre ++ cond ++ ([jz b] ++ CALL_code instr ++ [L b] ++ post)).
  { unfold c. rewrite <- !app_assoc. reflexivity. }
  destruct (run_block cond pre ([jz b] ++ CALL_code instr ++ [L b] ++ post) m mc
              (keeps_sequential _ _ K) P Ec) as [Rc _].
  rewrite <- C1 in Rc.
  set (m1 := set_rip (List.length pre + List.length cond) mc) in *.
  assert (FL : find_label b c = Some (List.length pre + List.length cond + 4)%nat).
  { rewrite C1, find_label_app, F, find_label_app, (find_label_no_label _ _ NL).
    unfold b. cbn. rewrite Nat.eqb_refl. cbn. f_equal. lia. }
  assert (C2 : c = (pre ++ cond) ++ [jz b] ++ (CALL_code instr ++ [L b] ++ post)).
  { rewrite C1, <- !app_assoc. reflexivity. }
  assert (S1 : step c m1 = Some (set_rip (List.length pre + List.length cond + 4) m1)).
  { rewrite (step_at c m1 (jz b)).
    - unfold m1 at 1. cbn [ZF set_rip]. rewrite Z. unfold goto. now rewrite FL.
    - unfold m1. cbn [rip set_rip]. rewrite C2, <- length_app.
      rewrite <- (Nat.add_0_r (List.length (pre ++ cond))).
      now apply nth_error_middle. }
  set (m2 := set_rip (List.length pre + List.length cond + 4) m1) in *.
  assert (C3 : c = (pre ++ cond ++ [jz b] ++ CALL_code instr) ++ [L b] ++ post).
  { rewrite C1, <- !app_assoc. reflexivity. }
  assert (S2 : step c m2 = Some (next m2)).
  { rewrite (step_at c m2 (L b)); [reflexivity|].
    unfold m2. cbn [rip set_rip]. rewrite C3.
    replace (List.length pre + List.length cond + 4)%nat
      with (List.length (pre ++ cond ++ [jz b] ++ CALL_code instr) + 0)%nat
      by (rewrite !length_app; cbn; lia).
    now apply nth_error_middle. }
  exists (next m2).
  rewrite run_add, Rc. rewrite (run_step _ _ _ _ S1), (run_step _ _ _ _ S2). cbn [run].
  split; [reflexivity|]. split; [cbn; lia|].
  cbn. split.
  - apply (exec_block_keeps [RSP] cond m mc K Ec). now left.
  - apply (exec_block_keeps_stack cond m mc K Ec).
Qed.



(** ** Loops *)

Lemma land_FF0 a : Z.land a 0xFF0 = 16 * ((a / 16) mod 256).
Proof.
  change 0xFF0 with (Z.shiftl (Z.ones 8) 4).
  assert (E : Z.land a (Z.shiftl (Z.ones 8) 4)
              = Z.shiftl (Z.land (Z.shiftr a 4) (Z.ones 8)) 4).
  { apply Z.bits_inj'. intros n Hn.
    rewrite Z.land_spec, !Z.shiftl_spec, Z.land_spec by assumption.
    destruct (Z.ltb_spec n 4).
    - rewrite !(Z.testbit_neg_r _ (n - 4)) by lia. apply andb_false_r.
    - rewrite Z.shiftr_spec by lia. replace (n - 4 + 4) with n by lia. reflexivity. }
  rewrite E, Z.shiftl_mul_pow2, Z.land_ones, Z.shiftr_div_pow2 by lia.
  change (2 ^ 4) with 16. change (2 ^ 8) with 256. lia.
Qed.

(** The three fields of a packed integer uniform. *)
Lemma packed_fields count start inc top :
  0 <= count < 256 -> 0 <= start < 256 -> 0 <= inc < 256 -> 0 <= top < 256 ->
  let u := count + 2 ^ 8 * start + 2 ^ 16 * inc + 2 ^ 24 * top in
  0 <= u < 2 ^ 32
  /\ u mod 256 = count
  /\ (u / 16 / 16) mod 256 = start
  /\ (u / 4096 / 16) mod 256 = inc.
Proof.
  intros. subst u. change (2 ^ 8) with 256. change (2 ^ 16) with 65536.
  change (2 ^ 24) with 16777216. change (2 ^ 32) with 4294967296.
  repeat split; try lia; Z.div_mod_to_equations; lia.
Qed.

(** The decoding of the integer uniform by the head of the loop. *)
Lemma LOOP_head_runs h instr l m count start inc top :
  0 <= count < 256 -> 0 <= start < 256 -> 0 <= inc < 256 -> 0 <= top < 256 ->
  dmem m (ea m (at_ SETUP (GetIntUniformOffset h (flow_control.int_uniform_id instr))))
  = count + 2 ^ 8 * start + 2 ^ 16 * inc + 2 ^ 24 * top ->
  exists m0,
    exec_block (LOOP_head h instr l) m = Some m0
    /\ gprs m0 RSI = count + 1
    /\ gprs m0 R12 = 16 * start
    /\ gprs m0 RDI = 16 * inc
    /\ (forall g, g <> RSI -> g <> RDI -> g <> R12 -> gprs m0 g = gprs m g)
    /\ xmem m0 = xmem m /\ qmem m0 = qmem m /\ dmem m0 = dmem m /\ bmem m0 = bmem m
    /\ xmms m0 = xmms m.
Proof.
  intros Rc Rs Ri Rt U.
  destruct (packed_fields count start inc top Rc Rs Ri Rt) as (Ru & F0 & F1 & F2).
  cbv zeta in Ru, F0, F1, F2. rewrite <- U in Ru, F0, F1, F2.
  eexists. split; [reflexivity|].
  cbn -[Z.shiftr Z.land Z.mul Z.modulo Z.pow Z.add Z.div]. upd_simpl.
  set (u := dmem m _) in *. clearbody u.
  unfold Bits.wrap32, Bits.wrap8.
  rewrite !land_FF0, !Z.shiftr_div_pow2 by lia.
  change (2 ^ 4) with 16. change (2 ^ 12) with 4096. change (2 ^ 8) with 256.
  change (2 ^ 32) with 4294967296 in *.
  rewrite !(Z.mod_small u 4294967296) by lia.
  assert (B1 : 0 <= u / 16 < 4294967296) by (Z.div_mod_to_equations; lia).
  assert (B2 : 0 <= u / 4096 < 4294967296) by (Z.div_mod_to_equations; lia).
  rewrite !(Z.mod_small (u / 16) 4294967296) by lia.
  rewrite !(Z.mod_small (u / 4096) 4294967296) by lia.
  rewrite F1, F2.
  rewrite !(Z.mod_small (16 * start) 4294967296) by lia.
  rewrite !(Z.mod_small (16 * inc) 4294967296) by lia.
  repeat split; try reflexivity.
  - rewrite ?Z.mod_mod by lia. rewrite F0.
    rewrite !(Z.mod_small count 4294967296) by lia.
    rewrite !(Z.mod_small (count + 1) 4294967296) by lia. reflexivity.
  - intros g G1 G2 G3. now upd_simpl.
Qed.

(** One turn of the loop, from its label to the jump back. *)
Lemma LOOP_iteration h instr l pre body post m k d a :
  let c := pre ++ LOOP_head h instr l ++ body ++ LOOP_tail l ++ post in
  let top := (List.length pre + 9)%nat in
  find_label l pre = None ->
  forallb (keeps [RSI; RDI; R12]) body = true ->
  rip m = top ->
  gprs m RSI = Z.of_nat (S k) -> Z.of_nat (S k) < 2 ^ 32 ->
  gprs m RDI = d -> gprs m R12 = a -> 0 <= a -> 0 <= d -> a + d < 2 ^ 32 ->
  exists m',
    run (List.length body + 4) c m = Some m'
    /\ visits top (List.length body + 4) c m = 1%nat
    /\ gprs m' RSI = Z.of_nat k
    /\ gprs m' RDI = d
    /\ gprs m' R12 = a + d
    /\ rip m' = match k with O => (top + List.length body + 4)%nat | S _ => top end.
Proof.
  intros c top Fl K P Hc Rc Hd Ha Ra Rd Rad.
  set (pre9 := pre ++ removelast (LOOP_head h instr l)).
  set (blk := body ++ [add (reg LOOPCOUNT_REG) (reg LOOPINC); sub (reg LOOPCOUNT) (imm 1)]).
  assert (L9 : List.length pre9 = top).
  { unfold pre9. rewrite length_app. reflexivity. }
  assert (C1 : c = pre9 ++ [L l] ++ (blk ++ jnz l :: post)).
  { unfold c, pre9, blk, LOOP_head, LOOP_tail. cbn [removelast].
    rewrite <- !app_assoc. reflexivity. }
  assert (C2 : c = (pre9 ++ [L l]) ++ blk ++ (jnz l :: post)).
  { rewrite C1, <- app_assoc. reflexivity. }
  assert (C3 : c = ((pre9 ++ [L l]) ++ blk) ++ [jnz l] ++ post).
  { rewrite C2, <- !app_assoc. reflexivity. }
  assert (Lb : List.length blk = (List.length body + 2)%nat).
  { unfold blk. rewrite length_app. reflexivity. }
  (* the label *)
  assert (S1 : step c m = Some (next m)).
  { assert (N : nth_error c (rip m) = Some (L l)).
    { rewrite P, <- L9, C1, <- (Nat.add_0_r (List.length pre9)).
      apply nth_error_middle. reflexivity. }
    rewrite (step_at c m _ N). reflexivity. }
  (* the body and the two updates *)
  assert (Sb : forallb sequential blk = true).
  { unfold blk. rewrite forallb_app, (keeps_sequential _ _ K). reflexivity. }
  destruct (exec_block_total body (next m) (keeps_sequential _ _ K)) as [mb Eb].
  assert (Gb : forall g, In g [RSI; RDI; R12] -> gprs mb g = gprs m g).
  { intros g G. apply (exec_block_keeps _ _ _ _ K Eb g G). }
  assert (G1 := Gb RSI ltac:(cbn; tauto)).
  assert (G2 := Gb RDI ltac:(cbn; tauto)).
  assert (G3 := Gb R12 ltac:(cbn; tauto)).
  rewrite Hc in G1. rewrite Hd in G2. rewrite Ha in G3.
  destruct (exec_block_total blk (next m) Sb) as [m2 E2].
  assert (Q : gprs m2 RSI = Z.of_nat k /\ gprs m2 RDI = d /\ gprs m2 R12 = a + d
              /\ ZF m2 = (Z.of_nat k =? 0)).
  { unfold blk in E2. rewrite exec_block_app, Eb in E2.
    cbn -[Z.add Z.sub Z.modulo Z.pow Z.of_nat] in E2. injection E2 as <-.
    cbn -[Z.add Z.sub Z.modulo Z.pow Z.of_nat]. upd_simpl.
    change (gprs mb 6%nat) with (gprs mb RSI). change (gprs mb 7%nat) with (gprs mb RDI).
    change (gprs mb 12%nat) with (gprs mb R12).
    rewrite G1, G2, G3. unfold Bits.wrap32.
    change (2 ^ 32) with 4294967296 in *.
    rewrite (Z.mod_small a), (Z.mod_small d), !(Z.mod_small (a + d)) by lia.
    rewrite !(Z.mod_small (Z.of_nat (S k))) by lia.
    replace (Z.of_nat (S k) - 1) with (Z.of_nat k) by lia.
    rewrite !(Z.mod_small (Z.of_nat k)) by lia.
    repeat split; reflexivity. }
  destruct Q as (Q1 & Q2 & Q3 & Q4).
  assert (P1 : rip (next m) = List.length (pre9 ++ [L l])).
  { cbn. rewrite P, length_app, L9. cbn. lia. }
  destruct (run_block blk (pre9 ++ [L l]) (jnz l :: post) (next m) m2 Sb P1 E2) as [R V].
  cbv zeta in R, V. rewrite <- C2 in R, V.
  rewrite length_app, L9, Lb in R, V. cbn [List.length] in R, V.
  set (m3 := set_rip (top + 1 + (List.length body + 2)) m2) in *.
  (* the jump *)
  assert (Lc : find_label l c = Some top).
  { unfold c. rewrite find_label_app, Fl. cbn. rewrite Label_eqb_refl.
    reflexivity. }
  assert (S3 : step c m3 = Some (match k with
                                 | O => set_rip (top + List.length body + 4) m2
                                 | S _ => set_rip top m2
                                 end)).
  { assert (N : nth_error c (rip m3) = Some (jnz l)).
    { replace (rip m3) with (List.length ((pre9 ++ [L l]) ++ blk) + 0)%nat.
      - rewrite C3. apply nth_error_middle. reflexivity.
      - cbn. rewrite !length_app, L9, Lb. cbn. lia. }
    rewrite (step_at c m3 _ N). cbn [ZF m3 set_rip]. rewrite Q4.
    destruct k as [|k'].
    - cbn. unfold next, m3, set_rip. cbn. do 2 f_equal. lia.
    - replace (Z.of_nat (S k') =? 0) with false by (symmetry; apply Z.eqb_neq; lia).
      unfold goto. rewrite Lc. reflexivity. }
  eexists. split; [|split].
  - replace (List.length body + 4)%nat with (1 + ((List.length body + 2) + 1))%nat by lia.
    rewrite run_add. cbn [run Nat.add]. rewrite S1.
    rewrite run_add, R. cbn [run]. rewrite S3. reflexivity.
  - replace (List.length body + 4)%nat with (1 + ((List.length body + 2) + 1))%nat by lia.
    rewrite visits_add. cbn [visits run Nat.add]. rewrite S1, P, Nat.eqb_refl.
    rewrite visits_add, R, V by lia. cbn [visits]. rewrite S3.
    replace (rip m3 =? top)%nat with false; [reflexivity|].
    symmetry. apply Nat.eqb_neq. cbn. lia.
  - destruct k; cbn [gprs rip set_rip]; repeat split; assumption.
Qed.

(** The turns of the loop, one after the other: after [j] of them the
    counter has lost [j] and the accumulator has gained [j] increments. *)
Lemma LOOP_iterations h instr l pre body post :
  let c := pre ++ LOOP_head h instr l ++ body ++ LOOP_tail l ++ post in
  let top := (List.length pre + 9)%nat in
  let turn := (List.length body + 4)%nat in
  find_label l pre = None ->
  forallb (keeps [RSI; RDI; R12]) body = true ->
  forall j k m d a,
  (j <= S k)%nat ->
  rip m = top ->
  gprs m RSI = Z.of_nat (S k) ->
  gprs m RDI = d -> gprs m R12 = a -> 0 <= a -> 0 <= d ->
  a + Z.of_nat (S k) * d < 2 ^ 32 -> Z.of_nat (S k) < 2 ^ 32 ->
  exists mj,
    run (j * turn) c m = Some mj
    /\ visits top (j * turn) c m = j
    /\ gprs mj RSI = Z.of_nat (S k) - Z.of_nat j
    /\ gprs mj RDI = d
    /\ gprs mj R12 = a + Z.of_nat j * d
    /\ rip mj = if (j <=? k)%nat then top else (top + turn)%nat.
Proof.
  intros c top turn Fl K. induction j as [|j IH]; intros k m d a J P Hc Hd Ha Ra Rd Rad Rk.
  - exists m. cbn [Nat.mul run visits Nat.leb]. repeat split; try assumption; lia.
  - destruct (LOOP_iteration h instr l pre body post m k d a Fl K P Hc Rk Hd Ha Ra Rd
                ltac:(nia)) as (m1 & R1 & V1 & C1 & D1 & A1 & P1).
    fold c top turn in R1, V1, P1.
    replace (S j * turn)%nat with (turn + j * turn)%nat by lia.
    rewrite run_add, visits_add, R1, V1.
    destruct k as [|k].
    + assert (j = 0)%nat as -> by lia. exists m1.
      cbn [Nat.mul run visits Nat.leb]. repeat split; try assumption; lia.
    + destruct (IH k m1 d (a + d) ltac:(lia) P1 C1 D1 A1 ltac:(lia) Rd ltac:(nia) ltac:(lia))
        as (mj & Rj & Vj & Cj & Dj & Aj & Pj).
      exists mj. rewrite Rj, Vj. repeat split; try assumption; lia.
Qed.

Lemma loop_frame_refl m p : loop_frame m (set_rip p m).
Proof. unfold loop_frame. cbn. repeat split. Qed.

(** One turn of the loop around a body that returns. *)
Lemma LOOP_turn h instr l pre body post (Q : Machine -> Prop) m k d a :
  let c := pre ++ LOOP_head h instr l ++ body ++ LOOP_tail l ++ post in
  let top := (List.length pre + 9)%nat in
  let finish := (top + 1 + List.length body)%nat in
  find_label l pre = None ->
  (forall m1 m2, Q m1 -> loop_frame m1 m2 -> Q m2) ->
  (forall m1, rip m1 = S top -> Q m1 -> returns c top finish Q m1) ->
  rip m = top -> Q m ->
  gprs m RSI = Z.of_nat (S k) -> Z.of_nat (S k) < 2 ^ 32 ->
  gprs m RDI = d -> gprs m R12 = a -> 0 <= a -> 0 <= d -> a + d < 2 ^ 32 ->
  exists n m',
    run n c m = Some m'
    /\ visits top n c m = 1%nat
    /\ gprs m' RSI = Z.of_nat k
    /\ gprs m' RDI = d
    /\ gprs m' R12 = a + d
    /\ rip m' = match k with O => (finish + 3)%nat | S _ => top end
    /\ Q m'.
Proof.
  intros c top finish Fl Qf Hb P Qm Hc Rc Hd Ha Ra Rd Rad.
  set (pre9 := pre ++ removelast (LOOP_head h instr l)).
  set (upd2 := [add (reg LOOPCOUNT_REG) (reg LOOPINC); sub (reg LOOPCOUNT) (imm 1)]).
  assert (L9 : List.length pre9 = top).
  { unfold pre9. rewrite length_app. reflexivity. }
  assert (C1 : c = pre9 ++ [L l] ++ (body ++ LOOP_tail l ++ post)).
  { unfold c, pre9, LOOP_head. cbn [removelast]. rewrite <- !app_assoc. reflexivity. }
  assert (C2 : c = ((pre9 ++ [L l]) ++ body) ++ upd2 ++ (jnz l :: post)).
  { rewrite C1. unfold upd2, LOOP_tail. rewrite <- !app_assoc. reflexivity. }
  assert (C3 : c = (((pre9 ++ [L l]) ++ body) ++ upd2) ++ [jnz l] ++ post).
  { rewrite C2, <- !app_assoc. reflexivity. }
  assert (Lf : List.length ((pre9 ++ [L l]) ++ body) = finish).
  { rewrite !length_app, L9. unfold finish. cbn. lia. }
  (* the label *)
  assert (S1 : step c m = Some (next m)).
  { assert (N : nth_error c (rip m) = Some (L l)).
    { rewrite P, <- L9, C1, <- (Nat.add_0_r (List.length pre9)).
      apply nth_error_middle. reflexivity. }
    rewrite (step_at c m _ N). reflexivity. }
  (* the body *)
  destruct (Hb (next m) ltac:(cbn; now rewrite P) (Qf _ _ Qm (loop_frame_refl m _)))
    as (n & m2 & Rb & Pb & Vb & G1 & G2 & G3 & Q2).
  change (gpr_of LOOPCOUNT) with RSI in G1. change (gpr_of LOOPINC) with RDI in G2.
  change (gpr_of LOOPCOUNT_REG) with R12 in G3.
  cbn [next set_rip gprs] in G1, G2, G3. rewrite Hc in G1. rewrite Hd in G2. rewrite Ha in G3.
  (* the two updates *)
  destruct (exec_block_total upd2 m2 eq_refl) as [m3 E3].
  assert (F3 : gprs m3 RSI = Z.of_nat k /\ gprs m3 RDI = d /\ gprs m3 R12 = a + d
               /\ ZF m3 = (Z.of_nat k =? 0) /\ loop_frame m2 m3).
  { unfold upd2 in E3.
    cbn -[Z.add Z.sub Z.modulo Z.pow Z.of_nat] in E3. injection E3 as <-.
    cbn -[Z.add Z.sub Z.modulo Z.pow Z.of_nat]. upd_simpl.
    change (gprs m2 6%nat) with (gprs m2 RSI). change (gprs m2 7%nat) with (gprs m2 RDI).
    change (gprs m2 12%nat) with (gprs m2 R12).
    rewrite G1, G2, G3. unfold Bits.wrap32.
    change (2 ^ 32) with 4294967296 in *.
    rewrite (Z.mod_small a), (Z.mod_small d), !(Z.mod_small (a + d)) by lia.
    rewrite !(Z.mod_small (Z.of_nat (S k))) by lia.
    replace (Z.of_nat (S k) - 1) with (Z.of_nat k) by lia.
    rewrite !(Z.mod_small (Z.of_nat k)) by lia.
    split; [reflexivity|]. split; [reflexivity|]. split; [reflexivity|].
    split; [reflexivity|].
    unfold loop_frame. cbn. repeat split. intros g N1 N2 N3.
    change (gpr_of LOOPCOUNT) with RSI in N1. change (gpr_of LOOPCOUNT_REG) with R12 in N3.
    now upd_simpl. }
  destruct F3 as (Q1 & Q2' & Q3 & Q4 & Fr).
  destruct (run_block upd2 ((pre9 ++ [L l]) ++ body) (jnz l :: post) m2 m3 eq_refl
              ltac:(rewrite Pb; symmetry; exact Lf) E3) as [R V].
  cbv zeta in R, V. rewrite <- C2 in R, V. rewrite Lf in R, V.
  change (List.length upd2) with 2%nat in R, V.
  set (m4 := set_rip (finish + 2) m3) in *.
  (* the jump *)
  assert (Lc : find_label l c = Some top).
  { unfold c. rewrite find_label_app, Fl. cbn. rewrite Label_eqb_refl. reflexivity. }
  assert (S3 : step c m4 = Some (match k with
                                 | O => set_rip (finish + 3) m3
                                 | S _ => set_rip top m3
                                 end)).
  { assert (N : nth_error c (rip m4) = Some (jnz l)).
    { replace (rip m4) with (List.length (((pre9 ++ [L l]) ++ body) ++ upd2) + 0)%nat.
      - rewrite C3. apply nth_error_middle. reflexivity.
      - cbn. rewrite length_app, Lf. cbn. lia. }
    rewrite (step_at c m4 _ N). cbn [ZF m4 set_rip]. rewrite Q4.
    destruct k as [|k'].
    - cbn. unfold next, m4, set_rip. cbn. do 2 f_equal. lia.
    - replace (Z.of_nat (S k') =? 0) with false by (symmetry; apply Z.eqb_neq; lia).
      unfold goto. rewrite Lc. reflexivity. }
  exists (S (n + (2 + 1)))%nat. eexists. split; [|split].
  - rewrite (run_step _ _ _ _ S1), run_add, Rb, run_add, R. cbn [run]. rewrite S3.
    reflexivity.
  - cbn [visits]. rewrite S1, P, Nat.eqb_refl.
    rewrite visits_add, Vb, Rb, visits_add, R, V by (unfold finish; lia).
    cbn [visits]. rewrite S3.
    replace (rip m4 =? top)%nat with false; [reflexivity|].
    symmetry. apply Nat.eqb_neq. cbn. unfold finish. lia.
  - assert (Q3' : forall p, Q (set_rip p m3)).
    { intros p. apply (Qf m3); [exact (Qf _ _ Q2 Fr) | apply loop_frame_refl]. }
    destruct k; cbn [gprs rip set_rip]; repeat split; try assumption; apply Q3'.
Qed.

(** The turns of the loop around a body that returns. *)
Lemma LOOP_turns h instr l pre body post (Q : Machine -> Prop) :
  let c := pre ++ LOOP_head h instr l ++ body ++ LOOP_tail l ++ post in
  let top := (List.length pre + 9)%nat in
  let finish := (top + 1 + List.length body)%nat in
  find_label l pre = None ->
  (forall m1 m2, Q m1 -> loop_frame m1 m2 -> Q m2) ->
  (forall m1, rip m1 = S top -> Q m1 -> returns c top finish Q m1) ->
  forall j k m d a,
  (j <= S k)%nat ->
  rip m = top -> Q m ->
  gprs m RSI = Z.of_nat (S k) ->
  gprs m RDI = d -> gprs m R12 = a -> 0 <= a -> 0 <= d ->
  a + Z.of_nat (S k) * d < 2 ^ 32 -> Z.of_nat (S k) < 2 ^ 32 ->
  exists n mj,
    run n c m = Some mj
    /\ visits top n c m = j
    /\ gprs mj RSI = Z.of_nat (S k) - Z.of_nat j
    /\ gprs mj RDI = d
    /\ gprs mj R12 = a + Z.of_nat j * d
    /\ rip mj = (if (j <=? k)%nat then top else (finish + 3)%nat)
    /\ Q mj.
Proof.
  intros c top finish Fl Qf Hb.
  induction j as [|j IH]; intros k m d a J P Qm Hc Hd Ha Ra Rd Rad Rk.
  - exists 0%nat, m. cbn [run visits Nat.leb]. repeat split; try assumption; lia.
  - destruct (LOOP_turn h instr l pre body post Q m k d a Fl Qf Hb P Qm Hc Rk Hd Ha Ra Rd
                ltac:(nia)) as (n1 & m1 & R1 & V1 & C1 & D1 & A1 & P1 & Q1).
    fold c top finish in R1, V1, P1.
    destruct k as [|k].
    + assert (j = 0)%nat as -> by lia. exists n1, m1.
      cbn [Nat.leb]. repeat split; try assumption; lia.
    + destruct (IH k m1 d (a + d) ltac:(lia) P1 Q1 C1 D1 A1 ltac:(lia) Rd ltac:(nia)
                  ltac:(lia)) as (n & mj & Rj & Vj & Cj & Dj & Aj & Pj & Qj).
      exists (n1 + n)%nat, mj. rewrite run_add, visits_add, R1, V1, Rj, Vj.
      repeat split; try assumption; lia.
Qed.

Lemma LOOP_runs_generally h instr l pre body post m count start inc top
    (Q : Machine -> Prop) :
  let c := pre ++ LOOP_head h instr l ++ body ++ LOOP_tail l ++ post in
  let first := (List.length pre + 9)%nat in
  let finish := (first + 1 + List.length body)%nat in
  find_label l pre = None ->
  rip m = List.length pre ->
  0 <= count < 256 -> 0 <= start < 256 -> 0 <= inc < 256 -> 0 <= top < 256 ->
  dmem m (ea m (at_ SETUP (GetIntUniformOffset h (flow_control.int_uniform_id instr))))
  = count + 2 ^ 8 * start + 2 ^ 16 * inc + 2 ^ 24 * top ->
  Q m ->
  (forall m1 m2, Q m1 -> loop_frame m1 m2 -> Q m2) ->
  (forall m1, rip m1 = S first -> Q m1 -> returns c first finish Q m1) ->
  forall j, (j <= Z.to_nat (count + 1))%nat ->
  exists n mj,
    run n c m = Some mj
    /\ visits first n c m = j
    /\ gprs mj (gpr_of LOOPCOUNT_REG) = 16 * start + Z.of_nat j * (16 * inc)
    /\ gprs mj (gpr_of LOOPCOUNT) = count + 1 - Z.of_nat j
    /\ gprs mj (gpr_of LOOPINC) = 16 * inc
    /\ rip mj = (if (j <=? Z.to_nat count)%nat then first else (finish + 3)%nat)
    /\ Q mj.
Proof.
  intros c first finish Fl P Rc Rs Ri Rt U Qm Qf Hb j J.
  change (gpr_of LOOPCOUNT_REG) with R12. change (gpr_of LOOPCOUNT) with RSI.
  change (gpr_of LOOPINC) with RDI.
  destruct (LOOP_head_runs h instr l m count start inc top Rc Rs Ri Rt U)
    as (m0 & E0 & C0 & A0 & D0 & G0 & X0 & Q0 & M0 & B0 & V0).
  set (H9 := removelast (LOOP_head h instr l)).
  assert (E9 : exec_block H9 m = Some m0).
  { unfold LOOP_head in E0. unfold H9, LOOP_head. cbn [removelast].
    change (?a :: ?b :: ?c :: ?d :: ?e :: ?f :: ?g :: ?i :: ?k :: [L l])
      with ([a; b; c; d; e; f; g; i; k] ++ [L l]) in E0.
    rewrite exec_block_app in E0.
    destruct (exec_block _ m) as [m'|]; [|discriminate]. cbn in E0. exact E0. }
  assert (Cc : c = pre ++ H9 ++ ([L l] ++ body ++ LOOP_tail l ++ post)).
  { unfold c, H9, LOOP_head. cbn [removelast]. rewrite <- ?app_assoc. reflexivity. }
  destruct (run_block H9 pre ([L l] ++ body ++ LOOP_tail l ++ post) m m0
              eq_refl P E9) as [R9 V9].
  cbv zeta in R9, V9. rewrite <- Cc in R9, V9.
  change (List.length H9) with 9%nat in R9, V9. fold first in R9, V9.
  assert (Q1 : Q (set_rip first m0)).
  { apply (Qf m); [exact Qm|]. unfold loop_frame. cbn [set_rip xmms xmem qmem dmem bmem gprs].
    repeat split; try assumption. }
  assert (Zc : Z.to_nat (count + 1) = S (Z.to_nat count)) by lia.
  rewrite Zc in J.
  destruct (LOOP_turns h instr l pre body post Q Fl Qf Hb j (Z.to_nat count)
              (set_rip first m0) (16 * inc) (16 * start) J eq_refl Q1
              ltac:(cbn [gprs set_rip]; lia) D0 A0 ltac:(lia) ltac:(lia)
              ltac:(nia) ltac:(lia))
    as (n & mj & Rj & Vj & Cj & Dj & Aj & Pj & Qj).
  fold c first finish in Rj, Vj, Pj.
  exists (9 + n)%nat, mj. rewrite run_add, visits_add, R9, V9, Rj, Vj by (unfold first; lia).
  repeat split; try assumption; lia.
Qed.

(** A straight-line body that leaves the three registers alone returns. *)
Lemma sequential_body_returns pre mid body post m1 :
  let c := (pre ++ mid) ++ body ++ post in
  forallb (keeps [gpr_of LOOPCOUNT; gpr_of LOOPINC; gpr_of LOOPCOUNT_REG]) body = true ->
  (List.length pre < List.length (pre ++ mid))%nat ->
  rip m1 = List.length (pre ++ mid) ->
  returns c (List.length pre) (List.length (pre ++ mid) + List.length body)
          (fun _ => True) m1.
Proof.
  intros c K Lt P.
  destruct (exec_block_total body m1 (keeps_sequential _ _ K)) as [m2 E].
  destruct (run_block body (pre ++ mid) post m1 m2 (keeps_sequential _ _ K) P E) as [R V].
  exists (List.length body), (set_rip (List.length (pre ++ mid) + List.length body) m2).
  split; [exact R|]. split; [reflexivity|]. split; [apply V; lia|].
  cbn [gprs set_rip].
  split; [apply (exec_block_keeps _ _ _ _ K E); cbn; tauto|].
  split; [apply (exec_block_keeps _ _ _ _ K E); cbn; tauto|].
  split; [apply (exec_block_keeps _ _ _ _ K E); cbn; tauto | exact I].
Qed.

(** The loop around a straight-line body that leaves the three registers
    alone, with the number of steps of each turn. *)
Lemma LOOP_runs_straight h instr l pre body post m count start inc top :
  let c := pre ++ LOOP_head h instr l ++ body ++ LOOP_tail l ++ post in
  let first := (List.length pre + 9)%nat in
  let turn := (List.length body + 4)%nat in
  forallb (keeps [gpr_of LOOPCOUNT; gpr_of LOOPINC; gpr_of LOOPCOUNT_REG]) body = true ->
  find_label l pre = None ->
  rip m = List.length pre ->
  0 <= count < 256 -> 0 <= start < 256 -> 0 <= inc < 256 -> 0 <= top < 256 ->
  dmem m (ea m (at_ SETUP (GetIntUniformOffset h (flow_control.int_uniform_id instr))))
  = count + 2 ^ 8 * start + 2 ^ 16 * inc + 2 ^ 24 * top ->
  forall j, (j <= Z.to_nat (count + 1))%nat ->
  exists mj,
    run (9 + j * turn) c m = Some mj
    /\ visits first (9 + j * turn) c m = j
    /\ gprs mj (gpr_of LOOPCOUNT_REG) = 16 * start + Z.of_nat j * (16 * inc)
    /\ gprs mj (gpr_of LOOPCOUNT) = count + 1 - Z.of_nat j
    /\ gprs mj (gpr_of LOOPINC) = 16 * inc
    /\ rip mj = if (j <=? Z.to_nat count)%nat then first else (first + turn)%nat.
Proof.
  intros c first turn K Fl P Rc Rs Ri Rt U j J.
  change (gpr_of LOOPCOUNT_REG) with R12. change (gpr_of LOOPCOUNT) with RSI.
  change (gpr_of LOOPINC) with RDI. change (gpr_of LOOPCOUNT) with RSI in K.
  change (gpr_of LOOPINC) with RDI in K. change (gpr_of LOOPCOUNT_REG) with R12 in K.
  destruct (LOOP_head_runs h instr l m count start inc top Rc Rs Ri Rt U)
    as (m0 & E0 & C0 & A0 & D0 & _).
  set (H9 := removelast (LOOP_head h instr l)).
  assert (E9 : exec_block H9 m = Some m0).
  { unfold LOOP_head in E0. unfold H9, LOOP_head. cbn [removelast].
    change (?a :: ?b :: ?c :: ?d :: ?e :: ?f :: ?g :: ?i :: ?k :: [L l])
      with ([a; b; c; d; e; f; g; i; k] ++ [L l]) in E0.
    rewrite exec_block_app in E0.
    destruct (exec_block _ m) as [m'|]; [|discriminate]. cbn in E0. exact E0. }
  assert (Cc : c = pre ++ H9 ++ ([L l] ++ body ++ LOOP_tail l ++ post)).
  { unfold c, H9, LOOP_head. cbn [removelast]. rewrite <- ?app_assoc. reflexivity. }
  destruct (run_block H9 pre ([L l] ++ body ++ LOOP_tail l ++ post) m m0
              eq_refl P E9) as [R9 V9].
  cbv zeta in R9, V9. rewrite <- Cc in R9, V9.
  change (List.length H9) with 9%nat in R9, V9. fold first in R9, V9.
  assert (Zc : Z.to_nat (count + 1) = S (Z.to_nat count)) by lia.
  rewrite Zc in J.
  destruct (LOOP_iterations h instr l pre body post Fl K j (Z.to_nat count)
              (set_rip first m0) (16 * inc) (16 * start) J eq_refl
              ltac:(cbn [gprs set_rip]; lia) D0 A0 ltac:(lia) ltac:(lia)
              ltac:(nia) ltac:(lia))
    as (mj & Rj & Vj & Cj & Dj & Aj & Pj).
  fold c first turn in Rj, Vj, Pj.
  exists mj. rewrite run_add, visits_add, R9, V9, Rj, Vj by (unfold first; lia).
  repeat split; try assumption; lia.
Qed.

(** What [Compile_LOOP] emits: the code of the failed checks, if any, the
    decoding, the label, the body and the tail. *)
Lemma Compile_LOOP_emits h vs fuel instr s s3 :
  Compile_LOOP h (Compile_Block h vs fuel) instr s = Done (tt, s3) ->
  exists body,
    code s3 = (code s ++ LOOP_checks h instr s)
              ++ LOOP_head h instr (local_label (label_id s)) ++ body
              ++ LOOP_tail (local_label (label_id s)).
Proof.
  intros E. rewrite Compile_LOOP_unfolded in E. unfold bind in E.
  destruct (Compile_Block h vs fuel _ (LOOP_entry h instr s)) as [[[] s2]| | |] eqn:B;
    try discriminate E.
  destruct (Steady_Compile_Block h vs fuel _ _ _ _ B) as [[body Cb] _].
  exists body. unfold LOOP_after in E. run_jit. injection E as <-.
  cbn. rewrite Cb. unfold LOOP_entry. cbn [code].
  unfold LOOP_tail. rewrite <- !app_assoc. reflexivity.
Qed.

Lemma find_label_LOOP_checks h instr s l :
  find_label l (code s) = None ->
  find_label l (code s ++ LOOP_checks h instr s) = None.
Proof.
  intros Fl. rewrite find_label_app, Fl. unfold LOOP_checks.
  destruct (_ >=? _), (negb _); reflexivity.
Qed.




(** ** Generators of the arithmetic instructions *)

(** The store of a result register after any code that leaves the
    general-purpose registers and the memory alone. *)
Lemma result_store_runs h vs instr code res m m2 :
  exec_block code m = Some m2 ->
  gprs m2 = gprs m -> xmem m2 = xmem m ->
  res <> SCRATCH -> res <> SCRATCH2 ->
  let a := ea m (destination_address h instr) in
  exists m',
    exec_block (code ++ DestEnable_code (sse4_1 h) (dest_mask (descriptor vs instr))
                          (OutputOffset h (destination instr)) res) m = Some m'
    /\ (forall i, 0 <= i < 4 ->
          V4.lane (xmem m' a) i =
          if DestComponentEnabled (descriptor vs instr) i
          then V4.lane (xmms m2 res) i
          else V4.lane (xmem m a) i)
    /\ (forall a', a' <> a -> xmem m' a' = xmem m a')
    /\ gprs m' = gprs m.
Proof.
  intros E G M R1 R2 a.
  pose proof (dest_mask_range (descriptor vs instr)) as R.
  destruct (DestEnable_code_runs (sse4_1 h) _ (OutputOffset h (destination instr))
              res m2 R R1 R2) as (m' & E' & X & G' & _).
  exists m'. rewrite exec_block_app, E. split; [exact E'|].
  fold (destination_address h instr) in X.
  rewrite (ea_gprs m m2 _ G), M in X. fold a in X. rewrite X.
  split; [|split].
  - intros i Hi. rewrite updZ_same, merged_lane by assumption. reflexivity.
  - intros a' Ha. now apply updZ_other.
  - congruence.
Qed.

(** The three source loads of MAD. *)
Lemma three_sources_run h vs instr r1 r2 r3 m :
  exists m',
    exec_block (SwizzleSrc_code h vs instr 1 r1 SRC1
                ++ SwizzleSrc_code h vs instr 2 r2 SRC2
                ++ SwizzleSrc_code h vs instr 3 r3 SRC3) m = Some m'
    /\ xmms m' SRC1 = resolved_source h vs instr 1 r1 m
    /\ xmms m' SRC2 = resolved_source h vs instr 2 r2 m
    /\ xmms m' SRC3 = resolved_source h vs instr 3 r3 m
    /\ xmm_only [SRC1; SRC2; SRC3] m m'.
Proof.
  destruct (two_sources_run h vs instr r1 r2 m) as (m2 & E2 & V1 & V2 & F2).
  destruct (SwizzleSrc_code_runs h vs instr 3 r3 SRC3 m2) as (m3 & E3 & V3 & F3);
    [discriminate|].
  exists m3. rewrite app_assoc, exec_block_app, E2. split; [exact E3|].
  pose proof (xmm_only_trans _ _ _ _ _ F2 F3) as F.
  destruct F2 as (G2 & M2 & _ & _ & _ & _ & _ & X2).
  destruct F3 as (G3 & M3 & _ & _ & _ & _ & _ & X3).
  split; [|split; [|split]].
  - rewrite X3, V1; [reflexivity|]. cbn. intros [C|[]]. discriminate C.
  - rewrite X3, V2; [reflexivity|]. cbn. intros [C|[]]. discriminate C.
  - rewrite V3. unfold resolved_source.
    rewrite (ea_gprs _ _ _ G2), M2, X2; [reflexivity|].
    cbn. intros [C|[C|[]]]; discriminate C.
  - exact F.
Qed.

(** The two sources of the instructions that have an inverted form. *)
Lemma Compile_sources_emits h vs instr (inverted : bool) :
  offset_fits h (if inverted then common.src1i instr else common.src1 instr) = true ->
  offset_fits h (if inverted then common.src2i instr else common.src2 instr) = true ->
  Emits (if inverted
         then bind (Compile_SwizzleSrc h vs instr 1 (common.src1i instr) SRC1)
                (fun _ => Compile_SwizzleSrc h vs instr 2 (common.src2i instr) SRC2)
         else bind (Compile_SwizzleSrc h vs instr 1 (common.src1 instr) SRC1)
                (fun _ => Compile_SwizzleSrc h vs instr 2 (common.src2 instr) SRC2))
        (SwizzleSrc_code h vs instr 1
           (if inverted then common.src1i instr else common.src1 instr) SRC1
         ++ SwizzleSrc_code h vs instr 2
              (if inverted then common.src2i instr else common.src2 instr) SRC2).
Proof.
  destruct inverted; intros F1 F2;
    (apply Emits_bind; now apply Compile_SwizzleSrc_emits).
Qed.


Lemma leb_unordered a b : F32.unordered a b = true -> F32.leb a b = false.
Proof.
  unfold F32.unordered, F32.leb, SFleb. intros U. apply orb_true_iff in U.
  destruct U as [U|U]; rewrite (to_SF_nan _ U); [reflexivity|].
  destruct (F32.to_SF a); reflexivity.
Qed.

Lemma ltb_unordered a b : F32.unordered a b = true -> F32.ltb a b = false.
Proof.
  unfold F32.unordered, F32.ltb, SFltb. intros U. apply orb_true_iff in U.
  destruct U as [U|U]; rewrite (to_SF_nan _ U); [reflexivity|].
  destruct (F32.to_SF a); reflexivity.
Qed.

Lemma land_mask_one c : Z.land (F32.mask_of c) f32_one = one_if c.
Proof. destruct c; reflexivity. Qed.

Lemma SGE_code_runs m1 :
  xmms m1 ONE = ones ->
  exists m2,
    exec_block [cmpleps SRC2 SRC1; andps SRC2 ONE] m1 = Some m2
    /\ xmms m2 SRC2 = V4.map2 (fun a b => one_if (F32.leb b a)) (xmms m1 SRC1) (xmms m1 SRC2)
    /\ gprs m2 = gprs m1 /\ xmem m2 = xmem m1.
Proof.
  intros O. eexists. split; [reflexivity|]. cbn. upd_simpl. rewrite O.
  unfold V4.map2. cbn. rewrite !land_mask_one. repeat split.
Qed.

Lemma SLT_code_runs m1 :
  xmms m1 ONE = ones ->
  exists m2,
    exec_block [cmpltps SRC1 SRC2; andps SRC1 ONE] m1 = Some m2
    /\ xmms m2 SRC1 = V4.map2 (fun a b => one_if (F32.ltb a b)) (xmms m1 SRC1) (xmms m1 SRC2)
    /\ gprs m2 = gprs m1 /\ xmem m2 = xmem m1.
Proof.
  intros O. eexists. split; [reflexivity|]. cbn. upd_simpl. rewrite O.
  unfold V4.map2. cbn. rewrite !land_mask_one. repeat split.
Qed.

Lemma map2_lane f a b i :
  0 <= i < 4 -> V4.lane (V4.map2 f a b) i = f (V4.lane a i) (V4.lane b i).
Proof.
  intros R. assert (i = 0 \/ i = 1 \/ i = 2 \/ i = 3) as [E|[E|[E|E]]] by lia;
    subst i; reflexivity.
Qed.

(** X1.  With the constant 1.0 in every lane of [ONE], the code of
    [Compile_SGE] stores in each enabled lane of the destination 1.0 when the
    lane of the first source is greater than or equal to the lane of the
    second one and +0 otherwise, and the code of [Compile_SLT] stores 1.0
    when the first is less than the second and +0 otherwise; a NaN in either
    lane gives +0 in both.  The sources are [src1i] and [src2i] for the
    opcodes SGEI and SLTI, [src1] and [src2] otherwise; a disabled lane
    keeps its value. *)
Theorem SGE_SLT_store_one_or_zero h vs instr m :
  let a := ea m (destination_address h instr) in
  let lanes inv n :=
    resolved_source h vs instr n
      (if n =? 1 then first_source inv instr else second_source inv instr) m in
  xmms m ONE = ones ->
  (offset_fits h (first_source OpCode.SGEI instr) = true ->
   offset_fits h (second_source OpCode.SGEI instr) = true ->
   exists c m',
     Emits (Compile_SGE h vs instr) c
     /\ exec_block c m = Some m'
     /\ forall i, 0 <= i < 4 ->
          let x := V4.lane (lanes OpCode.SGEI 1) i in
          let y := V4.lane (lanes OpCode.SGEI 2) i in
          V4.lane (xmem m' a) i =
          (if DestComponentEnabled (descriptor vs instr) i
           then one_if (F32.leb y x) else V4.lane (xmem m a) i)
          /\ (F32.unordered x y = true -> one_if (F32.leb y x) = f32_zero))
  /\ (offset_fits h (first_source OpCode.SLTI instr) = true ->
      offset_fits h (second_source OpCode.SLTI instr) = true ->
      exists c m',
        Emits (Compile_SLT h vs instr) c
        /\ exec_block c m = Some m'
        /\ forall i, 0 <= i < 4 ->
             let x := V4.lane (lanes OpCode.SLTI 1) i in
             let y := V4.lane (lanes OpCode.SLTI 2) i in
             V4.lane (xmem m' a) i =
             (if DestComponentEnabled (descriptor vs instr) i
              then one_if (F32.ltb x y) else V4.lane (xmem m a) i)
             /\ (F32.unordered x y = true -> one_if (F32.ltb x y) = f32_zero)).
Proof.
  intros a lanes O. split; intros F1 F2.
  - set (r1 := first_source OpCode.SGEI instr) in *.
    set (r2 := second_source OpCode.SGEI instr) in *.
    destruct (two_sources_run h vs instr r1 r2 m) as (m1 & E1 & V1 & V2 & X1).
    assert (O1 : xmms m1 ONE = ones).
    { destruct X1 as (_ & _ & _ & _ & _ & _ & _ & X). rewrite X; [exact O|].
      cbn. intros [C|[C|[]]]; discriminate C. }
    destruct (SGE_code_runs m1 O1) as (m2 & E2 & V & G2 & M2).
    destruct X1 as (G1 & M1 & _).
    destruct (result_store_runs h vs instr _ SRC2 m m2
                ltac:(rewrite exec_block_app, E1; exact E2)
                ltac:(congruence) ltac:(congruence) ltac:(discriminate) ltac:(discriminate))
      as (m' & E & L & _).
    eexists. exists m'. split; [|split].
    + unfold Compile_SGE. apply Emits_bind.
      * unfold r1, r2, first_source, second_source in F1, F2 |- *.
        apply (Compile_sources_emits h vs instr _ F1 F2).
      * emits. apply Compile_DestEnable_emits.
    + rewrite <- app_assoc in E. exact E.
    + intros i Hi x y. fold a in L. rewrite (L i Hi), V, V1, V2, map2_lane by assumption.
      split; [reflexivity|]. intros U. rewrite leb_unordered; [reflexivity|].
      unfold F32.unordered in *. now rewrite orb_comm.
  - set (r1 := first_source OpCode.SLTI instr) in *.
    set (r2 := second_source OpCode.SLTI instr) in *.
    destruct (two_sources_run h vs instr r1 r2 m) as (m1 & E1 & V1 & V2 & X1).
    assert (O1 : xmms m1 ONE = ones).
    { destruct X1 as (_ & _ & _ & _ & _ & _ & _ & X). rewrite X; [exact O|].
      cbn. intros [C|[C|[]]]; discriminate C. }
    destruct (SLT_code_runs m1 O1) as (m2 & E2 & V & G2 & M2).
    destruct X1 as (G1 & M1 & _).
    destruct (result_store_runs h vs instr _ SRC1 m m2
                ltac:(rewrite exec_block_app, E1; exact E2)
                ltac:(congruence) ltac:(congruence) ltac:(discriminate) ltac:(discriminate))
      as (m' & E & L & _).
    eexists. exists m'. split; [|split].
    + unfold Compile_SLT. apply Emits_bind.
      * unfold r1, r2, first_source, second_source in F1, F2 |- *.
        apply (Compile_sources_emits h vs instr _ F1 F2).
      * emits. apply Compile_DestEnable_emits.
    + rewrite <- app_assoc in E. exact E.
    + intros i Hi x y. fold a in L. rewrite (L i Hi), V, V1, V2, map2_lane by assumption.
      split; [reflexivity|]. intros U. now rewrite ltb_unordered.
Qed.

Lemma SGE_SLT_store_one_or_zero_witness :
  let h := example_host in
  let vs := example_setup in
  let sge := arith_word OpCode.SGE 0 1 2 0 in
  let m := started_machine in
  xmms m ONE = ones
  /\ offset_fits h (first_source OpCode.SGEI sge) = true
  /\ offset_fits h (second_source OpCode.SGEI sge) = true
  /\ exists c m',
       Emits (Compile_SGE h vs sge) c
       /\ exec_block c m = Some m'
       /\ forall i, 0 <= i < 4 ->
            let x := V4.lane (resolved_source h vs sge 1 (first_source OpCode.SGEI sge) m) i in
            let y := V4.lane (resolved_source h vs sge 2 (second_source OpCode.SGEI sge) m) i in
            V4.lane (xmem m' (ea m (destination_address h sge))) i =
            (if DestComponentEnabled (descriptor vs sge) i
             then one_if (F32.leb y x)
             else V4.lane (xmem m (ea m (destination_address h sge))) i)
            /\ (F32.unordered x y = true -> one_if (F32.leb y x) = f32_zero).
Proof.
  intros h vs sge m.
  split; [reflexivity|]. split; [reflexivity|]. split; [reflexivity|].
  destruct (SGE_SLT_store_one_or_zero h vs sge m eq_refl) as [A _].
  exact (A eq_refl eq_refl).
Defined.


Ltac same_code := repeat rewrite <- app_assoc; reflexivity.

Lemma Compile_MAD_emits h vs instr :
  offset_fits h (mad_source 1 instr) = true ->
  offset_fits h (mad_source 2 instr) = true ->
  offset_fits h (mad_source 3 instr) = true ->
  Emits (Compile_MAD h vs instr)
        ((SwizzleSrc_code h vs instr 1 (mad_source 1 instr) SRC1
          ++ SwizzleSrc_code h vs instr 2 (mad_source 2 instr) SRC2
          ++ SwizzleSrc_code h vs instr 3 (mad_source 3 instr) SRC3)
         ++ (SanitizedMul_code SRC1 SRC2 SCRATCH ++ [addps SRC1 SRC3])
         ++ DestEnable_code (sse4_1 h) (dest_mask (descriptor vs instr))
              (OutputOffset h (destination instr)) SRC1).
Proof.
  unfold mad_source, Compile_MAD. cbn [Z.eqb Pos.eqb].
  intros F1 F2 F3.
  match goal with |- Emits ?a ?c =>
    assert (Em : Emits a
      (SwizzleSrc_code h vs instr 1 (mad.src1 instr) SRC1
       ++ (SwizzleSrc_code h vs instr 2
             (if OpCode.EffectiveOpCode (opcode instr) =? OpCode.MADI
              then mad.src2i instr else mad.src2 instr) SRC2
           ++ SwizzleSrc_code h vs instr 3
                (if OpCode.EffectiveOpCode (opcode instr) =? OpCode.MADI
                 then mad.src3i instr else mad.src3 instr) SRC3)
       ++ SanitizedMul_code SRC1 SRC2 SCRATCH
       ++ addps SRC1 SRC3
          :: DestEnable_code (sse4_1 h) (dest_mask (descriptor vs instr))
               (OutputOffset h (destination instr)) SRC1))
  end.
  { apply Emits_bind; [now apply Compile_SwizzleSrc_emits|].
    apply Emits_bind.
    - destruct (OpCode.EffectiveOpCode (opcode instr) =? OpCode.MADI);
        (apply Emits_bind; now apply Compile_SwizzleSrc_emits).
    - apply Emits_bind; [apply Compile_SanitizedMul_emits|].
      apply Emits_cons. apply Compile_DestEnable_emits. }
  intros s. rewrite (Em s). f_equal. f_equal. same_code.
Qed.

Lemma MAD_code_runs m1 :
  exists m2,
    exec_block (SanitizedMul_code SRC1 SRC2 SCRATCH ++ [addps SRC1 SRC3]) m1 = Some m2
    /\ xmms m2 SRC1 =
       V4.map2 F32.add (V4.map2 sanitized_mul (xmms m1 SRC1) (xmms m1 SRC2)) (xmms m1 SRC3)
    /\ gprs m2 = gprs m1 /\ xmem m2 = xmem m1.
Proof.
  destruct (SanitizedMul_code_runs SRC1 SRC2 SCRATCH m1) as (m2 & E & V & G & M & _ & _ & _ & _ & _ & X);
    try discriminate.
  eexists. rewrite exec_block_app, E. split; [reflexivity|].
  cbn. upd_simpl. rewrite V, (X SRC3). 
  - repeat split; assumption.
  - cbn. intros [C|[C|[C|[]]]]; discriminate C.
Qed.

(** X2.  The code of [Compile_ADD] stores in each enabled lane of the
    destination the sum of the lanes of its two sources.  The code of
    [Compile_MAD] stores the sum of the sanitized product of the first two
    sources and of the third source, the second and third sources being
    [src2i] and [src3i] for MADI and [src2] and [src3] for MAD.  A disabled
    lane keeps its value, and no other memory cell changes. *)
Theorem ADD_and_MAD_store_their_sums h vs instr m :
  let a := ea m (destination_address h instr) in
  (offset_fits h (common.src1 instr) = true ->
   offset_fits h (common.src2 instr) = true ->
   exists c m',
     Emits (Compile_ADD h vs instr) c
     /\ exec_block c m = Some m'
     /\ (forall i, 0 <= i < 4 ->
           V4.lane (xmem m' a) i =
           if DestComponentEnabled (descriptor vs instr) i
           then F32.add (V4.lane (resolved_source h vs instr 1 (common.src1 instr) m) i)
                        (V4.lane (resolved_source h vs instr 2 (common.src2 instr) m) i)
           else V4.lane (xmem m a) i)
     /\ (forall a', a' <> a -> xmem m' a' = xmem m a'))
  /\ (offset_fits h (mad_source 1 instr) = true ->
      offset_fits h (mad_source 2 instr) = true ->
      offset_fits h (mad_source 3 instr) = true ->
      exists c m',
        Emits (Compile_MAD h vs instr) c
        /\ exec_block c m = Some m'
        /\ (forall i, 0 <= i < 4 ->
              V4.lane (xmem m' a) i =
              if DestComponentEnabled (descriptor vs instr) i
              then F32.add
                     (sanitized_mul
                        (V4.lane (resolved_source h vs instr 1 (mad_source 1 instr) m) i)
                        (V4.lane (resolved_source h vs instr 2 (mad_source 2 instr) m) i))
                     (V4.lane (resolved_source h vs instr 3 (mad_source 3 instr) m) i)
              else V4.lane (xmem m a) i)
        /\ (forall a', a' <> a -> xmem m' a' = xmem m a')).
Proof.
  intros a. split.
  - intros F1 F2.
    destruct (binary_instruction_runs h vs instr (common.src1 instr) (common.src2 instr)
                [addps SRC1 SRC2] F32.add m) as (m' & E & V & X).
    { apply lanewise_runs. reflexivity. }
    eexists. exists m'. split; [|split; [exact E | split; [exact V | exact X]]].
    apply Compile_binary_emits; try assumption. apply Emits_emit.
  - intros F1 F2 F3.
    destruct (three_sources_run h vs instr (mad_source 1 instr) (mad_source 2 instr)
                (mad_source 3 instr) m) as (m1 & E1 & V1 & V2 & V3 & G1 & M1 & _).
    destruct (MAD_code_runs m1) as (m2 & E2 & V & G2 & M2).
    destruct (result_store_runs h vs instr _ SRC1 m m2
                ltac:(rewrite exec_block_app, E1; exact E2)
                ltac:(congruence) ltac:(congruence) ltac:(discriminate) ltac:(discriminate))
      as (m' & E & L & X & _).
    eexists. exists m'. split; [now apply Compile_MAD_emits|].
    split; [rewrite <- app_assoc in E; exact E|]. split; [|exact X].
    intros i Hi. fold a in L. rewrite (L i Hi), V, V1, V2, V3, !map2_lane by assumption.
    reflexivity.
Qed.

Lemma ADD_and_MAD_store_their_sums_witness :
  let h := example_host in
  let vs := example_setup in
  let instr := OpCode.MAD * 2 ^ 26 + 1 * 2 ^ 17 + 2 * 2 ^ 10 + 3 * 2 ^ 5 in
  let m := started_machine in
  let a := ea m (destination_address h instr) in
  offset_fits h (mad_source 1 instr) = true
  /\ offset_fits h (mad_source 2 instr) = true
  /\ offset_fits h (mad_source 3 instr) = true
  /\ exists c m',
       Emits (Compile_MAD h vs instr) c
       /\ exec_block c m = Some m'
       /\ (forall i, 0 <= i < 4 ->
             V4.lane (xmem m' a) i =
             if DestComponentEnabled (descriptor vs instr) i
             then F32.add
                    (sanitized_mul
                       (V4.lane (resolved_source h vs instr 1 (mad_source 1 instr) m) i)
                       (V4.lane (resolved_source h vs instr 2 (mad_source 2 instr) m) i))
                    (V4.lane (resolved_source h vs instr 3 (mad_source 3 instr) m) i)
             else V4.lane (xmem m a) i)
       /\ (forall a', a' <> a -> xmem m' a' = xmem m a').
Proof.
  intros h vs instr m a.
  split; [reflexivity|]. split; [reflexivity|]. split; [reflexivity|].
  destruct (ADD_and_MAD_store_their_sums h vs instr m) as [_ A].
  exact (A eq_refl eq_refl eq_refl).
Defined.


Lemma DP3_sum_runs m1 :
  exists m2,
    exec_block DP3_sum m1 = Some m2
    /\ xmms m2 SRC1 = (let d := dot3 (xmms m1 SRC1) in V4.mk d d d d)
    /\ gprs m2 = gprs m1 /\ xmem m2 = xmem m1.
Proof.
  eexists. split; [reflexivity|]. cbn. upd_simpl. repeat split.
Qed.

Lemma DP4_sum_runs m1 :
  exists m2,
    exec_block DP4_sum m1 = Some m2
    /\ xmms m2 SRC1 = dot4_lanes (xmms m1 SRC1)
    /\ gprs m2 = gprs m1 /\ xmem m2 = xmem m1.
Proof.
  eexists. split; [reflexivity|]. cbn. upd_simpl. repeat split.
Qed.

Lemma SFadd_comm x y : SFadd F32.prec F32.emax x y = SFadd F32.prec F32.emax y x.
Proof.
  destruct x as [sx|sx| |sx mx ex], y as [sy|sy| |sy my ey]; try reflexivity;
    try (destruct sx, sy; reflexivity).
  cbn [SFadd]. rewrite (Z.min_comm ey ex). cbv zeta. f_equal. apply Z.add_comm.
Qed.

Lemma add_default_if_nan a b : F32.is_nan a = false -> F32.is_nan b = false -> default_if_nan (F32.add a b).
Proof.
  intros Na Nb. unfold default_if_nan, F32.add, F32.arith. rewrite Na, Nb.
  rewrite of_SF_is_nan.
  destruct (SFadd F32.prec F32.emax (F32.to_SF a) (F32.to_SF b)); try discriminate.
  reflexivity.
Qed.

Lemma F32_add_comm a b : default_if_nan a -> default_if_nan b -> F32.add a b = F32.add b a.
Proof.
  unfold default_if_nan, F32.add, F32.arith. intros Pa Pb.
  destruct (F32.is_nan a) eqn:Na, (F32.is_nan b) eqn:Nb.
  - now rewrite Pa, Pb.
  - reflexivity.
  - reflexivity.
  - now rewrite SFadd_comm.
Qed.

(** Without a NaN among the products, the four lanes of DP4 hold the same
    sum. *)
Lemma dot4_lanes_equal p :
  ordered p = true -> let d := dot4 p in dot4_lanes p = V4.mk d d d d.
Proof.
  unfold ordered. rewrite !andb_true_iff, !negb_true_iff. intros [[[X Y] Z] W].
  assert (Px : default_if_nan (V4.x p)) by (unfold default_if_nan; congruence).
  assert (Py : default_if_nan (V4.y p)) by (unfold default_if_nan; congruence).
  assert (Pz : default_if_nan (V4.z p)) by (unfold default_if_nan; congruence).
  assert (Pw : default_if_nan (V4.w p)) by (unfold default_if_nan; congruence).
  unfold dot4_lanes, dot4. cbv zeta.
  rewrite (F32_add_comm (V4.y p) (V4.x p)), (F32_add_comm (V4.w p) (V4.z p)) by assumption.
  rewrite (F32_add_comm (F32.add (V4.z p) (V4.w p)) (F32.add (V4.x p) (V4.y p)))
    by (apply add_default_if_nan; assumption).
  reflexivity.
Qed.

Lemma sanitized_mul_is_nan a b :
  F32.unordered a b = false -> F32.is_nan (sanitized_mul a b) = false.
Proof.
  intros U. rewrite (sanitized_mul_ordered a b U).
  pose proof (of_SF_is_nan (SFmul F32.prec F32.emax (F32.to_SF a) (F32.to_SF b))) as N.
  destruct (SFmul F32.prec F32.emax (F32.to_SF a) (F32.to_SF b)); try exact N.
  reflexivity.
Qed.

Lemma products_ordered a b :
  ordered a = true -> ordered b = true -> ordered (V4.map2 sanitized_mul a b) = true.
Proof.
  unfold ordered. rewrite !andb_true_iff, !negb_true_iff.
  intros [[[X Y] Z] W] [[[X' Y'] Z'] W']. cbn.
  rewrite !sanitized_mul_is_nan; [auto | | | |]; unfold F32.unordered;
    apply orb_false_iff; auto.
Qed.

Lemma dot_code_runs sum f m1 :
  (forall m, exists m2,
      exec_block sum m = Some m2 /\ xmms m2 SRC1 = f (xmms m SRC1)
      /\ gprs m2 = gprs m /\ xmem m2 = xmem m) ->
  exists m2,
    exec_block (SanitizedMul_code SRC1 SRC2 SCRATCH ++ sum) m1 = Some m2
    /\ xmms m2 SRC1 = f (V4.map2 sanitized_mul (xmms m1 SRC1) (xmms m1 SRC2))
    /\ gprs m2 = gprs m1 /\ xmem m2 = xmem m1.
Proof.
  intros Hs.
  destruct (SanitizedMul_code_runs SRC1 SRC2 SCRATCH m1) as (m2 & E & V & G & M & _);
    try discriminate.
  destruct (Hs m2) as (m3 & E3 & V3 & G3 & M3).
  exists m3. rewrite exec_block_app, E. split; [exact E3|].
  rewrite V3, V. repeat split; congruence.
Qed.

Lemma Emits_code_eq (a : Jit unit) c c' : Emits a c -> c = c' -> Emits a c'.
Proof. now intros H <-. Qed.

Ltac emits_step :=
  lazymatch goal with
  | |- Emits (bind (Compile_SwizzleSrc _ _ _ _ _ _) _) _ =>
      apply Emits_bind; [now apply Compile_SwizzleSrc_emits|]
  | |- Emits (bind (emit _) _) _ => apply Emits_cons
  | |- Emits (bind _ _) _ => apply Emits_bind
  | |- Emits (Compile_SwizzleSrc _ _ _ _ _ _) _ => now apply Compile_SwizzleSrc_emits
  | |- Emits (Compile_SanitizedMul _ _ _) _ => apply Compile_SanitizedMul_emits
  | |- Emits (Compile_DestEnable _ _ _ _) _ => apply Compile_DestEnable_emits
  | |- Emits (emit _) _ => apply Emits_emit
  | |- Emits skip _ => apply Emits_skip
  end.

Ltac emits_sources := repeat emits_step.

(** X3.  The code of [Compile_DP3] stores, in every enabled lane of the
    destination, the same value: the sum (x + y) + z of the sanitized
    products of the first three lanes of its sources.  The code of
    [Compile_DP4] stores in lane [i] the lane [i] of [dot4_lanes], four sums
    of the four products that differ in the order of the operands only;
    when no lane of the sources is a NaN these are one and the same value
    (x + y) + (z + w). *)
Theorem DP3_and_DP4_store_the_dot_product h vs instr m :
  let a := ea m (destination_address h instr) in
  let s1 := resolved_source h vs instr 1 (common.src1 instr) m in
  let s2 := resolved_source h vs instr 2 (common.src2 instr) m in
  let p := V4.map2 sanitized_mul s1 s2 in
  offset_fits h (common.src1 instr) = true ->
  offset_fits h (common.src2 instr) = true ->
  (exists c m',
     Emits (Compile_DP3 h vs instr) c
     /\ exec_block c m = Some m'
     /\ forall i, 0 <= i < 4 ->
          V4.lane (xmem m' a) i =
          if DestComponentEnabled (descriptor vs instr) i then dot3 p
          else V4.lane (xmem m a) i)
  /\ (exists c m',
        Emits (Compile_DP4 h vs instr) c
        /\ exec_block c m = Some m'
        /\ (forall i, 0 <= i < 4 ->
              V4.lane (xmem m' a) i =
              if DestComponentEnabled (descriptor vs instr) i
              then V4.lane (dot4_lanes p) i
              else V4.lane (xmem m a) i)
        /\ (ordered s1 = true -> ordered s2 = true ->
            forall i, 0 <= i < 4 ->
              DestComponentEnabled (descriptor vs instr) i = true ->
              V4.lane (xmem m' a) i = dot4 p)).
Proof.
  intros a s1 s2 p F1 F2.
  destruct (two_sources_run h vs instr (common.src1 instr) (common.src2 instr) m)
    as (m1 & E1 & V1 & V2 & G1 & M1 & _).
  split.
  - destruct (dot_code_runs DP3_sum (fun v => V4.mk (dot3 v) (dot3 v) (dot3 v) (dot3 v))
                m1 DP3_sum_runs) as (m2 & E2 & V & G2 & M2).
    destruct (result_store_runs h vs instr _ SRC1 m m2
                ltac:(rewrite exec_block_app, E1; exact E2)
                ltac:(congruence) ltac:(congruence) ltac:(discriminate) ltac:(discriminate))
      as (m' & E & L & _).
    eexists. exists m'. split; [|split; [exact E|]].
    + unfold Compile_DP3. eapply Emits_code_eq; [emits_sources|].
      unfold DP3_sum. repeat rewrite <- app_assoc. reflexivity.
    + intros i Hi. fold a in L. rewrite (L i Hi), V, V1, V2. fold s1 s2 p.
      destruct (DestComponentEnabled (descriptor vs instr) i); [|reflexivity].
      assert (i = 0 \/ i = 1 \/ i = 2 \/ i = 3) as [J|[J|[J|J]]] by lia;
        subst i; reflexivity.
  - destruct (dot_code_runs DP4_sum dot4_lanes m1 DP4_sum_runs) as (m2 & E2 & V & G2 & M2).
    destruct (result_store_runs h vs instr _ SRC1 m m2
                ltac:(rewrite exec_block_app, E1; exact E2)
                ltac:(congruence) ltac:(congruence) ltac:(discriminate) ltac:(discriminate))
      as (m' & E & L & _).
    assert (Lp : forall i, 0 <= i < 4 ->
              V4.lane (xmem m' a) i =
              if DestComponentEnabled (descriptor vs instr) i
              then V4.lane (dot4_lanes p) i
              else V4.lane (xmem m a) i).
    { intros i Hi. fold a in L. rewrite (L i Hi), V, V1, V2. reflexivity. }
    eexists. exists m'. split; [|split; [exact E | split; [exact Lp|]]].
    + unfold Compile_DP4. eapply Emits_code_eq; [emits_sources|].
      unfold DP4_sum. repeat rewrite <- app_assoc. reflexivity.
    + intros O1 O2 i Hi En. rewrite (Lp i Hi), En.
      rewrite (dot4_lanes_equal p (products_ordered s1 s2 O1 O2)).
      assert (i = 0 \/ i = 1 \/ i = 2 \/ i = 3) as [J|[J|[J|J]]] by lia;
        subst i; reflexivity.
Qed.

Lemma DP3_and_DP4_store_the_dot_product_witness :
  let h := example_host in
  let vs := example_setup in
  let instr := arith_word OpCode.DP4 0 1 2 0 in
  let m := started_machine in
  let a := ea m (destination_address h instr) in
  let s1 := resolved_source h vs instr 1 (common.src1 instr) m in
  let s2 := resolved_source h vs instr 2 (common.src2 instr) m in
  offset_fits h (common.src1 instr) = true
  /\ offset_fits h (common.src2 instr) = true
  /\ ordered s1 = true /\ ordered s2 = true
  /\ exists c m',
       Emits (Compile_DP4 h vs instr) c
       /\ exec_block c m = Some m'
       /\ forall i, 0 <= i < 4 ->
            DestComponentEnabled (descriptor vs instr) i = true ->
            V4.lane (xmem m' a) i = dot4 (V4.map2 sanitized_mul s1 s2).
Proof.
  intros h vs instr m a s1 s2.
  split; [reflexivity|]. split; [reflexivity|].
  split; [vm_compute; reflexivity|]. split; [vm_compute; reflexivity|].
  destruct (DP3_and_DP4_store_the_dot_product h vs instr m eq_refl eq_refl)
    as (_ & c & m' & Em & E & _ & A).
  exists c, m'. split; [exact Em|]. split; [exact E|].
  apply A; vm_compute; reflexivity.
Defined.

(** ** DPH *)

Lemma DPH_one_runs sse m1 :
  xmms m1 ONE = ones ->
  exists m2,
    exec_block (DPH_one sse) m1 = Some m2
    /\ xmms m2 SRC1 = with_w_one (xmms m1 SRC1)
    /\ xmms m2 SRC2 = xmms m1 SRC2
    /\ gprs m2 = gprs m1 /\ xmem m2 = xmem m1.
Proof.
  intros O. destruct sse; eexists; (split; [reflexivity|]); cbn; upd_simpl;
    rewrite O; repeat split.
Qed.

(** X4.  With 1.0 in every lane of [ONE], the code of [Compile_DPH] stores
    in the enabled lanes of the destination the four-lane dot product of
    (x, y, z, 1.0) and the second source, where x, y and z are the first
    three lanes of the first source; the sources are [src1i] and [src2i]
    for DPHI.  The path for hosts with SSE4.1 (BLENDPS) and the path for
    the others (UNPCKHPS, UNPCKLPD) store the same lanes. *)
Theorem DPH_sets_the_fourth_lane_to_one h vs instr m sse :
  let a := ea m (destination_address h instr) in
  let s1 := resolved_source h vs instr 1 (first_source OpCode.DPHI instr) m in
  let s2 := resolved_source h vs instr 2 (second_source OpCode.DPHI instr) m in
  let p := V4.map2 sanitized_mul (with_w_one s1) s2 in
  xmms m ONE = ones ->
  offset_fits h (first_source OpCode.DPHI instr) = true ->
  offset_fits h (second_source OpCode.DPHI instr) = true ->
  exists c m',
    Emits (Compile_DPH (with_sse4_1 sse h) vs instr) c
    /\ exec_block c m = Some m'
    /\ (forall i, 0 <= i < 4 ->
          V4.lane (xmem m' a) i =
          if DestComponentEnabled (descriptor vs instr) i
          then V4.lane (dot4_lanes p) i
          else V4.lane (xmem m a) i)
    /\ (forall a', a' <> a -> xmem m' a' = xmem m a').
Proof.
  intros a s1 s2 p O F1 F2.
  set (r1 := first_source OpCode.DPHI instr) in *.
  set (r2 := second_source OpCode.DPHI instr) in *.
  set (h' := with_sse4_1 sse h).
  destruct (two_sources_run h' vs instr r1 r2 m) as (m1 & E1 & V1 & V2 & X1).
  assert (O1 : xmms m1 ONE = ones).
  { destruct X1 as (_ & _ & _ & _ & _ & _ & _ & X). rewrite X; [exact O|].
    cbn. intros [C|[C|[]]]; discriminate C. }
  destruct X1 as (G1 & M1 & _).
  destruct (DPH_one_runs sse m1 O1) as (m2 & E2 & W1 & W2 & G2 & M2).
  destruct (dot_code_runs DP4_sum dot4_lanes m2 DP4_sum_runs) as (m3 & E3 & V & G3 & M3).
  assert (E123 : exec_block ((SwizzleSrc_code h' vs instr 1 r1 SRC1
                              ++ SwizzleSrc_code h' vs instr 2 r2 SRC2)
                             ++ DPH_one sse
                             ++ SanitizedMul_code SRC1 SRC2 SCRATCH ++ DP4_sum) m = Some m3).
  { rewrite exec_block_app, E1, exec_block_app, E2. exact E3. }
  destruct (result_store_runs h' vs instr _ SRC1 m m3 E123
              ltac:(congruence) ltac:(congruence) ltac:(discriminate) ltac:(discriminate))
    as (m' & E & L & X & _).
  eexists. exists m'. split; [|split; [exact E | split; [|exact X]]].
  - unfold Compile_DPH. eapply Emits_code_eq.
    + apply Emits_bind.
      * unfold r1, r2, first_source, second_source in F1, F2.
        apply (Compile_sources_emits h' vs instr _ F1 F2).
      * apply Emits_bind.
        -- instantiate (1 := DPH_one sse). unfold DPH_one, h'. cbn [sse4_1 with_sse4_1].
           destruct sse; emits.
        -- emits_sources.
    + unfold DP4_sum. repeat rewrite <- app_assoc. reflexivity.
  - intros i Hi. pose proof (L i Hi) as Li.
    change (ea m (destination_address h' instr)) with a in Li.
    rewrite Li, V, W1, W2, V1, V2. reflexivity.
Qed.

Lemma DPH_sets_the_fourth_lane_to_one_witness :
  let h := example_host in
  let vs := example_setup in
  let instr := arith_word OpCode.DPH 0 1 2 0 in
  let m := started_machine in
  let a := ea m (destination_address h instr) in
  let s1 := resolved_source h vs instr 1 (first_source OpCode.DPHI instr) m in
  let s2 := resolved_source h vs instr 2 (second_source OpCode.DPHI instr) m in
  let p := V4.map2 sanitized_mul (with_w_one s1) s2 in
  xmms m ONE = ones
  /\ offset_fits h (first_source OpCode.DPHI instr) = true
  /\ offset_fits h (second_source OpCode.DPHI instr) = true
  /\ exists c m',
       Emits (Compile_DPH (with_sse4_1 false h) vs instr) c
       /\ exec_block c m = Some m'
       /\ (forall i, 0 <= i < 4 ->
             V4.lane (xmem m' a) i =
             if DestComponentEnabled (descriptor vs instr) i
             then V4.lane (dot4_lanes p) i
             else V4.lane (xmem m a) i)
       /\ (forall a', a' <> a -> xmem m' a' = xmem m a').
Proof.
  intros h vs instr m a s1 s2 p.
  split; [reflexivity|]. split; [reflexivity|]. split; [reflexivity|].
  exact (DPH_sets_the_fourth_lane_to_one h vs instr m false eq_refl eq_refl eq_refl).
Defined.


(** ** FLR *)

Lemma shiftr_small p k : 0 <= p < 2 ^ k -> 0 <= k -> Z.shiftr p k = 0.
Proof. intros R K. rewrite Z.shiftr_div_pow2 by assumption. now apply Z.div_small. Qed.

(** Below 1 in magnitude, the truncation is 0. *)
Lemma truncate_small b : F32.exponent_of b < 127 -> F32.truncate b = 0.
Proof.
  intros E. unfold F32.truncate, F32.to_SF.
  pose proof (field_range 23 8 b ltac:(lia)) as Re.
  pose proof (field_range 0 23 b ltac:(lia)) as Rf.
  fold (F32.exponent_of b) in Re. fold (F32.fraction_of b) in Rf.
  change (2 ^ 23) with 8388608 in *. change (2 ^ 8) with 256 in *.
  destruct (F32.exponent_of b =? 255) eqn:E255; [apply Z.eqb_eq in E255; lia|].
  destruct (F32.exponent_of b =? 0) eqn:E0.
  - destruct (F32.fraction_of b) as [|p|p] eqn:F; try reflexivity.
    cbn [Z.leb Z.opp Z.compare]. cbv iota.
    assert (Q : 2 ^ 23 <= 2 ^ 149) by (apply Z.pow_le_mono_r; lia).
    change (2 ^ 23) with 8388608 in Q.
    rewrite (shiftr_small (Z.pos p) 149) by lia.
    destruct (F32.sign_of b); reflexivity.
  - destruct (F32.fraction_of b + 8388608) as [|p|p] eqn:F; try reflexivity.
    assert (L : (0 <=? F32.exponent_of b - 150) = false) by (apply Z.leb_gt; lia).
    rewrite L.
    assert (P : 2 ^ 24 <= 2 ^ (- (F32.exponent_of b - 150)))
      by (apply Z.pow_le_mono_r; lia).
    change (2 ^ 24) with 16777216 in P.
    rewrite (shiftr_small (Z.pos p)) by lia.
    destruct (F32.sign_of b); reflexivity.
Qed.

(** From 2^31 in magnitude on, and for the infinities and the NaNs, the
    truncation is the integer indefinite. *)
Lemma truncate_large b :
  158 <= F32.exponent_of b -> F32.truncate b = F32.integer_indefinite.
Proof.
  intros E. unfold F32.truncate, F32.to_SF.
  pose proof (field_range 23 8 b ltac:(lia)) as Re.
  pose proof (field_range 0 23 b ltac:(lia)) as Rf.
  fold (F32.exponent_of b) in Re. fold (F32.fraction_of b) in Rf.
  change (2 ^ 23) with 8388608 in *. change (2 ^ 8) with 256 in *.
  destruct (F32.exponent_of b =? 255) eqn:E255.
  { destruct (F32.fraction_of b =? 0); reflexivity. }
  apply Z.eqb_neq in E255.
  destruct (F32.exponent_of b =? 0) eqn:E0; [apply Z.eqb_eq in E0; lia|].
  destruct (F32.fraction_of b + 8388608) as [|p|p] eqn:F; try lia.
  assert (L : (0 <=? F32.exponent_of b - 150) = true) by (apply Z.leb_le; lia).
  rewrite L, Z.shiftl_mul_pow2 by lia.
  assert (P : 2 ^ 8 <= 2 ^ (F32.exponent_of b - 150)) by (apply Z.pow_le_mono_r; lia).
  change (2 ^ 8) with 256 in P. change (2 ^ 31) with 2147483648.
  set (k := 2 ^ (F32.exponent_of b - 150)) in *.
  assert (M : 2147483648 <= Z.pos p * k) by nia.
  unfold F32.integer_indefinite.
  destruct (F32.sign_of b).
  - destruct (Z.eq_dec (Z.pos p * k) 2147483648) as [Q|Q].
    + rewrite Q. reflexivity.
    + match goal with |- context [?x <=? ?y] =>
        replace (x <=? y) with false by (symmetry; apply Z.leb_gt; lia) end.
      reflexivity.
  - match goal with |- context [?x <? ?y] =>
      replace (x <? y) with false by (symmetry; apply Z.ltb_ge; lia) end.
    now rewrite andb_false_r.
Qed.

Lemma FLR_code_runs m1 :
  exists m2,
    exec_block (FLR_code false) m1 = Some m2
    /\ xmms m2 SRC1 = V4.map (fun v => F32.of_int (F32.truncate v)) (xmms m1 SRC1)
    /\ gprs m2 = gprs m1 /\ xmem m2 = xmem m1.
Proof.
  eexists. split; [reflexivity|]. cbn. upd_simpl. repeat split.
Qed.

Lemma map_lane f a i : 0 <= i < 4 -> V4.lane (V4.map f a) i = f (V4.lane a i).
Proof.
  intros R. assert (i = 0 \/ i = 1 \/ i = 2 \/ i = 3) as [E|[E|[E|E]]] by lia;
    subst i; reflexivity.
Qed.

(** X5.  [Compile_FLR] emits ROUNDPS with the floor mode on a host with
    SSE4.1, and CVTTPS2DQ followed by CVTDQ2PS on the others.  The code for
    a host without SSE4.1 stores in each enabled lane the source lane
    converted to a 32-bit integer by truncation and back.  So a lane below
    1 in magnitude, a negative one included, becomes +0; and a lane of
    magnitude 2^31 or more, an infinity or a NaN becomes -2147483648.0. *)
Theorem FLR_without_SSE4_1_truncates h vs instr m :
  let a := ea m (destination_address h instr) in
  let s := resolved_source h vs instr 1 (common.src1 instr) m in
  offset_fits h (common.src1 instr) = true ->
  (forall sse,
     Emits (Compile_FLR (with_sse4_1 sse h) vs instr)
           (SwizzleSrc_code h vs instr 1 (common.src1 instr) SRC1
            ++ FLR_code sse
            ++ DestEnable_code sse (dest_mask (descriptor vs instr))
                 (OutputOffset h (destination instr)) SRC1))
  /\ exists c m',
       Emits (Compile_FLR (with_sse4_1 false h) vs instr) c
       /\ exec_block c m = Some m'
       /\ (forall i, 0 <= i < 4 ->
             V4.lane (xmem m' a) i =
             if DestComponentEnabled (descriptor vs instr) i
             then F32.of_int (F32.truncate (V4.lane s i))
             else V4.lane (xmem m a) i)
       /\ (forall i, 0 <= i < 4 ->
             DestComponentEnabled (descriptor vs instr) i = true ->
             (F32.exponent_of (V4.lane s i) < 127 -> V4.lane (xmem m' a) i = f32_zero)
             /\ (158 <= F32.exponent_of (V4.lane s i) ->
                 V4.lane (xmem m' a) i = f32_min_int)).
Proof.
  intros a s F.
  assert (Em : forall sse,
     Emits (Compile_FLR (with_sse4_1 sse h) vs instr)
           (SwizzleSrc_code h vs instr 1 (common.src1 instr) SRC1
            ++ FLR_code sse
            ++ DestEnable_code sse (dest_mask (descriptor vs instr))
                 (OutputOffset h (destination instr)) SRC1)).
  { intros sse. unfold Compile_FLR.
    apply Emits_bind; [now apply (Compile_SwizzleSrc_emits (with_sse4_1 sse h))|].
    apply Emits_bind; [|apply (Compile_DestEnable_emits (with_sse4_1 sse h))].
    unfold FLR_code. cbn [sse4_1 with_sse4_1]. destruct sse; emits. }
  split; [exact Em|].
  destruct (SwizzleSrc_code_runs h vs instr 1 (common.src1 instr) SRC1 m)
    as (m1 & E1 & V1 & G1 & M1 & _); [discriminate|].
  destruct (FLR_code_runs m1) as (m2 & E2 & V & G2 & M2).
  destruct (result_store_runs (with_sse4_1 false h) vs instr _ SRC1 m m2
              ltac:(rewrite exec_block_app, E1; exact E2)
              ltac:(congruence) ltac:(congruence) ltac:(discriminate) ltac:(discriminate))
    as (m' & E & L & _).
  assert (Lp : forall i, 0 <= i < 4 ->
             V4.lane (xmem m' a) i =
             if DestComponentEnabled (descriptor vs instr) i
             then F32.of_int (F32.truncate (V4.lane s i))
             else V4.lane (xmem m a) i).
  { intros i Hi. pose proof (L i Hi) as Li.
    change (ea m (destination_address (with_sse4_1 false h) instr)) with a in Li.
    rewrite Li, V, V1, map_lane by assumption. reflexivity. }
  eexists. exists m'. split; [exact (Em false)|]. split; [|split; [exact Lp|]].
  - rewrite <- app_assoc in E. exact E.
  - intros i Hi En. rewrite (Lp i Hi), En. split; intros X.
    + now rewrite truncate_small.
    + now rewrite truncate_large.
Qed.

Lemma FLR_without_SSE4_1_truncates_witness :
  let h := example_host in
  let vs := example_setup in
  let instr := arith_word OpCode.FLR 0 1 0 0 in
  let m := set_xmem 4112 (V4.mk f32_minus_half f32_one f32_infinity f32_NaN) started_machine in
  let a := ea m (destination_address h instr) in
  let s := resolved_source h vs instr 1 (common.src1 instr) m in
  offset_fits h (common.src1 instr) = true
  /\ s = V4.mk f32_minus_half f32_one f32_infinity f32_NaN
  /\ exists c m',
       Emits (Compile_FLR (with_sse4_1 false h) vs instr) c
       /\ exec_block c m = Some m'
       /\ V4.lane (xmem m' a) 0 = f32_zero
       /\ V4.lane (xmem m' a) 2 = f32_min_int.
Proof.
  intros h vs instr m a s.
  split; [reflexivity|]. split; [reflexivity|].
  destruct (FLR_without_SSE4_1_truncates h vs instr m eq_refl)
    as (_ & c & m' & Em & E & _ & A).
  exists c, m'. split; [exact Em|]. split; [exact E|]. split.
  - apply (A 0); [lia | reflexivity | vm_compute; reflexivity].
  - apply (A 2); [lia | reflexivity | vm_compute; discriminate].
Defined.


(** ** MOVA *)

Lemma truncate_range b : 0 <= F32.truncate b < 2 ^ 32.
Proof.
  unfold F32.truncate, F32.integer_indefinite. change (2 ^ 32) with 4294967296.
  destruct (F32.to_SF b); try lia.
  match goal with |- context [if ?c then _ else _] => destruct c end; [|lia].
  unfold Bits.wrap32. change (2 ^ 32) with 4294967296. apply Z.mod_pos_bound. lia.
Qed.

Lemma signed32_range v : - 2 ^ 31 <= Bits.signed32 v < 2 ^ 31.
Proof.
  unfold Bits.signed32, Bits.wrap32. change (2 ^ 32) with 4294967296.
  change (2 ^ 31) with 2147483648.
  pose proof (Z.mod_pos_bound v 4294967296 ltac:(lia)).
  destruct (Z.ltb_spec (v mod 4294967296) 2147483648); lia.
Qed.

Lemma MOVA_tail_values en0 en1 m :
  exists m',
    exec_block (MOVA_tail en0 en1) m = Some m'
    /\ (en0 = true -> gprs m' R10 = address_offset (V4.x (xmms m SRC1)))
    /\ (en1 = true -> gprs m' R11 = address_offset (V4.y (xmms m SRC1))).
Proof.
  pose proof (truncate_range (V4.x (xmms m SRC1))) as Rx.
  pose proof (truncate_range (V4.y (xmms m SRC1))) as Ry.
  pose proof (signed32_range (F32.truncate (V4.x (xmms m SRC1)))) as Sx.
  pose proof (signed32_range (F32.truncate (V4.y (xmms m SRC1)))) as Sy.
  unfold address_offset.
  set (tx := F32.truncate (V4.x (xmms m SRC1))) in *.
  set (ty := F32.truncate (V4.y (xmms m SRC1))) in *.
  assert (Lo : Bits.wrap32 (Bits.wrap64 (tx + ty * 2 ^ 32)) = tx).
  { rewrite wrap32_wrap64. unfold Bits.wrap32. change (2 ^ 32) with 4294967296 in *.
    rewrite Z.mod_add by lia. apply Z.mod_small. lia. }
  assert (Hi : Z.shiftr (Bits.wrap64 (tx + ty * 2 ^ 32)) 32 = ty).
  { rewrite wrap64_small, Z.shiftr_div_pow2 by
      (change (2 ^ 32) with 4294967296 in *; change (2 ^ 64) with 18446744073709551616; lia).
    change (2 ^ 32) with 4294967296 in *. rewrite Z.div_add by lia.
    rewrite Z.div_small by lia. reflexivity. }
  assert (Sh : forall v, Bits.wrap64 (Z.shiftl (Bits.wrap64 v) 4) = Bits.wrap64 (16 * v)).
  { intros v. rewrite Z.shiftl_mul_pow2 by lia. change (2 ^ 4) with 16.
    unfold Bits.wrap64. rewrite Z.mul_mod_idemp_l by lia. f_equal. lia. }
  assert (W32 : Bits.wrap32 ty = ty).
  { unfold Bits.wrap32. apply Z.mod_small. lia. }
  assert (W64 : Bits.wrap64 ty = ty).
  { apply wrap64_small. change (2 ^ 32) with 4294967296 in *.
    change (2 ^ 64) with 18446744073709551616. lia. }
  destruct en0, en1; eexists; (split; [reflexivity|]);
    cbn -[Z.shiftr Z.shiftl Z.mul Z.add Z.pow Bits.wrap64 Bits.wrap32 Bits.signed32];
    upd_simpl; unfold V4.low64;
    cbn -[Z.shiftr Z.shiftl Z.mul Z.add Z.pow Bits.wrap64 Bits.wrap32 Bits.signed32];
    fold tx ty; split; intros T; try discriminate T;
    rewrite ?wrap64_idem, ?Hi, ?Lo, ?W64, ?W32, ?Sh; reflexivity.
Qed.

(** X6.  When lane 0 is enabled in the destination mask, the code of
    [Compile_MOVA] leaves in [ADDROFFS_REG_0] 16 times the first lane of the
    source truncated to a 32-bit integer, as a 64-bit two's complement
    number; when lane 1 is enabled, it leaves in [ADDROFFS_REG_1] 16 times
    the second lane truncated. *)
Theorem MOVA_sets_the_address_registers h vs instr m :
  let swiz := swizzle_data vs (common.operand_desc_id instr) in
  let s := resolved_source h vs instr 1 (common.src1 instr) m in
  offset_fits h (common.src1 instr) = true ->
  exists c m',
    Emits (Compile_MOVA h vs instr) c
    /\ exec_block c m = Some m'
    /\ (DestComponentEnabled swiz 0 = true ->
        gprs m' (gpr_of ADDROFFS_REG_0) = address_offset (V4.x s))
    /\ (DestComponentEnabled swiz 1 = true ->
        gprs m' (gpr_of ADDROFFS_REG_1) = address_offset (V4.y s)).
Proof.
  intros swiz s F. pose proof (Compile_MOVA_emits h vs instr F) as E.
  cbv zeta in E. fold swiz in E.
  destruct (negb (DestComponentEnabled swiz 0) && negb (DestComponentEnabled swiz 1)) eqn:N.
  - exists [], m. split; [exact E|]. split; [reflexivity|].
    apply andb_true_iff in N. destruct N as [N0 N1].
    apply negb_true_iff in N0, N1. rewrite N0, N1. split; discriminate.
  - destruct (SwizzleSrc_code_runs h vs instr 1 (common.src1 instr) SRC1 m)
      as (m1 & E1 & V1 & _); [discriminate|].
    destruct (MOVA_tail_values (DestComponentEnabled swiz 0) (DestComponentEnabled swiz 1) m1)
      as (m' & E2 & A0 & A1).
    eexists. exists m'. split; [exact E|].
    rewrite exec_block_app, E1. split; [exact E2|].
    rewrite V1 in A0, A1. split; assumption.
Qed.

Lemma MOVA_sets_the_address_registers_witness :
  let h := example_host in
  let vs := mova_setup in
  let instr := example_mova 1 in
  let m := set_xmem 4112 (V4.mk f32_five f32_one f32_zero f32_zero) started_machine in
  offset_fits h (common.src1 instr) = true
  /\ DestComponentEnabled (swizzle_data vs (common.operand_desc_id instr)) 0 = true
  /\ exists c m',
       Emits (Compile_MOVA h vs instr) c
       /\ exec_block c m = Some m'
       /\ gprs m' (gpr_of ADDROFFS_REG_0) = 80.
Proof.
  intros h vs instr m.
  split; [reflexivity|]. split; [reflexivity|].
  destruct (MOVA_sets_the_address_registers h vs instr m eq_refl)
    as (c & m' & Em & E & A & _).
  exists c, m'. split; [exact Em|]. split; [exact E|].
  exact (A eq_refl).
Defined.


(** ** The source operand *)

Lemma field_lxor pos len a b :
  Bits.field pos len (Z.lxor a b) = Z.lxor (Bits.field pos len a) (Bits.field pos len b).
Proof.
  unfold Bits.field. rewrite Z.shiftr_lxor. apply Z.bits_inj'. intros k _.
  rewrite !Z.land_spec, !Z.lxor_spec, !Z.land_spec.
  destruct (Z.testbit (Z.shiftr a pos) k), (Z.testbit (Z.shiftr b pos) k),
    (Z.testbit (Z.ones len) k); reflexivity.
Qed.

(** The exclusive or with the sign bit is the negation of binary32. *)
Lemma lxor_sign_bit a :
  F32.to_SF (Z.lxor a 0x80000000) = SFopp (F32.to_SF a).
Proof.
  unfold F32.to_SF, F32.sign_of, F32.exponent_of, F32.fraction_of.
  rewrite !field_lxor, Z.lxor_spec.
  change (Bits.field 23 8 2147483648) with 0. change (Bits.field 0 23 2147483648) with 0.
  change (Z.testbit 2147483648 31) with true.
  rewrite !Z.lxor_0_r, xorb_true_r.
  destruct (Bits.field 23 8 a =? 255).
  - destruct (Bits.field 0 23 a =? 0); reflexivity.
  - destruct (Bits.field 23 8 a =? 0).
    + destruct (Bits.field 0 23 a); reflexivity.
    + destruct (Bits.field 0 23 a + 2 ^ 23); reflexivity.
Qed.

Lemma Compile_SwizzleSrc_aborts h vs instr n r dest s :
  offset_fits h r = false ->
  Compile_SwizzleSrc h vs instr n r dest s
  = Abort "Source register offset too large for int type".
Proof.
  unfold offset_fits, source_base, Compile_SwizzleSrc. intros F.
  destruct (RegisterType_eqb (GetRegisterType r) FloatUniform); cbn [snd] in F;
    unfold bind, ASSERT_MSG; rewrite F; reflexivity.
Qed.

Lemma swizzle_lane sel v i :
  0 <= i < 4 -> V4.lane (swizzle sel v) i = V4.lane v (Bits.field (6 - 2 * i) 2 sel).
Proof.
  intros R. assert (i = 0 \/ i = 1 \/ i = 2 \/ i = 3) as [E|[E|[E|E]]] by lia;
    subst i; reflexivity.
Qed.

(** X7.  [Compile_SwizzleSrc] stops with a failed assertion when the offset
    of the source register does not survive the cast to [int].  Otherwise
    its code loads the 16-byte cell of the source register (at the base
    register plus the displacement, plus the address register selected by
    the instruction when the source is the one that takes an address
    offset), puts in lane [i] of the destination register the component
    that bits [7-2i..6-2i] of the raw selector pick, and, when the
    descriptor negates the source, flips the sign bit of every lane, which
    negates the binary32 value; no other register and no memory changes. *)
Theorem SwizzleSrc_loads_swizzles_and_negates h vs instr n r dest m :
  let swiz := descriptor vs instr in
  let sel := GetRawSelector swiz n in
  let v := xmem m (ea m (source_address h instr n r)) in
  (offset_fits h r = false ->
   forall s, Compile_SwizzleSrc h vs instr n r dest s
             = Abort "Source register offset too large for int type")
  /\ (offset_fits h r = true -> dest <> NEGBIT -> xmms m NEGBIT = sign_bits_vector ->
      exists c m',
        Emits (Compile_SwizzleSrc h vs instr n r dest) c
        /\ exec_block c m = Some m'
        /\ (forall i, 0 <= i < 4 ->
              let picked := V4.lane v (Bits.field (6 - 2 * i) 2 sel) in
              V4.lane (xmms m' dest) i
              = (if negated swiz n then Z.lxor picked 0x80000000 else picked)
              /\ F32.to_SF (Z.lxor picked 0x80000000) = SFopp (F32.to_SF picked))
        /\ xmm_only [dest] m m').
Proof.
  intros swiz sel v. split.
  - intros F s. now apply Compile_SwizzleSrc_aborts.
  - intros F D N.
    destruct (SwizzleSrc_code_runs h vs instr n r dest m D) as (m' & E & V & X).
    eexists. exists m'. split; [now apply Compile_SwizzleSrc_emits|].
    split; [exact E|]. split; [|exact X].
    intros i Hi picked. split; [|apply lxor_sign_bit].
    rewrite V. unfold resolved_source. fold swiz sel v. rewrite N.
    destruct (negated swiz n).
    + rewrite map2_lane, swizzle_lane by assumption.
      assert (i = 0 \/ i = 1 \/ i = 2 \/ i = 3) as [J|[J|[J|J]]] by lia;
        subst i; reflexivity.
    + now rewrite swizzle_lane.
Qed.

Lemma SwizzleSrc_loads_swizzles_and_negates_witness :
  let h := example_host in
  let vs := reversing_setup in
  let instr := example_mov in
  let m := started_machine in
  offset_fits h (common.src1 instr) = true
  /\ SRC1 <> NEGBIT
  /\ xmms m NEGBIT = sign_bits_vector
  /\ exists c m',
       Emits (Compile_SwizzleSrc h vs instr 1 (common.src1 instr) SRC1) c
       /\ exec_block c m = Some m'
       /\ V4.lane (xmms m' SRC1) 0 = 4115 + 0x80000000
       /\ V4.lane (xmms m' SRC1) 3 = 4112 + 0x80000000.
Proof.
  intros h vs instr m.
  assert (D : SRC1 <> NEGBIT) by discriminate.
  split; [reflexivity|]. split; [exact D|]. split; [reflexivity|].
  destruct (SwizzleSrc_loads_swizzles_and_negates h vs instr 1 (common.src1 instr) SRC1 m)
    as [_ A].
  destruct (A eq_refl D eq_refl) as (c & m' & Em & E & L & _).
  exists c, m'. split; [exact Em|]. split; [exact E|]. split.
  - exact (proj1 (L 0 ltac:(lia))).
  - exact (proj1 (L 3 ltac:(lia))).
Defined.


(** ** CMP *)

Ltac to_nat_values :=
  repeat match goal with
         | |- context [Z.to_nat ?k] =>
             let v := eval vm_compute in (Z.to_nat k) in change (Z.to_nat k) with v
         end.

Lemma six_cases op : 0 <= op <= 5 -> op = 0 \/ op = 1 \/ op = 2 \/ op = 3 \/ op = 4 \/ op = 5.
Proof. lia. Qed.

Lemma Compile_CMP_emits h vs instr :
  common.compare_op_x instr <= 5 -> common.compare_op_y instr <= 5 ->
  offset_fits h (common.src1 instr) = true ->
  offset_fits h (common.src2 instr) = true ->
  Emits (Compile_CMP h vs instr)
        ((SwizzleSrc_code h vs instr 1 (common.src1 instr) SRC1
          ++ SwizzleSrc_code h vs instr 2 (common.src2 instr) SRC2)
         ++ CMP_code instr).
Proof.
  intros X Y F1 F2. unfold Compile_CMP, CMP_code.
  pose proof (field_range 24 3 instr ltac:(lia)) as Rx.
  pose proof (field_range 21 3 instr ltac:(lia)) as Ry.
  fold (common.compare_op_x instr) in Rx. fold (common.compare_op_y instr) in Ry.
  eapply Emits_code_eq.
  - apply Emits_bind; [now apply Compile_SwizzleSrc_emits|].
    apply Emits_bind; [now apply Compile_SwizzleSrc_emits|].
    instantiate (1 := CMP_code instr). unfold CMP_code.
    destruct (six_cases (common.compare_op_x instr) ltac:(lia)) as [A|[A|[A|[A|[A|A]]]]];
      destruct (six_cases (common.compare_op_y instr) ltac:(lia)) as [B|[B|[B|[B|[B|B]]]]];
      rewrite A, B; intros s; unfold bind, emit, cmp_lookup; to_nat_values; cbn;
      rewrite ?append_code_app; reflexivity.
  - now rewrite app_assoc.
Qed.

Lemma Compile_CMP_undefined h vs instr s :
  5 < common.compare_op_x instr \/ 5 < common.compare_op_y instr ->
  offset_fits h (common.src1 instr) = true ->
  offset_fits h (common.src2 instr) = true ->
  Compile_CMP h vs instr s = Undefined.
Proof.
  intros O F1 F2. unfold Compile_CMP.
  pose proof (field_range 24 3 instr ltac:(lia)) as Rx.
  pose proof (field_range 21 3 instr ltac:(lia)) as Ry.
  fold (common.compare_op_x instr) in Rx. fold (common.compare_op_y instr) in Ry.
  change (2 ^ 3) with 8 in *.
  unfold bind at 1. rewrite (Compile_SwizzleSrc_emits h vs instr 1 _ SRC1 F1 s).
  unfold bind at 1. rewrite (Compile_SwizzleSrc_emits h vs instr 2 _ SRC2 F2 _).
  assert (Cx : common.compare_op_x instr = 0 \/ common.compare_op_x instr = 1
               \/ common.compare_op_x instr = 2 \/ common.compare_op_x instr = 3
               \/ common.compare_op_x instr = 4 \/ common.compare_op_x instr = 5
               \/ common.compare_op_x instr = 6 \/ common.compare_op_x instr = 7) by lia.
  assert (Cy : common.compare_op_y instr = 0 \/ common.compare_op_y instr = 1
               \/ common.compare_op_y instr = 2 \/ common.compare_op_y instr = 3
               \/ common.compare_op_y instr = 4 \/ common.compare_op_y instr = 5
               \/ common.compare_op_y instr = 6 \/ common.compare_op_y instr = 7) by lia.
  destruct Cx as [A|[A|[A|[A|[A|[A|[A|A]]]]]]];
    destruct Cy as [B|[B|[B|[B|[B|[B|[B|B]]]]]]];
    rewrite A, B in *; try lia; unfold bind, emit, cmp_lookup; to_nat_values; reflexivity.
Qed.

Lemma low_half a y : Bits.wrap32 (Bits.wrap64 (a + y * 2 ^ 32)) = Bits.wrap32 a.
Proof.
  rewrite wrap32_wrap64. unfold Bits.wrap32. now rewrite Z.mod_add by lia.
Qed.

Lemma sign_of_low cx y :
  Bits.wrap32 (Z.shiftr (Bits.wrap32 (Bits.wrap64 (F32.mask_of cx + y * 2 ^ 32))) 31)
  = Z.b2z cx.
Proof. rewrite low_half. destruct cx; reflexivity. Qed.

Lemma sign_of_high cx cy :
  Bits.wrap64 (Z.shiftr (Bits.wrap64 (F32.mask_of cx + F32.mask_of cy * 2 ^ 32)) 63)
  = Z.b2z cy.
Proof. destruct cx, cy; reflexivity. Qed.

Lemma CMP_code_runs instr m :
  common.compare_op_x instr <= 5 -> common.compare_op_y instr <= 5 ->
  exists m',
    exec_block (CMP_code instr) m = Some m'
    /\ gprs m' R13 = Z.b2z (compare_op (common.compare_op_x instr)
                              (V4.x (xmms m SRC1)) (V4.x (xmms m SRC2)))
    /\ gprs m' R14 = Z.b2z (compare_op (common.compare_op_y instr)
                              (V4.y (xmms m SRC1)) (V4.y (xmms m SRC2)))
    /\ (forall g, g <> R13 -> g <> R14 -> gprs m' g = gprs m g)
    /\ xmem m' = xmem m /\ qmem m' = qmem m /\ dmem m' = dmem m /\ bmem m' = bmem m.
Proof.
  intros X Y.
  pose proof (field_range 24 3 instr ltac:(lia)) as Rx.
  pose proof (field_range 21 3 instr ltac:(lia)) as Ry.
  fold (common.compare_op_x instr) in Rx. fold (common.compare_op_y instr) in Ry.
  unfold CMP_code.
  destruct (six_cases (common.compare_op_x instr) ltac:(lia)) as [A|[A|[A|[A|[A|A]]]]];
    destruct (six_cases (common.compare_op_y instr) ltac:(lia)) as [B|[B|[B|[B|[B|B]]]]];
    rewrite A, B; to_nat_values; eexists; (split; [reflexivity|]);
    cbn -[Z.shiftr Z.mul Z.add Z.pow Bits.wrap64 Bits.wrap32 F32.mask_of];
    upd_simpl; unfold V4.low64;
    cbn -[Z.shiftr Z.mul Z.add Z.pow Bits.wrap64 Bits.wrap32 F32.mask_of];
    rewrite ?wrap64_idem, ?sign_of_low, ?sign_of_high;
    (repeat split; try reflexivity; intros g G1 G2; now upd_simpl).
Qed.

Lemma compare_op_unordered op a b :
  F32.unordered a b = true -> compare_op op a b = (op =? 1).
Proof.
  intros U. assert (U' : F32.unordered b a = true)
    by (unfold F32.unordered in *; now rewrite orb_comm).
  assert (Q : F32.eqb a b = false).
  { unfold F32.unordered, F32.eqb, SFeqb in *. apply orb_true_iff in U.
    destruct U as [U|U]; rewrite (to_SF_nan _ U); [reflexivity|].
    destruct (F32.to_SF a); reflexivity. }
  unfold compare_op.
  destruct op as [|[[[p|p|]|[p|p|]|]|[[p|p|]|[p|p|]|]|]|]; try reflexivity;
    rewrite ?Q, ?(ltb_unordered _ _ U), ?(ltb_unordered _ _ U'),
      ?(leb_unordered _ _ U), ?(leb_unordered _ _ U'); reflexivity.
Qed.

(** X8.  For comparison operators up to 5, the code of [Compile_CMP] leaves
    in [COND0] the value 1 when the first lanes of the two sources stand in
    the relation that the x operator names and 0 otherwise, and in [COND1]
    the same for the second lanes and the y operator; no memory and no
    other general-purpose register changes.  When a lane is a NaN, only
    NotEqual holds.  For an operator 6 or 7 the generator reads past the end
    of its table of predicates. *)
Theorem CMP_sets_the_condition_registers h vs instr m :
  let op_x := common.compare_op_x instr in
  let op_y := common.compare_op_y instr in
  let s1 := resolved_source h vs instr 1 (common.src1 instr) m in
  let s2 := resolved_source h vs instr 2 (common.src2 instr) m in
  offset_fits h (common.src1 instr) = true ->
  offset_fits h (common.src2 instr) = true ->
  (op_x <= 5 -> op_y <= 5 ->
   exists c m',
     Emits (Compile_CMP h vs instr) c
     /\ exec_block c m = Some m'
     /\ gprs m' (gpr_of COND0) = Z.b2z (compare_op op_x (V4.x s1) (V4.x s2))
     /\ gprs m' (gpr_of COND1) = Z.b2z (compare_op op_y (V4.y s1) (V4.y s2))
     /\ (forall g, g <> gpr_of COND0 -> g <> gpr_of COND1 -> gprs m' g = gprs m g)
     /\ xmem m' = xmem m /\ qmem m' = qmem m /\ dmem m' = dmem m /\ bmem m' = bmem m)
  /\ (forall op a b, F32.unordered a b = true -> compare_op op a b = (op =? 1))
  /\ (5 < op_x \/ 5 < op_y -> forall s, Compile_CMP h vs instr s = Undefined).
Proof.
  intros op_x op_y s1 s2 F1 F2. split; [|split].
  - intros X Y.
    destruct (two_sources_run h vs instr (common.src1 instr) (common.src2 instr) m)
      as (m1 & E1 & V1 & V2 & G1 & M1 & Q1 & D1 & B1 & _).
    destruct (CMP_code_runs instr m1 X Y) as (m' & E & C0 & C1 & G & M & Q & D & B).
    eexists. exists m'. split; [now apply Compile_CMP_emits|].
    rewrite exec_block_app, E1. split; [exact E|].
    rewrite V1, V2 in C0, C1.
    split; [exact C0|]. split; [exact C1|].
    split; [intros g N0 N1; rewrite G1 in G; now apply G|].
    repeat split; congruence.
  - exact compare_op_unordered.
  - intros O s. now apply Compile_CMP_undefined.
Qed.

Lemma CMP_sets_the_condition_registers_witness :
  let h := example_host in
  let vs := example_setup in
  let instr := example_cmp in
  let m := set_xmem 4112 (V4.mk f32_five f32_one f32_zero f32_zero)
             (set_xmem 4128 (V4.mk f32_one f32_NaN f32_zero f32_zero) started_machine) in
  offset_fits h (common.src1 instr) = true
  /\ offset_fits h (common.src2 instr) = true
  /\ common.compare_op_x instr <= 5 /\ common.compare_op_y instr <= 5
  /\ exists c m',
       Emits (Compile_CMP h vs instr) c
       /\ exec_block c m = Some m'
       /\ gprs m' (gpr_of COND0) = 1
       /\ gprs m' (gpr_of COND1) = 0.
Proof.
  intros h vs instr m.
  assert (X : common.compare_op_x instr <= 5) by (vm_compute; discriminate).
  assert (Y : common.compare_op_y instr <= 5) by (vm_compute; discriminate).
  split; [reflexivity|]. split; [reflexivity|]. split; [exact X|]. split; [exact Y|].
  destruct (CMP_sets_the_condition_registers h vs instr m eq_refl eq_refl) as [A _].
  destruct (A X Y) as (c & m' & Em & E & C0 & C1 & _).
  exists c, m'. split; [exact Em|]. split; [exact E|]. split; [exact C0 | exact C1].
Defined.


(** ** Conditions and jumps *)

Lemma two_cases v : 0 <= v < 2 -> v = 0 \/ v = 1.
Proof. lia. Qed.

Lemma four_cases v : 0 <= v < 4 -> v = 0 \/ v = 1 \/ v = 2 \/ v = 3.
Proof. lia. Qed.

Lemma EvaluateCondition_code_runs instr m c0 c1 :
  gprs m R13 = Z.b2z c0 -> gprs m R14 = Z.b2z c1 ->
  exists m',
    exec_block (EvaluateCondition_code instr) m = Some m'
    /\ ZF m' = negb (flow_condition instr c0 c1)
    /\ (forall g, g <> RAX -> g <> RBX -> gprs m' g = gprs m g)
    /\ xmem m' = xmem m /\ qmem m' = qmem m /\ dmem m' = dmem m /\ bmem m' = bmem m
    /\ xmms m' = xmms m.
Proof.
  intros C0 C1. unfold EvaluateCondition_code, flow_condition. cbv zeta.
  destruct (four_cases _ (field_range 22 2 instr ltac:(lia))) as [A|[A|[A|A]]];
    destruct (two_cases _ (field_range 25 1 instr ltac:(lia))) as [X|X];
    destruct (two_cases _ (field_range 24 1 instr ltac:(lia))) as [Y|Y];
    fold (flow_control.op instr) in A; fold (flow_control.refx instr) in X;
    fold (flow_control.refy instr) in Y; rewrite A, X, ?Y;
    (eexists; split; [reflexivity|]); cbn; upd_simpl; rewrite ?C0, ?C1;
    (split; [destruct c0, c1; reflexivity|]);
    (split; [intros g G1 G2; now upd_simpl|]); repeat split.
Qed.

Lemma UniformCondition_code_runs h instr m :
  let u := bmem m (ea m (at_ SETUP (GetBoolUniformOffset h
                                      (flow_control.bool_uniform_id instr)))) in
  0 <= u < 256 ->
  exec_block (UniformCondition_code h instr) m = Some (set_ZF (u =? 0) m).
Proof.
  intros u R. unfold UniformCondition_code. cbn. fold u.
  rewrite Z.sub_0_r. change (2 ^ 8) with 256. now rewrite Z.mod_small.
Qed.

Lemma nth_error_at {A} (pre : list A) i post :
  nth_error (pre ++ i :: post) (List.length pre) = Some i.
Proof. rewrite nth_error_app2, Nat.sub_diag by lia. reflexivity. Qed.

(** A conditional jump behind a sequential block that computes its
    condition. *)
Lemma conditional_jump_runs cond (on_zero : bool) l pre post m mc q :
  let c := pre ++ (cond ++ [if on_zero then jz l else jnz l]) ++ post in
  forallb sequential cond = true ->
  rip m = List.length pre ->
  exec_block cond m = Some mc ->
  find_label l c = Some q ->
  run (List.length cond + 1) c m
  = Some (set_rip (if Bool.eqb (ZF mc) on_zero then q
                   else (List.length pre + List.length cond + 1)%nat) mc).
Proof.
  intros c Sq P Ec Fl.
  assert (C1 : c = pre ++ cond ++ ((if on_zero then jz l else jnz l) :: post)).
  { unfold c. rewrite <- !app_assoc. reflexivity. }
  destruct (run_block cond pre ((if on_zero then jz l else jnz l) :: post) m mc Sq P Ec)
    as [Rc _].
  rewrite <- C1 in Rc. rewrite run_add, Rc.
  set (m1 := set_rip (List.length pre + List.length cond) mc).
  assert (N : nth_error c (rip m1) = Some (if on_zero then jz l else jnz l)).
  { unfold m1. cbn [rip set_rip]. rewrite C1, app_assoc, <- length_app.
    apply nth_error_at. }
  cbn [run]. rewrite (step_at c m1 _ N). unfold goto.
  assert (Z1 : ZF m1 = ZF mc) by reflexivity.
  destruct (ZF mc) eqn:Zc; destruct on_zero; rewrite ?Z1, ?Fl; cbn [Bool.eqb];
    unfold m1, next, set_rip; cbn; do 2 f_equal; lia.
Qed.

Lemma JMP_condition_emits h instr :
  opcode instr = OpCode.JMPC \/ opcode instr = OpCode.JMPU ->
  Emits (if opcode instr =? OpCode.JMPC then Compile_EvaluateCondition instr
         else if opcode instr =? OpCode.JMPU then Compile_UniformCondition h instr
         else UNREACHABLE)
        (JMP_condition h instr).
Proof.
  intros O. unfold JMP_condition.
  destruct O as [O|O]; rewrite O; cbn [Z.eqb Pos.eqb OpCode.JMPC OpCode.JMPU].
  - apply Compile_EvaluateCondition_emits.
  - apply Compile_UniformCondition_emits.
Qed.

Lemma Compile_JMP_emits h vs instr :
  opcode instr = OpCode.JMPC \/ opcode instr = OpCode.JMPU ->
  0 <= flow_control.dest_offset instr < Z.of_nat (List.length (program_code vs)) ->
  Emits (Compile_JMP h vs instr) (JMP_code h instr).
Proof.
  intros O R. unfold Compile_JMP, JMP_code, JMP_inverted. cbv zeta.
  apply Emits_bind; [now apply JMP_condition_emits|].
  intros s. rewrite bind_instruction_labels_at by exact R.
  match goal with |- context [if ?b then emit _ else _] => destruct b end;
    reflexivity.
Qed.

Lemma Compile_JMP_outside h vs instr s :
  opcode instr = OpCode.JMPC \/ opcode instr = OpCode.JMPU ->
  ~ 0 <= flow_control.dest_offset instr < Z.of_nat (List.length (program_code vs)) ->
  Compile_JMP h vs instr s = Undefined.
Proof.
  intros O R. unfold Compile_JMP. cbv zeta.
  rewrite (bind_Emits _ _ _ _ (JMP_condition_emits h instr O)).
  now apply bind_instruction_labels_at_outside.
Qed.

Lemma JMP_condition_sequential h instr :
  forallb sequential (JMP_condition h instr) = true.
Proof.
  unfold JMP_condition. destruct (opcode instr =? OpCode.JMPC).
  - apply (keeps_sequential [RSP]). apply EvaluateCondition_code_keeps.
  - reflexivity.
Qed.

(** X9.  [Compile_JMP] stops at [UNREACHABLE] for an opcode other than JMPC
    and JMPU.  For JMPC and JMPU with a target outside the label table it
    indexes [instruction_labels] out of bounds; with a target inside, it
    emits the condition code and one conditional jump.  The code of JMPC jumps to the label of the target offset
    when the condition of the instruction holds for the results of the last
    CMP in [COND0] and [COND1], and goes on behind the jump otherwise.  The
    code of JMPU jumps when the boolean uniform is not zero if the lowest
    bit of [num_instructions] is clear, and when the uniform is zero if
    that bit is set. *)
Theorem JMP_jumps_when_its_condition_holds h vs instr :
  let dest := instruction_labels (flow_control.dest_offset instr) in
  let len := Z.of_nat (List.length (program_code vs)) in
  (opcode instr <> OpCode.JMPC -> opcode instr <> OpCode.JMPU ->
   forall s, Compile_JMP h vs instr s = Abort "Unreachable code!")
  /\ (opcode instr = OpCode.JMPC \/ opcode instr = OpCode.JMPU ->
      0 <= flow_control.dest_offset instr < len ->
      Emits (Compile_JMP h vs instr) (JMP_code h instr))
  /\ (opcode instr = OpCode.JMPC \/ opcode instr = OpCode.JMPU ->
      ~ 0 <= flow_control.dest_offset instr < len ->
      forall s, Compile_JMP h vs instr s = Undefined)
  /\ (forall pre post m q c0 c1,
        let c := pre ++ JMP_code h instr ++ post in
        opcode instr = OpCode.JMPC ->
        rip m = List.length pre ->
        find_label dest c = Some q ->
        gprs m (gpr_of COND0) = Z.b2z c0 -> gprs m (gpr_of COND1) = Z.b2z c1 ->
        exists m',
          run (List.length (JMP_code h instr)) c m = Some m'
          /\ rip m' = (if flow_condition instr c0 c1 then q
                       else (List.length pre + List.length (JMP_code h instr))%nat)
          /\ xmem m' = xmem m /\ xmms m' = xmms m)
  /\ (forall pre post m q,
        let c := pre ++ JMP_code h instr ++ post in
        let u := bmem m (ea m (at_ SETUP (GetBoolUniformOffset h
                                            (flow_control.bool_uniform_id instr)))) in
        opcode instr = OpCode.JMPU ->
        rip m = List.length pre ->
        find_label dest c = Some q ->
        0 <= u < 256 ->
        exists m',
          run (List.length (JMP_code h instr)) c m = Some m'
          /\ rip m' = (if Bool.eqb (negb (u =? 0))
                             (Z.land (flow_control.num_instructions instr) 1 =? 0)
                       then q
                       else (List.length pre + List.length (JMP_code h instr))%nat)
          /\ xmem m' = xmem m /\ xmms m' = xmms m /\ gprs m' = gprs m).
Proof.
  intros dest len. split; [|split; [|split; [|split]]].
  - intros N1 N2 s. unfold Compile_JMP.
    apply Z.eqb_neq in N1, N2. rewrite N1, N2. reflexivity.
  - apply Compile_JMP_emits.
  - intros O R s. now apply Compile_JMP_outside.
  - intros pre post m q c0 c1 c O P Fl C0 C1.
    assert (I : JMP_inverted instr = false).
    { unfold JMP_inverted. rewrite O. reflexivity. }
    assert (Jc : JMP_condition h instr = EvaluateCondition_code instr).
    { unfold JMP_condition. rewrite O. reflexivity. }
    destruct (EvaluateCondition_code_runs instr m c0 c1 C0 C1)
      as (mc & Ec & Zf & _ & M & _ & _ & _ & X).
    pose proof (conditional_jump_runs (JMP_condition h instr) false dest pre post m mc q
                  (JMP_condition_sequential h instr) P
                  ltac:(rewrite Jc; exact Ec)) as R.
    cbv zeta in R.
    assert (Jq : JMP_code h instr = JMP_condition h instr ++ [jnz dest]).
    { unfold JMP_code. cbv zeta. now rewrite I. }
    subst c. rewrite Jq in Fl |- *. specialize (R Fl).
    eexists. rewrite length_app. cbn [List.length]. split; [exact R|].
    cbn [rip set_rip xmem xmms]. rewrite Zf.
    destruct (flow_condition instr c0 c1); cbn [negb Bool.eqb];
      (split; [lia || reflexivity | auto]).
  - intros pre post m q c u O P Fl Ru.
    assert (Jc : JMP_condition h instr = UniformCondition_code h instr).
    { unfold JMP_condition. rewrite O. reflexivity. }
    pose proof (UniformCondition_code_runs h instr m Ru) as Ec. fold u in Ec.
    pose proof (conditional_jump_runs (JMP_condition h instr) (JMP_inverted instr) dest
                  pre post m _ q (JMP_condition_sequential h instr) P
                  ltac:(rewrite Jc; exact Ec)) as R.
    cbv zeta in R. subst c. unfold JMP_code in Fl |- *. cbv zeta in Fl |- *.
    fold dest in Fl |- *. specialize (R Fl).
    eexists. rewrite length_app. cbn [List.length]. split; [exact R|].
    cbn [rip set_rip xmem xmms gprs set_ZF ZF].
    split; [|auto].
    unfold JMP_inverted. rewrite O. cbn [Z.eqb Pos.eqb OpCode.JMPU andb].
    destruct (u =? 0), (Z.land (flow_control.num_instructions instr) 1 =? 0);
      cbn [negb Bool.eqb]; lia || reflexivity.
Qed.

Lemma JMP_jumps_when_its_condition_holds_witness :
  let h := example_host in
  let instr := flow_word OpCode.JMPC 2 0 in
  let pre := prologue h ++ [L (instruction_labels 0)] in
  let post := [L (instruction_labels 1); L (instruction_labels 2);
               ABI_PopRegistersAndAdjustStack ABI_ALL_CALLEE_SAVED 8; ret] in
  let c := pre ++ JMP_code h instr ++ post in
  let m := set_rip 12 example_machine in
  (exists s', Compile h jmp_setup 4 JitShader_new = Done (tt, s') /\ code s' = c)
  /\ Emits (Compile_JMP h jmp_setup instr) (JMP_code h instr)
  /\ Compile_JMP h jmp_setup (flow_word OpCode.JMPC 2000 0) JitShader_new = Undefined
  /\ opcode instr = OpCode.JMPC
  /\ rip m = List.length pre
  /\ find_label (instruction_labels (flow_control.dest_offset instr)) c = Some 19%nat
  /\ gprs m (gpr_of COND0) = Z.b2z false /\ gprs m (gpr_of COND1) = Z.b2z false
  /\ flow_condition instr false false = true
  /\ exists m',
       run (List.length (JMP_code h instr)) c m = Some m'
       /\ rip m' = 19%nat.
Proof.
  intros h instr pre post c m.
  split; [eexists; split; [vm_compute; reflexivity | reflexivity]|].
  destruct (JMP_jumps_when_its_condition_holds h jmp_setup instr)
    as (_ & E & _ & A & _).
  destruct (JMP_jumps_when_its_condition_holds h jmp_setup
              (flow_word OpCode.JMPC 2000 0)) as (_ & _ & U & _).
  split; [apply E; [now left | vm_compute; split; [discriminate | reflexivity]]|].
  split; [apply U; [now left | vm_compute; intros [_ C]; discriminate C]|].
  split; [reflexivity|]. split; [reflexivity|]. split; [reflexivity|].
  split; [reflexivity|]. split; [reflexivity|]. split; [reflexivity|].
  destruct (A pre post m 19%nat false false eq_refl eq_refl eq_refl eq_refl eq_refl)
    as (m' & R & P & _).
  exists m'. split; [exact R | exact P].
Defined.


(** ** IF *)

Lemma IF_condition_sequential h instr :
  forallb sequential (IF_condition h instr) = true
  /\ forallb no_label (IF_condition h instr) = true.
Proof.
  unfold IF_condition. destruct (opcode instr =? OpCode.IFU); [split; reflexivity|].
  destruct (opcode instr =? OpCode.IFC); [|split; reflexivity].
  split; [apply (keeps_sequential [RSP])|]; apply EvaluateCondition_code_keeps.
Qed.

Lemma Compile_IF_emits h vs fuel instr s s' :
  flow_control.dest_offset instr >= program_counter s ->
  Compile_IF h (Compile_Block h vs fuel) instr s = Done (tt, s') ->
  exists thenb elseb,
    code s' = code s ++ IF_code h instr (local_label (label_id s))
                          (local_label (S (label_id s))) thenb elseb.
Proof.
  intros F E. rewrite Compile_IF_unfolded in E. unfold bind in E.
  destruct (Compile_Block h vs fuel _ (IF_entry h instr s)) as [[[] s1]| | |] eqn:B;
    try discriminate E.
  destruct (Steady_Compile_Block h vs fuel _ _ _ _ B) as [[thenb Ct] _].
  assert (C1 : code s1 = code s ++ (IF_condition h instr ++ [jz (local_label (label_id s))])
                          ++ thenb).
  { rewrite Ct. unfold IF_entry, IF_checks. cbn [code].
    replace (flow_control.dest_offset instr >=? program_counter s) with true
      by (symmetry; rewrite Z.geb_leb; apply Z.leb_le; lia).
    cbn [app]. now rewrite <- !app_assoc. }
  unfold IF_after in E. unfold IF_code, IF_else.
  destruct (flow_control.num_instructions instr =? 0).
  - exists thenb, []. unfold emit in E. injection E as <-. cbn [code append_code].
    rewrite C1, <- !app_assoc. reflexivity.
  - unfold bind, emit in E.
    match type of E with context [Compile_Block h vs fuel ?e ?st] =>
      destruct (Compile_Block h vs fuel e st) as [[[] s2]| | |] eqn:B2; try discriminate E;
      destruct (Steady_Compile_Block h vs fuel _ _ _ _ B2) as [[elseb Ce] _]
    end.
    exists thenb, elseb. injection E as <-. cbn [code append_code] in *.
    rewrite Ce, C1, <- !app_assoc. reflexivity.
Qed.

(** A sequential block in the middle of the code buffer, entered at its
    start. *)
Lemma run_block_at blk pre post c m m' p :
  c = pre ++ blk ++ post ->
  forallb sequential blk = true ->
  p = List.length pre ->
  exec_block blk m = Some m' ->
  run (List.length blk) c (set_rip p m) = Some (set_rip (p + List.length blk) m').
Proof.
  intros -> Sq -> E.
  destruct (run_block blk pre post (set_rip (List.length pre) m)
              (set_rip (List.length pre) m') Sq eq_refl) as [R _].
  { rewrite exec_block_set_rip, E. reflexivity. }
  cbv zeta in R. rewrite R. destruct m'; reflexivity.
Qed.

Lemma set_rip_rip m : set_rip (rip m) m = m.
Proof. destruct m; reflexivity. Qed.

Lemma step_jmp c pre l post m q :
  c = pre ++ jmp l :: post -> rip m = List.length pre ->
  find_label l c = Some q -> step c m = Some (set_rip q m).
Proof.
  intros C P F. rewrite (step_at c m (jmp l)).
  - unfold goto. now rewrite F.
  - rewrite P, C. apply nth_error_at.
Qed.

Lemma find_label_here l pre post :
  find_label l pre = None -> find_label l (pre ++ L l :: post) = Some (List.length pre).
Proof.
  intros F. rewrite find_label_app, F. cbn. rewrite Label_eqb_refl. cbn.
  f_equal. lia.
Qed.

Lemma find_label_app_None l a b :
  find_label l a = None -> find_label l b = None -> find_label l (a ++ b) = None.
Proof. intros A B. rewrite find_label_app, A, B. reflexivity. Qed.

Lemma find_label_other l i :
  i <> L l -> find_label l [i] = None.
Proof.
  intros N. destruct i; try reflexivity. cbn.
  destruct (Label_eqb l l0) eqn:E; [|reflexivity].
  exfalso. apply N. f_equal. destruct l, l0; cbn in E; try discriminate.
  - apply Z.eqb_eq in E. now subst.
  - apply Nat.eqb_eq in E. now subst.
Qed.

Lemma exec_block_labelled l l' blk m :
  exec_block ([L l] ++ blk ++ [L l']) m = exec_block blk m.
Proof.
  cbn [app exec_block exec]. rewrite exec_block_app.
  destruct (exec_block blk m); reflexivity.
Qed.

Ltac list_eq :=
  cbv beta iota; repeat (rewrite <- app_assoc || (progress cbn [app])); reflexivity.

(** The two ways through the code of an IF whose blocks are sequential. *)
Lemma IF_code_runs cond l_else l_endif thenb elseb (has_else : bool) pre post m mc :
  let tail := if has_else then [jmp l_endif; L l_else] ++ elseb ++ [L l_endif]
              else [L l_else] in
  let body := (cond ++ [jz l_else]) ++ thenb ++ tail in
  let c := pre ++ body ++ post in
  let finish := (List.length pre + List.length body)%nat in
  forallb sequential cond = true -> forallb no_label cond = true ->
  forallb sequential thenb = true -> forallb sequential elseb = true ->
  rip m = List.length pre ->
  exec_block cond m = Some mc ->
  find_label l_else pre = None -> find_label l_else thenb = None ->
  find_label l_endif pre = None -> find_label l_endif thenb = None ->
  find_label l_endif elseb = None -> l_else <> l_endif ->
  (ZF mc = false ->
   exists mt,
     exec_block thenb mc = Some mt
     /\ run (List.length cond + 1 + List.length thenb + (if has_else then 2 else 1)) c m
        = Some (set_rip finish mt))
  /\ (ZF mc = true ->
      exists me,
        exec_block (if has_else then elseb else []) mc = Some me
        /\ run (List.length cond + 2 + (if has_else then List.length elseb + 1 else 0)) c m
           = Some (set_rip finish me)).
Proof.
  intros tail body c finish Sc Nc St Se P Ec Fe1 Fe2 Fi1 Fi2 Fi3 D.
  set (P1 := (List.length pre + List.length cond)%nat).
  set (P2 := (P1 + 1 + List.length thenb)%nat).
  assert (Lt : List.length tail = if has_else then (List.length elseb + 3)%nat else 1%nat).
  { unfold tail. destruct has_else; [|reflexivity].
    rewrite !length_app. cbn. lia. }
  assert (Lf : finish = (P2 + List.length tail)%nat).
  { unfold finish, body, P2, P1. rewrite !length_app. cbn. lia. }
  assert (C0 : c = pre ++ (cond ++ [jz l_else]) ++ (thenb ++ tail ++ post)).
  { unfold c, body. list_eq. }
  assert (C1 : c = (pre ++ cond ++ [jz l_else]) ++ thenb ++ (tail ++ post)).
  { rewrite C0. list_eq. }
  assert (L1 : List.length (pre ++ cond ++ [jz l_else]) = (P1 + 1)%nat).
  { rewrite !length_app. cbn. unfold P1. lia. }
  assert (Fz : find_label l_else (pre ++ cond ++ [jz l_else]) = None).
  { apply find_label_app_None; [exact Fe1|].
    apply find_label_app_None; [now apply find_label_no_label | reflexivity]. }
  assert (Fy : find_label l_endif (pre ++ cond ++ [jz l_else]) = None).
  { apply find_label_app_None; [exact Fi1|].
    apply find_label_app_None; [now apply find_label_no_label | reflexivity]. }
  set (q := if has_else then (P2 + 1)%nat else P2).
  assert (Fq : find_label l_else c = Some q).
  { unfold q. destruct has_else.
    - assert (Cq : c = (((pre ++ cond ++ [jz l_else]) ++ thenb) ++ [jmp l_endif])
                       ++ L l_else :: (elseb ++ [L l_endif] ++ post)).
      { rewrite C1. unfold tail. list_eq. }
      rewrite Cq, find_label_here.
      + f_equal. rewrite !length_app. cbn. unfold P2, P1. lia.
      + apply find_label_app_None; [|reflexivity].
        apply find_label_app_None; assumption.
    - assert (Cq : c = ((pre ++ cond ++ [jz l_else]) ++ thenb) ++ L l_else :: post).
      { rewrite C1. unfold tail. list_eq. }
      rewrite Cq, find_label_here.
      + f_equal. rewrite !length_app. cbn. unfold P2, P1. lia.
      + apply find_label_app_None; assumption. }
  pose proof (conditional_jump_runs cond true l_else pre (thenb ++ tail ++ post) m mc q
                Sc P Ec) as Rc.
  cbv beta iota zeta in Rc. rewrite <- C0 in Rc. specialize (Rc Fq). fold P1 in Rc.
  split; intros Zf; rewrite Zf in Rc; cbn [Bool.eqb] in Rc.
  - destruct (exec_block_total thenb mc St) as [mt Et]. exists mt. split; [exact Et|].
    pose proof (run_block_at thenb _ _ c mc mt (P1 + 1)%nat C1 St (eq_sym L1) Et) as Rt.
    fold P2 in Rt.
    replace (List.length cond + 1 + List.length thenb + (if has_else then 2 else 1))%nat
      with ((List.length cond + 1) + (List.length thenb + (if has_else then 2 else 1)))%nat
      by lia.
    rewrite run_add, Rc, run_add, Rt.
    destruct has_else.
    + set (P3 := (P2 + 2 + List.length elseb)%nat).
      assert (C2 : c = ((pre ++ cond ++ [jz l_else]) ++ thenb)
                       ++ jmp l_endif :: (L l_else :: elseb ++ [L l_endif]) ++ post).
      { rewrite C1. unfold tail. list_eq. }
      assert (C3 : c = (((pre ++ cond ++ [jz l_else]) ++ thenb)
                        ++ [jmp l_endif; L l_else] ++ elseb)
                       ++ L l_endif :: post).
      { rewrite C1. unfold tail. list_eq. }
      assert (L3 : List.length (((pre ++ cond ++ [jz l_else]) ++ thenb)
                                ++ [jmp l_endif; L l_else] ++ elseb) = P3).
      { rewrite !length_app. cbn. unfold P3, P2, P1. lia. }
      assert (Fd : find_label l_endif c = Some P3).
      { rewrite C3. rewrite find_label_here; [now rewrite L3|].
        apply find_label_app_None; [apply find_label_app_None; assumption|].
        apply find_label_app_None; [|assumption].
        cbn. destruct (Label_eqb l_endif l_else) eqn:Q; [|reflexivity].
        exfalso. apply D. destruct l_else, l_endif; cbn in Q; try discriminate.
        - apply Z.eqb_eq in Q. now subst.
        - apply Nat.eqb_eq in Q. now subst. }
      assert (Sj : step c (set_rip P2 mt) = Some (set_rip P3 mt)).
      { rewrite (step_jmp c _ l_endif _ (set_rip P2 mt) P3 C2 ltac:(cbn; rewrite !length_app; cbn; unfold P2, P1; lia) Fd).
        reflexivity. }
      change 2%nat with (1 + 1)%nat. rewrite run_add. cbn [run]. rewrite Sj.
      pose proof (run_block_at [L l_endif] _ post c mt mt P3 C3 eq_refl (eq_sym L3) eq_refl)
        as Rl.
      cbn [List.length run] in Rl. cbn [run]. rewrite Rl.
      do 2 f_equal. rewrite Lf, Lt. unfold P3. lia.
    + assert (C2 : c = ((pre ++ cond ++ [jz l_else]) ++ thenb) ++ [L l_else] ++ post).
      { rewrite C1. unfold tail. list_eq. }
      pose proof (run_block_at [L l_else] _ post c mt mt P2 C2 eq_refl
                    ltac:(rewrite !length_app; cbn; unfold P2, P1; lia) eq_refl) as Rl.
      cbn [List.length] in Rl. rewrite Rl.
      do 2 f_equal. rewrite Lf, Lt. lia.
  - unfold q in Rc. destruct has_else.
    + destruct (exec_block_total elseb mc Se) as [me Ee]. exists me. split; [exact Ee|].
      assert (C2 : c = (((pre ++ cond ++ [jz l_else]) ++ thenb) ++ [jmp l_endif])
                       ++ ([L l_else] ++ elseb ++ [L l_endif]) ++ post).
      { rewrite C1. unfold tail. list_eq. }
      assert (Sq : forallb sequential ([L l_else] ++ elseb ++ [L l_endif]) = true).
      { rewrite !forallb_app, Se. reflexivity. }
      pose proof (run_block_at _ _ post c mc me (P2 + 1)%nat C2 Sq
                    ltac:(rewrite !length_app; cbn; unfold P2, P1; lia)
                    ltac:(rewrite exec_block_labelled; exact Ee)) as Rl.
      replace (List.length cond + 2 + (List.length elseb + 1))%nat
        with ((List.length cond + 1)
              + List.length ([L l_else] ++ elseb ++ [L l_endif]))%nat
        by (rewrite !length_app; cbn; lia).
      rewrite run_add, Rc, Rl. do 2 f_equal. rewrite Lf, Lt, !length_app. cbn. lia.
    + exists mc. split; [reflexivity|].
      assert (C2 : c = ((pre ++ cond ++ [jz l_else]) ++ thenb) ++ [L l_else] ++ post).
      { rewrite C1. unfold tail. list_eq. }
      pose proof (run_block_at [L l_else] _ post c mc mc P2 C2 eq_refl
                    ltac:(rewrite !length_app; cbn; unfold P2, P1; lia) eq_refl) as Rl.
      cbn [List.length] in Rl.
      replace (List.length cond + 2 + 0)%nat with ((List.length cond + 1) + 1)%nat by lia.
      rewrite run_add, Rc, Rl. do 2 f_equal. rewrite Lf, Lt. lia.
Qed.




(** ** Labels of the generated code *)


(** ** Labels *)

Lemma labels_of_app c1 c2 : labels_of (c1 ++ c2) = labels_of c1 ++ labels_of c2.
Proof. apply flat_map_app. Qed.

Lemma labels_of_plain c : forallb plain_insn c = true -> labels_of c = [].
Proof.
  induction c as [|i c IH]; [reflexivity|]. cbn [forallb]. intros H.
  apply andb_true_iff in H. destruct H as [Hi H].
  change (labels_of (i :: c))
    with ((match i with L l => [l] | _ => [] end) ++ labels_of c).
  rewrite (IH H). destruct i; try reflexivity. discriminate.
Qed.

Lemma local_targets_app c1 c2 :
  local_targets (c1 ++ c2) = local_targets c1 ++ local_targets c2.
Proof. apply flat_map_app. Qed.

Lemma local_targets_plain c : forallb plain_insn c = true -> local_targets c = [].
Proof.
  induction c as [|i c IH]; [reflexivity|]. cbn [forallb]. intros H.
  apply andb_true_iff in H. destruct H as [Hi H].
  change (local_targets (i :: c))
    with ((match target i with Some (local_label id) => [id] | _ => [] end)
          ++ local_targets c).
  rewrite (IH H). destruct i; try reflexivity; destruct l; try reflexivity; discriminate.
Qed.

Lemma labels_of_no_label c : forallb no_label c = true -> labels_of c = [].
Proof.
  induction c as [|i c IH]; [reflexivity|]. cbn [forallb]. intros H.
  apply andb_true_iff in H. destruct H as [Hi H].
  change (labels_of (i :: c))
    with ((match i with L l => [l] | _ => [] end) ++ labels_of c).
  rewrite (IH H). destruct i; try reflexivity. discriminate.
Qed.

Lemma Closed_plain c : forallb plain_insn c = true -> Closed c.
Proof. intros H id I. rewrite (local_targets_plain c H) in I. destruct I. Qed.

Lemma Closed_app c1 c2 : Closed c1 -> Closed c2 -> Closed (c1 ++ c2).
Proof.
  intros H1 H2 id I. rewrite labels_of_app. apply in_or_app.
  rewrite local_targets_app in I.
  apply in_app_or in I. destruct I as [I|I]; [left; eauto | right; eauto].
Qed.

Lemma Bound_plain p R c : forallb plain_insn c = true -> Bound p p R c.
Proof.
  intros H. unfold Bound. rewrite (labels_of_plain c H).
  split; [constructor|]. split; [|intros id []].
  intros q. split; [intros [] | lia].
Qed.

Lemma Bound_weaken p p' (R R' : nat -> Prop) c :
  (forall id, R id -> R' id) -> Bound p p' R c -> Bound p p' R' c.
Proof. intros W (N & I & Lc). repeat split; try apply I; auto. Qed.

Lemma NoDup_app_intro {A} (l1 l2 : list A) :
  NoDup l1 -> NoDup l2 -> (forall x, In x l1 -> In x l2 -> False) -> NoDup (l1 ++ l2).
Proof.
  induction l1 as [|a l1 IH]; intros N1 N2 D; [exact N2|].
  inversion N1 as [|? ? Na N1']; subst. cbn. constructor.
  - intros I. apply in_app_or in I. destruct I as [I|I]; [contradiction|].
    apply (D a); [now left | exact I].
  - apply IH; try assumption. intros x I1 I2. apply (D x); [now right | exact I2].
Qed.

Lemma Bound_app p p1 p2 (R1 R2 : nat -> Prop) c1 c2 :
  p <= p1 -> p1 <= p2 ->
  (forall id, R1 id -> R2 id -> False) ->
  Bound p p1 R1 c1 -> Bound p1 p2 R2 c2 ->
  Bound p p2 (fun id => R1 id \/ R2 id) (c1 ++ c2).
Proof.
  intros L1 L2 D (N1 & I1 & Q1) (N2 & I2 & Q2). unfold Bound.
  rewrite labels_of_app. split; [|split].
  - apply NoDup_app_intro; try assumption.
    intros [q|id] A B.
    + apply I1 in A. apply I2 in B. lia.
    + apply (D id); auto.
  - intros q. rewrite in_app_iff, I1, I2. lia.
  - intros id I. apply in_app_or in I. destruct I; auto.
Qed.

(** ** Plain member functions *)

Lemma Plain_pure {A} (x : A) : Plain (pure x).
Proof. intros s. cbn. exists []. now rewrite append_code_nil. Qed.

Lemma Plain_skip : Plain skip.
Proof. apply Plain_pure. Qed.

Lemma Plain_emit i : plain_insn i = true -> Plain (emit i).
Proof. intros H s. cbn. exists [i]. cbn. now rewrite H. Qed.

Lemma Plain_ASSERT_MSG c msg : Plain (ASSERT_MSG c msg).
Proof.
  intros s. unfold ASSERT_MSG. destruct c; [|exact I].
  exists []. now rewrite append_code_nil.
Qed.

Lemma Plain_UNREACHABLE : Plain UNREACHABLE.
Proof. intros s. exact I. Qed.

Lemma Plain_cmp_lookup op : Plain (cmp_lookup op).
Proof.
  intros s. unfold cmp_lookup. destruct (nth_error cmp_table (Z.to_nat op)); [|exact I].
  exists []. now rewrite append_code_nil.
Qed.

Lemma Plain_bind {A B} (a : Jit A) (f : A -> Jit B) :
  Plain a -> (forall x, Plain (f x)) -> Plain (bind a f).
Proof.
  intros Ha Hf s. unfold bind. specialize (Ha s).
  destruct (a s) as [[x s1]| | |]; try exact I; [|contradiction].
  destruct Ha as (c1 & -> & P1). specialize (Hf x (append_code c1 s)).
  destruct (f x (append_code c1 s)) as [[y s2]| | |]; try exact I; [|contradiction].
  destruct Hf as (c2 & -> & P2). exists (c1 ++ c2).
  rewrite append_code_app, forallb_app, P1, P2. auto.
Qed.

Lemma Plain_instruction_labels_at {B} vs offset (g : Label -> Jit B) :
  Plain (g (instruction_labels offset)) ->
  Plain (bind (instruction_labels_at vs offset) g).
Proof.
  intros H s. unfold bind, instruction_labels_at.
  destruct (_ && _); [apply H | exact I].
Qed.

Create HintDb plain.

#[local] Hint Resolve Plain_pure Plain_skip Plain_ASSERT_MSG Plain_UNREACHABLE
  Plain_cmp_lookup : plain.

(** Descends through binds, conditionals and matches. *)
Ltac plain :=
  repeat first
    [ solve [auto with plain]
    | (apply Plain_emit; reflexivity)
    | apply Plain_instruction_labels_at
    | apply Plain_bind; [|intros ?]
    | match goal with
      | |- Plain (if ?b then _ else _) => destruct b
      | |- Plain (match ?x with _ => _ end) => destruct x
      | |- Plain (let _ := _ in _) => cbv zeta
      end ].

Lemma Plain_Compile_Assert h c msg : Plain (Compile_Assert h c msg).
Proof. unfold Compile_Assert. plain. Qed.

Lemma Plain_Compile_SwizzleSrc h vs instr n r d :
  Plain (Compile_SwizzleSrc h vs instr n r d).
Proof. unfold Compile_SwizzleSrc. plain. Qed.

Lemma Plain_Compile_DestEnable h vs instr src :
  Plain (Compile_DestEnable h vs instr src).
Proof. unfold Compile_DestEnable. plain. Qed.

Lemma Plain_Compile_SanitizedMul a b c : Plain (Compile_SanitizedMul a b c).
Proof. unfold Compile_SanitizedMul. plain. Qed.

Lemma Plain_Compile_EvaluateCondition instr : Plain (Compile_EvaluateCondition instr).
Proof. unfold Compile_EvaluateCondition. plain. Qed.

Lemma Plain_Compile_UniformCondition h instr : Plain (Compile_UniformCondition h instr).
Proof. unfold Compile_UniformCondition. plain. Qed.

Lemma Plain_Compile_CALL vs instr : Plain (Compile_CALL vs instr).
Proof. unfold Compile_CALL. plain. Qed.

#[local] Hint Resolve Plain_Compile_Assert Plain_Compile_SwizzleSrc
  Plain_Compile_DestEnable Plain_Compile_SanitizedMul
  Plain_Compile_EvaluateCondition Plain_Compile_UniformCondition
  Plain_Compile_CALL : plain.


(** ** The invariant of the compiler *)

Lemma Inv_trans len s s1 s2 : Inv len s s1 -> Inv len s1 s2 -> Inv len s s2.
Proof.
  intros (P1 & Q1 & L1 & c1 & C1 & B1 & K1) (P2 & Q2 & L2 & c2 & C2 & B2 & K2).
  split; [lia|]. split; [lia|]. split; [lia|].
  exists (c1 ++ c2). split; [rewrite C2, C1, app_assoc; reflexivity|]. split.
  - refine (Bound_weaken _ _ _ _ _ _
              (Bound_app _ _ _ _ _ c1 c2 P1 P2 _ B1 B2)).
    + cbn. intros id [H|H]; lia.
    + cbn. intros id H1 H2. lia.
  - now apply Closed_app.
Qed.

Lemma Inv_same len s s' :
  program_counter s' = program_counter s -> label_id s' = label_id s ->
  code s' = code s -> Inv len s s'.
Proof.
  intros P Lb C. split; [lia|]. split; [lia|]. split; [lia|].
  exists []. split; [now rewrite app_nil_r|]. split.
  - rewrite P. now apply Bound_plain.
  - now apply Closed_plain.
Qed.

Lemma Inv_plain len s c : forallb plain_insn c = true -> Inv len s (append_code c s).
Proof.
  intros H. split; [cbn; lia|]. split; [cbn; lia|]. split; [cbn; lia|].
  exists c. split; [reflexivity|]. split.
  - now apply Bound_plain.
  - now apply Closed_plain.
Qed.

Lemma Sound_Plain len f {A} (a : Jit A) : Plain a -> Sound len f a.
Proof.
  intros H. split.
  - intros s _ E. specialize (H s). now rewrite E in H.
  - intros s x s' E. specialize (H s). rewrite E in H.
    destruct H as (c & -> & P). now apply Inv_plain.
Qed.

Lemma remaining_mono len s s' :
  program_counter s <= program_counter s' -> (remaining len s' <= remaining len s)%nat.
Proof. unfold remaining. lia. Qed.

Lemma Sound_bind len f {A B} (a : Jit A) (g : A -> Jit B) :
  Sound len f a -> (forall x, Sound len f (g x)) -> Sound len f (bind a g).
Proof.
  intros [Oa Ia] Hg. split.
  - intros s R. unfold bind. specialize (Oa s R).
    destruct (a s) as [[x s1]| | |] eqn:E; try discriminate; [|contradiction].
    apply (proj1 (Hg x)). pose proof (Ia _ _ _ E) as (P & _).
    pose proof (remaining_mono len s s1 P). lia.
  - intros s y s' E. unfold bind in E.
    destruct (a s) as [[x s1]| | |] eqn:Ea; try discriminate.
    exact (Inv_trans _ _ _ _ (Ia _ _ _ Ea) (proj2 (Hg x) _ _ _ E)).
Qed.

(** A piece that binds one local label [b], and refers to it at most. *)
Lemma Bound_one_label p l c :
  labels_of c = [local_label l] ->
  Bound p p (fun id => (l <= id < S l)%nat) c.
Proof.
  intros E. unfold Bound. rewrite E. split; [|split].
  - constructor; [intros [] | constructor].
  - intros q. split; [intros [H|[]]; discriminate H | lia].
  - intros id [H|[]]. injection H as <-. lia.
Qed.

Lemma Inv_one_label len s s' c :
  program_counter s' = program_counter s -> label_id s' = S (label_id s) ->
  code s' = code s ++ c ->
  labels_of c = [local_label (label_id s)] ->
  (forall id, In id (local_targets c) -> id = label_id s) ->
  Inv len s s'.
Proof.
  intros P Lb C E T. split; [lia|]. split; [lia|]. split; [lia|].
  exists c. split; [exact C|]. split.
  - rewrite P, Lb. now apply Bound_one_label.
  - intros id I. rewrite (T id I), E. now left.
Qed.

Lemma EvaluateCondition_code_plain instr :
  forallb plain_insn (EvaluateCondition_code instr) = true.
Proof.
  unfold EvaluateCondition_code. cbv zeta.
  destruct (flow_control.op instr =? Or); [reflexivity|].
  destruct (flow_control.op instr =? And); [reflexivity|].
  destruct (flow_control.op instr =? JustX); [reflexivity|].
  destruct (flow_control.op instr =? JustY); reflexivity.
Qed.

Lemma Sound_Compile_CALLC len f vs instr : Sound len f (Compile_CALLC vs instr).
Proof.
  destruct (in_table_dec (flow_control.dest_offset instr)
              (Z.of_nat (List.length (program_code vs)))) as [R|R];
    [|split; intros s; rewrite Compile_CALLC_outside by exact R; discriminate].
  split; intros s; rewrite Compile_CALLC_unfolded by exact R; [discriminate|].
  intros x s' E. injection E as <- <-.
  pose proof (EvaluateCondition_code_plain instr) as Pc.
  apply (Inv_one_label _ _ _ (CALLC_code instr (local_label (label_id s))));
    try reflexivity; unfold CALLC_code.
  - rewrite labels_of_app, (labels_of_plain _ Pc). reflexivity.
  - intros id. rewrite local_targets_app, (local_targets_plain _ Pc).
    cbn. intros [H|[]]. now subst.
Qed.

Lemma Sound_Compile_CALLU len f h vs instr : Sound len f (Compile_CALLU h vs instr).
Proof.
  destruct (in_table_dec (flow_control.dest_offset instr)
              (Z.of_nat (List.length (program_code vs)))) as [R|R];
    [|split; intros s; rewrite Compile_CALLU_outside by exact R; discriminate].
  split; intros s; rewrite Compile_CALLU_unfolded by exact R; [discriminate|].
  intros x s' E. injection E as <- <-.
  apply (Inv_one_label _ _ _ (CALLU_code h instr (local_label (label_id s))));
    try reflexivity.
  cbn. intros id [H|[]]. now subst.
Qed.

Lemma checks_plain h instr s :
  forallb plain_insn (LOOP_checks h instr s) = true
  /\ forallb plain_insn (IF_checks h instr s) = true.
Proof.
  unfold LOOP_checks, IF_checks.
  destruct (flow_control.dest_offset instr >=? program_counter s), (looping s);
    split; reflexivity.
Qed.

Lemma IF_condition_plain h instr : forallb plain_insn (IF_condition h instr) = true.
Proof.
  unfold IF_condition. destruct (opcode instr =? OpCode.IFU); [reflexivity|].
  destruct (opcode instr =? OpCode.IFC); [apply EvaluateCondition_code_plain | reflexivity].
Qed.


Lemma Bound_no_label p R c : forallb no_label c = true -> Bound p p R c.
Proof.
  intros H. unfold Bound. rewrite (labels_of_no_label c H).
  split; [constructor|]. split; [|intros id []].
  intros q. split; [intros [] | lia].
Qed.

Lemma Sound_Compile_LOOP len f h block instr :
  (forall e, Sound len f (block e)) -> Sound len f (Compile_LOOP h block instr).
Proof.
  intros Hb. split.
  - intros s R. rewrite Compile_LOOP_unfolded. unfold bind.
    pose proof (proj1 (Hb (flow_control.dest_offset instr + 1)) (LOOP_entry h instr s) R)
      as O.
    destruct (block _ (LOOP_entry h instr s)) as [[[] s1]| | |]; try discriminate.
    contradiction.
  - intros s x s' E. rewrite Compile_LOOP_unfolded in E. unfold bind at 1 in E.
    destruct (block _ (LOOP_entry h instr s)) as [[[] s1]| | |] eqn:B; try discriminate.
    destruct (proj2 (Hb _) _ _ _ B) as (P1 & Q1 & L1 & T & C1 & B1 & K1).
    cbn [LOOP_entry program_counter label_id code] in P1, Q1, L1, C1, B1.
    unfold LOOP_after, bind, emit, set_looping in E. injection E as Es; subst s'.
    unfold Inv. cbn [program_counter label_id code append_code].
    set (l := label_id s) in *.
    set (head := LOOP_checks h instr s ++ LOOP_head h instr (local_label l)) in *.
    assert (Lh : labels_of head = [local_label l]).
    { unfold head. rewrite labels_of_app,
        (labels_of_plain _ (proj1 (checks_plain h instr s))). reflexivity. }
    assert (Th : local_targets head = []).
    { unfold head. rewrite local_targets_app,
        (local_targets_plain _ (proj1 (checks_plain h instr s))). reflexivity. }
    split; [lia|]. split; [lia|]. split; [lia|].
    exists (head ++ T ++ LOOP_tail (local_label l)).
    split; [rewrite C1; unfold head; now rewrite <- !app_assoc|]. split.
    + refine (Bound_weaken _ _ _ _ _ _
                (Bound_app _ _ _ _ _ head (T ++ LOOP_tail (local_label l))
                   (Z.le_refl _) P1 _ (Bound_one_label _ l head Lh)
                   (Bound_app _ _ _ _ (fun _ => False) T (LOOP_tail (local_label l))
                      P1 (Z.le_refl _) _ B1
                      (Bound_no_label _ _ (LOOP_tail (local_label l)) eq_refl)))).
      * cbn. intros id [H|[H|[]]]; lia.
      * cbn. intros id H1 [H2|[]]. lia.
      * cbn. intros id _ [].
    + intros id I. rewrite !local_targets_app, Th in I.
      rewrite !labels_of_app, Lh.
      change (local_targets (LOOP_tail (local_label l))) with [l] in I.
      rewrite !in_app_iff in *. cbn [In] in *.
      destruct I as [[]|[I|[<-|[]]]]; auto.
Qed.

Lemma Label_eqb_eq a b : Label_eqb a b = true -> a = b.
Proof.
  destruct a, b; cbn; try discriminate; intros H.
  - apply Z.eqb_eq in H. now subst.
  - apply Nat.eqb_eq in H. now subst.
Qed.

Lemma Sound_Compile_IF len f h block instr :
  (forall e, Sound len f (block e)) -> Sound len f (Compile_IF h block instr).
Proof.
  intros Hb. split.
  - intros s R. rewrite Compile_IF_unfolded. unfold bind at 1.
    pose proof (proj1 (Hb (flow_control.dest_offset instr)) (IF_entry h instr s) R) as O.
    destruct (block _ (IF_entry h instr s)) as [[[] s1]| | |] eqn:B;
      try discriminate; [|contradiction].
    destruct (proj2 (Hb _) _ _ _ B) as (P1 & _).
    cbn [IF_entry program_counter] in P1.
    unfold IF_after. destruct (flow_control.num_instructions instr =? 0); [discriminate|].
    unfold bind, emit.
    match goal with |- context [block ?e ?st] =>
      pose proof (proj1 (Hb e) st) as O2; destruct (block e st) as [[[] s2]| | |]
    end; try discriminate.
    apply O2. cbn. unfold remaining in *. cbn. lia.
  - intros s x s' E. rewrite Compile_IF_unfolded in E. unfold bind at 1 in E.
    destruct (block _ (IF_entry h instr s)) as [[[] s1]| | |] eqn:B; try discriminate.
    destruct (proj2 (Hb _) _ _ _ B) as (P1 & Q1 & L1 & T & C1 & B1 & K1).
    cbn [IF_entry program_counter label_id code] in P1, Q1, L1, C1, B1.
    set (l := label_id s) in *.
    set (head := IF_checks h instr s ++ IF_condition h instr ++ [jz (local_label l)]) in *.
    assert (Lh : forallb no_label head = true).
    { unfold head. rewrite !forallb_app.
      assert (N : forall c, forallb plain_insn c = true -> forallb no_label c = true).
      { intros c H. rewrite forallb_forall in *. intros i I. specialize (H i I).
        destruct i; try reflexivity. discriminate. }
      rewrite (N _ (proj2 (checks_plain h instr s))), (N _ (IF_condition_plain h instr)).
      reflexivity. }
    assert (Th : local_targets head = [l]).
    { unfold head. rewrite !local_targets_app,
        (local_targets_plain _ (proj2 (checks_plain h instr s))),
        (local_targets_plain _ (IF_condition_plain h instr)). reflexivity. }
    unfold IF_after in E. destruct (flow_control.num_instructions instr =? 0).
    + unfold emit in E. injection E as Es; subst s'.
      unfold Inv. cbn [program_counter label_id code append_code].
      split; [lia|]. split; [lia|]. split; [lia|].
      exists (head ++ T ++ [L (local_label l)]).
      split; [rewrite C1; unfold head; now rewrite <- !app_assoc|]. split.
      * refine (Bound_weaken _ _ _ _ _ _
                  (Bound_app _ _ _ (fun _ => False) _ head (T ++ [L (local_label l)])
                     (Z.le_refl _) P1 _ (Bound_no_label _ _ head Lh)
                     (Bound_app _ _ _ _ _ T [L (local_label l)]
                        P1 (Z.le_refl _) _ B1 (Bound_one_label _ l [L (local_label l)] eq_refl)))).
        -- cbn. intros id [[]|[H|H]]; lia.
        -- cbn. intros id [].
        -- cbn. intros id H1 H2. lia.
      * intros id I. rewrite !local_targets_app, Th in I.
        rewrite !labels_of_app, (labels_of_no_label _ Lh).
        change (labels_of [L (local_label l)]) with [local_label l].
        change (local_targets [L (local_label l)]) with (@nil nat) in I.
        rewrite !in_app_iff in *. cbn [In] in *.
        destruct I as [[<-|[]]|[I|[]]]; auto.
    + unfold bind, emit in E.
      match type of E with context [block ?e ?st] =>
        destruct (block e st) as [[[] s2]| | |] eqn:B2; try discriminate E;
        destruct (proj2 (Hb _) _ _ _ B2) as (P2 & Q2 & L2 & T2 & C2 & B2' & K2)
      end.
      cbn [program_counter label_id code append_code] in P2, Q2, L2, C2, B2'.
      injection E as Es; subst s'. unfold Inv.
      cbn [program_counter label_id code append_code].
      split; [lia|]. split; [lia|]. split; [lia|].
      set (mid := [jmp (local_label (S l)); L (local_label l)]).
      exists (head ++ T ++ mid ++ T2 ++ [L (local_label (S l))]).
      split.
      { rewrite C2, C1. unfold head, mid. now rewrite <- !app_assoc. }
      assert (Bm : Bound (program_counter s1) (program_counter s1)
                     (fun id => (l <= id < S l)%nat) mid)
        by (apply Bound_one_label; reflexivity).
      split.
      * refine (Bound_weaken _ _ _ _ _ _
                  (Bound_app _ _ _ (fun _ => False) _ head _
                     (Z.le_refl _) (Z.le_trans _ _ _ P1 P2) _ (Bound_no_label _ _ head Lh)
                     (Bound_app _ _ _ _ _ T _ P1 P2 _ B1
                        (Bound_app _ _ _ _ _ mid _ (Z.le_refl _) P2 _ Bm
                           (Bound_app _ _ _ _ _ T2 [L (local_label (S l))]
                              P2 (Z.le_refl _) _ B2'
                              (Bound_one_label _ (S l) [L (local_label (S l))] eq_refl)))))).
        -- cbn. intros id [[]|[H|[H|[H|H]]]]; lia.
        -- cbn. intros id [].
        -- cbn. intros id H1 [H2|[H2|H2]]; lia.
        -- cbn. intros id H1 [H2|H2]; lia.
        -- cbn. intros id H1 H2. lia.
      * intros id I. rewrite !local_targets_app, Th in I.
        rewrite !labels_of_app, (labels_of_no_label _ Lh).
        change (labels_of mid) with [local_label l].
        change (labels_of [L (local_label (S l))]) with [local_label (S l)].
        change (local_targets mid) with [S l] in I.
        change (local_targets [L (local_label (S l))]) with (@nil nat) in I.
        rewrite !in_app_iff in *. cbn [In] in *.
        destruct I as [[<-|[]]|[I|[[<-|[]]|[I|[]]]]]; auto 10.
Qed.


Lemma Plain_Compile_ADD h vs instr : Plain (Compile_ADD h vs instr).
Proof. unfold Compile_ADD. plain. Qed.

Lemma Plain_Compile_DP3 h vs instr : Plain (Compile_DP3 h vs instr).
Proof. unfold Compile_DP3. plain. Qed.

Lemma Plain_Compile_DP4 h vs instr : Plain (Compile_DP4 h vs instr).
Proof. unfold Compile_DP4. plain. Qed.

Lemma Plain_Compile_DPH h vs instr : Plain (Compile_DPH h vs instr).
Proof. unfold Compile_DPH. plain. Qed.

Lemma Plain_Compile_EX2 h vs instr : Plain (Compile_EX2 h vs instr).
Proof. unfold Compile_EX2. plain. Qed.

Lemma Plain_Compile_LG2 h vs instr : Plain (Compile_LG2 h vs instr).
Proof. unfold Compile_LG2. plain. Qed.

Lemma Plain_Compile_MUL h vs instr : Plain (Compile_MUL h vs instr).
Proof. unfold Compile_MUL. plain. Qed.

Lemma Plain_Compile_SGE h vs instr : Plain (Compile_SGE h vs instr).
Proof. unfold Compile_SGE. plain. Qed.

Lemma Plain_Compile_SLT h vs instr : Plain (Compile_SLT h vs instr).
Proof. unfold Compile_SLT. plain. Qed.

Lemma Plain_Compile_FLR h vs instr : Plain (Compile_FLR h vs instr).
Proof. unfold Compile_FLR. plain. Qed.

Lemma Plain_Compile_MAX h vs instr : Plain (Compile_MAX h vs instr).
Proof. unfold Compile_MAX. plain. Qed.

Lemma Plain_Compile_MIN h vs instr : Plain (Compile_MIN h vs instr).
Proof. unfold Compile_MIN. plain. Qed.

Lemma Plain_Compile_RCP h vs instr : Plain (Compile_RCP h vs instr).
Proof. unfold Compile_RCP. plain. Qed.

Lemma Plain_Compile_RSQ h vs instr : Plain (Compile_RSQ h vs instr).
Proof. unfold Compile_RSQ. plain. Qed.

Lemma Plain_Compile_MOVA h vs instr : Plain (Compile_MOVA h vs instr).
Proof. unfold Compile_MOVA. plain. Qed.

Lemma Plain_Compile_MOV h vs instr : Plain (Compile_MOV h vs instr).
Proof. unfold Compile_MOV. plain. Qed.

Lemma Plain_Compile_CMP h vs instr : Plain (Compile_CMP h vs instr).
Proof. unfold Compile_CMP. plain. Qed.

Lemma Plain_Compile_MAD h vs instr : Plain (Compile_MAD h vs instr).
Proof. unfold Compile_MAD. plain. Qed.

Lemma Plain_Compile_JMP h vs instr : Plain (Compile_JMP h vs instr).
Proof. unfold Compile_JMP. plain. Qed.

Lemma Plain_Compile_NOP instr : Plain (Compile_NOP instr).
Proof. unfold Compile_NOP. plain. Qed.

Lemma Plain_Compile_END instr : Plain (Compile_END instr).
Proof. unfold Compile_END. plain. Qed.

#[local] Hint Resolve Plain_Compile_ADD Plain_Compile_DP3 Plain_Compile_DP4 Plain_Compile_DPH Plain_Compile_EX2 Plain_Compile_LG2 Plain_Compile_MUL Plain_Compile_SGE Plain_Compile_SLT Plain_Compile_FLR Plain_Compile_MAX Plain_Compile_MIN Plain_Compile_RCP Plain_Compile_RSQ Plain_Compile_MOVA Plain_Compile_MOV Plain_Compile_CMP Plain_Compile_MAD Plain_Compile_JMP Plain_Compile_NOP Plain_Compile_END : plain.

(** The entries of the dispatch table keep the invariant. *)
Lemma Sound_instr_table len f h vs block :
  (forall e, Sound len f (block e)) ->
  Forall (fun o => match o with
                   | Some g => forall instr, Sound len f (g instr)
                   | None => True
                   end) (instr_table h vs block).
Proof.
  intros Hb. unfold instr_table.
  repeat (apply Forall_cons; [try exact I; intros instr|]); try apply Forall_nil.
  all: try (apply Sound_Plain; solve [auto with plain]).
  - apply Sound_Compile_CALLC.
  - apply Sound_Compile_CALLU.
  - now apply Sound_Compile_IF.
  - now apply Sound_Compile_IF.
  - now apply Sound_Compile_LOOP.
Qed.

Lemma Inv_NextInstr_entry len s :
  program_counter s < len -> Inv len s (NextInstr_entry s).
Proof.
  intros P. unfold Inv, NextInstr_entry. cbn [program_counter label_id code].
  set (pc := program_counter s). set (l := label_id s).
  split; [lia|]. split; [lia|].
  destruct (binary_search (return_offsets s) pc).
  - split; [lia|]. eexists. split; [reflexivity|]. split.
    + unfold Bound. cbn. split; [|split].
      * constructor; [intros [H|[]]; discriminate H|].
        constructor; [intros []|constructor].
      * intros q. split.
        -- intros [H|[H|[]]]; [discriminate H|]. injection H as <-. lia.
        -- intros H. right. left. f_equal. lia.
      * intros id [H|[H|[]]]; [|discriminate H]. injection H as <-. lia.
    + intros id. cbn. intros [<-|[]]. now left.
  - split; [lia|]. eexists. split; [reflexivity|]. split.
    + unfold Bound. cbn. split; [|split].
      * constructor; [intros []|constructor].
      * intros q. split.
        -- intros [H|[]]. injection H as <-. lia.
        -- intros H. left. f_equal. lia.
      * intros id [H|[]]. discriminate H.
    + intros id [].
Qed.

(** [Compile_NextInstr] compiles one instruction of the program and moves
    past it. *)
Lemma Sound_Compile_NextInstr f h vs block :
  let len := Z.of_nat (List.length (program_code vs)) in
  (forall e, Sound len f (block e)) ->
  (forall s, (remaining len s < S f)%nat -> Compile_NextInstr h vs block s <> OutOfFuel)
  /\ (forall s x s', Compile_NextInstr h vs block s = Done (x, s') ->
        Inv len s s' /\ 0 <= program_counter s < len
        /\ program_counter s < program_counter s').
Proof.
  intros len Hb.
  pose proof (Sound_instr_table len f h vs block Hb) as T.
  rewrite Forall_forall in T.
  assert (G : forall instr,
             Sound len f
               (match nth (Z.to_nat (opcode instr)) (instr_table h vs block) None with
                | Some g => g instr
                | None => LOG_CRITICAL
                            (Unhandled_instruction
                               (OpCode.EffectiveOpCode (opcode instr)) instr)
                end)).
  { intros instr.
    destruct (nth_in_or_default (Z.to_nat (opcode instr)) (instr_table h vs block) None)
      as [I|D].
    - specialize (T _ I). destruct (nth _ _ _); [apply T|].
      split; [discriminate|]. intros s x s' E. injection E as <- <-.
      now apply Inv_same.
    - rewrite D. split; [discriminate|]. intros s x s' E. injection E as <- <-.
      now apply Inv_same. }
  clear T. split; intros s.
  - rewrite Compile_NextInstr_unfolded. unfold dispatch. unfold bind at 1.
    unfold GetVertexShaderInstruction.
    intros R. destruct (program_counter s <? 0) eqn:N; [discriminate|].
    destruct (nth_error _ _) as [instr|] eqn:E; [|discriminate].
    apply (proj1 (G instr)). apply Z.ltb_ge in N.
    assert (Z.to_nat (program_counter s) < List.length (program_code vs))%nat
      by (apply nth_error_Some; rewrite E; discriminate).
    unfold remaining in *. unfold NextInstr_entry. cbn [program_counter]. lia.
  - intros x s'. rewrite Compile_NextInstr_unfolded. unfold dispatch. unfold bind at 1.
    unfold GetVertexShaderInstruction.
    destruct (program_counter s <? 0) eqn:N; [discriminate|].
    destruct (nth_error _ _) as [instr|] eqn:E; [|discriminate].
    intros D. apply Z.ltb_ge in N.
    assert (Z.to_nat (program_counter s) < List.length (program_code vs))%nat
      by (apply nth_error_Some; rewrite E; discriminate).
    assert (P : program_counter s < len) by (unfold len; lia).
    pose proof (proj2 (G instr) _ _ _ D) as I2.
    pose proof (Inv_NextInstr_entry len s P) as I1.
    split; [exact (Inv_trans _ _ _ _ I1 I2)|]. split; [lia|].
    destruct I2 as (Q & _). unfold NextInstr_entry in Q. cbn [program_counter] in Q. lia.
Qed.

(** [Compile_Block] keeps the invariant, stops at or after its end and
    does not run out of fuel when it has more fuel than instructions
    remain. *)
Lemma Sound_Compile_Block h vs fuel :
  let len := Z.of_nat (List.length (program_code vs)) in
  forall e, Sound len fuel (Compile_Block h vs fuel e).
Proof.
  intros len. induction fuel as [|f IH]; intros e.
  - split.
    + intros s R. lia.
    + intros s x s' E. cbn in E. destruct (program_counter s <? e); [discriminate|].
      injection E as <- <-. now apply Inv_same.
  - pose proof (Sound_Compile_NextInstr f h vs (Compile_Block h vs f) IH) as [O N].
    fold len in O, N. split.
    + intros s R. cbn [Compile_Block]. destruct (program_counter s <? e); [|discriminate].
      unfold bind. specialize (O s R).
      destruct (Compile_NextInstr _ _ _ s) as [[[] s1]| | |] eqn:E;
        try discriminate; [|contradiction].
      destruct (N _ _ _ E) as (_ & Q1 & Q2).
      apply (proj1 (IH e)). unfold remaining in *. lia.
    + intros s x s' E. cbn [Compile_Block] in E.
      destruct (program_counter s <? e); [|injection E as <- <-; now apply Inv_same].
      unfold bind in E.
      destruct (Compile_NextInstr _ _ _ s) as [[[] s1]| | |] eqn:E1; try discriminate.
      destruct (N _ _ _ E1) as (I1 & _).
      exact (Inv_trans _ _ _ _ I1 (proj2 (IH e) _ _ _ E)).
Qed.

Lemma Compile_Block_reaches_end h vs fuel e s s' :
  Compile_Block h vs fuel e s = Done (tt, s') -> e <= program_counter s'.
Proof.
  revert s. induction fuel as [|f IH]; intros s E; cbn [Compile_Block] in E.
  - destruct (program_counter s <? e) eqn:C; [discriminate|].
    injection E as <-. now apply Z.ltb_ge.
  - destruct (program_counter s <? e) eqn:C.
    + unfold bind in E.
      destruct (Compile_NextInstr _ _ _ s) as [[[] s1]| | |]; try discriminate.
      exact (IH _ E).
    + injection E as <-. now apply Z.ltb_ge.
Qed.


Lemma Compile_finish_result h program s s' :
  Compile_finish h program s = Done (tt, s') ->
  code s' = code s /\ program_counter s' = program_counter s
  /\ label_id s' = label_id s.
Proof.
  unfold Compile_finish, bind, set_return_offsets, get_code, ASSERT_MSG. cbn.
  destruct (_ <=? _); [|discriminate]. intros E. injection E as <-. auto.
Qed.

Lemma Compile_finish_fuel h program s : Compile_finish h program s <> OutOfFuel.
Proof.
  unfold Compile_finish, bind, set_return_offsets, get_code, ASSERT_MSG. cbn.
  destruct (_ <=? _); discriminate.
Qed.

(** X11.  When [Compile] returns, the code it has appended is the entry
    sequence followed by a body in which no label is bound twice, the
    labels of the instructions bound are exactly those of the offsets of
    the program, every local label bound was allocated by this call, and
    every local label that a jump or call refers to is bound.  The program
    counter is at the end of the program. *)
Theorem Compile_binds_each_label_once h vs fuel s s' :
  Compile h vs fuel s = Done (tt, s') ->
  program_counter s' = Z.of_nat (List.length (program_code vs))
  /\ exists body,
       code s' = code s ++ prologue h ++ body
       /\ NoDup (labels_of body)
       /\ (forall q, In (instruction_labels q) (labels_of body)
                     <-> 0 <= q < Z.of_nat (List.length (program_code vs)))
       /\ (forall id, In (local_label id) (labels_of body) ->
                      (label_id s <= id < label_id s')%nat)
       /\ (forall id, In id (local_targets body) -> In (local_label id) (labels_of body)).
Proof.
  rewrite Compile_unfolded. unfold bind at 1.
  set (len := Z.of_nat (List.length (program_code vs))).
  destruct (Compile_Block h vs fuel len (Compile_entry h vs s)) as [[[] s1]| | |] eqn:B;
    try discriminate.
  intros F. destruct (Compile_finish_result _ _ _ _ F) as (C & P & Lb).
  pose proof (Compile_Block_reaches_end _ _ _ _ _ _ B) as R.
  destruct (proj2 (Sound_Compile_Block h vs fuel len) _ _ _ B)
    as (P1 & Q1 & L1 & body & C1 & (N & I & Lc) & K).
  cbn [Compile_entry program_counter label_id code] in P1, Q1, L1, C1, I, Lc.
  fold len in Q1. assert (E : program_counter s1 = len) by lia.
  split; [lia|]. exists body. rewrite C, C1, Lb, <- app_assoc.
  split; [reflexivity|]. split; [exact N|]. split; [|split; [exact Lc | exact K]].
  intros q. rewrite I, E. reflexivity.
Qed.

Lemma Compile_binds_each_label_once_witness :
  match Compile example_host flow_setup 9 JitShader_new with
  | Done (_, s') =>
      program_counter s' = 9
      /\ exists body,
           code s' = prologue example_host ++ body
           /\ NoDup (labels_of body)
           /\ (forall q, In (instruction_labels q) (labels_of body) <-> 0 <= q < 9)
           /\ (forall id, In (local_label id) (labels_of body) -> (0 <= id < label_id s')%nat)
           /\ (forall id, In id (local_targets body) ->
                          In (local_label id) (labels_of body))
  | _ => False
  end.
Proof.
  pose proof (Compile_binds_each_label_once example_host flow_setup 9 JitShader_new) as T.
  destruct (Compile example_host flow_setup 9 JitShader_new) as [[[] s']| | |] eqn:E;
    try (vm_compute in E; discriminate E).
  exact (T s' eq_refl).
Defined.

(** X12.  When [Compile_Block] returns, the program counter has reached
    the end of the block and has not gone back; when the block was not
    empty, the program counter was inside the program and has not passed
    the end of the program.  So a block whose end lies after the end of
    the program does not compile. *)
Theorem Compile_Block_stays_within_the_program h vs fuel e s s' :
  Compile_Block h vs fuel e s = Done (tt, s') ->
  e <= program_counter s'
  /\ program_counter s <= program_counter s'
  /\ (program_counter s < e ->
      0 <= program_counter s
      /\ program_counter s' <= Z.of_nat (List.length (program_code vs))).
Proof.
  intros B. pose proof (Compile_Block_reaches_end _ _ _ _ _ _ B) as R.
  destruct (proj2 (Sound_Compile_Block h vs fuel e) _ _ _ B) as (P1 & Q1 & _).
  split; [exact R|]. split; [exact P1|]. intros Lt.
  destruct fuel as [|f]; cbn [Compile_Block] in B;
    apply Z.ltb_lt in Lt; rewrite Lt in B; [discriminate|].
  unfold bind in B.
  destruct (Compile_NextInstr _ _ _ s) as [[[] s1]| | |] eqn:E1; try discriminate.
  destruct (proj2 (Sound_Compile_NextInstr f h vs (Compile_Block h vs f)
                     (Sound_Compile_Block h vs f)) _ _ _ E1) as (_ & Q2 & _).
  lia.
Qed.

Lemma Compile_Block_stays_within_the_program_witness :
  match Compile_Block example_host flow_setup 3 1 JitShader_new with
  | Done (_, s') =>
      1 <= program_counter s' /\ 0 <= program_counter s'
      /\ (0 < 1 -> 0 <= 0 /\ program_counter s' <= 9)
  | _ => False
  end.
Proof.
  pose proof (Compile_Block_stays_within_the_program example_host flow_setup 3 1
                JitShader_new) as T.
  destruct (Compile_Block example_host flow_setup 3 1 JitShader_new)
    as [[[] s']| | |] eqn:E; try (vm_compute in E; discriminate E).
  exact (T s' eq_refl).
Defined.

(** X13.  [Compile_NextInstr] moves the program counter forward by at
    least one instruction, so the nesting of [Compile_Block] and
    [Compile_NextInstr] is at most as deep as instructions remain: with
    more fuel than that, [Compile_Block] and [Compile] do not run out of
    fuel. *)
Theorem Compile_terminates h vs fuel :
  let len := Z.of_nat (List.length (program_code vs)) in
  (forall s s', Compile_NextInstr h vs (Compile_Block h vs fuel) s = Done (tt, s') ->
                program_counter s < program_counter s')
  /\ (forall e s, (Z.to_nat (len - program_counter s) < fuel)%nat ->
                  Compile_Block h vs fuel e s <> OutOfFuel)
  /\ (forall s, (List.length (program_code vs) < fuel)%nat ->
                Compile h vs fuel s <> OutOfFuel).
Proof.
  intros len. split; [|split].
  - intros s s' E.
    apply (proj2 (Sound_Compile_NextInstr fuel h vs (Compile_Block h vs fuel)
                    (Sound_Compile_Block h vs fuel)) _ _ _ E).
  - intros e s R. exact (proj1 (Sound_Compile_Block h vs fuel e) s R).
  - intros s R. rewrite Compile_unfolded. unfold bind at 1.
    pose proof (proj1 (Sound_Compile_Block h vs fuel len) (Compile_entry h vs s)) as O.
    fold len.
    destruct (Compile_Block h vs fuel len (Compile_entry h vs s)) as [[[] s1]| | |];
      try discriminate.
    + apply Compile_finish_fuel.
    + apply O. unfold remaining, len. cbn [Compile_entry program_counter]. lia.
Qed.

Lemma Compile_terminates_witness :
  match Compile_NextInstr example_host flow_setup
          (Compile_Block example_host flow_setup 10) JitShader_new with
  | Done (_, s') => 0 < program_counter s'
  | _ => False
  end
  /\ Compile_Block example_host flow_setup 9 5 at_offset_1 <> OutOfFuel
  /\ Compile example_host flow_setup 10 JitShader_new <> OutOfFuel.
Proof.
  destruct (Compile_terminates example_host flow_setup 10) as (N & _ & C).
  destruct (Compile_terminates example_host flow_setup 9) as (_ & B & _).
  split; [|split].
  - specialize (N JitShader_new).
    destruct (Compile_NextInstr _ _ _ JitShader_new) as [[[] s']| | |] eqn:E;
      try (vm_compute in E; discriminate E).
    exact (N s' eq_refl).
  - apply B. vm_compute. lia.
  - apply C. vm_compute. lia.
Defined.

